(** * s21::list — a shallow embedding of [s21_list.h] and its properties

    The list of [src/s21_containers/list/s21_list.h] is a ring of heap
    nodes anchored by a sentinel.  Nodes live in a store indexed by
    addresses, list objects ([head_], [size_]) live in a second store, and
    every method is a computation in a state-and-fault monad over the two
    stores.  Loops are run by a fuelled [while]; running out of fuel is a
    fault of its own, distinct from undefined behaviour. *)

From stdpp Require Import gmap list sorting.
From Stdlib Require Import ZArith Lia.

Local Open Scope Z_scope.
Set Warnings "-clear-no-such-hyp".

(** ** Element types *)

(** What the template parameter [Type] has to offer: a value-initialised
    element [Type{}], [operator<] and [operator==]. *)
Class Elem (T : Type) := {
  elem_default : T;
  elem_lt : T → T → bool;
  elem_eq : T → T → bool;
}.

(** The comparison operators of a well-behaved element type: [==] decides
    equality and [<] is a strict total order. *)
Class ElemLaws (T : Type) `{Elem T} : Prop := {
  elem_eq_spec : ∀ a b : T, elem_eq a b = true ↔ a = b;
  elem_lt_irrefl : ∀ a : T, elem_lt a a = false;
  elem_lt_trans : ∀ a b c : T, elem_lt a b = true → elem_lt b c = true → elem_lt a c = true;
  elem_lt_total : ∀ a b : T, elem_lt a b = false → elem_lt b a = false → a = b;
}.

(** What [merge] and [sort] need of [operator<]: a strict weak order.  It
    is irreflexive and transitive, and being unordered (neither element
    less than the other) is transitive, so that elements may be tied
    without being the same value. *)
Class StrictWeakOrder (T : Type) `{Elem T} : Prop := {
  lt_irrefl : ∀ a : T, elem_lt a a = false;
  lt_trans : ∀ a b c : T, elem_lt a b = true → elem_lt b c = true → elem_lt a c = true;
  lt_unordered_trans : ∀ a b c : T,
    elem_lt a b = false → elem_lt b a = false →
    elem_lt b c = false → elem_lt c b = false →
    elem_lt a c = false;
}.

(** What [sort] needs of [operator==] besides: it holds only between
    elements that [<] leaves unordered.  It need neither be reflexive nor
    hold between all tied elements. *)
Class EqWithinOrder (T : Type) `{Elem T} : Prop :=
  eq_unordered : ∀ a b : T, elem_eq a b = true → elem_lt a b = false ∧ elem_lt b a = false.

#[global] Instance Z_Elem : Elem Z :=
  {| elem_default := 0; elem_lt := Z.ltb; elem_eq := Z.eqb |}.

(** ** [std::size_t] *)

Definition SIZE_MAX : Z := 2 ^ 64 - 1.

(** Unsigned 64-bit wrap-around of [++], [--], [+=] and [-] on [size_type]. *)
Definition wrap (z : Z) : Z := z mod 2 ^ 64.

(** ** The stores *)

Section Model.
Context {T : Type} `{Elem T}.

(** [struct ListNode]: a null pointer is the address [0]. *)
Record ListNode := mkNode { next_ : Z; prev_ : Z; value_ : T }.

(** The data members of [class list]. *)
Record s21_list := mkList { head_ : Z; size_ : Z }.

Record state := mkState {
  nodes : gmap Z ListNode;   (* the heap of nodes *)
  objs : gmap Z s21_list;    (* the list objects, by address *)
}.

Inductive fault := Undefined | BadAlloc | OutOfFuel.

Inductive result (A : Type) :=
| Ret (a : A) (s : state)
| Fault (f : fault).
Arguments Ret {A} a s.
Arguments Fault {A} f.

Definition M (A : Type) : Type := state → result A.

#[global] Instance M_ret : MRet M := λ A a s, Ret a s.
#[global] Instance M_bind : MBind M := λ A B f m s,
  match m s with
  | Ret a s' => f a s'
  | Fault e => Fault e
  end.

Definition fail {A} (f : fault) : M A := λ _, Fault f.

(** A fuelled [while (cond) body]: the loop variables are threaded as [v]. *)
Fixpoint while {V : Type} (fuel : nat) (cond : V → M bool) (body : V → M V) (v : V) : M V :=
  match fuel with
  | O => fail OutOfFuel
  | S fuel' =>
      b ← cond v;
      if b : bool then v' ← body v; while fuel' cond body v' else mret v
  end.

(** *** Node memory *)

Definition load (a : Z) : M ListNode := λ s,
  match nodes s !! a with
  | Some n => Ret n s
  | None => Fault Undefined
  end.

Definition store (a : Z) (n : ListNode) : M unit := λ s,
  Ret tt (mkState (<[a := n]> (nodes s)) (objs s)).

Definition get_next (a : Z) : M Z := n ← load a; mret (next_ n).
Definition get_prev (a : Z) : M Z := n ← load a; mret (prev_ n).
Definition get_value (a : Z) : M T := n ← load a; mret (value_ n).
Definition set_next (a v : Z) : M unit :=
  n ← load a; store a (mkNode v (prev_ n) (value_ n)).
Definition set_prev (a v : Z) : M unit :=
  n ← load a; store a (mkNode (next_ n) v (value_ n)).
Definition set_value (a : Z) (v : T) : M unit :=
  n ← load a; store a (mkNode (next_ n) (prev_ n) v).

(** The allocator hands out the first free address of the 64-bit address
    space, never the null address; none left is [std::bad_alloc]. *)
Definition fresh_addr {A} (m : gmap Z A) : option Z :=
  match list_find (λ a, m !! a = None) (seqZ 1 (Z.of_nat (size m) + 1)) with
  | Some (_, a) => if decide (a < 2 ^ 64) then Some a else None
  | None => None
  end.

(** [new node_type(value)]: links start out null. *)
Definition new_node (v : T) : M Z := λ s,
  match fresh_addr (nodes s) with
  | Some a => Ret a (mkState (<[a := mkNode 0 0 v]> (nodes s)) (objs s))
  | None => Fault BadAlloc
  end.

(** [new node_type{}]: the default constructor makes a self-loop. *)
Definition new_sentinel : M Z := λ s,
  match fresh_addr (nodes s) with
  | Some a => Ret a (mkState (<[a := mkNode a a elem_default]> (nodes s)) (objs s))
  | None => Fault BadAlloc
  end.

Definition delete_node (a : Z) : M unit := λ s,
  match nodes s !! a with
  | Some _ => Ret tt (mkState (delete a (nodes s)) (objs s))
  | None => Fault Undefined
  end.

(** *** List objects *)

Definition load_obj (this : Z) : M s21_list := λ s,
  match objs s !! this with
  | Some l => Ret l s
  | None => Fault Undefined
  end.

Definition store_obj (this : Z) (l : s21_list) : M unit := λ s,
  Ret tt (mkState (nodes s) (<[this := l]> (objs s))).

Definition get_head (this : Z) : M Z := l ← load_obj this; mret (head_ l).
Definition get_size (this : Z) : M Z := l ← load_obj this; mret (size_ l).
Definition set_size (this : Z) (z : Z) : M unit :=
  l ← load_obj this; store_obj this (mkList (head_ l) z).
Definition set_head (this : Z) (a : Z) : M unit :=
  l ← load_obj this; store_obj this (mkList a (size_ l)).

(** Storage for a local list object, and its release at scope exit. *)
Definition alloca_obj : M Z := λ s,
  match fresh_addr (objs s) with
  | Some a => Ret a (mkState (nodes s) (<[a := mkList 0 0]> (objs s)))
  | None => Fault BadAlloc
  end.

Definition release_obj (this : Z) : M unit := λ s,
  match objs s !! this with
  | Some _ => Ret tt (mkState (nodes s) (delete this (objs s)))
  | None => Fault Undefined
  end.

(** ** Reading a list back: the values met walking [next_] from [begin()]
    until [end()]. *)
Fixpoint collect (fuel : nat) (hd it : Z) (s : state) : option (list T) :=
  match fuel with
  | O => None
  | S fuel' =>
      if decide (it = hd) then Some []
      else n ← nodes s !! it; (value_ n ::.) <$> collect fuel' hd (next_ n) s
  end.

Definition contents (fuel : nat) (this : Z) (s : state) : option (list T) :=
  l ← objs s !! this;
  n ← nodes s !! head_ l;
  collect fuel (head_ l) (next_ n) s.

End Model.

Arguments ListNode T : clear implicits.
Arguments state T : clear implicits.
Arguments result T A : clear implicits.
Arguments M T A : clear implicits.
Arguments Ret {T A} a s.
Arguments Fault {T A} f.

(** ** The methods, in the namespace of the source *)

Module s21.
Section Methods.
Context {T : Type} `{Elem T}.
Local Abbreviation M := (M T).

(** ** [ListNode] methods *)

Definition AttachPrev (this new_node : Z) : M unit :=
  set_next new_node this;;
  p ← get_prev this; set_prev new_node p;;
  p ← get_prev this; set_next p new_node;;
  set_prev this new_node.

Definition UnAttach (this : Z) : M unit :=
  p ← get_prev this; n ← get_next this; set_next p n;;
  n ← get_next this; p ← get_prev this; set_prev n p;;
  set_next this this;;
  set_prev this this.

Definition SwapValues (this other_node : Z) : M unit :=
  a ← get_value this;
  b ← get_value other_node;
  set_value this b;;
  set_value other_node a.

Definition SwapNextPrev (this : Z) : M unit :=
  n ← get_next this;
  p ← get_prev this;
  set_next this p;;
  set_prev this n.

(** ** [list] methods.  An iterator is the address of its node. *)

(** [list() : head_(new node_type{}), size_(0U)], on storage [this]. *)
Definition list_ctor (this : Z) : M unit :=
  hd ← new_sentinel;
  store_obj this (mkList hd 0).

Definition begin (this : Z) : M Z := hd ← get_head this; get_next hd.
Definition end_ (this : Z) : M Z := get_head this.
Definition empty (this : Z) : M bool := sz ← get_size this; mret (sz =? 0).
Definition size (this : Z) : M Z := get_size this.
Definition max_size (this : Z) : M Z := mret SIZE_MAX.

Definition insert (this pos : Z) (value : T) : M Z :=
  new_node ← new_node value;
  AttachPrev pos new_node;;
  sz ← get_size this; set_size this (wrap (sz + 1));;
  mret new_node.

Definition erase (this pos : Z) : M unit :=
  e ← end_ this;
  if decide (pos ≠ e) then
    UnAttach pos;;
    delete_node pos;;
    sz ← get_size this; set_size this (wrap (sz - 1))
  else mret tt.

Definition front (this : Z) : M T := b ← begin this; get_value b.
Definition back (this : Z) : M T := e ← end_ this; p ← get_prev e; get_value p.

Definition push_back (this : Z) (value : T) : M unit :=
  e ← end_ this; insert this e value;; mret tt.
Definition pop_back (this : Z) : M unit :=
  e ← end_ this; it ← get_prev e; erase this it.
Definition push_front (this : Z) (value : T) : M unit :=
  b ← begin this; insert this b value;; mret tt.
Definition pop_front (this : Z) : M unit :=
  b ← begin this; erase this b.

(** [while (size_ > 0) erase(begin());] *)
Definition clear (fuel : nat) (this : Z) : M unit :=
  while fuel
    (λ _ : unit, sz ← get_size this; mret (0 <? sz))
    (λ _, b ← begin this; erase this b) tt.

(** [~list()]: clear, free the sentinel, null the pointer. *)
Definition list_dtor (fuel : nat) (this : Z) : M unit :=
  clear fuel this;;
  hd ← get_head this; delete_node hd;;
  set_head this 0.

Definition splice (this pos other : Z) : M unit :=
  e ← empty other;
  if negb e then
    let it_current := pos in
    it_other ← end_ other;
    (* it_other.node_->next_->prev_ = it_current.node_->prev_; *)
    n ← get_next it_other; p ← get_prev it_current; set_prev n p;;
    (* it_other.node_->prev_->next_ = it_current.node_; *)
    p ← get_prev it_other; set_next p it_current;;
    (* it_current.node_->prev_->next_ = it_other.node_->next_; *)
    p ← get_prev it_current; n ← get_next it_other; set_next p n;;
    (* it_current.node_->prev_ = it_other.node_->prev_; *)
    p ← get_prev it_other; set_prev it_current p;;
    (* size_ += other.size(); other.size_ = 0; *)
    sz ← get_size this; osz ← size other; set_size this (wrap (sz + osz));;
    set_size other 0;;
    (* other.head_->next_ = other.head_; other.head_->prev_ = other.head_; *)
    oh ← get_head other; oh' ← get_head other; set_next oh oh';;
    oh ← get_head other; oh' ← get_head other; set_prev oh oh'
  else mret tt.

(** The body of the loop of [merge]; variables [(this_begin, other_begin)]. *)
Definition merge_step (this other : Z) (v : Z * Z) : M (Z * Z) :=
  let '(this_begin, other_begin) := v in
  a ← get_value other_begin;
  b ← get_value this_begin;
  if elem_lt a b then
    let tmp := other_begin in
    other_begin ← get_next other_begin;
    UnAttach tmp;;
    osz ← get_size other; set_size other (wrap (osz - 1));;
    AttachPrev this_begin tmp;;
    sz ← get_size this; set_size this (wrap (sz + 1));;
    mret (this_begin, other_begin)
  else
    this_begin ← get_next this_begin;
    mret (this_begin, other_begin).

Definition merge (fuel : nat) (this other : Z) : M unit :=
  if decide (this ≠ other) then
    this_begin ← begin this;
    this_end ← end_ this;
    other_begin ← begin other;
    other_end ← end_ other;
    while fuel
      (λ '(this_begin, other_begin),
         mret (bool_decide (this_begin ≠ this_end) && bool_decide (other_begin ≠ other_end)))
      (merge_step this other)
      (this_begin, other_begin);;
    e ← end_ this;
    splice this e other
  else mret tt.

Definition reverse (fuel : nat) (this : Z) : M unit :=
  begin_iterator ← begin this;
  end_iterator ← end_ this;
  while fuel
    (λ begin_iterator, mret (bool_decide (begin_iterator ≠ end_iterator)))
    (λ begin_iterator, SwapNextPrev begin_iterator;; get_prev begin_iterator)
    begin_iterator;;
  hd ← get_head this;
  SwapNextPrev hd.

(** The body of the [for] loop of [unique]; the second loop variable
    records the [return] taken when [it_next.node_ == nullptr]. *)
Definition unique_step (this : Z) (v : Z * bool) : M (Z * bool) :=
  let '(it_last, _) := v in
  it_next ← get_next it_last;
  if decide (it_next = 0) then mret (it_last, true)
  else
    a ← get_value it_last;
    b ← get_value it_next;
    if elem_eq a b then erase this it_next;; mret (it_last, false)
    else it_last ← get_next it_last; mret (it_last, false).

Definition unique (fuel : nat) (this : Z) : M unit :=
  e ← empty this;
  if negb e then
    it_last ← begin this;
    while fuel
      (λ '(it_last, returned),
         if returned : bool then mret false
         else e ← end_ this; mret (bool_decide (it_last ≠ e)))
      (unique_step this)
      (it_last, false);;
    mret tt
  else mret tt.

(** The pivot walk of [quick_sort]: from the node before [left], step
    forward while [iShift < list_size / 2]; variables [(pivot_it, iShift)]. *)
Definition pivot_step (v : Z * Z) : M (Z * Z) :=
  let '(pivot_it, iShift) := v in
  pivot_it ← get_next pivot_it;
  mret (pivot_it, wrap (iShift + 1)).

Definition pivot_walk (fuel : nat) (left : Z) (list_size : Z) : M Z :=
  pivot_it ← get_prev left;
  '(pivot_it, _) ← while fuel
    (λ '(pivot_it, iShift), mret (iShift <? list_size / 2))
    pivot_step
    (pivot_it, 0);
  mret pivot_it.

(** The three-way partition loop; variables
    [(swap_it, tmp_left, tmp_right, iShift)]. *)
Definition partition_step (pivot : T) (v : Z * Z * Z * Z) : M (Z * Z * Z * Z) :=
  let '(swap_it, tmp_left, tmp_right, iShift) := v in
  x ← get_value tmp_left;
  if elem_lt x pivot then
    swap_it ← get_next swap_it;
    let iShift := wrap (iShift + 1) in
    SwapValues tmp_left swap_it;;
    tmp_left ← get_next tmp_left;
    mret (swap_it, tmp_left, tmp_right, iShift)
  else if elem_eq x pivot then
    tmp_right ← get_prev tmp_right;
    SwapValues tmp_left tmp_right;;
    mret (swap_it, tmp_left, tmp_right, iShift)
  else
    tmp_left ← get_next tmp_left;
    mret (swap_it, tmp_left, tmp_right, iShift).

Definition partition_loop (fuel : nat) (pivot : T) (v : Z * Z * Z * Z) : M (Z * Z * Z * Z) :=
  while fuel
    (λ '(swap_it, tmp_left, tmp_right, iShift), mret (bool_decide (tmp_left ≠ tmp_right)))
    (partition_step pivot)
    v.

(** The loop that brings the band of pivot copies next to the "less"
    band; variables [(swap_it, tmp_right, next_step_right_size)]. *)
Definition gather_step (v : Z * Z * Z) : M (Z * Z * Z) :=
  let '(swap_it, tmp_right, next_step_right_size) := v in
  SwapValues swap_it tmp_right;;
  swap_it ← get_next swap_it;
  tmp_right ← get_next tmp_right;
  mret (swap_it, tmp_right, wrap (next_step_right_size - 1)).

Definition gather_loop (fuel : nat) (right : Z) (v : Z * Z * Z) : M (Z * Z * Z) :=
  while fuel
    (λ '(swap_it, tmp_right, next_step_right_size), mret (bool_decide (tmp_right ≠ right)))
    gather_step
    v.

Fixpoint quick_sort (fuel : nat) (left right : Z) (list_size : Z) : M unit :=
  match fuel with
  | O => fail OutOfFuel
  | S fuel' =>
      if bool_decide (left ≠ right) && (1 <? list_size) then
        let tmp_left := left in
        let tmp_right := right in
        swap_it ← get_prev left;
        pivot_it ← pivot_walk fuel' left list_size;
        pivot ← get_value pivot_it;
        SwapValues pivot_it right;;
        '(swap_it, tmp_left, tmp_right, iShift) ←
          partition_loop fuel' pivot (swap_it, tmp_left, tmp_right, 0);
        let next_step_left := swap_it in
        let next_step_left_size := iShift in
        let next_step_right_size := wrap (list_size - iShift - 1) in
        swap_it ← get_next swap_it;
        '(swap_it, tmp_right, next_step_right_size) ←
          gather_loop fuel' right (swap_it, tmp_right, next_step_right_size);
        SwapValues swap_it right;;
        swap_it ← get_next swap_it;
        let next_step_right := swap_it in
        quick_sort fuel' left next_step_left next_step_left_size;;
        quick_sort fuel' next_step_right right next_step_right_size
      else mret tt
  end.

Definition sort (fuel : nat) (this : Z) : M unit :=
  b ← begin this;
  e ← end_ this;
  r ← get_prev e;
  sz ← get_size this;
  quick_sort fuel b r sz.

(** [(tempList.push_front(args), ...)]: a comma fold, left to right. *)
Fixpoint push_front_each (this : Z) (args : list T) : M unit :=
  match args with
  | [] => mret tt
  | a :: args' => push_front this a;; push_front_each this args'
  end.

Definition insert_many_front (fuel : nat) (this : Z) (args : list T) : M unit :=
  tempList ← alloca_obj;
  list_ctor tempList;;
  push_front_each tempList args;;
  b ← begin this;
  splice this b tempList;;
  list_dtor fuel tempList;;
  release_obj tempList.

(** *** Constructors and assignment *)

(** [explicit list(size_type n)]: [while (n > 0) { push_back(value_type{}); --n; }] *)
Definition list_n (fuel : nat) (this : Z) (n : Z) : M unit :=
  list_ctor this;;
  while fuel
    (λ n, mret (0 <? n))
    (λ n, push_back this elem_default;; mret (wrap (n - 1)))
    n;;
  mret tt.

(** [list(std::initializer_list<value_type> const &items)]:
    [for (auto item : items) push_back(item);] *)
Fixpoint push_back_items (this : Z) (items : list T) : M unit :=
  match items with
  | [] => mret tt
  | item :: items' => push_back this item;; push_back_items this items'
  end.

Definition list_items (this : Z) (items : list T) : M unit :=
  list_ctor this;; push_back_items this items.

(** [list(const list &other)]: the range-[for] takes [other.begin()] and
    [other.end()] once and steps a [const_iterator]. *)
Definition list_copy (fuel : nat) (this other : Z) : M unit :=
  list_ctor this;;
  it ← begin other;
  e ← end_ other;
  while fuel
    (λ it, mret (bool_decide (it ≠ e)))
    (λ it, list_element ← get_value it; push_back this list_element;; get_next it)
    it;;
  mret tt.

(** [list(list &&other)] *)
Definition list_move (this other : Z) : M unit :=
  list_ctor this;;
  b ← begin this;
  splice this b other.

(** [operator=(const list &other)]; the three loops in turn. *)
Definition copy_assign (fuel : nat) (this other : Z) : M unit :=
  if decide (this ≠ other) then
    this_begin ← begin this;
    this_end ← end_ this;
    other_begin ← begin other;
    other_end ← end_ other;
    '(this_begin, other_begin) ← while fuel
      (λ '(this_begin, other_begin),
         mret (bool_decide (this_begin ≠ this_end) && bool_decide (other_begin ≠ other_end)))
      (λ '(this_begin, other_begin),
         x ← get_value other_begin; set_value this_begin x;;
         this_begin ← get_next this_begin;
         other_begin ← get_next other_begin;
         mret (this_begin, other_begin))
      (this_begin, other_begin);
    while fuel
      (λ this_begin, mret (bool_decide (this_begin ≠ this_end)))
      (λ this_begin,
         let tmp := this_begin in
         this_begin ← get_next this_begin;
         erase this tmp;;
         mret this_begin)
      this_begin;;
    while fuel
      (λ other_begin, mret (bool_decide (other_begin ≠ other_end)))
      (λ other_begin, x ← get_value other_begin; push_back this x;; get_next other_begin)
      other_begin;;
    mret tt
  else mret tt.

(** [operator=(list &&other)] *)
Definition move_assign (fuel : nat) (this other : Z) : M unit :=
  if decide (this ≠ other) then
    clear fuel this;;
    b ← begin this;
    splice this b other
  else mret tt.

(** [swap(list &other)]: [std::swap] of the two heads and of the two sizes. *)
Definition swap (this other : Z) : M unit :=
  if decide (this ≠ other) then
    h ← get_head this; oh ← get_head other; set_head this oh;; set_head other h;;
    sz ← get_size this; osz ← get_size other; set_size this osz;; set_size other sz
  else mret tt.

(** *** [insert_many] and [insert_many_back] *)

(** The loop of [insert_many]; [new_node_ptr] is the local pointer
    [new_node], not initialised before the first iteration. *)
Fixpoint insert_many_loop (this it_current : Z) (new_node_ptr : option Z) (args : list T)
    : M (option Z) :=
  match args with
  | [] => mret new_node_ptr
  | item :: args' =>
      nn ← new_node item;
      AttachPrev it_current nn;;
      sz ← get_size this; set_size this (wrap (sz + 1));;
      insert_many_loop this it_current (Some nn) args'
  end.

Definition insert_many (this pos : Z) (args : list T) : M Z :=
  let it_current := pos in
  r ← insert_many_loop this it_current None args;
  match r with
  | Some new_node => mret new_node
  | None => fail Undefined
  end.

(** [(push_back(std::forward<Args>(args)), ...)] *)
Definition insert_many_back (this : Z) (args : list T) : M unit :=
  push_back_items this args.

End Methods.
End s21.

(** ** The adaptors [s21::queue] and [s21::stack] over [s21::list]

    Their only member is the list [container_], so an adaptor object is
    its list. *)

Module queue.
Section Methods.
Context {T : Type} `{Elem T}.
Local Abbreviation M := (M T).

Definition queue_ctor (this : Z) : M unit := s21.list_ctor this.
Definition queue_items (this : Z) (items : list T) : M unit := s21.list_items this items.
Definition front (this : Z) : M T := s21.front this.
Definition back (this : Z) : M T := s21.back this.
Definition empty (this : Z) : M bool := s21.empty this.
Definition size (this : Z) : M Z := s21.size this.
Definition push (this : Z) (value : T) : M unit := s21.push_back this value.
Definition pop (this : Z) : M unit := s21.pop_front this.
Definition insert_many_back (this : Z) (args : list T) : M unit :=
  s21.insert_many_back this args.

End Methods.
End queue.

Module stack.
Section Methods.
Context {T : Type} `{Elem T}.
Local Abbreviation M := (M T).

Definition stack_ctor (this : Z) : M unit := s21.list_ctor this.
Definition stack_items (this : Z) (items : list T) : M unit := s21.list_items this items.
Definition top (this : Z) : M T := s21.back this.
Definition empty (this : Z) : M bool := s21.empty this.
Definition size (this : Z) : M Z := s21.size this.
Definition push (this : Z) (value : T) : M unit := s21.push_back this value.
Definition pop (this : Z) : M unit := s21.pop_back this.
(** [insert_many_front] of the stack calls [insert_many_back] of the list. *)
Definition insert_many_front (this : Z) (args : list T) : M unit :=
  s21.insert_many_back this args.

End Methods.
End stack.

(** ** Callers: sequences of public operations on two lists *)

Section Callers.
Context {T : Type} `{Elem T}.
Local Abbreviation M := (M T).

(** [k] applications of [operator++] to an iterator. *)
Fixpoint advance (k : nat) (it : Z) : M Z :=
  match k with
  | O => mret it
  | S k' => it' ← get_next it; advance k' it'
  end.

(** A public operation of a list; a position is the iterator reached
    from [begin()] by [k] increments. *)
Inductive op :=
| OpInsert (k : nat) (x : T)
| OpErase (k : nat)
| OpPushBack (x : T)
| OpPopBack
| OpPushFront (x : T)
| OpPopFront
| OpSplice (k : nat)
| OpMerge
| OpReverse
| OpUnique
| OpSort.

(** [this.c(...)], with [other] the argument of [splice] and [merge]. *)
Definition run_op (fuel : nat) (this other : Z) (c : op) : M unit :=
  match c with
  | OpInsert k x =>
      b ← s21.begin this; pos ← advance k b; s21.insert this pos x;; mret tt
  | OpErase k => b ← s21.begin this; pos ← advance k b; s21.erase this pos
  | OpPushBack x => s21.push_back this x
  | OpPopBack => s21.pop_back this
  | OpPushFront x => s21.push_front this x
  | OpPopFront => s21.pop_front this
  | OpSplice k => b ← s21.begin this; pos ← advance k b; s21.splice this pos other
  | OpMerge => s21.merge fuel this other
  | OpReverse => s21.reverse fuel this
  | OpUnique => s21.unique fuel this
  | OpSort => s21.sort fuel this
  end.

(** A sequence of operations on the lists [a] and [b]; each names the list
    it is called on ([true] for [a]), the other one being its argument. *)
Fixpoint run_ops (fuel : nat) (a b : Z) (cs : list (bool * op)) : M unit :=
  match cs with
  | [] => mret tt
  | (on_a, c) :: cs' =>
      (if on_a : bool then run_op fuel a b c else run_op fuel b a c);;
      run_ops fuel a b cs'
  end.

(** *** The invariants, read off the state *)

(** The node reached from [a] by [k] steps along [next_]. *)
Fixpoint walk_next (k : nat) (a : Z) (s : state T) : option Z :=
  match k with
  | O => Some a
  | S k' => nd ← nodes s !! a; walk_next k' (next_ nd) s
  end.

Fixpoint walk_prev (k : nat) (a : Z) (s : state T) : option Z :=
  match k with
  | O => Some a
  | S k' => nd ← nodes s !! a; walk_prev k' (prev_ nd) s
  end.

(** I1: every node [a] of the ring has [a.next.prev == a] and
    [a.prev.next == a]. *)
Definition doubly_consistent (s : state T) (this : Z) : Prop :=
  ∃ l, objs s !! this = Some l ∧
    ∀ k a, walk_next k (head_ l) s = Some a →
      ∃ nd nx pv, nodes s !! a = Some nd ∧
        nodes s !! next_ nd = Some nx ∧ prev_ nx = a ∧
        nodes s !! prev_ nd = Some pv ∧ next_ pv = a.

(** I2 as the specification words it: walking [next_] from the sentinel
    exactly [size] steps returns to the sentinel. *)
Definition size_steps_return (s : state T) (this : Z) : Prop :=
  ∃ l, objs s !! this = Some l ∧
    walk_next (Z.to_nat (size_ l)) (head_ l) s = Some (head_ l).

(** I2 and I3 as the code has them: [size + 1] steps, in either
    direction, lead back to the sentinel, and no fewer do. *)
Definition size_matches_walk (s : state T) (this : Z) : Prop :=
  ∃ l, objs s !! this = Some l ∧ 0 ≤ size_ l ∧
    walk_next (S (Z.to_nat (size_ l))) (head_ l) s = Some (head_ l) ∧
    walk_prev (S (Z.to_nat (size_ l))) (head_ l) s = Some (head_ l) ∧
    ∀ k, (0 < k ≤ Z.to_nat (size_ l))%nat →
      walk_next k (head_ l) s ≠ Some (head_ l) ∧
      walk_prev k (head_ l) s ≠ Some (head_ l).

(** I4: [size == 0] iff the sentinel is linked to itself. *)
Definition empty_iff_self_loop (s : state T) (this : Z) : Prop :=
  ∃ l nd, objs s !! this = Some l ∧ nodes s !! head_ l = Some nd ∧
    (size_ l = 0 ↔ next_ nd = head_ l ∧ prev_ nd = head_ l).

End Callers.

(** ** Views: the heap read one field at a time *)

Section Logic.
Context {T : Type} `{Elem T}.

(** A state seen as three maps, one per field of [ListNode], and the
    store of list objects. *)
Record view := View {
  vn : gmap Z Z;
  vp : gmap Z Z;
  vv : gmap Z T;
  vo : gmap Z s21_list;
}.

Definition view_of (s : state T) : view :=
  View (next_ <$> nodes s) (prev_ <$> nodes s) (value_ <$> nodes s) (objs s).

(** [wp E m V Q]: run from any state whose view is [V], [m] returns with a
    result and view satisfying [Q], or stops on a fault that [E] tolerates. *)
Definition wp {A} (E : fault → Prop) (m : M T A) (V : view) (Q : A → view → Prop) : Prop :=
  ∀ s, view_of s = V →
    match m s with
    | Ret a s' => Q a (view_of s')
    | Fault f => E f
    end.

Definition no_fault : fault → Prop := λ _, False.

Lemma wp_ret {A} E (a : A) V (Q : A → view → Prop) : Q a V → wp E (mret a) V Q.
Proof. intros HQ s <-. exact HQ. Qed.

Lemma wp_bind {A B} E (m : M T A) (f : A → M T B) V Q :
  wp E m V (λ a V', wp E (f a) V' Q) → wp E (m ≫= f) V Q.
Proof.
  intros Hm s Hs. specialize (Hm s Hs).
  unfold mbind, M_bind. destruct (m s) as [a s'|e]; [|done].
  by apply Hm.
Qed.

Lemma wp_mono {A} (E E' : fault → Prop) (m : M T A) V (Q Q' : A → view → Prop) :
  wp E m V Q → (∀ f, E f → E' f) → (∀ a V', Q a V' → Q' a V') → wp E' m V Q'.
Proof.
  intros Hm HE HQ s Hs. specialize (Hm s Hs).
  destruct (m s); auto.
Qed.

Lemma wp_fail {A} (E : fault → Prop) f V (Q : A → view → Prop) : E f → wp E (fail f) V Q.
Proof. intros HE s _. exact HE. Qed.

Lemma wp_run {A} (m : M T A) (s : state T) Q :
  wp no_fault m (view_of s) Q → ∃ a s', m s = Ret a s' ∧ Q a (view_of s').
Proof.
  intros Hm. specialize (Hm s eq_refl). destruct (m s) as [a s'|e]; [eauto|done].
Qed.

Lemma wp_run_partial {A} E (m : M T A) (s s' : state T) a Q :
  wp E m (view_of s) Q → m s = Ret a s' → Q a (view_of s').
Proof. intros Hm Hr. specialize (Hm s eq_refl). by rewrite Hr in Hm. Qed.

(** *** Rules for node memory *)

Lemma view_node s n p v o a :
  view_of s = View n p v o →
  nodes s !! a = None ∧ n !! a = None ∧ p !! a = None ∧ v !! a = None ∨
  ∃ nd, nodes s !! a = Some nd ∧ n !! a = Some (next_ nd) ∧
        p !! a = Some (prev_ nd) ∧ v !! a = Some (value_ nd).
Proof.
  intros [= <- <- <- <-]. rewrite !lookup_fmap.
  destruct (nodes s !! a) as [nd|]; [right; eauto|left; done].
Qed.

Lemma view_store s n p v o a nd :
  view_of s = View n p v o →
  view_of (mkState (<[a := nd]> (nodes s)) (objs s)) =
    View (<[a := next_ nd]> n) (<[a := prev_ nd]> p) (<[a := value_ nd]> v) o.
Proof. intros [= <- <- <- <-]. unfold view_of; simpl. by rewrite !fmap_insert. Qed.

Lemma wp_get_next E n p v o a y Q :
  n !! a = Some y → Q y (View n p v o) → wp E (get_next a) (View n p v o) Q.
Proof.
  intros Ha HQ s Hs. destruct (view_node _ _ _ _ _ a Hs) as [(_&?&_)|(nd&Hnd&?&_)]; [congruence|].
  unfold get_next, load, mbind, M_bind. rewrite Hnd. simpl. rewrite Hs.
  by replace (next_ nd) with y by congruence.
Qed.

Lemma wp_get_prev E n p v o a y Q :
  p !! a = Some y → Q y (View n p v o) → wp E (get_prev a) (View n p v o) Q.
Proof.
  intros Ha HQ s Hs. destruct (view_node _ _ _ _ _ a Hs) as [(_&_&?&_)|(nd&Hnd&_&?&_)]; [congruence|].
  unfold get_prev, load, mbind, M_bind. rewrite Hnd. simpl. rewrite Hs.
  by replace (prev_ nd) with y by congruence.
Qed.

Lemma wp_get_value E n p v o a y Q :
  v !! a = Some y → Q y (View n p v o) → wp E (get_value a) (View n p v o) Q.
Proof.
  intros Ha HQ s Hs. destruct (view_node _ _ _ _ _ a Hs) as [(_&_&_&?)|(nd&Hnd&_&_&?)]; [congruence|].
  unfold get_value, load, mbind, M_bind. rewrite Hnd. simpl. rewrite Hs.
  by replace (value_ nd) with y by congruence.
Qed.

Lemma wp_set_next E n p v o a x Q :
  is_Some (n !! a) → Q tt (View (<[a := x]> n) p v o) → wp E (set_next a x) (View n p v o) Q.
Proof.
  intros [y Ha] HQ s Hs. destruct (view_node _ _ _ _ _ a Hs) as [(_&?&_)|(nd&Hnd&_&Hp&Hv)]; [congruence|].
  unfold set_next, load, store, mbind, M_bind. rewrite Hnd.
  erewrite view_store by done. simpl.
  by rewrite (insert_id p), (insert_id v).
Qed.

Lemma wp_set_prev E n p v o a x Q :
  is_Some (p !! a) → Q tt (View n (<[a := x]> p) v o) → wp E (set_prev a x) (View n p v o) Q.
Proof.
  intros [y Ha] HQ s Hs. destruct (view_node _ _ _ _ _ a Hs) as [(_&_&?&_)|(nd&Hnd&Hn&_&Hv)]; [congruence|].
  unfold set_prev, load, store, mbind, M_bind. rewrite Hnd.
  erewrite view_store by done. simpl.
  by rewrite (insert_id n), (insert_id v).
Qed.

Lemma wp_set_value E n p v o a x Q :
  is_Some (v !! a) → Q tt (View n p (<[a := x]> v) o) → wp E (set_value a x) (View n p v o) Q.
Proof.
  intros [y Ha] HQ s Hs. destruct (view_node _ _ _ _ _ a Hs) as [(_&_&_&?)|(nd&Hnd&Hn&Hp&_)]; [congruence|].
  unfold set_value, load, store, mbind, M_bind. rewrite Hnd.
  erewrite view_store by done. simpl.
  by rewrite (insert_id n), (insert_id p).
Qed.

Definition ptr_ok (a : Z) : Prop := 0 < a < 2 ^ 64.

Lemma fresh_addr_spec {A} (m : gmap Z A) a :
  fresh_addr m = Some a → m !! a = None ∧ ptr_ok a.
Proof.
  unfold fresh_addr. destruct (list_find _ _) as [[i x]|] eqn:Hf; [|done].
  case_decide; [|done]. intros [= ->].
  apply list_find_Some in Hf as (Hi & Hx & _).
  apply lookup_seqZ in Hi. split; [done|]. unfold ptr_ok. lia.
Qed.

Lemma wp_new_node (E : fault → Prop) n p v o x Q :
  E BadAlloc →
  (∀ a, n !! a = None → p !! a = None → v !! a = None → ptr_ok a →
        Q a (View (<[a := 0]> n) (<[a := 0]> p) (<[a := x]> v) o)) →
  wp E (new_node x) (View n p v o) Q.
Proof.
  intros HE HQ s Hs. unfold new_node.
  destruct (fresh_addr (nodes s)) as [a|] eqn:Hf; [|done].
  apply fresh_addr_spec in Hf as [Hnone Hok].
  erewrite view_store by done. simpl.
  destruct (view_node _ _ _ _ _ a Hs) as [(_&?&?&?)|(nd&?&_)]; [|congruence].
  by apply HQ.
Qed.

Lemma wp_new_sentinel (E : fault → Prop) n p v o Q :
  E BadAlloc →
  (∀ a, n !! a = None → p !! a = None → v !! a = None → ptr_ok a →
        Q a (View (<[a := a]> n) (<[a := a]> p) (<[a := elem_default]> v) o)) →
  wp E new_sentinel (View n p v o) Q.
Proof.
  intros HE HQ s Hs. unfold new_sentinel.
  destruct (fresh_addr (nodes s)) as [a|] eqn:Hf; [|done].
  apply fresh_addr_spec in Hf as [Hnone Hok].
  erewrite view_store by done. simpl.
  destruct (view_node _ _ _ _ _ a Hs) as [(_&?&?&?)|(nd&?&_)]; [|congruence].
  by apply HQ.
Qed.

Lemma wp_delete_node E n p v o a Q :
  is_Some (n !! a) →
  Q tt (View (delete a n) (delete a p) (delete a v) o) →
  wp E (delete_node a) (View n p v o) Q.
Proof.
  intros [y Ha] HQ s Hs. destruct (view_node _ _ _ _ _ a Hs) as [(_&?&_)|(nd&Hnd&_)]; [congruence|].
  unfold delete_node. rewrite Hnd. injection Hs as <- <- <- <-.
  unfold view_of; simpl. by rewrite !fmap_delete.
Qed.

(** *** Rules for list objects *)

Lemma wp_get_head E n p v o this l Q :
  o !! this = Some l → Q (head_ l) (View n p v o) → wp E (get_head this) (View n p v o) Q.
Proof.
  intros Hl HQ s Hs. unfold get_head, load_obj, mbind, M_bind.
  injection Hs as <- <- <- <-. by rewrite Hl.
Qed.

Lemma wp_get_size E n p v o this l Q :
  o !! this = Some l → Q (size_ l) (View n p v o) → wp E (get_size this) (View n p v o) Q.
Proof.
  intros Hl HQ s Hs. unfold get_size, load_obj, mbind, M_bind.
  injection Hs as <- <- <- <-. by rewrite Hl.
Qed.

Lemma wp_set_size E n p v o this l z Q :
  o !! this = Some l → Q tt (View n p v (<[this := mkList (head_ l) z]> o)) →
  wp E (set_size this z) (View n p v o) Q.
Proof.
  intros Hl HQ s Hs. unfold set_size, load_obj, store_obj, mbind, M_bind.
  injection Hs as <- <- <- <-. by rewrite Hl.
Qed.

End Logic.

Arguments view T : clear implicits.

(** ** Loops *)

Section Loops.
Context {T : Type} `{Elem T}.
Local Abbreviation view := (view T).

(** Fuel [fuel] is enough for [m] more steps, or running out of it is
    tolerated. *)
Definition enough (E : fault → Prop) (m fuel : nat) : Prop :=
  E OutOfFuel ∨ (m < fuel)%nat.

Lemma enough_lt (E : fault → Prop) m fuel : (m < fuel)%nat → enough E m fuel.
Proof. by right. Qed.

Lemma enough_S (E : fault → Prop) m m' fuel :
  enough E m (S fuel) → (m' < m)%nat → enough E m' fuel.
Proof. intros [?|?] ?; [by left|right; lia]. Qed.

Lemma enough_le (E : fault → Prop) m m' fuel :
  enough E m fuel → (m' ≤ m)%nat → enough E m' fuel.
Proof. intros [?|?] ?; [by left|right; lia]. Qed.

(** A loop: an invariant indexed by a measure that the body decreases and
    for which the fuel is enough.  The guard [cond] computes [c] without
    touching the state. *)
Lemma wp_while {V} E (I : nat → V → view → Prop) (c : V → view → bool)
    (cond : V → M T bool) (body : V → M T V) :
  (∀ m v W (Q : bool → view → Prop), I m v W → Q (c v W) W → wp E (cond v) W Q) →
  (∀ m v W, I m v W → c v W = true →
     wp E (body v) W (λ v' W', ∃ m', (m' < m)%nat ∧ I m' v' W')) →
  ∀ fuel m v W, I m v W → enough E m fuel →
    wp E (while fuel cond body v) W (λ v' W', (∃ m', I m' v' W') ∧ c v' W' = false).
Proof.
  intros Hc Hb fuel. induction fuel as [|fuel IH]; intros m v W HI Hm.
  { destruct Hm as [HE|?]; [by apply wp_fail|lia]. }
  simpl. eapply wp_bind, Hc; [done|].
  destruct (c v W) eqn:Hcv.
  - apply wp_bind. eapply wp_mono; [by eapply Hb|done|].
    intros v' W' (m' & Hlt & HI'). eapply IH; [done|by eapply enough_S].
  - apply wp_ret. eauto.
Qed.

(** Partial correctness: no variant, and running out of fuel is tolerated. *)
Lemma wp_while_partial {V} (E : fault → Prop) (I : V → view → Prop) (c : V → view → bool)
    (cond : V → M T bool) (body : V → M T V) :
  E OutOfFuel →
  (∀ v W (Q : bool → view → Prop), I v W → Q (c v W) W → wp E (cond v) W Q) →
  (∀ v W, I v W → c v W = true → wp E (body v) W I) →
  ∀ fuel v W, I v W →
    wp E (while fuel cond body v) W (λ v' W', I v' W' ∧ c v' W' = false).
Proof.
  intros HE Hc Hb fuel. induction fuel as [|fuel IH]; intros v W HI.
  - by apply wp_fail.
  - simpl. apply wp_bind, Hc; [done|].
    destruct (c v W) eqn:Hcv.
    + apply wp_bind. eapply wp_mono; [by apply Hb|done|].
      intros v' W' HI'. by apply IH.
    + by apply wp_ret.
Qed.

End Loops.

(** ** Paths and rings *)

Section Rings.

(** [x] is followed by [y]: [x.next_ == y] and [y.prev_ == x]. *)
Definition link (n p : gmap Z Z) (x y : Z) : Prop :=
  n !! x = Some y ∧ p !! y = Some x.

Fixpoint path (n p : gmap Z Z) (P : list Z) : Prop :=
  match P with
  | x :: ((y :: _) as P') => link n p x y ∧ path n p P'
  | _ => True
  end.

(** The nodes of a path that have a successor on it. *)
Fixpoint src (P : list Z) : list Z :=
  match P with
  | x :: ((_ :: _) as P') => x :: src P'
  | _ => []
  end.

Lemma src_snoc L z : src (L ++ [z]) = L.
Proof.
  induction L as [|x L IH]; [done|].
  simpl. destruct (L ++ [z]) eqn:E; [by destruct L|]. by rewrite IH.
Qed.

Lemma src_subseteq P x : x ∈ src P → x ∈ P.
Proof.
  induction P as [|a P IH]; [by intros ?%elem_of_nil|].
  destruct P as [|b P]; [by intros ?%elem_of_nil|].
  change (src (a :: b :: P)) with (a :: src (b :: P)).
  rewrite (elem_of_cons (src _)), (elem_of_cons (b :: P)).
  intros [->|Hx]; [by left|]. right. by apply IH.
Qed.

Lemma tail_subseteq (P : list Z) x : x ∈ tail P → x ∈ P.
Proof. destruct P; simpl; [done|]. by right. Qed.

Lemma last_not_src P z : NoDup P → last P = Some z → z ∉ src P.
Proof.
  intros Hnd Hl. destruct (last_Some P z) as [[L ->] _]; [done|].
  rewrite src_snoc. apply NoDup_app in Hnd as (_ & Hd & _).
  intros Hz. apply (Hd z Hz). by left.
Qed.

Lemma head_not_tail (P : list Z) z : NoDup P → head P = Some z → z ∉ tail P.
Proof. destruct P; [done|]. intros Hnd [= ->]. simpl. by apply NoDup_cons in Hnd as []. Qed.

Lemma path_app n p L R :
  path n p (L ++ R) ↔
  path n p L ∧ path n p R ∧ ∀ x y, last L = Some x → head R = Some y → link n p x y.
Proof.
  induction L as [|a [|b L] IH]; simpl.
  - naive_solver.
  - destruct R as [|y R]; simpl; [naive_solver|].
    split; [intros [? ?]; split_and!; [done..|naive_solver]|].
    intros (_ & ? & Hl). split; [|done]. by apply Hl.
  - simpl in IH. rewrite IH. naive_solver.
Qed.

Lemma path_frame n p n' p' P :
  path n p P →
  (∀ x, x ∈ src P → n' !! x = n !! x) →
  (∀ y, y ∈ tail P → p' !! y = p !! y) →
  path n' p' P.
Proof.
  induction P as [|a P IH]; [done|]. destruct P as [|b P]; [done|].
  change (src (a :: b :: P)) with (a :: src (b :: P)).
  intros [[Hn Hp] Hpath] Hsrc Htl. split.
  - split; [rewrite Hsrc; [done|by left]|rewrite Htl; [done|by left]].
  - apply IH; [done|..].
    + intros x Hx. apply Hsrc. by right.
    + intros y Hy. apply Htl. by right.
Qed.


Lemma path_lookup n p (P : list Z) (i : nat) (x y : Z) :
  path n p P → P !! i = Some x → P !! (S i) = Some y → link n p x y.
Proof.
  revert i. induction P as [|a P IH]; intros i; [done|]. destruct P as [|b P]; [by destruct i|].
  intros [Hl Hp]. destruct i as [|i]; simpl; [naive_solver|].
  intros. by eapply IH.
Qed.

(** Swapping the two links of every node reverses the path. *)
Lemma path_reverse n p P : path n p P → path p n (reverse P).
Proof.
  induction P as [|a P IH]; [done|]. destruct P as [|b P]; [done|].
  intros [[Hn Hp] Hpath]. rewrite reverse_cons.
  apply path_app. split_and!.
  - by apply IH.
  - done.
  - intros x y Hx [= <-]. rewrite reverse_cons, last_snoc in Hx.
    injection Hx as <-. done.
Qed.

(** The ring of a list: sentinel [hd] followed by the element nodes [l]
    and back to [hd], all nodes distinct, none null. *)
Record ring (n p : gmap Z Z) (hd : Z) (l : list Z) : Prop := {
  ring_nodup : NoDup (hd :: l);
  ring_path : path n p (hd :: l ++ [hd]);
  ring_ptrs : Forall ptr_ok (hd :: l);
}.

(** The node an iterator refers to when it stands before the suffix [l2]. *)
Definition cursor (hd : Z) (l2 : list Z) : Z := default hd (head l2).

(** The node before that position, after the prefix [l1]. *)
Definition before (hd : Z) (l1 : list Z) : Z := default hd (last l1).

Lemma last_cons_default (hd : Z) l1 : last (hd :: l1) = Some (before hd l1).
Proof.
  unfold before. destruct l1 as [|a l1]; [done|].
  rewrite last_cons. by destruct (last (a :: l1)) eqn:E.
Qed.

Lemma head_snoc_default (hd : Z) l2 : head (l2 ++ [hd]) = Some (cursor hd l2).
Proof. by destruct l2. Qed.

Lemma cursor_elem hd l2 : cursor hd l2 = hd ∨ cursor hd l2 ∈ l2.
Proof. destruct l2; [by left|right; by left]. Qed.

Lemma before_elem hd l1 : before hd l1 = hd ∨ before hd l1 ∈ l1.
Proof.
  unfold before. destruct (last l1) eqn:E; [right|by left].
  simpl. apply last_Some in E as [l' ->]. apply elem_of_app. right. by left.
Qed.

Lemma ring_split n p hd l1 l2 :
  ring n p hd (l1 ++ l2) →
  path n p (hd :: l1) ∧ path n p (l2 ++ [hd]) ∧
  link n p (before hd l1) (cursor hd l2).
Proof.
  intros [_ Hp _].
  replace (hd :: (l1 ++ l2) ++ [hd]) with ((hd :: l1) ++ l2 ++ [hd]) in Hp
    by (simpl; by rewrite <-(assoc_L (++))).
  apply path_app in Hp as (H1 & H2 & Hj). split_and!; [done..|].
  apply Hj; [apply last_cons_default|apply head_snoc_default].
Qed.

Lemma ring_join n p hd l1 l2 :
  NoDup (hd :: l1 ++ l2) → Forall ptr_ok (hd :: l1 ++ l2) →
  path n p (hd :: l1) → path n p (l2 ++ [hd]) →
  link n p (before hd l1) (cursor hd l2) →
  ring n p hd (l1 ++ l2).
Proof.
  intros Hnd Hok H1 H2 Hj. split; [done| |done].
  replace (hd :: (l1 ++ l2) ++ [hd]) with ((hd :: l1) ++ l2 ++ [hd])
    by (simpl; by rewrite <-(assoc_L (++))).
  apply path_app. split_and!; [done..|].
  intros x y. rewrite last_cons_default, head_snoc_default. by intros [= <-] [= <-].
Qed.

End Rings.

Section RingSurgery.

Lemma ring_nodup_split (hd : Z) (l1 l2 : list Z) :
  NoDup (hd :: l1 ++ l2) →
  NoDup (hd :: l1) ∧ NoDup (l2 ++ [hd]) ∧
  (∀ x, x ∈ hd :: l1 → x ∉ l2) ∧ (∀ y, y ∈ l2 ++ [hd] → y ∉ l1).
Proof.
  intros Hnd. apply NoDup_cons in Hnd as [Hhd Hnd].
  apply not_elem_of_app in Hhd as [Hh1 Hh2].
  apply NoDup_app in Hnd as (N1 & Hd & N2). split_and!.
  - by apply NoDup_cons.
  - apply NoDup_app. split_and!; [done| |apply NoDup_singleton].
    by intros x Hx ->%list_elem_of_singleton.
  - intros x [->|Hx]%elem_of_cons; [done|by apply Hd].
  - intros y [Hy| ->%list_elem_of_singleton]%elem_of_app; [|done].
    intros Hy1. by apply (Hd y).
Qed.

Lemma ring_frame n p n' p' hd l :
  ring n p hd l →
  (∀ a, a ∈ hd :: l → n' !! a = n !! a ∧ p' !! a = p !! a) →
  ring n' p' hd l.
Proof.
  intros [Hnd Hp Hok] Hfr. split; [done| |done].
  eapply path_frame; [done|..].
  - intros x Hx%src_subseteq. apply Hfr.
    change (x ∈ (hd :: l) ++ [hd]) in Hx. apply elem_of_app in Hx as [?| ->%list_elem_of_singleton]; [done|by left].
  - intros y Hy. simpl in Hy. apply Hfr.
    apply elem_of_app in Hy as [?| ->%list_elem_of_singleton]; [by right|by left].
Qed.

Lemma ring_empty n p hd : ring n p hd [] ↔ link n p hd hd ∧ ptr_ok hd.
Proof.
  split.
  - intros [_ [Hl _] Hok]. split; [done|]. by apply Forall_cons in Hok as [].
  - intros [Hl Hok]. split; [apply NoDup_singleton|by split|by apply Forall_singleton].
Qed.

Lemma ring_lookup_next n p hd l i x :
  ring n p hd l → (hd :: l) !! i = Some x →
  n !! x = Some (default hd (l !! i)).
Proof.
  intros [_ Hp _] Hi.
  assert (((hd :: l) ++ [hd]) !! S i = Some (default hd (l !! i))) as Hs.
  { simpl. destruct (l !! i) as [y|] eqn:E; simpl.
    - by rewrite lookup_app_l_Some with (x := y).
    - apply lookup_ge_None in E. apply lookup_lt_Some in Hi. simpl in Hi.
      rewrite lookup_app_r by done. by replace (i - length l)%nat with 0%nat by lia. }
  eapply (path_lookup n p _ i x) in Hs as [? _]; [done|done|].
  by apply lookup_app_l_Some.
Qed.

Lemma ring_size_bound n p hd l : ring n p hd l → Z.of_nat (length l) + 1 < 2 ^ 64.
Proof.
  intros [Hnd _ Hok].
  assert ((hd :: l) ⊆+ seqZ 1 (2 ^ 64 - 1)) as Hsub.
  { apply NoDup_submseteq; [done|]. intros x Hx.
    rewrite Forall_forall in Hok. specialize (Hok x Hx). unfold ptr_ok in Hok.
    apply elem_of_seqZ. lia. }
  apply submseteq_length in Hsub. rewrite length_seqZ in Hsub. simpl in Hsub. lia.
Qed.

Lemma lookup_insert2_ne {A} (m : gmap Z A) a b x y c :
  c ≠ a → c ≠ b → <[a := x]> (<[b := y]> m) !! c = m !! c.
Proof. intros. by rewrite !lookup_insert_ne. Qed.

Lemma ring_attach n p hd l1 l2 new pr pos :
  ring n p hd (l1 ++ l2) → new ∉ hd :: l1 ++ l2 → ptr_ok new →
  pr = before hd l1 → pos = cursor hd l2 →
  ring (<[pr := new]> (<[new := pos]> n)) (<[pos := new]> (<[new := pr]> p))
       hd (l1 ++ new :: l2).
Proof.
  intros Hr Hnew Hok Epr Epos. pose proof Hr as [Hnd _ Hoks].
  apply ring_split in Hr as (H1 & H2 & [Hjn Hjp]).
  destruct (ring_nodup_split _ _ _ Hnd) as (Hnd1 & Hnd2 & Hd1 & Hd2).
  rewrite <-Epr, <-Epos in *.
  assert (new ≠ hd ∧ (new ∉ l1) ∧ (new ∉ l2)) as (Hn0 & Hn1 & Hn2).
  { rewrite not_elem_of_cons, not_elem_of_app in Hnew. naive_solver. }
  assert (pr ∈ hd :: l1) as Hpr.
  { apply elem_of_cons. rewrite Epr. apply before_elem. }
  assert (pos ∈ l2 ++ [hd]) as Hpos.
  { apply elem_of_app. rewrite Epos. destruct (cursor_elem hd l2); [right|by left].
    by apply list_elem_of_singleton. }
  assert (new ≠ pr) as Hnpr.
  { intros <-. apply elem_of_cons in Hpr. naive_solver. }
  assert (new ≠ pos) as Hnpos.
  { intros <-. apply elem_of_app in Hpos as [?|?%list_elem_of_singleton]; naive_solver. }
  replace (l1 ++ new :: l2) with ((l1 ++ [new]) ++ l2) by by rewrite <-(assoc_L (++)).
  apply ring_join.
  - rewrite <-(assoc_L (++)). simpl.
    apply NoDup_cons in Hnd as [Hhd Hnd]. apply NoDup_cons. split.
    + rewrite elem_of_app, elem_of_cons. rewrite elem_of_app in Hhd. naive_solver.
    + apply NoDup_app in Hnd as (? & ? & ?). apply NoDup_app. split_and!; [done| |].
      * intros x Hx [->|?]%elem_of_cons; naive_solver.
      * by apply NoDup_cons.
  - rewrite <-(assoc_L (++)). simpl.
    apply Forall_cons in Hoks as [? Hoks]. apply Forall_app in Hoks as [? ?].
    apply Forall_cons. split; [done|]. apply Forall_app. split; [done|].
    by apply Forall_cons.
  - change (hd :: l1 ++ [new]) with ((hd :: l1) ++ [new]). apply path_app. split_and!.
    + eapply path_frame; [done|..].
      * intros x Hx. apply lookup_insert2_ne.
        -- intros ->. by eapply last_not_src; [|apply last_cons_default|rewrite <-Epr].
        -- intros ->. apply src_subseteq in Hx.
           apply elem_of_cons in Hx as [?|?]; naive_solver.
      * intros y Hy. simpl in Hy. apply lookup_insert2_ne.
        -- intros ->. by eapply Hd2.
        -- by intros ->.
    + done.
    + intros x y. rewrite last_cons_default. intros [= <-] [= <-]. rewrite <-Epr.
      split; [by rewrite lookup_insert_eq|].
      rewrite lookup_insert_ne, lookup_insert_eq; done.
  - eapply path_frame; [done|..].
    + rewrite src_snoc. intros x Hx. apply lookup_insert2_ne.
      * intros ->. by eapply Hd1.
      * by intros ->.
    + intros y Hy. apply lookup_insert2_ne.
      * intros ->. by eapply head_not_tail; [|apply head_snoc_default|rewrite <-Epos].
      * intros ->. apply tail_subseteq in Hy.
        apply elem_of_app in Hy as [?|?%list_elem_of_singleton]; naive_solver.
  - replace (before hd (l1 ++ [new])) with new.
    2:{ unfold before. by rewrite last_snoc. }
    rewrite <-Epos. split.
    + rewrite lookup_insert_ne, lookup_insert_eq; done.
    + by rewrite lookup_insert_eq.
Qed.

Lemma lookup_insert3_ne {A} (m : gmap Z A) a b c x y z d :
  d ≠ a → d ≠ b → d ≠ c → <[a := x]> (<[b := y]> (<[c := z]> m)) !! d = m !! d.
Proof. intros. by rewrite !lookup_insert_ne. Qed.

Lemma path_tail n p x P : path n p (x :: P) → path n p P.
Proof. destruct P; [done|]. by intros [_ ?]. Qed.

Lemma path_middle n p x P y : path n p (x :: P ++ [y]) → path n p P.
Proof.
  intros HP%path_tail. by apply path_app in HP as (? & _).
Qed.

Lemma NoDup_remove_mid (hd : Z) l1 x l2 :
  NoDup (hd :: l1 ++ x :: l2) → NoDup (hd :: l1 ++ l2) ∧ x ∉ hd :: l1 ++ l2.
Proof.
  intros Hnd.
  assert (Permutation (hd :: l1 ++ x :: l2) (x :: hd :: l1 ++ l2)) as HP.
  { rewrite <-Permutation_middle. apply perm_swap. }
  rewrite HP in Hnd. by apply NoDup_cons in Hnd as [].
Qed.

Lemma ring_detach n p hd l1 x l2 pr nx :
  ring n p hd (l1 ++ x :: l2) → pr = before hd l1 → nx = cursor hd l2 →
  ring (<[pr := nx]> n) (<[nx := pr]> p) hd (l1 ++ l2).
Proof.
  intros Hr Epr Enx. pose proof Hr as [Hnd _ Hoks].
  apply ring_split in Hr as (H1 & H2%path_tail & _).
  apply NoDup_remove_mid in Hnd as [Hnd Hx].
  destruct (ring_nodup_split _ _ _ Hnd) as (Hnd1 & Hnd2 & Hd1 & Hd2).
  assert (pr ∈ hd :: l1) as Hpr.
  { apply elem_of_cons. rewrite Epr. apply before_elem. }
  assert (nx ∈ l2 ++ [hd]) as Hnx.
  { apply elem_of_app. rewrite Enx. destruct (cursor_elem hd l2); [right|by left].
    by apply list_elem_of_singleton. }
  apply ring_join.
  - done.
  - apply Forall_cons in Hoks as [? Hoks]. apply Forall_app in Hoks as [? Hoks].
    apply Forall_cons in Hoks as [? ?].
    apply Forall_cons. split; [done|]. by apply Forall_app.
  - eapply path_frame; [done|..].
    + intros y Hy. apply lookup_insert_ne.
      intros ->. by eapply last_not_src; [|apply last_cons_default|rewrite <-Epr].
    + intros y Hy. simpl in Hy. apply lookup_insert_ne.
      intros ->. by eapply Hd2.
  - eapply path_frame; [done|..].
    + rewrite src_snoc. intros y Hy. apply lookup_insert_ne.
      intros ->. by eapply Hd1.
    + intros y Hy. apply lookup_insert_ne.
      intros ->. by eapply head_not_tail; [|apply head_snoc_default|rewrite <-Enx].
  - rewrite <-Epr, <-Enx. split; by rewrite lookup_insert_eq.
Qed.

Lemma ring_splice n p h1 l1 l2 h2 b bs pr pos ol :
  ring n p h1 (l1 ++ l2) → ring n p h2 (b :: bs) →
  (∀ x, x ∈ h1 :: l1 ++ l2 → x ∉ h2 :: b :: bs) →
  pr = before h1 l1 → pos = cursor h1 l2 → ol = before h2 (b :: bs) →
  let n' := <[h2 := h2]> (<[pr := b]> (<[ol := pos]> n)) in
  let p' := <[h2 := h2]> (<[pos := ol]> (<[b := pr]> p)) in
  ring n' p' h1 (l1 ++ (b :: bs) ++ l2) ∧ ring n' p' h2 [].
Proof.
  intros Hr1 Hr2 Hdisj Epr Epos Eol n' p'.
  pose proof Hr1 as [Hnd1 _ Hoks1]. pose proof Hr2 as [Hnd2 HP2 Hoks2].
  apply ring_split in Hr1 as (H1 & H2 & _).
  apply path_middle in HP2.
  destruct (ring_nodup_split _ _ _ Hnd1) as (HndL & HndR & Hd1 & Hd2).
  assert (pr ∈ h1 :: l1) as Hpr.
  { apply elem_of_cons. rewrite Epr. apply before_elem. }
  assert (pos ∈ l2 ++ [h1]) as Hpos.
  { apply elem_of_app. rewrite Epos. destruct (cursor_elem h1 l2); [right|by left].
    by apply list_elem_of_singleton. }
  assert (ol ∈ b :: bs) as Hol.
  { rewrite Eol. destruct (before_elem h2 (b :: bs)) as [E|]; [|done].
    unfold before in E. exfalso.
    destruct (last (b :: bs)) as [z|] eqn:El; [|by apply last_None in El].
    simpl in E. subst z. apply last_Some in El as [l' El].
    apply NoDup_cons in Hnd2 as [Hh2 _]. apply Hh2. rewrite El.
    apply elem_of_app. right. by left. }
  assert (last (b :: bs) = Some ol) as Hlast.
  { rewrite Eol. unfold before. by destruct (last (b :: bs)) eqn:El; [|apply last_None in El]. }
  apply NoDup_cons in Hnd2 as [Hh2 HndB].
  assert (∀ x, x ∈ h1 :: l1 ++ l2 → x ≠ h2) as DH.
  { intros x Hx. specialize (Hdisj x Hx). by apply not_elem_of_cons in Hdisj as []. }
  assert (∀ x, x ∈ h1 :: l1 ++ l2 → x ∉ b :: bs) as DB.
  { intros x Hx. specialize (Hdisj x Hx). by apply not_elem_of_cons in Hdisj as []. }
  assert (∀ x, x ∈ h1 :: l1 → x ∈ h1 :: l1 ++ l2) as HinL.
  { intros x. rewrite !elem_of_cons, elem_of_app. naive_solver. }
  assert (∀ x, x ∈ l2 ++ [h1] → x ∈ h1 :: l1 ++ l2) as HinR.
  { intros x. rewrite !elem_of_cons, !elem_of_app, list_elem_of_singleton. naive_solver. }
  assert (∀ x, x ∈ l2 → x ∈ h1 :: l1 ++ l2) as HinR'.
  { intros x. rewrite !elem_of_cons, !elem_of_app. naive_solver. }
  split.
  - replace (l1 ++ (b :: bs) ++ l2) with ((l1 ++ b :: bs) ++ l2) by by rewrite <-(assoc_L (++)).
    apply ring_join.
    + rewrite <-(assoc_L (++)).
      apply NoDup_cons in Hnd1 as [Hh1 Hnd1]. apply NoDup_app in Hnd1 as (? & Hd12 & ?).
      apply not_elem_of_app in Hh1 as [? ?].
      apply NoDup_cons. split.
      * rewrite !not_elem_of_app. split_and!; [done| |done]. apply DB. by left.
      * apply NoDup_app. split_and!; [done| |].
        -- intros x Hx [Hb|?]%elem_of_app; [|naive_solver].
           apply (DB x); [|done]. apply HinL. by right.
        -- apply NoDup_app. split_and!; [done| |done].
           intros x Hx Hx2. apply (DB x); [by apply HinR'|done].
    + rewrite <-(assoc_L (++)).
      apply Forall_cons in Hoks1 as [? Hoks1]. apply Forall_app in Hoks1 as [? ?].
      apply Forall_cons in Hoks2 as [? ?].
      apply Forall_cons. split; [done|]. rewrite !Forall_app. done.
    + change (h1 :: l1 ++ b :: bs) with ((h1 :: l1) ++ b :: bs). apply path_app. split_and!.
      * eapply path_frame; [done|..].
        -- intros y Hy. apply lookup_insert3_ne.
           ++ apply DH, HinL. by apply src_subseteq.
           ++ intros ->. by eapply last_not_src; [|apply last_cons_default|rewrite <-Epr].
           ++ intros ->. apply (DB ol); [|done]. by apply HinL, src_subseteq.
        -- intros y Hy. simpl in Hy. apply lookup_insert3_ne.
           ++ apply DH, HinL. by right.
           ++ intros ->. by eapply Hd2.
           ++ intros ->. apply (DB b); [apply HinL; by right|by left].
      * eapply path_frame; [done|..].
        -- intros y Hy. apply lookup_insert3_ne.
           ++ intros ->. by apply Hh2, src_subseteq.
           ++ intros ->. apply (DB pr); [by apply HinL|by apply src_subseteq].
           ++ intros ->. by apply (last_not_src (b :: bs) ol).
        -- intros y Hy. simpl in Hy. apply lookup_insert3_ne.
           ++ intros ->. apply Hh2. by right.
           ++ intros ->. apply (DB pos); [by apply HinR|by right].
           ++ intros ->. by apply NoDup_cons in HndB as [].
      * intros x y. rewrite last_cons_default, <-Epr. intros [= <-] [= <-]. split.
        -- unfold n'. rewrite lookup_insert_ne, lookup_insert_eq; [done|].
           intros E. symmetry in E. revert E. by apply DH, HinL.
        -- unfold p'. rewrite lookup_insert_ne, lookup_insert_ne, lookup_insert_eq; [done|..].
           ++ intros <-. apply (DB pos); [by apply HinR|by left].
           ++ intros <-. apply Hh2. by left.
    + eapply path_frame; [done|..].
      * rewrite src_snoc. intros y Hy. apply lookup_insert3_ne.
        -- by apply DH, HinR'.
        -- intros ->. by eapply Hd1.
        -- intros ->. apply (DB ol); [by apply HinR'|done].
      * intros y Hy. apply lookup_insert3_ne.
        -- by apply DH, HinR, tail_subseteq.
        -- intros ->. by eapply head_not_tail; [|apply head_snoc_default|rewrite <-Epos].
        -- intros ->. apply (DB b); [by apply HinR, tail_subseteq|by left].
    + replace (before h1 (l1 ++ b :: bs)) with ol.
      2:{ unfold before. by rewrite last_app, Hlast. }
      rewrite <-Epos. split.
      * unfold n'. rewrite lookup_insert_ne, lookup_insert_ne, lookup_insert_eq; [done|..].
        -- intros <-. apply (DB pr); [by apply HinL|done].
        -- intros <-. by apply Hh2.
      * unfold p'. rewrite lookup_insert_ne, lookup_insert_eq; [done|].
        intros E. symmetry in E. revert E. by apply DH, HinR.
  - apply ring_empty. split.
    + split; [unfold n'|unfold p']; by rewrite lookup_insert_eq.
    + by apply Forall_cons in Hoks2 as [].
Qed.

End RingSurgery.

(** ** Lists as rings with values *)

Section Lists.
Context {T : Type} `{Elem T}.
Local Abbreviation view := (view T).
Implicit Types (n p : gmap Z Z) (v : gmap Z T) (o : gmap Z s21_list).
Implicit Types (V : view) (xs ys : list (Z * T)).

(** Each element node holds the value paired with it. *)
Definition vals (v : gmap Z T) (xs : list (Z * T)) : Prop :=
  Forall (λ x, v !! x.1 = Some x.2) xs.

(** The list object [this] owns the ring of sentinel [hd] whose element
    nodes, in order, are the addresses of [xs] holding the values of [xs];
    [size_] is their number and the sentinel holds [Type{}]. *)
Record is_list (V : view) (this hd : Z) (xs : list (Z * T)) : Prop := {
  il_obj : vo V !! this = Some (mkList hd (Z.of_nat (length xs)));
  il_ring : ring (vn V) (vp V) hd xs.*1;
  il_vals : vals (vv V) xs;
  il_sentinel : vv V !! hd = Some elem_default;
}.

(** Nodes outside [F] that were allocated, and list objects other than
    [this], are left as they were. *)
Definition frame (F : list Z) (this : Z) (V V' : view) : Prop :=
  (∀ a, a ∉ F → is_Some (vn V !! a) →
        vn V' !! a = vn V !! a ∧ vp V' !! a = vp V !! a ∧ vv V' !! a = vv V !! a) ∧
  (∀ b, b ≠ this → vo V' !! b = vo V !! b).

Lemma ring_alloc n p hd l a : ring n p hd l → a ∈ hd :: l → is_Some (n !! a) ∧ is_Some (p !! a).
Proof.
  intros Hr Ha. apply list_elem_of_lookup in Ha as [i Hi].
  pose proof (ring_lookup_next _ _ _ _ _ _ Hr Hi) as Hn. split; [eauto|].
  destruct i as [|i].
  - injection Hi as <-. rewrite <-(app_nil_r l) in Hr.
    apply ring_split in Hr as (_ & _ & [_ ?]). eauto.
  - destruct Hr as [_ Hp _].
    simpl in Hi. assert ((hd :: l ++ [hd]) !! S i = Some a) as Hi'.
    { simpl. by apply lookup_app_l_Some. }
    assert (is_Some ((hd :: l ++ [hd]) !! i)) as [z Hz].
    { apply lookup_lt_is_Some. apply lookup_lt_Some in Hi'. simpl in *. lia. }
    destruct (path_lookup _ _ _ _ _ _ Hp Hz Hi') as [_ ?]. eauto.
Qed.

Lemma ring_alloc_next n p hd l a : ring n p hd l → a ∈ hd :: l → is_Some (n !! a).
Proof. intros Hr Ha. by destruct (ring_alloc _ _ _ _ _ Hr Ha). Qed.

Lemma ring_alloc_prev n p hd l a : ring n p hd l → a ∈ hd :: l → is_Some (p !! a).
Proof. intros Hr Ha. by destruct (ring_alloc _ _ _ _ _ Hr Ha). Qed.

Lemma ring_frame' V V' F this hd l :
  ring (vn V) (vp V) hd l → frame F this V V' → (∀ a, a ∈ hd :: l → a ∉ F) →
  ring (vn V') (vp V') hd l.
Proof.
  intros Hr [Hf _] Hd. eapply ring_frame; [done|].
  intros a Ha. destruct (Hf a) as (? & ? & _); [by apply Hd| |done].
  by eapply ring_alloc_next.
Qed.

Lemma is_list_frame V V' F this other hd xs :
  is_list V other hd xs → frame F this V V' → other ≠ this →
  (∀ a, a ∈ hd :: xs.*1 → a ∉ F) →
  is_list V' other hd xs.
Proof.
  intros [Ho Hr Hv Hs] Hf Hne Hd. pose proof Hf as [Hfn Hfo]. split.
  - by rewrite Hfo.
  - by eapply ring_frame'.
  - unfold vals in *. rewrite Forall_forall in Hv |- *. intros x Hx.
    destruct (Hfn x.1) as (_ & _ & ->); [| |by apply Hv].
    + apply Hd. right. by apply list_elem_of_fmap_2.
    + eapply ring_alloc_next; [done|]. right. by apply list_elem_of_fmap_2.
  - destruct (Hfn hd) as (_ & _ & ->); [| |done].
    + apply Hd. by left.
    + eapply ring_alloc_next; [done|]. by left.
Qed.

Lemma is_list_size_bound V this hd xs :
  is_list V this hd xs → Z.of_nat (length xs) + 1 < 2 ^ 64.
Proof. intros [_ Hr _ _]. apply ring_size_bound in Hr. by rewrite length_fmap in Hr. Qed.

End Lists.

(** ** Symbolic execution *)

Ltac solve_lookup :=
  repeat first
    [ rewrite lookup_insert_eq
    | rewrite lookup_insert_ne by (done || congruence) ];
  first [ eassumption | reflexivity | done ].

Ltac solve_is_Some :=
  solve [rewrite ?lookup_insert_is_Some'; eauto 10].

Ltac wp_prim :=
  lazymatch goal with
  | |- wp _ (mret _) _ _ => apply wp_ret
  | |- wp _ (get_next _) _ _ => eapply wp_get_next; [try solve_lookup|]
  | |- wp _ (get_prev _) _ _ => eapply wp_get_prev; [try solve_lookup|]
  | |- wp _ (get_value _) _ _ => eapply wp_get_value; [try solve_lookup|]
  | |- wp _ (set_next _ _) _ _ => apply wp_set_next; [try solve_is_Some|]
  | |- wp _ (set_prev _ _) _ _ => apply wp_set_prev; [try solve_is_Some|]
  | |- wp _ (set_value _ _) _ _ => apply wp_set_value; [try solve_is_Some|]
  | |- wp _ (get_head _) _ _ => eapply wp_get_head; [try solve_lookup|]
  | |- wp _ (get_size _) _ _ => eapply wp_get_size; [try solve_lookup|]
  | |- wp _ (set_size _ _) _ _ => eapply wp_set_size; [try solve_lookup|]
  | |- wp _ (delete_node _) _ _ => apply wp_delete_node; [try solve_is_Some|]
  end.

Ltac wp_step :=
  cbv beta;
  lazymatch goal with
  | |- wp _ (mbind _ _) _ _ => apply wp_bind; wp_prim
  | |- _ => wp_prim
  end; cbv beta; simpl head_; simpl size_.

Section NodeMethods.
Context {T : Type} `{Elem T}.
Local Abbreviation view := (view T).
Implicit Types (n p : gmap Z Z) (v : gmap Z T) (o : gmap Z s21_list).

Lemma wp_AttachPrev E n p v o this new pr (Q : unit → view → Prop) :
  p !! this = Some pr → is_Some (n !! new) → is_Some (p !! new) → is_Some (n !! pr) →
  new ≠ this →
  Q tt (View (<[pr := new]> (<[new := this]> n)) (<[this := new]> (<[new := pr]> p)) v o) →
  wp E (s21.AttachPrev this new) (View n p v o) Q.
Proof.
  intros Hp Hn1 Hn2 Hn3 Hne HQ. unfold s21.AttachPrev.
  do 6 wp_step. done.
Qed.

Lemma wp_UnAttach E n p v o this pr nx (Q : unit → view → Prop) :
  p !! this = Some pr → n !! this = Some nx → is_Some (n !! pr) → is_Some (p !! nx) →
  this ≠ pr → this ≠ nx →
  Q tt (View (<[this := this]> (<[pr := nx]> n)) (<[this := this]> (<[nx := pr]> p)) v o) →
  wp E (s21.UnAttach this) (View n p v o) Q.
Proof.
  intros Hp Hn Hn1 Hp1 Hne1 Hne2 HQ. unfold s21.UnAttach.
  do 8 wp_step. done.
Qed.

Lemma wp_SwapValues E n p v o a b x y (Q : unit → view → Prop) :
  v !! a = Some x → v !! b = Some y →
  Q tt (View n p (<[b := x]> (<[a := y]> v)) o) →
  wp E (s21.SwapValues a b) (View n p v o) Q.
Proof.
  intros Ha Hb HQ. unfold s21.SwapValues.
  do 4 wp_step. done.
Qed.

Lemma wp_SwapNextPrev E n p v o a x y (Q : unit → view → Prop) :
  n !! a = Some x → p !! a = Some y →
  Q tt (View (<[a := y]> n) (<[a := x]> p) v o) →
  wp E (s21.SwapNextPrev a) (View n p v o) Q.
Proof.
  intros Ha Hb HQ. unfold s21.SwapNextPrev.
  do 4 wp_step. done.
Qed.

End NodeMethods.

(** ** Iterators, insertion and removal *)

Section ListMethods.
Context {T : Type} `{Elem T}.
Local Abbreviation view := (view T).
Implicit Types (n p : gmap Z Z) (v : gmap Z T) (o : gmap Z s21_list).
Implicit Types (V : view) (xs ys : list (Z * T)).

Lemma ring_link n p hd l1 l2 :
  ring n p hd (l1 ++ l2) →
  n !! before hd l1 = Some (cursor hd l2) ∧ p !! cursor hd l2 = Some (before hd l1).
Proof. by intros (_ & _ & ?)%ring_split. Qed.

Lemma before_snoc (hd : Z) l x : before hd (l ++ [x]) = x.
Proof. unfold before. by rewrite last_snoc. Qed.

Lemma ring_link_mid n p hd l1 x l2 :
  ring n p hd (l1 ++ x :: l2) →
  p !! x = Some (before hd l1) ∧ n !! x = Some (cursor hd l2).
Proof.
  intros Hr. split.
  - by apply ring_link in Hr as [_ ?].
  - replace (l1 ++ x :: l2) with ((l1 ++ [x]) ++ l2) in Hr by by rewrite <-(assoc_L (++)).
    apply ring_link in Hr as [? _]. by rewrite before_snoc in *.
Qed.

Lemma before_in (hd : Z) l1 l2 : before hd l1 ∈ hd :: l1 ++ l2.
Proof.
  rewrite elem_of_cons, elem_of_app. destruct (before_elem hd l1); auto.
Qed.

Lemma cursor_in (hd : Z) l1 l2 : cursor hd l2 ∈ hd :: l1 ++ l2.
Proof.
  rewrite elem_of_cons, elem_of_app. destruct (cursor_elem hd l2); auto.
Qed.

Lemma wrap_small z : 0 ≤ z < 2 ^ 64 → wrap z = z.
Proof. intros. unfold wrap. by apply Z.mod_small. Qed.

Lemma wp_end E V this hd xs (Q : Z → view → Prop) :
  is_list V this hd xs → Q hd V → wp E (s21.end_ this) V Q.
Proof. intros [Ho _ _ _] HQ. destruct V as [n p v o]. unfold s21.end_. by wp_step. Qed.

Lemma wp_begin E V this hd xs (Q : Z → view → Prop) :
  is_list V this hd xs → Q (cursor hd xs.*1) V → wp E (s21.begin this) V Q.
Proof.
  intros [Ho Hr _ _] HQ. destruct V as [n p v o]. unfold s21.begin.
  change (xs.*1) with ([] ++ xs.*1) in Hr. apply ring_link in Hr as [Hn _].
  simpl in *. by do 2 wp_step.
Qed.

Lemma wp_empty E V this hd xs (Q : bool → view → Prop) :
  is_list V this hd xs → Q (bool_decide (xs = [])) V → wp E (s21.empty this) V Q.
Proof.
  intros [Ho _ _ _] HQ. destruct V as [n p v o]. unfold s21.empty.
  do 2 wp_step. by destruct xs.
Qed.

Lemma wp_size E V this hd xs (Q : Z → view → Prop) :
  is_list V this hd xs → Q (Z.of_nat (length xs)) V → wp E (s21.size this) V Q.
Proof.
  intros [Ho _ _ _] HQ. destruct V as [n p v o]. unfold s21.size. by wp_step.
Qed.

Lemma wp_insert (E : fault → Prop) V this hd xs1 xs2 x (Q : Z → view → Prop) :
  E BadAlloc →
  is_list V this hd (xs1 ++ xs2) →
  (∀ new V', is_list V' this hd (xs1 ++ (new, x) :: xs2) →
     vn V !! new = None →
     frame (hd :: (xs1 ++ xs2).*1) this V V' → Q new V') →
  wp E (s21.insert this (cursor hd xs2.*1) x) V Q.
Proof.
  intros HE Hl HQ. pose proof (is_list_size_bound _ _ _ _ Hl) as Hsz.
  destruct Hl as [Ho Hr Hv Hs]. destruct V as [n p v o]. simpl in *.
  rewrite fmap_app in Hr. pose proof (ring_link _ _ _ _ _ Hr) as [Hn Hp].
  unfold s21.insert. apply wp_bind, wp_new_node; [done|].
  intros new Hnn Hpn Hvn Hok.
  assert (∀ a, a ∈ hd :: xs1.*1 ++ xs2.*1 → a ≠ new) as Hfresh.
  { intros a Ha ->. eapply ring_alloc_next in Ha as [? ?]; [|done]. congruence. }
  pose proof (Hfresh _ (cursor_in hd xs1.*1 xs2.*1)) as Hpos.
  pose proof (Hfresh _ (before_in hd xs1.*1 xs2.*1)) as Hpr.
  apply wp_bind. eapply wp_AttachPrev.
  { rewrite lookup_insert_ne by done. exact Hp. }
  { solve_is_Some. } { solve_is_Some. } { solve_is_Some. } { done. }
  do 3 wp_step. apply HQ; [|done|].
  - split; simpl.
    + rewrite lookup_insert_eq. do 2 f_equal.
      rewrite !length_app in *. simpl. rewrite wrap_small; lia.
    + rewrite fmap_app, fmap_cons. simpl. rewrite !insert_insert_eq.
      apply ring_attach; try done.
      intros Hin. by apply (Hfresh new).
    + unfold vals in *. rewrite Forall_app, Forall_cons. rewrite Forall_app in Hv.
      destruct Hv as [Hv1 Hv2]. simpl. split_and!.
      * eapply Forall_impl; [exact Hv1|]. intros y Hy. rewrite lookup_insert_ne; [done|].
        intros Heq. congruence.
      * by rewrite lookup_insert_eq.
      * eapply Forall_impl; [exact Hv2|]. intros y Hy. rewrite lookup_insert_ne; [done|].
        intros Heq. congruence.
    + rewrite lookup_insert_ne; [done|]. intros <-. apply (Hfresh new); [by left|done].
  - split; simpl.
    + intros a Ha [y Hy]. rewrite fmap_app in Ha.
      assert (a ≠ new) by congruence.
      assert (a ≠ before hd xs1.*1).
      { intros ->. apply Ha, before_in. }
      assert (a ≠ cursor hd xs2.*1).
      { intros ->. apply Ha, cursor_in. }
      by rewrite !lookup_insert_ne by done.
    + intros b Hb. by rewrite lookup_insert_ne.
Qed.

Lemma wp_erase_end E V this hd xs (Q : unit → view → Prop) :
  is_list V this hd xs → Q tt V → wp E (s21.erase this hd) V Q.
Proof.
  intros Hl HQ. unfold s21.erase. apply wp_bind. eapply wp_end; [done|].
  rewrite decide_False by (by intros ?). by apply wp_ret.
Qed.

Lemma wp_erase E V this hd xs1 x xs2 (Q : unit → view → Prop) :
  is_list V this hd (xs1 ++ x :: xs2) →
  (∀ V', is_list V' this hd (xs1 ++ xs2) →
     frame (hd :: (xs1 ++ x :: xs2).*1) this V V' → Q tt V') →
  wp E (s21.erase this x.1) V Q.
Proof.
  intros Hl HQ. pose proof (is_list_size_bound _ _ _ _ Hl) as Hsz.
  unfold s21.erase. apply wp_bind. eapply wp_end; [done|].
  destruct Hl as [Ho Hr Hv Hs]. destruct V as [n p v o]. simpl in *.
  rewrite fmap_app, fmap_cons in Hr. pose proof Hr as [Hnd _ _].
  pose proof (ring_link_mid _ _ _ _ _ _ Hr) as [Hp Hn].
  apply NoDup_remove_mid in Hnd as [Hnd Hx].
  assert (x.1 ≠ hd) as Hxhd by (intros E'; apply Hx; rewrite E'; by left).
  assert (x.1 ≠ before hd xs1.*1) as Hxpr.
  { intros E'. apply Hx. rewrite E'. apply before_in. }
  assert (x.1 ≠ cursor hd xs2.*1) as Hxnx.
  { intros E'. apply Hx. rewrite E'. apply cursor_in. }
  rewrite decide_True by done.
  apply wp_bind. eapply wp_UnAttach; [done|done| | |done|done|].
  { eapply ring_alloc_next; [done|]. rewrite elem_of_cons, elem_of_app.
    destruct (before_elem hd xs1.*1); auto. }
  { eapply ring_alloc_prev; [done|]. rewrite elem_of_cons, elem_of_app, elem_of_cons.
    destruct (cursor_elem hd xs2.*1); auto. }
  do 3 wp_step. apply HQ.
  - split; simpl.
    + rewrite lookup_insert_eq. do 2 f_equal.
      rewrite !length_app in *. simpl in *. rewrite wrap_small; lia.
    + rewrite fmap_app. eapply ring_frame; [by eapply ring_detach|].
      intros a Ha. assert (a ≠ x.1) by (by intros ->).
      split; rewrite lookup_delete_ne by congruence;
        by rewrite lookup_insert_ne by congruence.
    + unfold vals in *. rewrite Forall_app. rewrite Forall_app, Forall_cons in Hv.
      destruct Hv as (Hv1 & _ & Hv2).
      assert (∀ y, y ∈ xs1 ++ xs2 → y.1 ≠ x.1) as Hne.
      { intros y Hy E'. apply Hx. right. rewrite <-E', <-fmap_app.
        by apply list_elem_of_fmap_2. }
      split.
      * apply Forall_forall. intros y Hy. rewrite Forall_forall in Hv1.
        rewrite lookup_delete_ne; [by apply Hv1|].
        intros E'. eapply Hne; [|done]. apply elem_of_app. by left.
      * apply Forall_forall. intros y Hy. rewrite Forall_forall in Hv2.
        rewrite lookup_delete_ne; [by apply Hv2|].
        intros E'. eapply Hne; [|done]. apply elem_of_app. by right.
    + by rewrite lookup_delete_ne.
  - split; simpl.
    + intros a Ha _. rewrite fmap_app, fmap_cons in Ha.
      assert (a ≠ x.1).
      { intros ->. apply Ha. rewrite elem_of_cons, elem_of_app, elem_of_cons. auto. }
      assert (a ≠ before hd xs1.*1).
      { intros ->. apply Ha. rewrite elem_of_cons, elem_of_app.
        destruct (before_elem hd xs1.*1); auto. }
      assert (a ≠ cursor hd xs2.*1).
      { intros ->. apply Ha. rewrite elem_of_cons, elem_of_app, elem_of_cons.
        destruct (cursor_elem hd xs2.*1); auto. }
      rewrite !lookup_delete_ne by congruence.
      by rewrite !lookup_insert_ne by congruence.
    + intros b Hb. by rewrite lookup_insert_ne.
Qed.

(** No node of [l1] is a node of [l2]. *)
Definition apart (l1 l2 : list Z) : Prop := ∀ a, a ∈ l1 → a ∉ l2.

Lemma before_in_nonempty (hd : Z) l : l ≠ [] → before hd l ∈ l.
Proof.
  intros Hl. unfold before. destruct (last l) as [z|] eqn:El; [|by apply last_None in El].
  simpl. apply last_Some in El as [l' ->]. apply elem_of_app. right. by left.
Qed.

Lemma cursor_in_nonempty (hd : Z) l : l ≠ [] → cursor hd l ∈ l.
Proof. destruct l; [done|]. intros _. by left. Qed.

Lemma ring_splice' n p h1 l1 l2 h2 bs :
  ring n p h1 (l1 ++ l2) → ring n p h2 bs → bs ≠ [] →
  apart (h1 :: l1 ++ l2) (h2 :: bs) →
  let pr := before h1 l1 in let pos := cursor h1 l2 in
  let n' := <[h2 := h2]> (<[pr := cursor h2 bs]> (<[before h2 bs := pos]> n)) in
  let p' := <[h2 := h2]> (<[pos := before h2 bs]> (<[cursor h2 bs := pr]> p)) in
  ring n' p' h1 (l1 ++ bs ++ l2) ∧ ring n' p' h2 [].
Proof.
  intros Hr1 Hr2 Hbs Hap. destruct bs as [|b bs]; [done|].
  by eapply ring_splice.
Qed.

Lemma wp_splice E V this other h1 h2 xs1 xs2 ys (Q : unit → view → Prop) :
  this ≠ other →
  is_list V this h1 (xs1 ++ xs2) → is_list V other h2 ys →
  apart (h1 :: (xs1 ++ xs2).*1) (h2 :: ys.*1) →
  (∀ V', is_list V' this h1 (xs1 ++ ys ++ xs2) → is_list V' other h2 [] →
     (ys = [] → V' = V) → Q tt V') →
  wp E (s21.splice this (cursor h1 xs2.*1) other) V Q.
Proof.
  intros Hne Hl1 Hl2 Hap HQ. unfold s21.splice.
  apply wp_bind. eapply wp_empty; [done|].
  destruct (decide (ys = [])) as [->|Hys].
  { rewrite bool_decide_true by done. apply wp_ret. by apply HQ. }
  rewrite bool_decide_false by done. cbn [negb].
  apply wp_bind. eapply wp_end; [done|].
  destruct Hl1 as [Ho1 Hr1 Hv1 Hs1], Hl2 as [Ho2 Hr2 Hv2 Hs2].
  destruct V as [n p v o]. cbn [vn vp vv vo] in *.
  rewrite fmap_app in Hr1, Hap.
  assert (ys.*1 ≠ []) as Hbs by (by destruct ys).
  set (bs := ys.*1) in *.
  set (pr := before h1 xs1.*1) in *. set (pos := cursor h1 xs2.*1) in *.
  set (ol := before h2 bs) in *. set (b := cursor h2 bs) in *.
  pose proof (ring_link _ _ _ _ _ Hr1) as [Hn1 Hp1].
  pose proof (ring_link _ _ _ [] _ Hr2) as [Hn2 _].
  pose proof (ring_link _ _ _ _ [] (eq_ind_r (ring n p h2) Hr2 (app_nil_r _))) as [_ Hp2].
  change (before h2 []) with h2 in Hn2. change (cursor h2 []) with h2 in Hp2.
  fold pr pos in Hn1, Hp1. fold b in Hn2. fold ol in Hp2.
  pose proof (ring_splice' _ _ _ _ _ _ _ Hr1 Hr2 Hbs Hap) as [Hr1' Hr2'].
  cbv zeta in Hr1', Hr2'. fold pr pos ol b in Hr1', Hr2'.
  assert (pr ∈ h1 :: xs1.*1 ++ xs2.*1) as Hpr by apply before_in.
  assert (pos ∈ h1 :: xs1.*1 ++ xs2.*1) as Hpos by apply cursor_in.
  assert (ol ∈ bs) as Hol by by apply before_in_nonempty.
  assert (b ∈ bs) as Hb by by apply cursor_in_nonempty.
  pose proof Hr2 as [Hnd2 _ _]. apply NoDup_cons in Hnd2 as [Hh2 _].
  assert (b ≠ h2) as D1 by (by intros E'; apply Hh2; rewrite <-E').
  assert (ol ≠ h2) as D2 by (by intros E'; apply Hh2; rewrite <-E').
  assert (pos ≠ b) as D3.
  { intros E'. apply (Hap pos Hpos). rewrite E'. by right. }
  assert (pos ≠ h2) as D4.
  { intros E'. apply (Hap pos Hpos). rewrite E'. by left. }
  assert (pr ≠ h2) as D5.
  { intros E'. apply (Hap pr Hpr). rewrite E'. by left. }
  assert (is_Some (n !! ol) ∧ is_Some (p !! b) ∧ is_Some (n !! h2) ∧ is_Some (p !! h2))
    as (A1 & A2 & A3 & A4).
  { split_and!; [eapply ring_alloc_next|eapply ring_alloc_prev
                 |eapply ring_alloc_next|eapply ring_alloc_prev];
      try exact Hr2; try (by left); by right. }
  assert (is_Some (n !! pr) ∧ is_Some (p !! pos)) as (A5 & A6).
  { split; [eapply (ring_alloc_next _ _ _ _ _ Hr1)|eapply (ring_alloc_prev _ _ _ _ _ Hr1)]; done. }
  unfold s21.size, s21.end_. repeat wp_step.
  pose proof (ring_size_bound _ _ _ _ Hr1') as Hsz.
  apply HQ; [| |done].
  - split; cbn [vn vp vv vo].
    + rewrite lookup_insert_ne, lookup_insert_eq by done. do 2 f_equal.
      unfold bs in Hsz. rewrite !length_app, !length_fmap in *.
      rewrite wrap_small; lia.
    + by rewrite !fmap_app.
    + unfold vals in *. rewrite !Forall_app in *. naive_solver.
    + done.
  - split; cbn [vn vp vv vo].
    + by rewrite lookup_insert_eq.
    + done.
    + apply Forall_nil_2.
    + done.
Qed.

End ListMethods.

(** ** [reverse] *)

Section Reverse.
Context {T : Type} `{Elem T}.
Local Abbreviation view := (view T).
Implicit Types (n p : gmap Z Z) (v : gmap Z T) (o : gmap Z s21_list).
Implicit Types (V : view) (xs ys : list (Z * T)).

(** [n'], [p'] are [n], [p] with the two links of every node of [S]
    exchanged. *)
Definition swapped (S : list Z) n p n' p' : Prop :=
  ∀ a, (a ∈ S → n' !! a = p !! a ∧ p' !! a = n !! a) ∧
       (a ∉ S → n' !! a = n !! a ∧ p' !! a = p !! a).

Lemma ring_reverse n p n' p' hd l :
  ring n p hd l → swapped (hd :: l) n p n' p' → ring n' p' hd (reverse l).
Proof.
  intros [Hnd Hp Hok] Hsw.
  assert (ring p n hd (reverse l)) as Hr.
  { split.
    - apply NoDup_cons in Hnd as [? ?]. apply NoDup_cons.
      by rewrite elem_of_reverse, reverse_Permutation.
    - apply path_reverse in Hp.
      by rewrite reverse_cons, reverse_snoc in Hp.
    - apply Forall_cons in Hok as [? ?]. apply Forall_cons. by rewrite Forall_reverse. }
  eapply ring_frame; [done|].
  intros a Ha. apply Hsw. by rewrite elem_of_cons, elem_of_reverse, <-elem_of_cons in Ha.
Qed.

Lemma cursor_drop (hd : Z) l k x :
  l !! k = Some x → cursor hd (drop k l) = x.
Proof. intros Hk. by rewrite (drop_S _ _ _ Hk). Qed.

Lemma cursor_drop_hd (hd : Z) l k :
  hd ∉ l → cursor hd (drop k l) = hd → (length l ≤ k)%nat.
Proof.
  intros Hhd Hc. destruct (l !! k) as [x|] eqn:Hk; [|by apply lookup_ge_None].
  rewrite (cursor_drop _ _ _ _ Hk) in Hc. subst x.
  exfalso. apply Hhd. by eapply list_elem_of_lookup_2.
Qed.

Lemma wp_reverse E V this hd xs fuel (Q : unit → view → Prop) :
  is_list V this hd xs → enough E (length xs) fuel →
  (∀ V', is_list V' this hd (reverse xs) → frame (hd :: xs.*1) this V V' → Q tt V') →
  wp E (s21.reverse fuel this) V Q.
Proof.
  intros Hl Hfuel HQ. unfold s21.reverse.
  apply wp_bind. eapply wp_begin; [done|].
  apply wp_bind. eapply wp_end; [done|].
  destruct Hl as [Ho Hr Hv Hs]. destruct V as [n p v o]. cbn [vn vp vv vo] in *.
  set (l := xs.*1) in *.
  pose proof Hr as [Hnd _ _]. pose proof Hnd as [Hhd Hndl]%NoDup_cons.
  apply wp_bind.
  eapply wp_mono; [|done|].
  { eapply (wp_while E
      (λ m it W, ∃ k n' p', W = View n' p' v o ∧ m = (length l - k)%nat ∧ (k ≤ length l)%nat ∧
                 it = cursor hd (drop k l) ∧ swapped (take k l) n p n' p')
      (λ it W, bool_decide (it ≠ hd))) with (m := length l).
    - intros m it W Q' _ HQ'. by apply wp_ret.
    - intros m it W (k & n' & p' & -> & -> & Hk & -> & Hsw) Hc.
      apply bool_decide_eq_true in Hc.
      assert (k < length l)%nat as Hlt.
      { destruct (decide (k < length l)%nat); [done|]. exfalso. apply Hc.
        by rewrite drop_ge by lia. }
      destruct (lookup_lt_is_Some_2 l k Hlt) as [x Hx].
      rewrite (cursor_drop _ _ _ _ Hx).
      pose proof (take_drop_middle _ _ _ Hx) as El.
      pose proof Hr as Hr'. rewrite <-El in Hr'.
      apply ring_link_mid in Hr' as [Hpx Hnx].
      assert (x ∉ take k l) as Hxk.
      { rewrite <-El in Hndl. apply NoDup_app in Hndl as (_ & Hd & _).
        intros Hin. apply (Hd x Hin). by left. }
      destruct (Hsw x) as [_ [Hn' Hp']]; [done|].
      apply wp_bind. eapply wp_SwapNextPrev; [by rewrite Hn'|by rewrite Hp'|].
      wp_step. exists (length l - S k)%nat. split; [lia|].
      eexists (S k), _, _. split_and!; [reflexivity|done|lia|done|].
      rewrite (take_S_r _ _ _ Hx). intros a. split.
      + intros [Ha| ->%list_elem_of_singleton]%elem_of_app.
        * assert (a ≠ x) by (by intros ->).
          rewrite !lookup_insert_ne by done. by apply Hsw.
        * by rewrite !lookup_insert_eq.
      + intros [Ha Hax]%not_elem_of_app. rewrite list_elem_of_singleton in Hax.
        rewrite !lookup_insert_ne by done. by apply Hsw.
    - exists 0%nat, n, p. split_and!; [done|lia|lia|by rewrite drop_0|].
      intros a. rewrite take_0. split; [by intros ?%elem_of_nil|done].
    - unfold l. by rewrite length_fmap. }
  cbv beta. intros it W [(m & k & n' & p' & -> & -> & Hk & -> & Hsw) Hc].
  apply bool_decide_eq_false in Hc. apply dec_stable in Hc.
  apply cursor_drop_hd in Hc; [|done].
  rewrite take_ge in Hsw by lia.
  pose proof (ring_link _ _ _ [] _ Hr) as [Hn0 _].
  pose proof (ring_link _ _ _ _ [] (eq_ind_r (ring n p hd) Hr (app_nil_r _))) as [_ Hp0].
  change (before hd []) with hd in Hn0. change (cursor hd []) with hd in Hp0.
  destruct (Hsw hd) as [_ [Hn' Hp']]; [done|].
  wp_step. eapply wp_SwapNextPrev; [by rewrite Hn'|by rewrite Hp'|].
  assert (swapped (hd :: l) n p (<[hd := before hd l]> n') (<[hd := cursor hd l]> p')) as Hsw'.
  { intros a. split.
    - intros [->|Ha]%elem_of_cons.
      + by rewrite !lookup_insert_eq.
      + assert (a ≠ hd) by (by intros ->).
        rewrite !lookup_insert_ne by done. by apply Hsw.
    - intros [Ha1 Ha2]%not_elem_of_cons.
      rewrite !lookup_insert_ne by done. by apply Hsw. }
  apply HQ.
  - split; cbn [vn vp vv vo].
    + by rewrite length_reverse.
    + rewrite fmap_reverse. by eapply ring_reverse.
    + unfold vals. by rewrite Forall_reverse.
    + done.
  - split; cbn [vn vp vv vo]; [|done].
    intros a Ha _. by destruct (Hsw' a) as [_ [-> ->]].
Qed.

End Reverse.

(** ** [merge] *)

Section Merge.
Context {T : Type} `{Elem T}.
Local Abbreviation view := (view T).
Implicit Types (n p : gmap Z Z) (v : gmap Z T) (o : gmap Z s21_list).
Implicit Types (V : view) (xs ys : list (Z * T)).

(** The order in which [merge] keeps the element of [this] first:
    [y] is not less than [x]. *)
Definition keep_first (x y : Z * T) : Prop := elem_lt y.2 x.2 = false.

#[global] Instance keep_first_dec x y : Decision (keep_first x y).
Proof. unfold keep_first. apply _. Defined.

Lemma vals_lookup v xs x : vals v xs → x ∈ xs → v !! x.1 = Some x.2.
Proof. unfold vals. rewrite Forall_forall. auto. Qed.

Lemma apart_sym (l1 l2 : list Z) : apart l1 l2 → apart l2 l1.
Proof. intros Hap a H2 H1. by apply (Hap a). Qed.

Lemma wp_merge_step_move E V this other h1 h2 xs1 x xs2 y ys (Q : Z * Z → view → Prop) :
  this ≠ other →
  is_list V this h1 (xs1 ++ x :: xs2) → is_list V other h2 (y :: ys) →
  apart (h1 :: (xs1 ++ x :: xs2).*1) (h2 :: (y :: ys).*1) →
  elem_lt y.2 x.2 = true →
  (∀ V', is_list V' this h1 ((xs1 ++ [y]) ++ x :: xs2) → is_list V' other h2 ys →
     apart (h1 :: ((xs1 ++ [y]) ++ x :: xs2).*1) (h2 :: ys.*1) →
     Q (x.1, cursor h2 ys.*1) V') →
  wp E (s21.merge_step this other (x.1, y.1)) V Q.
Proof.
  intros Hne Hl1 Hl2 Hap Hlt HQ.
  pose proof (is_list_size_bound _ _ _ _ Hl2) as Hsz2.
  destruct Hl1 as [Ho1 Hr1 Hv1 Hs1], Hl2 as [Ho2 Hr2 Hv2 Hs2].
  destruct V as [n p v o]. cbn [vn vp vv vo] in *.
  rewrite fmap_app, !fmap_cons in *.
  set (X := x.1) in *. set (Y := y.1) in *.
  set (l1 := xs1.*1) in *. set (l2 := xs2.*1) in *. set (bs := ys.*1) in *.
  set (pr := before h1 l1) in *. set (nx := cursor h2 bs) in *.
  pose proof (ring_link_mid _ _ _ _ _ _ Hr1) as [HpX HnX].
  pose proof (ring_link_mid _ _ _ [] _ _ Hr2) as [HpY HnY].
  change (before h2 []) with h2 in HpY. fold pr in HpX. fold nx in HnY.
  assert (v !! Y = Some y.2) as HvY by (apply (vals_lookup _ _ y Hv2); by left).
  assert (v !! X = Some x.2) as HvX.
  { apply (vals_lookup _ _ x Hv1). apply elem_of_app. right. by left. }
  pose proof Hr1 as [Hnd1 _ Hok1]. pose proof Hr2 as [Hnd2 _ Hok2].
  change (h2 :: Y :: bs) with (h2 :: [] ++ Y :: bs) in Hnd2.
  apply NoDup_remove_mid in Hnd2 as [Hnd2 HY2]. simpl in Hnd2, HY2.
  assert (X ∈ h1 :: l1 ++ X :: l2) as HX1.
  { rewrite elem_of_cons, elem_of_app, elem_of_cons. auto. }
  assert (pr ∈ h1 :: l1 ++ X :: l2) as Hpr1 by apply before_in.
  assert (nx ∈ h2 :: bs) as Hnx2.
  { rewrite elem_of_cons. apply cursor_elem. }
  assert (∀ a, a ∈ h1 :: l1 ++ X :: l2 → a ≠ Y ∧ a ≠ h2 ∧ a ≠ nx) as Hd.
  { intros a Ha. pose proof (Hap a Ha) as Hna.
    rewrite !not_elem_of_cons in Hna. split_and!; [naive_solver..|].
    intros ->. apply elem_of_cons in Hnx2. naive_solver. }
  assert (∀ a, a ∈ h2 :: bs → a ≠ Y ∧ a ≠ X ∧ a ≠ pr) as Hd'.
  { intros a Ha. split_and!.
    - by intros ->.
    - intros ->. apply (Hap X HX1). rewrite elem_of_cons in Ha. rewrite !elem_of_cons. naive_solver.
    - intros ->. apply (Hap pr Hpr1). rewrite elem_of_cons in Ha. rewrite !elem_of_cons. naive_solver. }
  destruct (Hd X HX1) as (D1 & D2 & D3). destruct (Hd pr Hpr1) as (D4 & D5 & D6).
  destruct (Hd' nx Hnx2) as (D7 & _ & _).
  assert (Y ≠ h2) as D8 by (intros E'; apply HY2; rewrite E'; by left).
  (* the ring of [other] once [Y] is detached *)
  pose proof (ring_detach _ _ _ [] Y bs h2 nx Hr2 eq_refl eq_refl) as Hr2'.
  simpl in Hr2'.
  (* the ring of [this] before [Y] is attached *)
  set (n1 := <[Y := Y]> (<[h2 := nx]> n)). set (p1 := <[Y := Y]> (<[nx := h2]> p)).
  assert (ring n1 p1 h1 (l1 ++ X :: l2)) as Hr1'.
  { eapply ring_frame; [done|]. intros a Ha. destruct (Hd a Ha) as (? & ? & ?).
    unfold n1, p1. by rewrite !lookup_insert_ne by done. }
  assert (ring (<[pr := Y]> (<[Y := X]> n1)) (<[X := Y]> (<[Y := pr]> p1)) h1
            (l1 ++ Y :: X :: l2)) as Hr1''.
  { apply ring_attach; try done.
    - intros HYin. by destruct (Hd Y HYin).
    - apply Forall_cons in Hok2 as [_ Hok2]. by apply Forall_cons in Hok2 as []. }
  pose proof (ring_size_bound _ _ _ _ Hr1'') as Hsz1.
  unfold s21.merge_step.
  do 2 wp_step. rewrite Hlt. wp_step.
  apply wp_bind. eapply wp_UnAttach; [done|done| | |done|done|].
  { eapply ring_alloc_next; [exact Hr2|by left]. }
  { eapply ring_alloc_prev; [exact Hr2|]. apply elem_of_cons in Hnx2 as [->|?]; [by left|by do 2 right]. }
  do 2 wp_step.
  apply wp_bind. eapply wp_AttachPrev.
  { by rewrite !lookup_insert_ne by done. }
  { solve_is_Some. } { solve_is_Some. }
  { rewrite !lookup_insert_is_Some'. do 2 right.
    eapply ring_alloc_next; [exact Hr1|done]. }
  { done. }
  do 3 wp_step. fold n1 p1.
  apply HQ.
  - split; cbn [vn vp vv vo].
    + rewrite lookup_insert_eq. do 2 f_equal.
      subst l1 l2.
      rewrite ?length_app, ?length_cons, ?length_fmap, ?length_app, ?length_cons in *.
      cbn [length]. rewrite wrap_small; lia.
    + rewrite <-(assoc_L (++)). cbn [app]. rewrite fmap_app, !fmap_cons. done.
    + unfold vals in *. rewrite !Forall_app, !Forall_cons in *. naive_solver.
    + done.
  - split; cbn [vn vp vv vo].
    + rewrite lookup_insert_ne, lookup_insert_eq by done. do 2 f_equal.
      rewrite ?length_cons in *. rewrite wrap_small; lia.
    + eapply ring_frame; [done|]. intros a Ha. destruct (Hd' a Ha) as (? & ? & ?).
      unfold n1, p1. by rewrite !(lookup_insert_ne _ pr), !(lookup_insert_ne _ X),
        !(lookup_insert_ne _ Y) by done.
    + unfold vals in *. by apply Forall_cons in Hv2 as [].
    + done.
  - rewrite fmap_app. change ([y].*1) with [Y]. rewrite <-(assoc_L (++)). cbn [app]. fold l1.
    intros a Ha. simpl in Ha.
    rewrite elem_of_cons, elem_of_app, !elem_of_cons in Ha.
    assert (a = Y ∨ a ∈ h1 :: l1 ++ X :: l2) as [->|Ha'].
    { rewrite elem_of_cons, elem_of_app, !elem_of_cons. naive_solver. }
    + done.
    + pose proof (Hap a Ha') as Hna. rewrite !not_elem_of_cons in Hna.
      rewrite not_elem_of_cons. naive_solver.
Qed.

Lemma wp_merge_step_keep E V this other h1 h2 xs1 x xs2 y ys (Q : Z * Z → view → Prop) :
  is_list V this h1 (xs1 ++ x :: xs2) → is_list V other h2 (y :: ys) →
  elem_lt y.2 x.2 = false →
  Q (cursor h1 xs2.*1, y.1) V →
  wp E (s21.merge_step this other (x.1, y.1)) V Q.
Proof.
  intros Hl1 Hl2 Hlt HQ.
  destruct Hl1 as [Ho1 Hr1 Hv1 Hs1], Hl2 as [Ho2 Hr2 Hv2 Hs2].
  destruct V as [n p v o]. cbn [vn vp vv vo] in *.
  rewrite fmap_app, !fmap_cons in *.
  pose proof (ring_link_mid _ _ _ _ _ _ Hr1) as [_ HnX].
  assert (v !! y.1 = Some y.2) as HvY by (apply (vals_lookup _ _ y Hv2); by left).
  assert (v !! x.1 = Some x.2) as HvX.
  { apply (vals_lookup _ _ x Hv1). apply elem_of_app. right. by left. }
  unfold s21.merge_step. do 2 wp_step. rewrite Hlt. by do 2 wp_step.
Qed.

Lemma is_list_cursor_hd V this hd xs1 xs2 :
  is_list V this hd (xs1 ++ xs2) → cursor hd xs2.*1 = hd → xs2 = [].
Proof.
  intros [_ [Hnd _ _] _ _] Hc. destruct xs2 as [|x xs2]; [done|].
  apply NoDup_cons in Hnd as [Hhd _]. exfalso. apply Hhd.
  rewrite fmap_app, fmap_cons, <-Hc. apply elem_of_app. right. by left.
Qed.

Lemma wp_merge E V this other h1 h2 xs ys fuel (Q : unit → view → Prop) :
  this ≠ other →
  is_list V this h1 xs → is_list V other h2 ys →
  apart (h1 :: xs.*1) (h2 :: ys.*1) →
  enough E (length xs + length ys) fuel →
  (∀ V', is_list V' this h1 (list_merge keep_first xs ys) → is_list V' other h2 [] →
     Q tt V') →
  wp E (s21.merge fuel this other) V Q.
Proof.
  intros Hne Hl1 Hl2 Hap Hfuel HQ. unfold s21.merge. rewrite decide_True by done.
  apply wp_bind. eapply wp_begin; [done|].
  apply wp_bind. eapply wp_end; [done|].
  apply wp_bind. eapply wp_begin; [done|].
  apply wp_bind. eapply wp_end; [done|].
  apply wp_bind. eapply wp_mono; [|done|].
  { eapply (wp_while E
      (λ m '(tb, ob) W, ∃ xs1 xs2 ys2,
         is_list W this h1 (xs1 ++ xs2) ∧ is_list W other h2 ys2 ∧
         apart (h1 :: (xs1 ++ xs2).*1) (h2 :: ys2.*1) ∧
         tb = cursor h1 xs2.*1 ∧ ob = cursor h2 ys2.*1 ∧
         xs1 ++ list_merge keep_first xs2 ys2 = list_merge keep_first xs ys ∧
         m = (length xs2 + length ys2)%nat)
      (λ '(tb, ob) W, bool_decide (tb ≠ h1) && bool_decide (ob ≠ h2)))
      with (m := (length xs + length ys)%nat).
    - intros m [tb ob] W Q' _ HQ'. by apply wp_ret.
    - intros m [tb ob] W (xs1 & xs2 & ys2 & Hl1' & Hl2' & Hap' & -> & -> & Hm & ->) Hc.
      apply andb_true_iff in Hc as [Hc1%bool_decide_eq_true Hc2%bool_decide_eq_true].
      destruct xs2 as [|x xs2]; [done|]. destruct ys2 as [|y ys2]; [done|].
      change (cursor h1 (x :: xs2).*1) with x.1. change (cursor h2 (y :: ys2).*1) with y.1.
      rewrite list_merge_cons in Hm.
      destruct (elem_lt y.2 x.2) eqn:Hlt.
      + rewrite decide_False in Hm by (unfold keep_first; congruence).
        eapply wp_merge_step_move; try done.
        intros V' Hl1'' Hl2'' Hap''.
        exists (length (x :: xs2) + length ys2)%nat. split; [simpl; lia|].
        exists (xs1 ++ [y]), (x :: xs2), ys2. split_and!; try done.
        by rewrite <-(assoc_L (++)).
      + rewrite decide_True in Hm by done.
        eapply wp_merge_step_keep; try done.
        exists (length xs2 + length (y :: ys2))%nat. split; [simpl; lia|].
        exists (xs1 ++ [x]), xs2, (y :: ys2). rewrite <-!(assoc_L (++)). by split_and!.
    - exists [], xs, ys. by split_and!.
    - done. }
  cbv beta. intros [tb ob] W [(m & xs1 & xs2 & ys2 & Hl1' & Hl2' & Hap' & -> & -> & Hm & ->) Hc].
  apply wp_bind. eapply wp_end; [done|].
  change h1 with (cursor h1 ([] : list (Z * T)).*1) at 1.
  eapply wp_splice; [done|by rewrite app_nil_r|done|by rewrite app_nil_r|].
  intros V' Hl1'' Hl2'' _. apply HQ; [|done].
  replace (list_merge keep_first xs ys) with ((xs1 ++ xs2) ++ ys2 ++ []); [done|].
  rewrite <-Hm, app_nil_r, <-(assoc_L (++)). f_equal.
  apply andb_false_iff in Hc as [Hc%bool_decide_eq_false|Hc%bool_decide_eq_false];
    apply dec_stable in Hc.
  - apply (is_list_cursor_hd _ _ _ _ _ Hl1') in Hc as ->.
    by rewrite list_merge_nil_l.
  - apply (is_list_cursor_hd _ _ _ [] _ Hl2') in Hc as ->.
    by rewrite list_merge_nil_r, app_nil_r.
Qed.

End Merge.

(** ** Exchanging two values of a sequence *)

Section Swap.
Context {T : Type} `{Inhabited T}.
Implicit Types (ws : list T).

Definition swap (i j : nat) (ws : list T) : list T :=
  <[j := ws !!! i]> (<[i := ws !!! j]> ws).

Lemma swap_length i j ws : length (swap i j ws) = length ws.
Proof. unfold swap. by rewrite !length_insert. Qed.

Lemma swap_lookup i j k ws :
  (i < length ws)%nat → (j < length ws)%nat →
  swap i j ws !!! k =
    if decide (k = j) then ws !!! i else if decide (k = i) then ws !!! j else ws !!! k.
Proof.
  intros Hi Hj. unfold swap. case_decide as Hkj.
  - subst k. rewrite list_lookup_total_insert_eq; [done|by rewrite length_insert].
  - rewrite list_lookup_total_insert_ne by done. case_decide as Hki.
    + subst k. by rewrite list_lookup_total_insert_eq.
    + by rewrite list_lookup_total_insert_ne.
Qed.

Lemma insert_head_perm ws j (a b : T) :
  ws !! j = Some b → b :: <[j := a]> ws ≡ₚ a :: ws.
Proof.
  revert j. induction ws as [|c ws IH]; intros [|j] Hj; simplify_eq/=.
  - apply perm_swap.
  - rewrite perm_swap, (IH _ Hj). apply perm_swap.
Qed.

Lemma swap_perm i j ws :
  (i < length ws)%nat → (j < length ws)%nat → swap i j ws ≡ₚ ws.
Proof.
  revert i j. induction ws as [|a ws IH]; intros i j Hi Hj; simpl in *; [lia|].
  unfold swap. destruct i as [|i], j as [|j]; simpl.
  - done.
  - destruct (lookup_lt_is_Some_2 ws j) as [b Hb]; [lia|].
    rewrite (list_lookup_total_correct _ _ _ Hb). by apply insert_head_perm.
  - destruct (lookup_lt_is_Some_2 ws i) as [b Hb]; [lia|].
    rewrite (list_lookup_total_correct _ _ _ Hb). by apply insert_head_perm.
  - f_equiv. apply IH; lia.
Qed.

(** [ws'] is [ws] with the values at positions [lo..hi] moved among
    themselves. *)
Definition shuffled (lo hi : nat) (ws ws' : list T) : Prop :=
  length ws' = length ws ∧ ws' ≡ₚ ws ∧
  (∀ k, ¬ (lo ≤ k ≤ hi)%nat → ws' !!! k = ws !!! k) ∧
  (∀ k, (lo ≤ k ≤ hi)%nat → ∃ k', (lo ≤ k' ≤ hi)%nat ∧ ws' !!! k = ws !!! k').

Lemma shuffled_refl lo hi ws : shuffled lo hi ws ws.
Proof. split_and!; eauto. Qed.

Lemma shuffled_trans lo hi ws1 ws2 ws3 :
  shuffled lo hi ws1 ws2 → shuffled lo hi ws2 ws3 → shuffled lo hi ws1 ws3.
Proof.
  intros (L1 & P1 & O1 & I1) (L2 & P2 & O2 & I2). split_and!.
  - congruence.
  - by rewrite P2.
  - intros k Hk. by rewrite O2, O1.
  - intros k Hk. destruct (I2 k Hk) as (k' & Hk' & ->). by apply I1.
Qed.

Lemma shuffled_mono lo hi lo' hi' ws ws' :
  (lo ≤ lo')%nat → (hi' ≤ hi)%nat → shuffled lo' hi' ws ws' → shuffled lo hi ws ws'.
Proof.
  intros Hlo Hhi (L & Pm & O & I). split_and!; [done|done|..].
  - intros k Hk. apply O. lia.
  - intros k Hk. destruct (decide (lo' ≤ k ≤ hi')%nat) as [Hin|Hout].
    + destruct (I k Hin) as (k' & ? & ?). exists k'. split; [lia|done].
    + exists k. split; [lia|]. by apply O.
Qed.

Lemma shuffled_swap lo hi i j ws :
  (lo ≤ i ≤ hi)%nat → (lo ≤ j ≤ hi)%nat → (hi < length ws)%nat →
  shuffled lo hi ws (swap i j ws).
Proof.
  intros Hi Hj Hlen. split_and!.
  - apply swap_length.
  - apply swap_perm; lia.
  - intros k Hk. rewrite swap_lookup by lia. repeat case_decide; try lia. done.
  - intros k Hk. rewrite swap_lookup by lia. repeat case_decide; eauto.
Qed.

End Swap.

(** ** [sort]: the loops of [quick_sort] over a fixed ring *)

Section SortLoops.
Context {T : Type} `{Elem T}.
Local Abbreviation view := (view T).
#[local] Instance elem_inhabited : Inhabited T := populate elem_default.

(** The ring is fixed: [P] lists its nodes from the sentinel round to the
    sentinel again, [P !!! 0] and [P !!! S N] being the sentinel and
    [P !!! 1 .. P !!! N] the element nodes. *)
Variables (E : fault → Prop) (n p : gmap Z Z) (o : gmap Z s21_list).
Variables (P : list Z) (N : nat) (v0 : gmap Z T).
Hypothesis P_next : ∀ i, (i ≤ N)%nat → n !! (P !!! i) = Some (P !!! S i).
Hypothesis P_prev : ∀ i, (i ≤ N)%nat → p !! (P !!! S i) = Some (P !!! i).
Hypothesis P_inj : ∀ i k, (1 ≤ i ≤ N)%nat → (k ≤ N)%nat → P !!! k = P !!! i → k = i.
Hypothesis N_bound : Z.of_nat N + 1 < 2 ^ 64.

(** Node [P !!! i] holds [ws !!! i], for the element nodes; elsewhere the
    values are those of [v0], the values at the start. *)
Definition holds (v : gmap Z T) (ws : list T) : Prop :=
  length ws = S N ∧
  (∀ i, (1 ≤ i ≤ N)%nat → v !! (P !!! i) = Some (ws !!! i)) ∧
  (∀ a, (∀ i, (1 ≤ i ≤ N)%nat → a ≠ P !!! i) → v !! a = v0 !! a).

Lemma wp_swap_at v ws i j (Q : unit → view → Prop) :
  holds v ws → (1 ≤ i ≤ N)%nat → (1 ≤ j ≤ N)%nat →
  (∀ v', holds v' (swap i j ws) → Q tt (View n p v' o)) →
  wp E (s21.SwapValues (P !!! i) (P !!! j)) (View n p v o) Q.
Proof.
  intros (Hlen & Hv & Hfr) Hi Hj HQ.
  eapply wp_SwapValues; [by apply Hv..|]. apply HQ. split_and!.
  - by rewrite swap_length.
  - intros k Hk. rewrite swap_lookup by lia.
    destruct (decide (k = j)) as [->|Hkj]; [by rewrite lookup_insert_eq|].
    rewrite lookup_insert_ne.
    2:{ intros Heq. apply Hkj. symmetry. apply (P_inj k j); [lia|lia|done]. }
    destruct (decide (k = i)) as [->|Hki]; [by rewrite lookup_insert_eq|].
    rewrite lookup_insert_ne; [by apply Hv|].
    intros Heq. apply Hki. symmetry. apply (P_inj k i); [lia|lia|done].
  - intros a Ha. rewrite !lookup_insert_ne; [by apply Hfr|..].
    + intros <-. by apply (Ha i).
    + intros <-. by apply (Ha j).
Qed.

Lemma wp_pivot_walk fuel lo cnt v (Q : Z → view → Prop) :
  (1 ≤ lo)%nat → (lo + cnt - 1 ≤ N)%nat → (2 ≤ cnt)%nat → enough E (cnt / 2) fuel →
  Q (P !!! (lo - 1 + cnt / 2)%nat) (View n p v o) →
  wp E (s21.pivot_walk fuel (P !!! lo) (Z.of_nat cnt)) (View n p v o) Q.
Proof.
  intros Hlo Hhi Hcnt Hfuel HQ. unfold s21.pivot_walk.
  assert (cnt / 2 ≤ cnt)%nat as Hdiv by (apply Nat.Div0.div_le_upper_bound; lia).
  apply wp_bind. eapply wp_get_prev.
  { replace lo with (S (lo - 1)) at 1 by lia. apply P_prev. lia. }
  apply wp_bind. eapply wp_mono; [|done|].
  { eapply (wp_while E
      (λ m '(it, sh) W, ∃ k, W = View n p v o ∧ (k ≤ cnt / 2)%nat ∧
         it = P !!! (lo - 1 + k)%nat ∧ sh = Z.of_nat k ∧ m = (cnt / 2 - k)%nat)
      (λ '(it, sh) W, sh <? Z.of_nat cnt / 2)) with (m := (cnt / 2)%nat).
    - intros m [it sh] W Q' _ HQ'. by apply wp_ret.
    - intros m [it sh] W (k & -> & Hk & -> & -> & ->) Hc.
      apply Z.ltb_lt in Hc.
      change (Z.of_nat cnt / 2) with (Z.of_nat cnt / Z.of_nat 2) in Hc.
      rewrite <-(Nat2Z.inj_div cnt 2) in Hc. apply Nat2Z.inj_lt in Hc.
      unfold s21.pivot_step. wp_step.
      { apply P_next. lia. }
      wp_step. exists (cnt / 2 - S k)%nat. split; [lia|].
      exists (S k). split_and!; [done|lia| |rewrite wrap_small; lia|done].
      f_equal. lia.
    - exists 0%nat. split_and!; [done|lia|f_equal; lia|done|lia].
    - done. }
  cbv beta. intros [it sh] W [(m & k & -> & Hk & -> & -> & ->) Hc].
  apply Z.ltb_ge in Hc. change (Z.of_nat cnt / 2) with (Z.of_nat cnt / Z.of_nat 2) in Hc.
  rewrite <-(Nat2Z.inj_div cnt 2) in Hc. apply Nat2Z.inj_le in Hc.
  wp_step. by replace k with (cnt / 2)%nat by lia.
Qed.

(** What is recorded of a value [w] sent to one of the three bands of the
    partition around the pivot value [pv]: anything that follows from the
    test that sent it there, and holds of the pivot itself for the middle
    band. *)
Variables (is_less is_equal is_greater : T → T → Prop).
Hypothesis band_less : ∀ pv w, elem_lt w pv = true → is_less pv w.
Hypothesis band_equal : ∀ pv w, elem_lt w pv = false → elem_eq w pv = true → is_equal pv w.
Hypothesis band_greater :
  ∀ pv w, elem_lt w pv = false → elem_eq w pv = false → is_greater pv w.
Hypothesis band_pivot : ∀ pv, is_equal pv pv.

Definition part_inv (pv : T) (lo hi : nat) (ws : list T)
    (m : nat) (st : Z * Z * Z * Z) (W : view) : Prop :=
  let '(si, tl, tr, sh) := st in
  ∃ v' ws' s t e,
    W = View n p v' o ∧ holds v' ws' ∧ shuffled lo hi ws ws' ∧
    si = P !!! s ∧ tl = P !!! t ∧ tr = P !!! e ∧ sh = Z.of_nat (s + 1 - lo) ∧
    (lo ≤ s + 1)%nat ∧ (s < t)%nat ∧ (t ≤ e)%nat ∧ (e ≤ hi)%nat ∧
    (∀ k, (lo ≤ k ≤ s)%nat → is_less pv (ws' !!! k)) ∧
    (∀ k, (s < k < t)%nat → is_greater pv (ws' !!! k)) ∧
    (∀ k, (e ≤ k ≤ hi)%nat → is_equal pv (ws' !!! k)) ∧
    m = (e - t)%nat.

Lemma wp_partition_step pv lo hi ws m st W :
  (1 ≤ lo)%nat → (hi ≤ N)%nat →
  part_inv pv lo hi ws m st W →
  (let '(_, tl, tr, _) := st in tl ≠ tr) →
  wp E (s21.partition_step pv st) W
    (λ st' W', ∃ m', (m' < m)%nat ∧ part_inv pv lo hi ws m' st' W').
Proof.
  intros Hlo Hhi. destruct st as [[[si tl] tr] sh].
  intros (v' & ws' & s & t & e & -> & Hh & Hsh & -> & -> & -> & -> &
          Hs & Hst & Hte & Heh & HL & HG & HE & ->) Hne.
  assert (t < e)%nat as Hlt.
  { destruct (decide (t = e)) as [->|]; [done|lia]. }
  pose proof Hh as (Hlen & Hv & _).
  unfold s21.partition_step. wp_step; [apply Hv; lia|].
  destruct (elem_lt (ws' !!! t) pv) eqn:Hx.
  - wp_step; [apply P_next; lia|].
    apply wp_bind. eapply wp_swap_at; [done|lia|lia|]. intros v'' Hh''.
    wp_step; [apply P_next; lia|]. wp_step.
    exists (e - S t)%nat. split; [lia|].
    exists v'', (swap t (S s) ws'), (S s), (S t), e.
    split_and!; try done; try lia.
    + eapply shuffled_trans; [done|]. apply shuffled_swap; lia.
    + rewrite wrap_small; lia.
    + intros k Hk. rewrite swap_lookup by lia.
      repeat case_decide; subst; try lia; try (by apply band_less). apply HL. lia.
    + intros k Hk. rewrite swap_lookup by lia.
      repeat case_decide; subst; try lia; apply HG; lia.
    + intros k Hk. rewrite swap_lookup by lia.
      repeat case_decide; subst; try lia. apply HE. lia.
  - destruct (elem_eq (ws' !!! t) pv) eqn:Hy.
    + wp_step.
      { replace e with (S (e - 1)) at 1 by lia. apply P_prev. lia. }
      apply wp_bind. eapply wp_swap_at; [done|lia|lia|]. intros v'' Hh''.
      wp_step.
      exists (e - 1 - t)%nat. split; [lia|].
      exists v'', (swap t (e - 1) ws'), s, t, (e - 1)%nat.
      split_and!; try done; try lia.
      * eapply shuffled_trans; [done|]. apply shuffled_swap; lia.
      * intros k Hk. rewrite swap_lookup by lia.
        repeat case_decide; subst; try lia. apply HL. lia.
      * intros k Hk. rewrite swap_lookup by lia.
        repeat case_decide; subst; try lia. apply HG. lia.
      * intros k Hk. rewrite swap_lookup by lia.
        repeat case_decide; subst; try lia; try (by apply band_equal). apply HE. lia.
    + wp_step; [apply P_next; lia|]. wp_step.
      exists (e - S t)%nat. split; [lia|].
      exists v', ws', s, (S t), e.
      split_and!; try done; try lia.
      intros k Hk. destruct (decide (k = t)) as [->|]; [by apply band_greater|]. apply HG. lia.
Qed.

Lemma wp_partition fuel pv lo hi v ws (Q : Z * Z * Z * Z → view → Prop) :
  holds v ws → (1 ≤ lo)%nat → (lo ≤ hi)%nat → (hi ≤ N)%nat →
  is_equal pv (ws !!! hi) → enough E (hi - lo) fuel →
  (∀ v' ws' s t,
     holds v' ws' → shuffled lo hi ws ws' →
     (lo ≤ s + 1)%nat → (s < t)%nat → (t ≤ hi)%nat →
     (∀ k, (lo ≤ k ≤ s)%nat → is_less pv (ws' !!! k)) →
     (∀ k, (s < k < t)%nat → is_greater pv (ws' !!! k)) →
     (∀ k, (t ≤ k ≤ hi)%nat → is_equal pv (ws' !!! k)) →
     Q (P !!! s, P !!! t, P !!! t, Z.of_nat (s + 1 - lo)) (View n p v' o)) →
  wp E (s21.partition_loop fuel pv (P !!! (lo - 1)%nat, P !!! lo, P !!! hi, 0))
    (View n p v o) Q.
Proof.
  intros Hh Hlo Hlh Hhi Heq Hfuel HQ. unfold s21.partition_loop.
  eapply wp_mono; [|done|].
  { eapply (wp_while E (part_inv pv lo hi ws)
      (λ '(_, tl, tr, _) W, bool_decide (tl ≠ tr))) with (m := (hi - lo)%nat).
    - intros m [[[si tl] tr] sh] W Q' _ HQ'. by apply wp_ret.
    - intros m [[[si tl] tr] sh] W HI Hc. apply bool_decide_eq_true in Hc.
      by eapply wp_partition_step.
    - exists v, ws, (lo - 1)%nat, lo, hi.
      split_and!; try done; try lia.
      + apply shuffled_refl.
      + intros k Hk. by replace k with hi by lia.
    - done. }
  cbv beta. intros [[[si tl] tr] sh] W [(m & HI) Hc].
  destruct HI as (v' & ws' & s & t & e & -> & Hh' & Hsh & -> & -> & -> & -> &
          Hs & Hst & Hte & Heh & HL & HG & HE & ->).
  apply bool_decide_eq_false in Hc. apply dec_stable in Hc.
  assert (t = e) as <-.
  { apply (P_inj e t); [lia|lia|done]. }
  by eapply HQ.
Qed.

(** Positions [lo..s] are less than the pivot, [s+1..a] equal to it,
    [a+1..b-1] greater, [b..hi] equal. *)
Definition banded (pv : T) (lo s a b hi : nat) (ws : list T) : Prop :=
  (∀ k, (lo ≤ k ≤ s)%nat → is_less pv (ws !!! k)) ∧
  (∀ k, (s < k ≤ a)%nat → is_equal pv (ws !!! k)) ∧
  (∀ k, (a < k < b)%nat → is_greater pv (ws !!! k)) ∧
  (∀ k, (b ≤ k ≤ hi)%nat → is_equal pv (ws !!! k)).

Lemma banded_step pv lo s a b hi ws :
  banded pv lo s a b hi ws →
  (s ≤ a)%nat → (a < b)%nat → (b ≤ hi)%nat → (hi < length ws)%nat →
  banded pv lo s (S a) (S b) hi (swap (S a) b ws).
Proof.
  intros (HL & HE1 & HG & HE2) Hsa Hab Hbh Hlen. split_and!.
  - intros k Hk. rewrite swap_lookup by lia.
    repeat case_decide; subst; try lia. apply HL. lia.
  - intros k Hk. rewrite swap_lookup by lia.
    repeat case_decide; subst; try lia.
    + apply HE2. lia.
    + apply HE2. lia.
    + apply HE1. lia.
  - intros k Hk. rewrite swap_lookup by lia.
    repeat case_decide; subst; try lia; apply HG; lia.
  - intros k Hk. rewrite swap_lookup by lia.
    repeat case_decide; subst; try lia. apply HE2. lia.
Qed.

Definition gather_inv (pv : T) (lo hi s t : nat) (ws : list T)
    (m : nat) (st : Z * Z * Z) (W : view) : Prop :=
  let '(u, w, rsz) := st in
  ∃ v' ws' a b,
    W = View n p v' o ∧ holds v' ws' ∧ shuffled lo hi ws ws' ∧
    u = P !!! S a ∧ w = P !!! b ∧ rsz = Z.of_nat (hi - a - 1) ∧
    (s ≤ a)%nat ∧ (a < b)%nat ∧ (b ≤ hi)%nat ∧ (b + s = a + t)%nat ∧
    banded pv lo s a b hi ws' ∧ m = (hi - b)%nat.

Lemma wp_gather fuel pv lo hi s t v ws (Q : Z * Z * Z → view → Prop) :
  holds v ws → banded pv lo s s t hi ws →
  (1 ≤ lo)%nat → (lo ≤ s + 1)%nat → (s < t)%nat → (t ≤ hi)%nat → (hi ≤ N)%nat →
  enough E (hi - t) fuel →
  (∀ v' ws' a,
     holds v' ws' → shuffled lo hi ws ws' →
     (s ≤ a)%nat → (a < hi)%nat → (hi + s = a + t)%nat →
     banded pv lo s a hi hi ws' →
     Q (P !!! S a, P !!! hi, Z.of_nat (hi - a - 1)) (View n p v' o)) →
  wp E (s21.gather_loop fuel (P !!! hi) (P !!! S s, P !!! t, Z.of_nat (hi - s - 1)))
    (View n p v o) Q.
Proof.
  intros Hh Hb Hlo Hls Hst Hth Hhi Hfuel HQ. unfold s21.gather_loop.
  eapply wp_mono; [|done|].
  { eapply (wp_while E (gather_inv pv lo hi s t ws)
      (λ '(_, w, _) W, bool_decide (w ≠ P !!! hi))) with (m := (hi - t)%nat).
    - intros m [[u w] rsz] W Q' _ HQ'. by apply wp_ret.
    - intros m [[u w] rsz] W
        (v' & ws' & a & b & -> & Hh' & Hsh & -> & -> & -> & Hsa & Hab & Hbh & Hgap & Hbd & ->) Hc.
      apply bool_decide_eq_true in Hc.
      assert (b < hi)%nat as Hlt.
      { destruct (decide (b = hi)) as [->|]; [done|lia]. }
      pose proof Hh' as (Hlen & _ & _).
      unfold s21.gather_step.
      apply wp_bind. eapply wp_swap_at; [done|lia|lia|]. intros v'' Hh''.
      wp_step; [apply P_next; lia|]. wp_step; [apply P_next; lia|]. wp_step.
      exists (hi - S b)%nat. split; [lia|].
      exists v'', (swap (S a) b ws'), (S a), (S b).
      split_and!; try done; try lia.
      + eapply shuffled_trans; [done|]. apply shuffled_swap; lia.
      + rewrite wrap_small; lia.
      + apply banded_step; [done|lia..].
    - exists v, ws, s, t.
      split_and!; try done; try lia. apply shuffled_refl.
    - done. }
  cbv beta. intros [[u w] rsz] W [(m & HI) Hc].
  destruct HI as (v' & ws' & a & b & -> & Hh' & Hsh & -> & -> & -> & Hsa & Hab & Hbh & Hgap & Hbd & ->).
  apply bool_decide_eq_false in Hc. apply dec_stable in Hc.
  assert (b = hi) as ->.
  { apply (P_inj hi b); [lia|lia|done]. }
  eapply HQ; try done; lia.
Qed.

(** What [quick_sort] establishes of a range: it holds of ranges of fewer
    than two positions, and of a partitioned range whose outer bands have
    it. *)
Variable good : list T → nat → nat → Prop.
Hypothesis good_short : ∀ ws lo cnt, (cnt < 2)%nat → good ws lo (lo + cnt - 1).
Hypothesis good_combine : ∀ pv lo s a hi ws3 ws4 ws5,
  banded pv lo s a (S hi) hi ws3 →
  shuffled lo s ws3 ws4 → good ws4 lo s →
  shuffled (S a) hi ws4 ws5 → good ws5 (S a) hi →
  (s < a)%nat → (a ≤ hi)%nat →
  good ws5 lo hi.

Lemma quick_sort_unfold fuel left right list_size :
  s21.quick_sort (T := T) (S fuel) left right list_size =
  if bool_decide (left ≠ right) && (1 <? list_size) then
    swap_it ← get_prev left;
    pivot_it ← s21.pivot_walk fuel left list_size;
    pivot ← get_value pivot_it;
    s21.SwapValues pivot_it right;;
    '(swap_it, tmp_left, tmp_right, iShift) ←
      s21.partition_loop fuel pivot (swap_it, left, right, 0);
    let next_step_right_size := wrap (list_size - iShift - 1) in
    swap_it' ← get_next swap_it;
    '(swap_it', tmp_right, next_step_right_size) ←
      s21.gather_loop fuel right (swap_it', tmp_right, next_step_right_size);
    s21.SwapValues swap_it' right;;
    swap_it' ← get_next swap_it';
    s21.quick_sort fuel left swap_it iShift;;
    s21.quick_sort fuel swap_it' right next_step_right_size
  else mret tt.
Proof. reflexivity. Qed.

Lemma wp_quick_sort fuel : ∀ cnt lo left right v ws (Q : unit → view → Prop),
  holds v ws → enough E cnt fuel → (cnt ≤ N)%nat →
  ((2 ≤ cnt)%nat →
     (1 ≤ lo)%nat ∧ (lo + cnt - 1 ≤ N)%nat ∧
     left = P !!! lo ∧ right = P !!! (lo + cnt - 1)%nat) →
  (∀ v' ws', holds v' ws' → shuffled lo (lo + cnt - 1) ws ws' →
     good ws' lo (lo + cnt - 1) → Q tt (View n p v' o)) →
  wp E (s21.quick_sort fuel left right (Z.of_nat cnt)) (View n p v o) Q.
Proof.
  induction fuel as [|fuel IH]; intros cnt lo left right v ws Q Hh Hfuel HcN Hrange HQ.
  { destruct Hfuel as [HE|?]; [by apply wp_fail|lia]. }
  rewrite quick_sort_unfold.
  destruct (decide (2 ≤ cnt)%nat) as [Hc|Hc].
  2:{ replace (1 <? Z.of_nat cnt) with false by (symmetry; apply Z.ltb_ge; lia).
      rewrite andb_false_r. apply wp_ret. apply (HQ v ws); [done|apply shuffled_refl|].
      apply good_short. lia. }
  destruct (Hrange Hc) as (Hlo & Hhi & -> & ->). clear Hrange.
  remember (lo + cnt - 1)%nat as hi eqn:Ehi.
  assert (P !!! lo ≠ P !!! hi) as Hne.
  { intros Heq. assert (lo = hi) by (apply (P_inj hi lo); [lia|lia|done]). lia. }
  rewrite bool_decide_true by done.
  replace (1 <? Z.of_nat cnt) with true by (symmetry; apply Z.ltb_lt; lia).
  cbn [andb].
  assert (cnt / 2 < cnt)%nat as Hdiv by (apply Nat.div_lt; lia).
  assert (1 ≤ cnt / 2)%nat as Hdiv1 by (apply Nat.div_le_lower_bound; lia).
  pose proof Hh as (Hlen & Hv & _).
  wp_step.
  { replace lo with (S (lo - 1)) at 1 by lia. apply P_prev. lia. }
  apply wp_bind. apply wp_pivot_walk; [lia|lia|lia|by eapply enough_S|].
  set (pi := (lo - 1 + cnt / 2)%nat).
  wp_step; [apply Hv; lia|]. set (pv := ws !!! pi).
  apply wp_bind. eapply wp_swap_at; [done|lia|lia|]. intros v1 Hh1.
  apply wp_bind. eapply wp_partition; [done|lia|lia|lia| |eapply enough_S; [done|lia]|].
  { rewrite swap_lookup by lia. rewrite decide_True by done. apply band_pivot. }
  intros v2 ws2 s t Hh2 Hsh2 Hs Hst Hth HL HG HE.
  cbv beta iota.
  replace (wrap (Z.of_nat cnt - Z.of_nat (s + 1 - lo) - 1)) with (Z.of_nat (hi - s - 1)).
  2:{ rewrite wrap_small; lia. }
  wp_step; [apply P_next; lia|].
  apply wp_bind.
  eapply (wp_gather _ pv lo hi s t); [done| |lia|lia|lia|lia|lia|eapply enough_S; [done|lia]|].
  { split_and!; [done| |done|done]. intros k Hk. lia. }
  intros v3 ws3 a Hh3 Hsh3 Hsa Hah Hgap Hbd.
  cbv beta iota. pose proof Hh3 as (Hlen3 & _ & _).
  apply wp_bind. eapply wp_swap_at; [done|lia|lia|]. intros v4 Hh4.
  apply (banded_step _ _ _ _ _ _ _ Hbd) in Hsa as Hbd4; [|lia..].
  wp_step; [apply P_next; lia|].
  apply wp_bind. eapply (IH (s + 1 - lo)%nat lo); [done|eapply enough_S; [done|lia]|lia| |].
  { intros Hl. split_and!; [lia|lia|done|f_equal; lia]. }
  intros v5 ws5 Hh5 Hsh5 Hso5.
  replace (lo + (s + 1 - lo) - 1)%nat with s in * by lia.
  eapply (IH (hi - a - 1)%nat (S (S a))); [done|eapply enough_S; [done|lia]|lia| |].
  { intros Hg. split_and!; [lia|lia|done|f_equal; lia]. }
  intros v6 ws6 Hh6 Hsh6 Hso6.
  replace (S (S a) + (hi - a - 1) - 1)%nat with hi in * by lia.
  apply (HQ v6 ws6); [done| |].
  - eapply shuffled_trans; [apply shuffled_swap with (i := pi) (j := hi); lia|].
    eapply shuffled_trans; [done|]. eapply shuffled_trans; [done|].
    eapply shuffled_trans; [apply shuffled_swap with (i := S a) (j := hi); lia|].
    eapply shuffled_trans; [eapply shuffled_mono; [| |done]; lia|].
    eapply shuffled_mono; [| |done]; lia.
  - eapply (good_combine pv lo s (S a) hi); try done; lia.
Qed.

End SortLoops.

(** ** The bands and the order, for a strict weak order *)

Section OrderLaws.
Context {T : Type} `{Elem T}.

(** The laws of [ElemLaws] are a special case. *)
#[global] Instance ElemLaws_StrictWeakOrder `{!ElemLaws T} : StrictWeakOrder T.
Proof.
  split.
  - apply elem_lt_irrefl.
  - apply elem_lt_trans.
  - intros a b c Hab Hba Hbc Hcb.
    rewrite (elem_lt_total a b Hab Hba). done.
Qed.

#[global] Instance ElemLaws_EqWithinOrder `{!ElemLaws T} : EqWithinOrder T.
Proof. intros a b ->%elem_eq_spec. split; apply elem_lt_irrefl. Qed.

Context `{!StrictWeakOrder T}.

Lemma elem_lt_asym (a b : T) : elem_lt a b = true → elem_lt b a = false.
Proof.
  intros Hab. destruct (elem_lt b a) eqn:Hba; [|done].
  pose proof (lt_trans _ _ _ Hab Hba) as Haa. by rewrite lt_irrefl in Haa.
Qed.

(** Not being less is transitive: if [b] is not less than [a] and [c]
    not less than [b], then [c] is not less than [a]. *)
Lemma not_lt_trans (a b c : T) :
  elem_lt b a = false → elem_lt c b = false → elem_lt c a = false.
Proof.
  intros Hba Hcb. destruct (elem_lt c a) eqn:Hca; [|done]. exfalso.
  destruct (elem_lt a b) eqn:Hab.
  { pose proof (lt_trans _ _ _ Hca Hab). congruence. }
  destruct (elem_lt b c) eqn:Hbc.
  { pose proof (lt_trans _ _ _ Hbc Hca). congruence. }
  pose proof (lt_unordered_trans c b a Hcb Hbc Hba Hab). congruence.
Qed.

Lemma elem_lt_le_trans (a b c : T) :
  elem_lt a b = true → elem_lt c b = false → elem_lt a c = true.
Proof.
  intros Hab Hcb. destruct (elem_lt a c) eqn:Hac; [done|].
  pose proof (not_lt_trans _ _ _ Hcb Hac). congruence.
Qed.

End OrderLaws.

Section SortOrder.
Context {T : Type} `{Elem T} `{!StrictWeakOrder T}.
#[local] Existing Instance elem_inhabited.

(** The three bands of a partition round the pivot [pv]: the values less
    than it, those tied with it (where [==] put them), and those not
    less than it. *)
Definition is_less (pv w : T) : Prop := elem_lt w pv = true.
Definition is_equal (pv w : T) : Prop := elem_lt w pv = false ∧ elem_lt pv w = false.
Definition is_greater (pv w : T) : Prop := elem_lt w pv = false.





End SortOrder.

(** ** [sort] on a list *)

Section SortList.
Context {T : Type} `{Elem T}.
Local Abbreviation view := (view T).
#[local] Existing Instance elem_inhabited.
Implicit Types (n p : gmap Z Z) (v : gmap Z T) (o : gmap Z s21_list).
Implicit Types (V : view) (xs ys : list (Z * T)).

(** [b] may follow [a] in a non-decreasing sequence: [b] is not less
    than [a]. *)
Definition non_decreasing (a b : T) : Prop := elem_lt b a = false.

Lemma ring_total_link n p hd l i :
  ring n p hd l → (i ≤ length l)%nat →
  link n p ((hd :: l ++ [hd]) !!! i) ((hd :: l ++ [hd]) !!! S i).
Proof.
  intros [_ Hp _] Hi. eapply path_lookup; [done|..];
    apply list_lookup_lookup_total_lt; simpl; rewrite length_app; simpl; lia.
Qed.

Lemma ring_total_inj n p hd l i k :
  ring n p hd l → (1 ≤ i ≤ length l)%nat → (k ≤ length l)%nat →
  (hd :: l ++ [hd]) !!! k = (hd :: l ++ [hd]) !!! i → k = i.
Proof.
  intros [Hnd _ _] Hi Hk Heq.
  assert (∀ j, (j ≤ length l)%nat → (hd :: l) !! j = Some ((hd :: l ++ [hd]) !!! j)) as Hl.
  { intros j Hj. change (hd :: l ++ [hd]) with ((hd :: l) ++ [hd]).
    rewrite lookup_total_app_l by (simpl; lia).
    apply list_lookup_lookup_total_lt. simpl. lia. }
  eapply NoDup_lookup; [exact Hnd|by apply Hl|]. rewrite Heq. apply Hl. lia.
Qed.


(** [sort] over any record of the bands and any property [good] that
    [quick_sort] can establish of them. *)
Lemma wp_sort_gen E V this hd xs fuel
    (is_less is_equal is_greater : T → T → Prop) (good : list T → nat → nat → Prop)
    (Q : unit → view → Prop) :
  (∀ pv w, elem_lt w pv = true → is_less pv w) →
  (∀ pv w, elem_lt w pv = false → elem_eq w pv = true → is_equal pv w) →
  (∀ pv w, elem_lt w pv = false → elem_eq w pv = false → is_greater pv w) →
  (∀ pv, is_equal pv pv) →
  (∀ ws lo cnt, (cnt < 2)%nat → good ws lo (lo + cnt - 1)%nat) →
  (∀ pv lo s a hi ws3 ws4 ws5,
     banded is_less is_equal is_greater pv lo s a (S hi) hi ws3 →
     shuffled lo s ws3 ws4 → good ws4 lo s →
     shuffled (S a) hi ws4 ws5 → good ws5 (S a) hi →
     (s < a)%nat → (a ≤ hi)%nat → good ws5 lo hi) →
  is_list V this hd xs → enough E (length xs) fuel →
  (∀ V' vs', is_list V' this hd (zip xs.*1 vs') →
     vs' ≡ₚ xs.*2 → good (elem_default :: vs') 1%nat (length xs) →
     frame (hd :: xs.*1) this V V' → Q tt V') →
  wp E (s21.sort fuel this) V Q.
Proof.
  intros B1 B2 B3 B4 G1 G2 Hl Hfuel HQ. unfold s21.sort.
  apply wp_bind. eapply wp_begin; [done|].
  apply wp_bind. eapply wp_end; [done|].
  destruct Hl as [Ho Hr Hv Hs]. destruct V as [n p v o]. cbn [vn vp vv vo] in *.
  pose proof (ring_link _ _ _ _ [] (eq_ind_r (ring n p hd) Hr (app_nil_r _))) as [_ Hp0].
  change (cursor hd []) with hd in Hp0.
  do 2 wp_step.
  set (l := xs.*1) in *. set (N := length xs).
  assert (length l = N) as HlN by (unfold l; by rewrite length_fmap).
  set (P := hd :: l ++ [hd]).
  set (ws := elem_default :: xs.*2).
  assert (∀ i, (1 ≤ i ≤ N)%nat → ∃ x, xs !! (i - 1)%nat = Some x ∧ P !!! i = x.1 ∧ ws !!! i = x.2)
    as Hidx.
  { intros i Hi. destruct (lookup_lt_is_Some_2 xs (i - 1)) as [x Hx]; [unfold N in Hi; lia|].
    exists x. split; [done|]. destruct i as [|i]; [lia|].
    replace (S i - 1)%nat with i in Hx by lia. unfold P, ws. simpl. split.
    - rewrite lookup_total_app_l by lia. apply list_lookup_total_correct.
      unfold l. by rewrite list_lookup_fmap, Hx.
    - apply list_lookup_total_correct. by rewrite list_lookup_fmap, Hx. }
  eapply (wp_quick_sort E n p o P N v) with (lo := 1%nat) (ws := ws)
    (is_less := is_less) (is_equal := is_equal) (is_greater := is_greater) (good := good).
  - intros i Hi. rewrite <-HlN in Hi. by destruct (ring_total_link n p hd l i Hr Hi).
  - intros i Hi. rewrite <-HlN in Hi. by destruct (ring_total_link n p hd l i Hr Hi).
  - intros i k Hi Hk. rewrite <-HlN in Hi, Hk. by eapply ring_total_inj.
  - rewrite <-HlN. by eapply ring_size_bound.
  - done.
  - done.
  - done.
  - done.
  - done.
  - done.
  - unfold holds. split_and!; [unfold ws; simpl; by rewrite length_fmap| |done].
    intros i Hi. destruct (Hidx i Hi) as (x & Hx & -> & ->).
    eapply vals_lookup; [done|]. by eapply list_elem_of_lookup_2.
  - done.
  - done.
  - intros HN. split_and!; [lia|lia| |].
    + unfold P. simpl. destruct l as [|a l']; [simpl in *; lia|done].
    + replace (1 + N - 1)%nat with N by lia. unfold P, before.
      rewrite last_lookup, HlN.
      destruct (lookup_lt_is_Some_2 l (pred N)) as [y Hy]; [lia|]. rewrite Hy. simpl.
      symmetry. replace N with (S (pred N)) at 1 by lia. simpl.
      rewrite lookup_total_app_l by lia. by apply list_lookup_total_correct.
  - replace (1 + N - 1)%nat with N by lia.
    intros v' ws' (Hlen' & Hv' & Hfr') (_ & Hperm & Hout & _) Hsorted.
    destruct ws' as [|w0 vs']; [done|].
    assert (w0 = elem_default) as ->.
    { specialize (Hout 0%nat). simpl in Hout. apply Hout. lia. }
    assert (length vs' = N) as Hlvs by (simpl in Hlen'; lia).
    assert (hd ∉ l) as Hhd.
    { destruct Hr as [Hnd _ _]. by apply NoDup_cons in Hnd as []. }
    assert (∀ a, a ∉ l → ∀ i, (1 ≤ i ≤ N)%nat → a ≠ P !!! i) as Hnotin.
    { intros a Ha i Hi ->. apply Ha. destruct (Hidx i Hi) as (x & Hx & -> & _).
      unfold l. apply list_elem_of_fmap_2. by eapply list_elem_of_lookup_2. }
    apply (HQ _ vs').
    + split; cbn [vn vp vv vo].
      * rewrite length_zip_with. rewrite Ho. do 3 f_equal. unfold N in *. lia.
      * rewrite fst_zip by lia. done.
      * unfold vals. apply Forall_lookup. intros i [a w] Hi.
        apply lookup_zip_with_Some in Hi as (a' & w' & [= <- <-] & Ha & Hw).
        simpl. pose proof (lookup_lt_Some _ _ _ Ha) as Hlt.
        specialize (Hv' (S i) ltac:(lia)). simpl in Hv'.
        rewrite (list_lookup_total_correct _ _ _ Hw) in Hv'.
        unfold P in Hv'. simpl in Hv'. rewrite lookup_total_app_l in Hv' by lia.
        by rewrite (list_lookup_total_correct _ _ _ Ha) in Hv'.
      * rewrite Hfr'; [done|]. by apply Hnotin.
    + unfold ws in Hperm. by apply Permutation_cons_inv in Hperm.
    + done.
    + split; cbn [vn vp vv vo]; [|done].
      intros a Ha _. split_and!; [done..|].
      apply Hfr', Hnotin. by apply not_elem_of_cons in Ha as [].
Qed.

(** [sort] never leaves the ring and only permutes the values, whatever
    the comparison operators do. *)
Lemma wp_sort_safe E V this hd xs fuel (Q : unit → view → Prop) :
  is_list V this hd xs → enough E (length xs) fuel →
  (∀ V' vs', is_list V' this hd (zip xs.*1 vs') → vs' ≡ₚ xs.*2 →
     frame (hd :: xs.*1) this V V' → Q tt V') →
  wp E (s21.sort fuel this) V Q.
Proof.
  intros Hl Hfuel HQ.
  eapply (wp_sort_gen E V this hd xs fuel
            (λ _ _, True) (λ _ _, True) (λ _ _, True) (λ _ _ _, True)); try done.
  intros V' vs' ? ? _ ?. by eapply HQ.
Qed.


End SortList.

(** ** [unique] *)

Section Unique.
Context {T : Type} `{Elem T}.
Local Abbreviation view := (view T).
Implicit Types (n p : gmap Z Z) (v : gmap Z T) (o : gmap Z s21_list).
Implicit Types (V : view) (xs ys : list (Z * T)).

(** What a pass that completes leaves: each element followed by the
    next one that differs from it under [==]. *)
Fixpoint uniq_from (x : Z * T) (xs : list (Z * T)) : list (Z * T) :=
  match xs with
  | [] => [x]
  | y :: ys => if elem_eq x.2 y.2 then uniq_from x ys else x :: uniq_from y ys
  end.

Definition unique_list (xs : list (Z * T)) : list (Z * T) :=
  match xs with
  | [] => []
  | x :: xs' => uniq_from x xs'
  end.

Lemma frame_refl F this V : frame F this V V.
Proof. by split. Qed.

Lemma frame_trans F F' this V1 V2 V3 :
  frame F this V1 V2 → frame F' this V2 V3 → (∀ a, a ∈ F' → a ∈ F) →
  frame F this V1 V3.
Proof.
  intros [Hn1 Ho1] [Hn2 Ho2] Hsub. split.
  - intros a Ha Hal. destruct (Hn1 a Ha Hal) as (E1 & E2 & E3).
    destruct (Hn2 a) as (E1' & E2' & E3'); [naive_solver|by rewrite E1|].
    by rewrite E1', E2', E3'.
  - intros b Hb. by rewrite Ho2, Ho1.
Qed.

Lemma ptr_ok_nonzero a : ptr_ok a → a ≠ 0.
Proof. unfold ptr_ok. lia. Qed.

(** One iteration with [it_last] at [x], followed by [y]. *)
Lemma wp_unique_step_cons E V this hd xs1 x y ys b (Q : Z * bool → view → Prop) :
  is_list V this hd (xs1 ++ x :: y :: ys) →
  (elem_eq x.2 y.2 = true →
     ∀ V', is_list V' this hd (xs1 ++ x :: ys) →
       frame (hd :: (xs1 ++ x :: y :: ys).*1) this V V' → Q (x.1, false) V') →
  (elem_eq x.2 y.2 = false → Q (y.1, false) V) →
  wp E (s21.unique_step this (x.1, b)) V Q.
Proof.
  intros Hl Heq Hne. pose proof Hl as [Ho Hr Hv Hs].
  destruct V as [n p v o]. cbn [vn vp vv vo] in *.
  rewrite fmap_app, !fmap_cons in Hr.
  pose proof (ring_link_mid _ _ _ _ _ _ Hr) as [_ Hnx].
  change (cursor hd (y.1 :: ys.*1)) with y.1 in Hnx.
  assert (v !! x.1 = Some x.2 ∧ v !! y.1 = Some y.2) as [Hvx Hvy].
  { split; eapply vals_lookup; try done; rewrite elem_of_app, !elem_of_cons; auto. }
  assert (ptr_ok y.1) as Hok.
  { destruct Hr as [_ _ Hoks]. rewrite Forall_forall in Hoks. apply Hoks.
    rewrite elem_of_cons, elem_of_app, !elem_of_cons. auto. }
  unfold s21.unique_step. wp_step.
  rewrite decide_False by by apply ptr_ok_nonzero.
  do 2 wp_step. destruct (elem_eq x.2 y.2) eqn:Hxy.
  - apply wp_bind.
    replace (xs1 ++ x :: y :: ys) with ((xs1 ++ [x]) ++ y :: ys) in Hl
      by by rewrite <-(assoc_L (++)).
    eapply wp_erase; [done|]. intros V' Hl' Hf. wp_step.
    rewrite <-!(assoc_L (++)) in *. by apply Heq.
  - do 2 wp_step. by apply Hne.
Qed.

(** One iteration with [it_last] at the last element [x]: the successor
    is the sentinel, whose value takes part in the comparison. *)
Lemma wp_unique_step_last E V this hd xs1 x b (Q : Z * bool → view → Prop) :
  is_list V this hd (xs1 ++ [x]) →
  (elem_eq x.2 elem_default = true → Q (x.1, false) V) →
  (elem_eq x.2 elem_default = false → Q (hd, false) V) →
  wp E (s21.unique_step this (x.1, b)) V Q.
Proof.
  intros Hl Heq Hne. pose proof Hl as [Ho Hr Hv Hs].
  destruct V as [n p v o]. cbn [vn vp vv vo] in *.
  rewrite fmap_app, !fmap_cons in Hr.
  pose proof (ring_link_mid _ _ _ _ _ _ Hr) as [_ Hnx].
  change (cursor hd ([] : list (Z * T)).*1) with hd in Hnx.
  assert (v !! x.1 = Some x.2) as Hvx.
  { eapply vals_lookup; try done; rewrite elem_of_app, !elem_of_cons; auto. }
  assert (ptr_ok hd) as Hok.
  { destruct Hr as [_ _ Hoks]. by apply Forall_cons in Hoks as []. }
  unfold s21.unique_step. wp_step.
  rewrite decide_False by by apply ptr_ok_nonzero.
  do 2 wp_step. destruct (elem_eq x.2 elem_default) eqn:Hxy.
  - apply wp_bind. eapply wp_erase_end; [done|]. wp_step. by apply Heq.
  - do 2 wp_step. by apply Hne.
Qed.

Definition unique_inv (this hd : Z) (xs : list (Z * T)) (V : view)
    (st : Z * bool) (W : view) : Prop :=
  let '(it, returned) := st in
  returned = false ∧
  ∃ xs', is_list W this hd xs' ∧ frame (hd :: xs.*1) this V W ∧
         (∀ a, a ∈ xs'.*1 → a ∈ xs.*1) ∧
         ((∃ xs1 x xs2, xs' = xs1 ++ x :: xs2 ∧ it = x.1 ∧
                        xs1 ++ uniq_from x xs2 = unique_list xs) ∨
          (it = hd ∧ xs' = unique_list xs)).

(** [unique], when it returns, leaves the list of [unique_list]; it never
    steps outside the ring. *)
Lemma wp_unique_partial (E : fault → Prop) V this hd xs fuel (Q : unit → view → Prop) :
  E OutOfFuel →
  is_list V this hd xs →
  (∀ V', is_list V' this hd (unique_list xs) → frame (hd :: xs.*1) this V V' → Q tt V') →
  wp E (s21.unique fuel this) V Q.
Proof.
  intros HE Hl HQ. unfold s21.unique.
  apply wp_bind. eapply wp_empty; [done|].
  destruct xs as [|x0 xs0].
  { rewrite bool_decide_true by done. apply wp_ret. apply HQ; [done|apply frame_refl]. }
  rewrite bool_decide_false by done. cbn [negb].
  apply wp_bind. eapply wp_begin; [done|].
  change (cursor hd (x0 :: xs0).*1) with x0.1.
  apply wp_bind. eapply wp_mono; [|done|].
  { eapply (wp_while_partial E (unique_inv this hd (x0 :: xs0) V)
      (λ '(it, returned) W, if returned : bool then false else bool_decide (it ≠ hd))).
    - done.
    - intros [it r] W Q' (-> & xs' & Hl' & _) HQ'.
      apply wp_bind. eapply wp_end; [done|]. by apply wp_ret.
    - intros [it r] W (-> & xs' & Hl' & Hf & Hsub & Hcase) Hc.
      apply bool_decide_eq_true in Hc.
      destruct Hcase as [(xs1 & x & xs2 & -> & -> & Hu)|[-> _]]; [|done].
      destruct xs2 as [|y ys].
      + eapply wp_unique_step_last; [done|..]; intros Hxy.
        * split; [done|]. exists (xs1 ++ [x]). split_and!; [done..|].
          left. by exists xs1, x, [].
        * split; [done|]. exists (xs1 ++ [x]). split_and!; [done..|].
          right. by split.
      + eapply wp_unique_step_cons; [done|..]; intros Hxy.
        * intros V' Hl'' Hf'. split; [done|]. exists (xs1 ++ x :: ys).
          split_and!; [done| | |].
          -- eapply frame_trans; [done|done|].
             intros a [->|Ha]%elem_of_cons; [by left|right; by apply Hsub].
          -- intros a Ha. apply Hsub. rewrite fmap_app, fmap_cons in Ha.
             rewrite fmap_app, !fmap_cons. rewrite elem_of_app, elem_of_cons in Ha.
             rewrite elem_of_app, !elem_of_cons. naive_solver.
          -- left. exists xs1, x, ys. split_and!; [done..|].
             simpl in Hu. by rewrite Hxy in Hu.
        * split; [done|]. exists (xs1 ++ x :: y :: ys). split_and!; [done..|].
          left. exists (xs1 ++ [x]), y, ys. rewrite <-!(assoc_L (++)).
          split_and!; [done..|]. simpl in Hu. by rewrite Hxy in Hu.
    - split; [done|]. exists (x0 :: xs0). split_and!; [done|apply frame_refl|done|].
      left. by exists [], x0, xs0. }
  cbv beta. intros [it r] W [(-> & xs' & Hl' & Hf & Hsub & Hcase) Hc].
  apply bool_decide_eq_false in Hc. apply dec_stable in Hc. subst it.
  apply wp_ret. destruct Hcase as [(xs1 & x & xs2 & -> & Hx & Hu)|[_ ->]]; [|by apply HQ].
  exfalso. destruct Hl' as [_ [Hnd _ _] _ _]. apply NoDup_cons in Hnd as [Hhd _].
  apply Hhd. rewrite Hx, fmap_app, fmap_cons, elem_of_app, elem_of_cons. auto.
Qed.

End Unique.

(** ** The invariants of a represented list *)

Section Invariants.
Context {T : Type} `{Elem T}.
Local Abbreviation view := (view T).
Implicit Types (n p : gmap Z Z) (v : gmap Z T) (o : gmap Z s21_list).
Implicit Types (V : view) (xs ys : list (Z * T)) (s : state T).

(** Walking along one link field. *)
Fixpoint walk (m : gmap Z Z) (k : nat) (a : Z) : option Z :=
  match k with
  | O => Some a
  | S k' => y ← m !! a; walk m k' y
  end.

Lemma walk_next_view s k a : walk_next k a s = walk (vn (view_of s)) k a.
Proof.
  revert a. induction k as [|k IH]; intros a; [done|]. simpl.
  rewrite lookup_fmap. destruct (nodes s !! a); simpl; [apply IH|done].
Qed.

Lemma walk_prev_view s k a : walk_prev k a s = walk (vp (view_of s)) k a.
Proof.
  revert a. induction k as [|k IH]; intros a; [done|]. simpl.
  rewrite lookup_fmap. destruct (nodes s !! a); simpl; [apply IH|done].
Qed.

Lemma walk_path n p (P : list Z) a k :
  path n p (a :: P) → (k ≤ length P)%nat → walk n k a = (a :: P) !! k.
Proof.
  revert a k. induction P as [|b P IH]; intros a k HP Hk.
  - by replace k with 0%nat by (simpl in Hk; lia).
  - destruct k as [|k]; [done|]. destruct HP as [[Hn _] HP]. simpl.
    rewrite Hn. simpl. apply IH; [done|simpl in Hk; lia].
Qed.

Lemma ring_node_links n p hd l a :
  ring n p hd l → a ∈ hd :: l →
  ∃ nx pr, nx ∈ hd :: l ∧ pr ∈ hd :: l ∧ link n p a nx ∧ link n p pr a.
Proof.
  intros Hr [->|Ha]%elem_of_cons.
  - exists (cursor hd l), (before hd l). split_and!.
    + apply (cursor_in hd [] l).
    + rewrite elem_of_cons. destruct (before_elem hd l); auto.
    + by apply (ring_link n p hd [] l).
    + apply (ring_link n p hd l []). by rewrite app_nil_r.
  - apply list_elem_of_split in Ha as (l1 & l2 & ->).
    exists (cursor hd l2), (before hd l1). split_and!.
    + rewrite elem_of_cons, elem_of_app, elem_of_cons.
      destruct (cursor_elem hd l2); auto.
    + apply before_in.
    + replace (l1 ++ a :: l2) with ((l1 ++ [a]) ++ l2) in Hr by by rewrite <-(assoc_L (++)).
      apply ring_link in Hr. by rewrite before_snoc in Hr.
    + by apply ring_link in Hr.
Qed.

Lemma walk_in_ring n p hd l k a b :
  ring n p hd l → a ∈ hd :: l → walk n k a = Some b → b ∈ hd :: l.
Proof.
  intros Hr. revert a. induction k as [|k IH]; intros a Ha; simpl.
  - by intros [= <-].
  - destruct (ring_node_links _ _ _ _ _ Hr Ha) as (nx & _ & Hnx & _ & [Hn _] & _).
    rewrite Hn. simpl. by apply IH.
Qed.

Lemma is_list_doubly_consistent s this hd xs :
  is_list (view_of s) this hd xs → doubly_consistent s this.
Proof.
  intros [Ho Hr _ _]. simpl in Ho, Hr. eexists. split; [done|]. simpl.
  intros k a Hk. rewrite walk_next_view in Hk.
  eapply walk_in_ring in Hk; [|done|by left].
  destruct (ring_node_links _ _ _ _ _ Hr Hk) as (nx & pr & _ & _ & [Hn1 Hp1] & [Hn2 Hp2]).
  rewrite lookup_fmap in Hn1, Hp1, Hn2, Hp2.
  destruct (nodes s !! a) as [nd|] eqn:Hnd; [|done].
  destruct (nodes s !! nx) as [ndx|] eqn:Hndx; [|done].
  destruct (nodes s !! pr) as [ndp|] eqn:Hndp; [|done].
  simpl in *. simplify_eq. exists nd, ndx, ndp. by rewrite Hndx, Hndp.
Qed.

Lemma is_list_size_matches_walk s this hd xs :
  is_list (view_of s) this hd xs → size_matches_walk s this.
Proof.
  intros [Ho Hr _ _]. simpl in Ho, Hr. eexists. split; [done|]. cbn [head_ size_].
  rewrite Nat2Z.id. set (l := xs.*1) in *.
  assert (length l = length xs) as Hlen by (unfold l; by rewrite length_fmap).
  pose proof Hr as [Hnd HP _]. pose proof (path_reverse _ _ _ HP) as HR.
  rewrite reverse_cons, reverse_snoc in HR.
  change (path (vp (view_of s)) (vn (view_of s)) (hd :: reverse l ++ [hd])) in HR.
  apply NoDup_cons in Hnd as [Hhd _].
  assert (∀ k, (k ≤ S (length xs))%nat →
     walk_next k hd s = (hd :: l ++ [hd]) !! k ∧
     walk_prev k hd s = (hd :: reverse l ++ [hd]) !! k) as Hw.
  { intros k Hk. rewrite walk_next_view, walk_prev_view. split.
    - eapply walk_path; [done|]. rewrite length_app. simpl. lia.
    - eapply walk_path; [done|]. rewrite length_app, length_reverse. simpl. lia. }
  split; [lia|]. split_and!.
  - destruct (Hw (S (length xs))) as [-> _]; [lia|]. simpl.
    rewrite lookup_app_r by lia. by replace (length xs - length l)%nat with 0%nat by lia.
  - destruct (Hw (S (length xs))) as [_ ->]; [lia|]. simpl.
    rewrite lookup_app_r by (rewrite length_reverse; lia).
    rewrite length_reverse. by replace (length xs - length l)%nat with 0%nat by lia.
  - intros k Hk. destruct (Hw k) as [-> ->]; [lia|]. destruct k as [|k]; [lia|]. simpl.
    split.
    + rewrite lookup_app_l by lia. intros Hin%list_elem_of_lookup_2. done.
    + rewrite lookup_app_l by (rewrite length_reverse; lia).
      intros Hin%list_elem_of_lookup_2. apply Hhd. by apply elem_of_reverse.
Qed.

Lemma is_list_empty_iff_self_loop s this hd xs :
  is_list (view_of s) this hd xs → empty_iff_self_loop s this.
Proof.
  intros Hl. pose proof Hl as [Ho Hr _ _]. simpl in Ho, Hr.
  pose proof (ring_link _ _ _ [] _ Hr) as [Hn _].
  pose proof (ring_link _ _ _ _ [] (eq_ind_r (ring _ _ hd) Hr (app_nil_r _))) as [_ Hp].
  change (before hd []) with hd in Hn. change (cursor hd []) with hd in Hp.
  rewrite lookup_fmap in Hn, Hp.
  destruct (nodes s !! hd) as [nd|] eqn:Hnd; [|done]. simpl in Hn, Hp.
  exists (mkList hd (Z.of_nat (length xs))), nd. split_and!; [done..|]. simpl.
  injection Hn as Hn. injection Hp as Hp. split.
  - intros Hz. destruct xs; [|simpl in Hz; lia]. by rewrite Hn, Hp.
  - intros [Hn' _]. rewrite Hn' in Hn. symmetry in Hn.
    by apply (is_list_cursor_hd _ _ _ [] _ Hl) in Hn as ->.
Qed.

End Invariants.

(** ** Sequences of operations keep the two lists represented *)

Section Sequences.
Context {T : Type} `{Elem T}.
Local Abbreviation view := (view T).
Implicit Types (n p : gmap Z Z) (v : gmap Z T) (o : gmap Z s21_list).
Implicit Types (V : view) (xs ys : list (Z * T)) (s : state T).

(** The lists [a] and [b], of sentinels [h1] and [h2], are represented,
    share no node and have at most [m] elements together. *)
Definition two_lists (m : nat) (V : view) (a b h1 h2 : Z) : Prop :=
  ∃ xs ys, is_list V a h1 xs ∧ is_list V b h2 ys ∧ apart (h1 :: xs.*1) (h2 :: ys.*1) ∧
           (length xs + length ys ≤ m)%nat.

Definition is_unique (c : op (T:=T)) : bool :=
  match c with OpUnique => true | _ => false end.

(** The operations that allocate a node. *)
Definition allocates (c : op (T:=T)) : bool :=
  match c with OpInsert _ _ | OpPushBack _ | OpPushFront _ => true | _ => false end.

(** The ways an operation can fail to return: an [insert] or a push
    finds no memory, or [unique] does not finish. *)
Definition op_fault (c : op (T:=T)) (f : fault) : Prop :=
  (f = BadAlloc ∧ allocates c = true) ∨ (f = OutOfFuel ∧ c = OpUnique).

Lemma two_lists_sym m V a b h1 h2 : two_lists m V a b h1 h2 → two_lists m V b a h2 h1.
Proof.
  intros (xs & ys & ? & ? & ?%apart_sym & ?). exists ys, xs. split_and!; [done..|lia].
Qed.

Lemma two_lists_le m m' V a b h1 h2 :
  two_lists m V a b h1 h2 → (m ≤ m')%nat → two_lists m' V a b h1 h2.
Proof. intros (xs & ys & ? & ? & ? & ?) ?. exists xs, ys. split_and!; [done..|lia]. Qed.

Lemma wp_advance E V this hd xs k it (Q : Z → view → Prop) :
  is_list V this hd xs → it ∈ hd :: xs.*1 →
  (∀ it', it' ∈ hd :: xs.*1 → Q it' V) →
  wp E (advance k it) V Q.
Proof.
  intros Hl. revert it. induction k as [|k IH]; intros it Hit HQ; simpl.
  - apply wp_ret. by apply HQ.
  - destruct Hl as [_ Hr _ _]. destruct V as [n p v o]. cbn [vn vp vv vo] in *.
    destruct (ring_node_links _ _ _ _ _ Hr Hit) as (nx & _ & Hnx & _ & [Hn _] & _).
    wp_step. by apply IH.
Qed.

Lemma position_split (hd : Z) xs pos :
  pos ∈ hd :: xs.*1 → ∃ xs1 xs2, xs = xs1 ++ xs2 ∧ pos = cursor hd xs2.*1.
Proof.
  intros [->|Hpos]%elem_of_cons.
  - exists xs, []. by rewrite app_nil_r.
  - apply list_elem_of_fmap in Hpos as (x & -> & Hx).
    apply list_elem_of_split in Hx as (xs1 & xs2 & ->). by exists xs1, (x :: xs2).
Qed.

(** An operation on [this] alone: the nodes of the new list are nodes of
    the old one or were not allocated. *)
Lemma two_lists_frame m V V' this other h1 h2 xs xs' ys :
  this ≠ other →
  is_list V this h1 xs → is_list V other h2 ys → apart (h1 :: xs.*1) (h2 :: ys.*1) →
  is_list V' this h1 xs' → frame (h1 :: xs.*1) this V V' →
  (∀ a, a ∈ xs'.*1 → a ∈ xs.*1 ∨ vn V !! a = None) →
  (length xs' + length ys ≤ m)%nat →
  two_lists m V' this other h1 h2.
Proof.
  intros Hne Hl1 Hl2 Hap Hl1' Hf Hsub Hm. exists xs', ys. split_and!; [done| | |done].
  - eapply is_list_frame; [done|done|done|]. intros a Ha Ha'. by apply (Hap a).
  - intros a [->|Ha]%elem_of_cons Ha'.
    + apply (Hap h1); [by left|done].
    + destruct (Hsub a Ha) as [Hin|Hnone].
      * apply (Hap a); [by right|done].
      * destruct Hl2 as [_ Hr2 _ _]. eapply ring_alloc_next in Ha' as [? ?]; [|done].
        congruence.
Qed.

Lemma uniq_from_subset (x : Z * T) xs z : z ∈ uniq_from x xs → z ∈ x :: xs.
Proof.
  revert x. induction xs as [|y ys IH]; intros x; simpl; [done|].
  destruct (elem_eq x.2 y.2).
  - intros Hz%IH. rewrite !elem_of_cons in *. naive_solver.
  - intros [->|Hz%IH]%elem_of_cons; rewrite !elem_of_cons in *; naive_solver.
Qed.

Lemma unique_list_subset xs z : z ∈ unique_list xs → z ∈ xs.
Proof. destruct xs; [done|]. apply uniq_from_subset. Qed.

Lemma uniq_from_length (x : Z * T) xs : (length (uniq_from x xs) ≤ S (length xs))%nat.
Proof.
  revert x. induction xs as [|y ys IH]; intros x; simpl; [done|].
  destruct (elem_eq x.2 y.2); [specialize (IH x)|specialize (IH y); simpl]; lia.
Qed.

Lemma unique_list_length xs : (length (unique_list xs) ≤ length xs)%nat.
Proof. destruct xs as [|x xs]; [done|]. apply uniq_from_length. Qed.

Lemma wp_erase_at E m V this other h1 h2 xs ys pos (Q : unit → view → Prop) :
  this ≠ other →
  is_list V this h1 xs → is_list V other h2 ys → apart (h1 :: xs.*1) (h2 :: ys.*1) →
  (length xs + length ys ≤ m)%nat →
  pos ∈ h1 :: xs.*1 →
  (∀ V', two_lists m V' this other h1 h2 → Q tt V') →
  wp E (s21.erase this pos) V Q.
Proof.
  intros Hne Hl1 Hl2 Hap Hm Hpos HQ.
  apply elem_of_cons in Hpos as [->|Hpos].
  - eapply wp_erase_end; [done|]. apply HQ. by exists xs, ys.
  - apply list_elem_of_fmap in Hpos as (x & -> & Hx).
    apply list_elem_of_split in Hx as (xs1 & xs2 & ->).
    eapply wp_erase; [done|]. intros V' Hl1' Hf. apply HQ.
    eapply (two_lists_frame m V V' this other h1 h2 (xs1 ++ x :: xs2) (xs1 ++ xs2) ys);
      try done.
    + intros a Ha. left. rewrite fmap_app in Ha. rewrite fmap_app, fmap_cons.
      rewrite elem_of_app in Ha. rewrite elem_of_app, elem_of_cons. naive_solver.
    + rewrite length_app in *. simpl in Hm. lia.
Qed.

Lemma wp_insert_at (E : fault → Prop) m V this other h1 h2 xs ys pos x
    (Q : Z → view → Prop) :
  E BadAlloc → this ≠ other →
  is_list V this h1 xs → is_list V other h2 ys → apart (h1 :: xs.*1) (h2 :: ys.*1) →
  (length xs + length ys ≤ m)%nat →
  pos ∈ h1 :: xs.*1 →
  (∀ new V', two_lists (S m) V' this other h1 h2 → Q new V') →
  wp E (s21.insert this pos x) V Q.
Proof.
  intros HE Hne Hl1 Hl2 Hap Hm Hpos HQ.
  destruct (position_split h1 xs pos Hpos) as (xs1 & xs2 & -> & ->).
  eapply wp_insert; [done|done|]. intros new V' Hl1' Hnew Hf. apply HQ.
  eapply (two_lists_frame (S m) V V' this other h1 h2 (xs1 ++ xs2)
            (xs1 ++ (new, x) :: xs2) ys); try done.
  - intros a Ha. rewrite fmap_app, fmap_cons in Ha. rewrite fmap_app.
    rewrite elem_of_app, elem_of_cons in Ha. rewrite elem_of_app. simpl in Ha. naive_solver.
  - rewrite length_app in *. simpl. lia.
Qed.

Lemma cursor_in_ring (hd : Z) l : cursor hd l ∈ hd :: l.
Proof. apply (cursor_in hd [] l). Qed.

Lemma before_in_ring (hd : Z) l : before hd l ∈ hd :: l.
Proof. rewrite elem_of_cons. destruct (before_elem hd l); auto. Qed.

(** Every operation keeps the two lists represented and apart and adds
    at most one element.  No operation has undefined behaviour; the
    faults [E] to be reckoned with are the lack of memory, for the
    operations that allocate, and the lack of fuel, for [unique] or when
    the fuel does not exceed the number of elements. *)
Lemma wp_run_op (E : fault → Prop) fuel this other c h1 h2 m V :
  (allocates c = true → E BadAlloc) → (is_unique c = true → E OutOfFuel) →
  enough E m fuel →
  this ≠ other → two_lists m V this other h1 h2 →
  wp E (run_op fuel this other c) V (λ _ V', two_lists (S m) V' this other h1 h2).
Proof.
  intros HB HU Hfuel Hne (xs & ys & Hl1 & Hl2 & Hap & Hm).
  assert (∀ V', two_lists m V' this other h1 h2 → two_lists (S m) V' this other h1 h2)
    as Hle by (intros V' H2; eapply two_lists_le; [done|lia]).
  destruct c as [k x|k|x| |x| |k| | | |]; simpl; try specialize (HB eq_refl).
  - apply wp_bind. eapply wp_begin; [exact Hl1|].
    apply wp_bind. eapply wp_advance; [exact Hl1|apply cursor_in_ring|]. intros pos Hpos.
    apply wp_bind. eapply (wp_insert_at _ m V this other h1 h2 xs ys); try done.
    intros new V' H2. by apply wp_ret.
  - apply wp_bind. eapply wp_begin; [exact Hl1|].
    apply wp_bind. eapply wp_advance; [exact Hl1|apply cursor_in_ring|]. intros pos Hpos.
    eapply (wp_erase_at _ m _ this other h1 h2 xs ys); try done.
  - unfold s21.push_back. apply wp_bind. eapply wp_end; [exact Hl1|].
    apply wp_bind. eapply (wp_insert_at _ m V this other h1 h2 xs ys); try done; [by left|].
    intros new V' H2. by apply wp_ret.
  - unfold s21.pop_back. apply wp_bind. eapply wp_end; [exact Hl1|].
    pose proof Hl1 as [_ Hr _ _]. destruct V as [n p v o]. cbn [vn vp vv vo] in *.
    pose proof (ring_link _ _ _ _ [] (eq_ind_r (ring n p h1) Hr (app_nil_r _))) as [_ Hp0].
    change (cursor h1 []) with h1 in Hp0. wp_step.
    eapply (wp_erase_at _ m _ this other h1 h2 xs ys); try done. apply before_in_ring.
  - unfold s21.push_front. apply wp_bind. eapply wp_begin; [exact Hl1|].
    apply wp_bind. eapply (wp_insert_at _ m V this other h1 h2 xs ys); try done;
      [apply cursor_in_ring|].
    intros new V' H2. by apply wp_ret.
  - unfold s21.pop_front. apply wp_bind. eapply wp_begin; [exact Hl1|].
    eapply (wp_erase_at _ m _ this other h1 h2 xs ys); try done. apply cursor_in_ring.
  - apply wp_bind. eapply wp_begin; [exact Hl1|].
    apply wp_bind. eapply wp_advance; [exact Hl1|apply cursor_in_ring|]. intros pos Hpos.
    destruct (position_split h1 xs pos Hpos) as (xs1 & xs2 & -> & ->).
    eapply (wp_splice _ V this other h1 h2 xs1 xs2 ys); try done. intros V' Hl1' Hl2' _.
    exists (xs1 ++ ys ++ xs2), []. split_and!; [done..| |].
    + intros a Ha [->|Ha']%elem_of_cons; [|by apply elem_of_nil in Ha'].
      rewrite !fmap_app, elem_of_cons, !elem_of_app in Ha.
      destruct Hl2 as [_ [Hnd2 _ _] _ _]. apply NoDup_cons in Hnd2 as [Hh2 _].
      assert (h2 ∉ h1 :: (xs1 ++ xs2).*1) as Hh1.
      { intros Hin. apply (Hap h2 Hin). by left. }
      rewrite fmap_app, not_elem_of_cons, not_elem_of_app in Hh1. naive_solver.
    + rewrite !length_app in *. simpl. lia.
  - eapply (wp_merge _ V this other h1 h2 xs ys); try done.
    { eapply enough_le; [done|lia]. }
    intros V' Hl1' Hl2'.
    exists (list_merge keep_first xs ys), []. split_and!; [done..| |].
    + intros a Ha [->|Ha']%elem_of_cons; [|by apply elem_of_nil in Ha'].
      destruct Hl2 as [_ [Hnd2 _ _] _ _]. apply NoDup_cons in Hnd2 as [Hh2 _].
      assert (h2 ∉ h1 :: xs.*1) as Hh1.
      { intros Hin. apply (Hap h2 Hin). by left. }
      apply elem_of_cons in Ha as [->|Ha]; [apply Hh1; by left|].
      apply list_elem_of_fmap in Ha as (z & Hz & Hin).
      rewrite merge_Permutation, elem_of_app in Hin. destruct Hin as [Hin|Hin].
      * apply Hh1. right. rewrite Hz. by apply list_elem_of_fmap_2.
      * apply Hh2. rewrite Hz. by apply list_elem_of_fmap_2.
    + rewrite (Permutation_length (merge_Permutation keep_first xs ys)), length_app.
      simpl. lia.
  - eapply wp_reverse; [exact Hl1|eapply enough_le; [done|lia]|]. intros V' Hl1' Hf.
    eapply (two_lists_frame (S m) V V' this other h1 h2 xs (reverse xs) ys); try done.
    + intros a Ha. left. by rewrite fmap_reverse, elem_of_reverse in Ha.
    + rewrite length_reverse. lia.
  - eapply wp_unique_partial; [by apply HU|exact Hl1|]. intros V' Hl1' Hf.
    eapply (two_lists_frame (S m) V V' this other h1 h2 xs (unique_list xs) ys); try done.
    + intros a (z & -> & Hz)%list_elem_of_fmap. left.
      apply list_elem_of_fmap_2. by apply unique_list_subset.
    + pose proof (unique_list_length xs). lia.
  - eapply wp_sort_safe; [exact Hl1|eapply enough_le; [done|lia]|].
    intros V' vs' Hl1' Hperm Hf.
    apply Permutation_length in Hperm. rewrite length_fmap in Hperm.
    eapply (two_lists_frame (S m) V V' this other h1 h2 xs (zip xs.*1 vs') ys); try done.
    + intros a Ha. left. rewrite fst_zip in Ha; [done|]. rewrite length_fmap. lia.
    + rewrite length_zip_with, length_fmap. lia.
Qed.

(** The operation of a sequence, called on [a] or on [b]. *)
Lemma run_ops_cons fuel a b on_a c cs s :
  run_ops fuel a b ((on_a, c) :: cs) s
  = match (if on_a : bool then run_op fuel a b c else run_op fuel b a c) s with
    | Ret _ s1 => run_ops fuel a b cs s1
    | Fault f => Fault f
    end.
Proof. done. Qed.

Lemma run_ops_app fuel a b cs1 cs2 s :
  run_ops fuel a b (cs1 ++ cs2) s
  = match run_ops fuel a b cs1 s with
    | Ret _ s1 => run_ops fuel a b cs2 s1
    | Fault f => Fault f
    end.
Proof.
  revert s. induction cs1 as [|[on_a c] cs1 IH]; intros s; [done|].
  rewrite <-app_comm_cons, !run_ops_cons.
  by destruct ((if on_a then run_op fuel a b c else run_op fuel b a c) s).
Qed.

(** One operation, with fuel for its loops: it returns with the lists
    still represented, or fails in one of the two ways of [op_fault]. *)
Lemma run_op_outcome fuel a b (on_a : bool) c h1 h2 m s :
  (m < fuel)%nat → a ≠ b → two_lists m (view_of s) a b h1 h2 →
  match (if on_a then run_op fuel a b c else run_op fuel b a c) s with
  | Ret _ s1 => two_lists (S m) (view_of s1) a b h1 h2
  | Fault f => op_fault c f
  end.
Proof.
  intros Hfuel Hne H2.
  assert (allocates c = true → op_fault c BadAlloc) as HB by (intros; by left).
  assert (is_unique c = true → op_fault c OutOfFuel) as HU.
  { intros Hc. right. by destruct c. }
  destruct on_a.
  - pose proof (wp_run_op (op_fault c) fuel a b c h1 h2 m _ HB HU
      (enough_lt _ _ _ Hfuel) Hne H2 s eq_refl) as Hw.
    by destruct (run_op fuel a b c s).
  - pose proof (wp_run_op (op_fault c) fuel b a c h2 h1 m _ HB HU
      (enough_lt _ _ _ Hfuel) (not_eq_sym Hne) (two_lists_sym _ _ _ _ _ _ H2) s eq_refl) as Hw.
    destruct (run_op fuel b a c s); [|done]. by apply two_lists_sym.
Qed.

(** A sequence, with fuel for its loops: it returns with the lists still
    represented, or one of its operations, reached with the lists
    represented, fails in one of the two ways. *)
Lemma run_ops_outcome fuel a b h1 h2 cs :
  ∀ m s, a ≠ b → two_lists m (view_of s) a b h1 h2 → (m + length cs < fuel)%nat →
  match run_ops fuel a b cs s with
  | Ret _ s' => two_lists (m + length cs) (view_of s') a b h1 h2
  | Fault f =>
      ∃ cs1 on_a c cs2 s1,
        cs = cs1 ++ (on_a, c) :: cs2 ∧
        run_ops fuel a b cs1 s = Ret tt s1 ∧
        two_lists (m + length cs1) (view_of s1) a b h1 h2 ∧
        (if on_a : bool then run_op fuel a b c else run_op fuel b a c) s1 = Fault f ∧
        op_fault c f
  end.
Proof.
  induction cs as [|[on_a c] cs IH]; intros m s Hne H2 Hfuel.
  { simpl. by rewrite Nat.add_0_r. }
  simpl in Hfuel. rewrite run_ops_cons.
  pose proof (run_op_outcome fuel a b on_a c h1 h2 m s ltac:(lia) Hne H2) as Hc.
  destruct ((if on_a then run_op fuel a b c else run_op fuel b a c) s) as [[] s1|f] eqn:Hr.
  - specialize (IH (S m) s1 Hne Hc ltac:(lia)).
    destruct (run_ops fuel a b cs s1) as [[] s'|f] eqn:Hrs.
    + simpl. by rewrite Nat.add_succ_r.
    + destruct IH as (cs1 & on' & c' & cs2 & s2 & -> & Hr1 & H21 & Hr2 & Hf).
      exists ((on_a, c) :: cs1), on', c', cs2, s2. split_and!; [done| |  |done|done].
      * by rewrite run_ops_cons, Hr.
      * simpl. by rewrite Nat.add_succ_r.
  - exists [], on_a, c, cs, s. split_and!; [done|done| |done|done].
    simpl. by rewrite Nat.add_0_r.
Qed.

(** After every prefix of the sequence that returns the lists are
    represented. *)
Lemma run_ops_prefix fuel a b h1 h2 cs1 cs2 m s s1 :
  a ≠ b → two_lists m (view_of s) a b h1 h2 → (m + length (cs1 ++ cs2) < fuel)%nat →
  run_ops fuel a b cs1 s = Ret tt s1 →
  two_lists (m + length cs1) (view_of s1) a b h1 h2.
Proof.
  intros Hne H2 Hfuel Hr. rewrite length_app in Hfuel.
  pose proof (run_ops_outcome fuel a b h1 h2 cs1 m s Hne H2 ltac:(lia)) as Hc.
  by rewrite Hr in Hc.
Qed.

End Sequences.

(** * Concrete lists *)

Section Construction.
Context {T : Type} `{Elem T}.

Definition init_state : state T := mkState ∅ ∅.

Fixpoint push_back_each (this : Z) (items : list T) : M T unit :=
  match items with
  | [] => mret tt
  | a :: items' => s21.push_back this a;; push_back_each this items'
  end.

(** [list(std::initializer_list<value_type> const &items)]. *)
Definition list_init (this : Z) (items : list T) : M T unit :=
  s21.list_ctor this;; push_back_each this items.

(** The state a piece of client code leaves behind when started in the
    empty state ([init_state] itself if it faults). *)
Definition state_after {A} (m : M T A) : state T :=
  match m init_state with
  | Ret _ s => s
  | Fault _ => init_state
  end.

Lemma view_of_inj (s s' : state T) : view_of s = view_of s' → s = s'.
Proof.
  destruct s as [n o], s' as [n' o']. unfold view_of. cbn [nodes objs].
  intros Heq. injection Heq as Hn Hp Hv Ho. subst o'. f_equal.
  apply map_eq. intros a.
  apply (f_equal (λ m, m !! a)) in Hn. apply (f_equal (λ m, m !! a)) in Hp.
  apply (f_equal (λ m, m !! a)) in Hv. cbv beta in Hn, Hp, Hv.
  rewrite !lookup_fmap in Hn. rewrite !lookup_fmap in Hp. rewrite !lookup_fmap in Hv.
  destruct (n !! a) as [[x y z]|], (n' !! a) as [[x' y' z']|]; simpl in *; congruence.
Qed.

End Construction.

(** The integers with [<] and [==] obey the laws. *)
#[global] Instance Z_ElemLaws : ElemLaws Z.
Proof.
  split; simpl.
  - intros a b. apply Z.eqb_eq.
  - intros a. apply Z.ltb_irrefl.
  - intros a b c. rewrite !Z.ltb_lt. lia.
  - intros a b. rewrite !Z.ltb_ge. lia.
Qed.

(** Records ordered by their key alone: two records of the same key are
    tied under [<] and accepted by [==], whatever their tags. *)
Record keyed := Keyed { rec_key : Z; rec_tag : Z }.

#[global] Instance keyed_Elem : Elem keyed :=
  {| elem_default := Keyed 0 0;
     elem_lt a b := rec_key a <? rec_key b;
     elem_eq a b := rec_key a =? rec_key b |}.

#[global] Instance keyed_StrictWeakOrder : StrictWeakOrder keyed.
Proof.
  split; simpl.
  - intros a. apply Z.ltb_irrefl.
  - intros a b c. rewrite !Z.ltb_lt. lia.
  - intros a b c. rewrite !Z.ltb_ge. lia.
Qed.

#[global] Instance keyed_EqWithinOrder : EqWithinOrder keyed.
Proof. intros a b. simpl. rewrite Z.eqb_eq, !Z.ltb_ge. lia. Qed.

(** Numbers compared up to a tolerance: [<] is the order of the
    integers, a strict total order, while [==] also accepts neighbours. *)
Record approx := Approx { approx_val : Z }.

#[global] Instance approx_Elem : Elem approx :=
  {| elem_default := Approx 0;
     elem_lt a b := approx_val a <? approx_val b;
     elem_eq a b := Z.abs (approx_val a - approx_val b) <=? 1 |}.

#[global] Instance approx_StrictWeakOrder : StrictWeakOrder approx.
Proof.
  split; simpl.
  - intros a. apply Z.ltb_irrefl.
  - intros a b c. rewrite !Z.ltb_lt. lia.
  - intros a b c. rewrite !Z.ltb_ge. lia.
Qed.

(** Settles [is_list] on a closed state by evaluation. *)
Ltac check_list :=
  split;
  [ vm_compute; reflexivity
  | split;
    [ compute_done
    | cbn [fmap list_fmap app path fst]; unfold link; repeat split; vm_compute; reflexivity
    | repeat constructor; unfold ptr_ok; cbn; lia ]
  | repeat constructor; vm_compute; reflexivity
  | vm_compute; reflexivity ].


(** ** [unique] on a list that ends with the default value *)

Section UniqueSpin.
Context {T : Type} `{ElemLaws T}.
Local Abbreviation view := (view T).

Definition spin_inv (this hd : Z) (st : Z * bool) (W : view) : Prop :=
  let '(it, returned) := st in
  returned = false ∧
  ∃ xs1 y xs2 z, is_list W this hd (xs1 ++ y :: xs2) ∧ it = y.1 ∧
                 last (y :: xs2) = Some z ∧ z.2 = elem_default.

(** The comparison of the last element with its successor reads the
    sentinel, which holds [value_type{}]; when they are equal the loop
    erases [end()], which does nothing, and tests the same pair again. *)
Lemma wp_unique_spin (E : fault → Prop) V this hd xs x fuel :
  E OutOfFuel →
  is_list V this hd (xs ++ [x]) → x.2 = elem_default →
  wp E (s21.unique fuel this) V (λ _ _, False).
Proof.
  intros HE Hl Hx. unfold s21.unique.
  apply wp_bind. eapply wp_empty; [done|].
  rewrite bool_decide_false by (by destruct xs). cbn [negb].
  apply wp_bind. eapply wp_begin; [done|].
  apply wp_bind. eapply wp_mono; [|done|].
  { eapply (wp_while_partial E (spin_inv this hd)
      (λ '(it, returned) W, if returned : bool then false else bool_decide (it ≠ hd))).
    - done.
    - intros [it r] W Q' (-> & xs1 & y & xs2 & z & Hl' & _) HQ'.
      apply wp_bind. eapply wp_end; [done|]. by apply wp_ret.
    - intros [it r] W (-> & xs1 & y & xs2 & z & Hl' & -> & Hz & Hd) Hc.
      destruct xs2 as [|y2 ys].
      + injection Hz as <-.
        eapply wp_unique_step_last; [done|..]; intros Hxy.
        * split; [done|]. by exists xs1, y, [], y.
        * rewrite Hd in Hxy. assert (elem_eq (elem_default : T) elem_default = true) as Hr
            by by apply elem_eq_spec.
          congruence.
      + eapply wp_unique_step_cons; [done|..]; intros Hxy.
        * intros V' Hl'' _. split; [done|]. destruct ys as [|y3 ys].
          -- injection Hz as <-. exists xs1, y, [], y. split_and!; [done..|].
             apply elem_eq_spec in Hxy. congruence.
          -- by exists xs1, y, (y3 :: ys), z.
        * split; [done|]. exists (xs1 ++ [y]), y2, ys, z.
          rewrite <-(assoc_L (++)). by split_and!.
    - split; [done|]. destruct xs as [|x0 xs0].
      + by exists [], x, [], x.
      + exists [], x0, (xs0 ++ [x]), x. split_and!; [done..| |done].
        change (x0 :: xs0 ++ [x]) with ((x0 :: xs0) ++ [x]). by rewrite last_snoc. }
  cbv beta. intros [it r] W [(-> & xs1 & y & xs2 & z & Hl' & -> & _) Hc].
  apply bool_decide_eq_false in Hc. apply dec_stable in Hc.
  destruct Hl' as [_ [Hnd _ _] _ _]. apply NoDup_cons in Hnd as [Hhd _].
  exfalso. apply Hhd. rewrite <-Hc, fmap_app, fmap_cons, elem_of_app, elem_of_cons. auto.
Qed.

End UniqueSpin.

(** ** [unique] on a list whose pass ends *)

Section UniqueReturns.
Context {T : Type} `{Elem T}.
Local Abbreviation view := (view T).
Implicit Types (V : view) (xs ys : list (Z * T)).

Definition unique_var (this hd : Z) (xs : list (Z * T)) (V : view)
    (m : nat) (st : Z * bool) (W : view) : Prop :=
  let '(it, returned) := st in
  returned = false ∧
  ∃ xs', is_list W this hd xs' ∧ frame (hd :: xs.*1) this V W ∧
         (∀ a, a ∈ xs'.*1 → a ∈ xs.*1) ∧
         ((∃ xs1 x xs2, xs' = xs1 ++ x :: xs2 ∧ it = x.1 ∧ m = S (length xs2) ∧
                        xs1 ++ uniq_from x xs2 = unique_list xs) ∨
          (it = hd ∧ xs' = unique_list xs)).

(** When the last element that the pass keeps differs from the default
    value, [unique] returns, within as many iterations as the list has
    elements, and leaves the list of [unique_list]. *)
Lemma wp_unique (E : fault → Prop) V this hd xs fuel (Q : unit → view → Prop) :
  is_list V this hd xs →
  (∀ z, last (unique_list xs) = Some z → elem_eq z.2 elem_default = false) →
  enough E (length xs) fuel →
  (∀ V', is_list V' this hd (unique_list xs) → frame (hd :: xs.*1) this V V' → Q tt V') →
  wp E (s21.unique fuel this) V Q.
Proof.
  intros Hl Hlast Hfuel HQ. unfold s21.unique.
  apply wp_bind. eapply wp_empty; [done|].
  destruct xs as [|x0 xs0].
  { rewrite bool_decide_true by done. apply wp_ret. apply HQ; [done|apply frame_refl]. }
  rewrite bool_decide_false by done. cbn [negb].
  apply wp_bind. eapply wp_begin; [done|].
  change (cursor hd (x0 :: xs0).*1) with x0.1.
  apply wp_bind. eapply wp_mono; [|done|].
  { eapply (wp_while E (unique_var this hd (x0 :: xs0) V)
      (λ '(it, returned) W, if returned : bool then false else bool_decide (it ≠ hd))).
    - intros m [it r] W Q' (-> & xs' & Hl' & _) HQ'.
      apply wp_bind. eapply wp_end; [done|]. by apply wp_ret.
    - intros m [it r] W (-> & xs' & Hl' & Hf & Hsub & Hcase) Hc.
      apply bool_decide_eq_true in Hc.
      destruct Hcase as [(xs1 & x & xs2 & -> & -> & -> & Hu)|[-> _]]; [|done].
      destruct xs2 as [|y ys].
      + eapply wp_unique_step_last; [done|..]; intros Hxy.
        * exfalso. rewrite (Hlast x) in Hxy; [done|].
          rewrite <-Hu. simpl. by rewrite last_snoc.
        * exists 0%nat. split; [simpl; lia|]. split; [done|].
          exists (xs1 ++ [x]). split_and!; [done..|]. right. by split.
      + eapply wp_unique_step_cons; [done|..]; intros Hxy.
        * intros V' Hl'' Hf'. exists (S (length ys)). split; [simpl; lia|].
          split; [done|]. exists (xs1 ++ x :: ys). split_and!; [done| | |].
          -- eapply frame_trans; [done|done|].
             intros a [->|Ha]%elem_of_cons; [by left|right; by apply Hsub].
          -- intros a Ha. apply Hsub. rewrite fmap_app, fmap_cons in Ha.
             rewrite fmap_app, !fmap_cons. rewrite elem_of_app, elem_of_cons in Ha.
             rewrite elem_of_app, !elem_of_cons. naive_solver.
          -- left. exists xs1, x, ys. split_and!; [done..|].
             simpl in Hu. by rewrite Hxy in Hu.
        * exists (S (length ys)). split; [simpl; lia|].
          split; [done|]. exists (xs1 ++ x :: y :: ys). split_and!; [done..|].
          left. exists (xs1 ++ [x]), y, ys. rewrite <-!(assoc_L (++)).
          split_and!; [done..|]. simpl in Hu. by rewrite Hxy in Hu.
    - split; [done|]. exists (x0 :: xs0). split_and!; [done|apply frame_refl|done|].
      left. by exists [], x0, xs0.
    - done. }
  cbv beta. intros [it r] W [[m (-> & xs' & Hl' & Hf & Hsub & Hcase)] Hc].
  apply bool_decide_eq_false in Hc. apply dec_stable in Hc. subst it.
  apply wp_ret. destruct Hcase as [(xs1 & x & xs2 & -> & Hx & _)|[_ ->]]; [|by apply HQ].
  exfalso. destruct Hl' as [_ [Hnd _ _] _ _]. apply NoDup_cons in Hnd as [Hhd _].
  apply Hhd. rewrite Hx, fmap_app, fmap_cons, elem_of_app, elem_of_cons. auto.
Qed.

(** The other case: when [==] accepts the last element that the pass
    keeps together with the default value, whatever the laws of [==],
    the pass reaches that element and tests it against the sentinel for
    ever. *)
Definition stuck_inv (this hd : Z) (st : Z * bool) (W : view) : Prop :=
  let '(it, returned) := st in
  returned = false ∧
  ∃ xs1 y xs2 z, is_list W this hd (xs1 ++ y :: xs2) ∧ it = y.1 ∧
                 last (uniq_from y xs2) = Some z ∧ elem_eq z.2 elem_default = true.

Lemma uniq_from_last_cons (x y : Z * T) ys :
  last (x :: uniq_from y ys) = last (uniq_from y ys).
Proof.
  rewrite last_cons. destruct (last (uniq_from y ys)) eqn:El; [done|].
  apply last_None in El. exfalso. revert y El.
  induction ys as [|y2 ys IH]; intros y El; simpl in El; [done|].
  destruct (elem_eq y.2 y2.2); [by eapply IH|done].
Qed.

Lemma wp_unique_stuck (E : fault → Prop) V this hd xs z fuel :
  E OutOfFuel →
  is_list V this hd xs →
  last (unique_list xs) = Some z → elem_eq z.2 elem_default = true →
  wp E (s21.unique fuel this) V (λ _ _, False).
Proof.
  intros HE Hl Hz Hzd. unfold s21.unique.
  apply wp_bind. eapply wp_empty; [done|].
  destruct xs as [|x0 xs0]; [done|].
  rewrite bool_decide_false by done. cbn [negb].
  apply wp_bind. eapply wp_begin; [done|].
  change (cursor hd (x0 :: xs0).*1) with x0.1.
  apply wp_bind. eapply wp_mono; [|done|].
  { eapply (wp_while_partial E (stuck_inv this hd)
      (λ '(it, returned) W, if returned : bool then false else bool_decide (it ≠ hd))).
    - done.
    - intros [it r] W Q' (-> & xs1 & y & xs2 & z' & Hl' & _) HQ'.
      apply wp_bind. eapply wp_end; [done|]. by apply wp_ret.
    - intros [it r] W (-> & xs1 & y & xs2 & z' & Hl' & -> & Hz' & Hd) Hc.
      destruct xs2 as [|y2 ys].
      + injection Hz' as <-.
        eapply wp_unique_step_last; [done|..]; intros Hxy.
        * split; [done|]. by exists xs1, y, [], y.
        * congruence.
      + simpl in Hz'. eapply wp_unique_step_cons; [done|..]; intros Hxy.
        * intros V' Hl'' _. split; [done|]. rewrite Hxy in Hz'.
          by exists xs1, y, ys, z'.
        * split; [done|]. rewrite Hxy, uniq_from_last_cons in Hz'.
          exists (xs1 ++ [y]), y2, ys, z'. rewrite <-(assoc_L (++)). by split_and!.
    - split; [done|]. by exists [], x0, xs0, z. }
  cbv beta. intros [it r] W [(-> & xs1 & y & xs2 & z' & Hl' & -> & _) Hc].
  apply bool_decide_eq_false in Hc. apply dec_stable in Hc.
  destruct Hl' as [_ [Hnd _ _] _ _]. apply NoDup_cons in Hnd as [Hhd _].
  exfalso. apply Hhd. rewrite <-Hc, fmap_app, fmap_cons, elem_of_app, elem_of_cons. auto.
Qed.

(** So a call of [unique] that is out of fuel, with more fuel than the
    list has elements, does not return for any amount of fuel. *)
Lemma unique_out_of_fuel_for_ever (s : state T) this hd xs fuel :
  is_list (view_of s) this hd xs → (length xs < fuel)%nat →
  s21.unique fuel this s = Fault OutOfFuel →
  ∀ fuel', s21.unique fuel' this s = Fault OutOfFuel.
Proof.
  intros Hl Hfuel Hr.
  assert ((∀ z, last (unique_list xs) = Some z → elem_eq z.2 elem_default = false) → False)
    as Hno.
  { intros Hlast.
    pose proof (wp_unique no_fault _ this hd xs fuel (λ _ _, True) Hl Hlast
      (enough_lt _ _ _ Hfuel) (λ _ _ _, I) s eq_refl) as Hw.
    by rewrite Hr in Hw. }
  destruct (last (unique_list xs)) as [z|] eqn:Hz; [|by destruct Hno].
  destruct (elem_eq z.2 elem_default) eqn:Hzd; [|destruct Hno; congruence].
  intros fuel'.
  pose proof (wp_unique_stuck (λ f, f = OutOfFuel) _ this hd xs z fuel' eq_refl Hl Hz Hzd
    s eq_refl) as Hw.
  by destruct (s21.unique fuel' this s) as [a s'|f]; [|subst f].
Qed.

End UniqueReturns.

(** ** The order of a merge *)

Section MergeOrder.
Context {T : Type} `{Elem T} `{!StrictWeakOrder T}.
Implicit Types (x y z : Z * T) (xs ys zs : list (Z * T)).

#[global] Instance keep_first_total : Total (keep_first (T:=T)).
Proof.
  intros x y. unfold keep_first.
  destruct (elem_lt y.2 x.2) eqn:Hyx; [right; by apply elem_lt_asym|by left].
Qed.

#[global] Instance keep_first_trans : Transitive (keep_first (T:=T)).
Proof.
  intros x y z Hxy Hyz. unfold keep_first in *. by eapply not_lt_trans.
Qed.

Lemma Sorted_keep_first xs : Sorted non_decreasing xs.*2 ↔ Sorted keep_first xs.
Proof.
  induction xs as [|x xs IH]; [split; constructor|].
  rewrite fmap_cons. split; intros Hs; apply Sorted_inv in Hs as [Hs Hh];
    (constructor; [by apply IH|]); destruct xs; constructor;
    by apply HdRel_inv in Hh.
Qed.

(** In the merged sequence an element of the first list stands ahead of
    every element of the second that is not less than it. *)
Lemma merge_keeps_first xs ys x y :
  StronglySorted keep_first xs → x ∈ xs → y ∈ ys → keep_first x y →
  ∃ l1 l2 l3, list_merge keep_first xs ys = l1 ++ x :: l2 ++ y :: l3.
Proof.
  intros Hs. revert ys. induction Hs as [|x1 xs' Hs IH Hall]; intros ys Hx Hy Hxy.
  { by apply elem_of_nil in Hx. }
  induction ys as [|y1 ys' IHy]; [by apply elem_of_nil in Hy|].
  rewrite list_merge_cons. destruct (decide (keep_first x1 y1)) as [Hk|Hk].
  - apply elem_of_cons in Hx as [->|Hx].
    + assert (y ∈ list_merge keep_first xs' (y1 :: ys')) as Hin.
      { rewrite merge_Permutation, elem_of_app. by right. }
      apply list_elem_of_split in Hin as (l2 & l3 & ->). by exists [], l2, l3.
    + destruct (IH (y1 :: ys') Hx Hy Hxy) as (l1 & l2 & l3 & ->).
      by exists (x1 :: l1), l2, l3.
  - assert (elem_lt y1.2 x.2 = true) as Hlt.
    { unfold keep_first in Hk. apply not_false_is_true in Hk.
      apply elem_of_cons in Hx as [->|Hx]; [done|].
      rewrite Forall_forall in Hall. by eapply elem_lt_le_trans, Hall. }
    apply elem_of_cons in Hy as [->|Hy]; [unfold keep_first in Hxy; congruence|].
    destruct (IHy Hy) as (l1 & l2 & l3 & ->). by exists (y1 :: l1), l2, l3.
Qed.

Lemma merge_stable xs ys x y (i j : nat) :
  NoDup (list_merge keep_first xs ys) → Sorted keep_first xs →
  x ∈ xs → y ∈ ys → keep_first x y →
  list_merge keep_first xs ys !! i = Some x →
  list_merge keep_first xs ys !! j = Some y →
  (i < j)%nat.
Proof.
  intros Hnd Hs Hx Hy Hxy Hi Hj.
  apply Sorted_StronglySorted in Hs; [|apply _].
  destruct (merge_keeps_first xs ys x y Hs Hx Hy Hxy) as (l1 & l2 & l3 & Heq).
  rewrite Heq in Hnd, Hi, Hj.
  assert (i = length l1) as ->.
  { eapply NoDup_lookup; [done..|]. by rewrite list_lookup_middle. }
  assert (j = (length l1 + S (length l2))%nat) as ->; [|lia].
  eapply NoDup_lookup; [done..|].
  rewrite lookup_app_r by lia. replace (length l1 + S (length l2) - length l1)%nat
    with (S (length l2)) by lia. simpl. by rewrite list_lookup_middle.
Qed.

End MergeOrder.

(** ** Reading a represented list back *)

Section Contents.
Context {T : Type} `{Elem T}.
Implicit Types (xs ys : list (Z * T)) (s : state T).

Lemma collect_suffix s this hd xs1 xs2 fuel :
  is_list (view_of s) this hd (xs1 ++ xs2) → (length xs2 < fuel)%nat →
  collect fuel hd (cursor hd xs2.*1) s = Some xs2.*2.
Proof.
  revert xs1 fuel. induction xs2 as [|x xs2 IH]; intros xs1 fuel Hl Hfuel.
  - destruct fuel as [|fuel]; [simpl in Hfuel; lia|]. simpl.
    by rewrite decide_True by done.
  - destruct fuel as [|fuel]; [simpl in Hfuel; lia|].
    pose proof Hl as [_ Hr Hv _]. simpl in Hr, Hv.
    rewrite fmap_app, fmap_cons in Hr.
    pose proof (ring_link_mid _ _ _ _ _ _ Hr) as [_ Hn].
    assert ((value_ <$> nodes s) !! x.1 = Some x.2) as Hx.
    { eapply vals_lookup; [done|]. rewrite elem_of_app, elem_of_cons. auto. }
    assert (x.1 ≠ hd) as Hne.
    { destruct Hr as [Hnd _ _]. apply NoDup_cons in Hnd as [Hhd _]. intros Heq.
      apply Hhd. rewrite <-Heq, elem_of_app, elem_of_cons. auto. }
    rewrite lookup_fmap in Hn. rewrite lookup_fmap in Hx.
    change (cursor hd (x :: xs2).*1) with x.1.
    cbn [collect]. rewrite decide_False by done.
    destruct (nodes s !! x.1) as [nd|]; [|done]. simpl in Hn, Hx.
    injection Hn as Hn. injection Hx as Hx. cbn [mbind option_bind].
    rewrite Hn, Hx, (IH (xs1 ++ [x])); [done| |simpl in Hfuel; lia].
    by rewrite <-(assoc_L (++)).
Qed.

(** The values of a represented list are what [contents] reads. *)
Lemma is_list_contents s this hd xs fuel :
  is_list (view_of s) this hd xs → (length xs < fuel)%nat →
  contents fuel this s = Some xs.*2.
Proof.
  intros Hl Hfuel. pose proof Hl as [Ho Hr _ _]. simpl in Ho, Hr.
  pose proof (ring_link _ _ _ [] _ Hr) as [Hn _]. change (before hd []) with hd in Hn.
  rewrite lookup_fmap in Hn.
  unfold contents. rewrite Ho. cbn [mbind option_bind head_].
  destruct (nodes s !! hd) as [nd|]; [|done]. simpl in Hn. injection Hn as Hn.
  cbn [mbind option_bind]. rewrite Hn. by apply (collect_suffix s this hd [] xs).
Qed.

End Contents.

(** ** [insert_many_front] *)

Section InsertMany.
Context {T : Type} `{Elem T}.
Local Abbreviation view := (view T).
Implicit Types (n p : gmap Z Z) (v : gmap Z T) (o : gmap Z s21_list).
Implicit Types (V : view) (xs ys : list (Z * T)).

Lemma wp_alloca_obj (E : fault → Prop) n p v o (Q : Z → view → Prop) :
  E BadAlloc →
  (∀ a, o !! a = None → Q a (View n p v (<[a := mkList 0 0]> o))) →
  wp E alloca_obj (View n p v o) Q.
Proof.
  intros HE HQ s Hs. unfold alloca_obj. injection Hs as <- <- <- <-.
  destruct (fresh_addr (objs s)) as [a|] eqn:Hf; [|done].
  apply fresh_addr_spec in Hf as [Hnone _]. by apply HQ.
Qed.

Lemma wp_store_obj E n p v o this l (Q : unit → view → Prop) :
  Q tt (View n p v (<[this := l]> o)) → wp E (store_obj this l) (View n p v o) Q.
Proof. intros HQ s Hs. unfold store_obj. by injection Hs as <- <- <- <-. Qed.

Lemma wp_set_head E n p v o this l a (Q : unit → view → Prop) :
  o !! this = Some l → Q tt (View n p v (<[this := mkList a (size_ l)]> o)) →
  wp E (set_head this a) (View n p v o) Q.
Proof.
  intros Hl HQ s Hs. unfold set_head, load_obj, store_obj, mbind, M_bind.
  injection Hs as <- <- <- <-. by rewrite Hl.
Qed.

Lemma wp_release_obj E n p v o this (Q : unit → view → Prop) :
  is_Some (o !! this) → Q tt (View n p v (delete this o)) →
  wp E (release_obj this) (View n p v o) Q.
Proof.
  intros [l Hl] HQ s Hs. unfold release_obj. injection Hs as <- <- <- <-. by rewrite Hl.
Qed.

(** A fresh list object with its sentinel, beside a represented list. *)
Lemma wp_list_ctor_beside (E : fault → Prop) V this hd xs temp (Q : unit → view → Prop) :
  E BadAlloc → temp ≠ this →
  is_list V this hd xs →
  (∀ h2 V', is_list V' this hd xs → is_list V' temp h2 [] →
     apart (hd :: xs.*1) [h2] → Q tt V') →
  wp E (s21.list_ctor temp) V Q.
Proof.
  intros HE Hne Hl HQ. destruct V as [n p v o]. unfold s21.list_ctor.
  apply wp_bind. apply wp_new_sentinel; [done|]. intros h2 Hn Hp Hv Hok.
  apply wp_store_obj.
  assert (∀ a, a ∈ hd :: xs.*1 → a ≠ h2) as Hfresh.
  { intros a Ha ->. destruct Hl as [_ Hr _ _]. cbn [vn vp] in Hr.
    destruct (ring_alloc_next _ _ _ _ _ Hr Ha) as [y Hy]. congruence. }
  apply (HQ h2).
  - eapply (is_list_frame _ _ [] temp this); [done| |done|].
    + split; cbn [vn vp vv vo].
      * intros a _ [y Hy]. assert (a ≠ h2) by congruence.
        by rewrite !lookup_insert_ne.
      * intros b Hb. by rewrite lookup_insert_ne.
    + intros a _. apply not_elem_of_nil.
  - split; cbn [vn vp vv vo].
    + by rewrite lookup_insert_eq.
    + change (([] : list (Z * T)).*1) with ([] : list Z). split.
      * apply NoDup_singleton.
      * simpl. unfold link. by rewrite !lookup_insert_eq.
      * constructor; [done|constructor].
    + constructor.
    + by rewrite lookup_insert_eq.
  - intros a Ha ->%list_elem_of_singleton. by apply (Hfresh h2).
Qed.

(** [push_front] on [temp] beside the list of [this]. *)
Lemma wp_push_front_beside (E : fault → Prop) V this temp h1 h2 xs ys x
    (Q : unit → view → Prop) :
  E BadAlloc → temp ≠ this →
  is_list V this h1 xs → is_list V temp h2 ys → apart (h1 :: xs.*1) (h2 :: ys.*1) →
  (∀ new V', is_list V' this h1 xs → is_list V' temp h2 ((new, x) :: ys) →
     apart (h1 :: xs.*1) (h2 :: ((new, x) :: ys).*1) → Q tt V') →
  wp E (s21.push_front temp x) V Q.
Proof.
  intros HE Hne Hl1 Hl2 Hap HQ. unfold s21.push_front.
  apply wp_bind. eapply wp_begin; [done|].
  apply wp_bind. eapply (wp_insert E V temp h2 [] ys x); [done|done|].
  intros new V' Hl2' Hnew Hf. apply wp_ret. apply (HQ new); [|done|].
  - eapply is_list_frame; [done|done|done|]. intros a Ha Ha'. by apply (Hap a).
  - intros a Ha. rewrite fmap_cons, !not_elem_of_cons. split_and!.
    + intros ->. apply (Hap h2); [done|by left].
    + intros ->. destruct Hl1 as [_ Hr _ _].
      simpl in Ha. destruct (ring_alloc_next _ _ _ _ _ Hr Ha) as [y Hy]. congruence.
    + intros Ha'. apply (Hap a); [done|by right].
Qed.

Lemma wp_push_front_each (E : fault → Prop) V this temp h1 h2 xs ys args
    (Q : unit → view → Prop) :
  E BadAlloc → temp ≠ this →
  is_list V this h1 xs → is_list V temp h2 ys → apart (h1 :: xs.*1) (h2 :: ys.*1) →
  (∀ zs V', is_list V' this h1 xs → is_list V' temp h2 (zs ++ ys) →
     apart (h1 :: xs.*1) (h2 :: (zs ++ ys).*1) → zs.*2 = reverse args → Q tt V') →
  wp E (s21.push_front_each temp args) V Q.
Proof.
  intros HE Hne. revert V ys Q. induction args as [|a args IH]; intros V ys Q Hl1 Hl2 Hap HQ.
  - apply wp_ret. by apply (HQ []).
  - simpl. apply wp_bind. eapply wp_push_front_beside; [done..|].
    intros new V' Hl1' Hl2' Hap'. eapply IH; [done..|].
    intros zs V'' Hl1'' Hl2'' Hap'' Hzs. apply (HQ (zs ++ [(new, a)])).
    + done.
    + by rewrite <-(assoc_L (++)).
    + by rewrite <-(assoc_L (++)).
    + by rewrite fmap_app, Hzs, reverse_cons.
Qed.

(** The destructor of an empty list beside the list of [this]. *)
Lemma wp_list_dtor_empty_beside E V this temp h1 h2 xs fuel (Q : unit → view → Prop) :
  temp ≠ this → (0 < fuel)%nat →
  is_list V this h1 xs → is_list V temp h2 [] → apart (h1 :: xs.*1) [h2] →
  (∀ V', is_list V' this h1 xs → is_Some (vo V' !! temp) → Q tt V') →
  wp E (s21.list_dtor fuel temp) V Q.
Proof.
  intros Hne Hfuel Hl1 Hl2 Hap HQ. pose proof Hl2 as [Ho2 Hr2 _ _].
  destruct V as [n p v o]. cbn [vn vp vv vo] in *.
  unfold s21.list_dtor, s21.clear. destruct fuel as [|fuel]; [lia|]. cbn [while].
  apply wp_bind. apply wp_bind. do 2 wp_step. cbn [Z.ltb Z.compare].
  apply wp_ret. wp_step.
  apply wp_bind. apply wp_delete_node.
  { eapply ring_alloc_next; [done|by left]. }
  eapply wp_set_head; [done|]. apply HQ; cbn [vo]; [|by rewrite lookup_insert_eq].
  eapply (is_list_frame _ _ [h2] temp this); [done| |done|].
  - split; cbn [vn vp vv vo].
    + intros a Ha%not_elem_of_cons _. destruct Ha as [Ha _]. by rewrite !lookup_delete_ne.
    + intros b Hb. by rewrite lookup_insert_ne.
  - intros a Ha Ha'. by apply (Hap a).
Qed.

Lemma is_list_objs n p v o o' this hd xs :
  is_list (View n p v o) this hd xs → o' !! this = o !! this →
  is_list (View n p v o') this hd xs.
Proof. intros [Ho Hr Hv Hs] Heq. split; cbn [vn vp vv vo] in *; [by rewrite Heq|done..]. Qed.

(** [insert_many_front(args...)] puts the arguments in front of the
    elements in the reverse of the order in which they are given. *)
Lemma wp_insert_many_front (E : fault → Prop) V this hd xs fuel args
    (Q : unit → view → Prop) :
  E BadAlloc → (0 < fuel)%nat →
  is_list V this hd xs →
  (∀ zs V', is_list V' this hd (zs ++ xs) → zs.*2 = reverse args → Q tt V') →
  wp E (s21.insert_many_front fuel this args) V Q.
Proof.
  intros HE Hfuel Hl HQ. destruct V as [n p v o]. unfold s21.insert_many_front.
  apply wp_bind. apply wp_alloca_obj; [done|]. intros temp Htemp.
  assert (temp ≠ this) as Hne.
  { intros ->. destruct Hl as [Ho _ _ _]. cbn [vo] in Ho. congruence. }
  apply wp_bind. eapply (wp_list_ctor_beside E _ this hd xs temp); [done|done| |].
  { eapply is_list_objs; [done|]. by rewrite lookup_insert_ne. }
  intros h2 V1 Hl1 Hl2 Hap.
  apply wp_bind. eapply (wp_push_front_each E V1 this temp hd h2 xs []); [done..|].
  intros zs V2 Hl1' Hl2' Hap' Hzs. rewrite app_nil_r in Hl2', Hap'.
  apply wp_bind. eapply wp_begin; [done|].
  apply wp_bind. eapply (wp_splice E V2 this temp hd h2 [] xs zs); [done..|].
  intros V3 Hl1'' Hl2'' _.
  apply wp_bind. eapply (wp_list_dtor_empty_beside E V3 this temp hd h2 (zs ++ xs));
    [done|done|done|done| |].
  { intros a Ha Hh%list_elem_of_singleton. subst a.
    destruct Hl1'' as [_ [Hnd _ _] _ _]. rewrite fmap_app in Ha, Hnd.
    apply elem_of_cons in Ha as [Heq|Ha].
    - apply (Hap' h2); [rewrite Heq|]; by left.
    - apply elem_of_app in Ha as [Ha|Ha].
      + destruct Hl2' as [_ [Hnd2 _ _] _ _]. by apply NoDup_cons in Hnd2 as [].
      + apply (Hap' h2); [by right|by left]. }
  intros V4 Hl4 Htemp4. destruct V4 as [n4 p4 v4 o4].
  apply wp_release_obj; [done|]. apply (HQ zs); [|done].
  eapply is_list_objs; [done|]. by rewrite lookup_delete_ne.
Qed.

End InsertMany.

(** ** Further facts used below *)

Lemma size_of_is_list {T} `{Elem T} (s : state T) this hd xs :
  is_list (view_of s) this hd xs → s21.size this s = Ret (Z.of_nat (length xs)) s.
Proof.
  intros [Ho _ _ _]. simpl in Ho.
  unfold s21.size, get_size, load_obj, mbind, M_bind, mret, M_ret. by rewrite Ho.
Qed.

Lemma apart_Forall (l1 l2 : list Z) : Forall (λ a, a ∉ l2) l1 → apart l1 l2.
Proof. intros Hall a Ha. by eapply (proj1 (Forall_forall _ _) Hall). Qed.

Lemma enough_no_fault (m fuel : nat) : (m < fuel)%nat → enough no_fault m fuel.
Proof. by right. Qed.

(** The pivot walk on a represented list: started at the element of
    index [i], for a range of [cnt] elements, it stops on the element of
    index [i + cnt / 2 - 1] and changes nothing. *)
Lemma pivot_walk_index {T} `{Elem T} (s : state T) (this hd left : Z)
    (xs : list (Z * T)) (i cnt fuel : nat) :
  is_list (view_of s) this hd xs → xs.*1 !! i = Some left →
  (2 ≤ cnt)%nat → (i + cnt ≤ length xs)%nat → (cnt / 2 < fuel)%nat →
  ∃ pv, s21.pivot_walk fuel left (Z.of_nat cnt) s = Ret pv s ∧
        xs.*1 !! (i + (cnt / 2 - 1))%nat = Some pv.
Proof.
  intros Hl Hi Hcnt Hhi Hfuel. pose proof Hl as [Ho Hr Hv Hs].
  set (l := xs.*1) in *.
  assert (length l = length xs) as HlN by (unfold l; by rewrite length_fmap).
  set (P := hd :: l ++ [hd]).
  assert (1 ≤ cnt / 2)%nat as Hhalf by (apply Nat.div_le_lower_bound; lia).
  assert (cnt / 2 ≤ cnt)%nat as Hdiv by (apply Nat.Div0.div_le_upper_bound; lia).
  assert (∀ k, (k < length l)%nat → P !!! S k = l !!! k) as HP.
  { intros k Hk. unfold P. simpl. by rewrite lookup_total_app_l. }
  assert (left = P !!! S i) as ->.
  { rewrite HP by (rewrite HlN; lia). symmetry. by apply list_lookup_total_correct. }
  destruct (wp_run (s21.pivot_walk fuel (P !!! S i) (Z.of_nat cnt)) s
    (λ pv V', pv = P !!! (S i - 1 + cnt / 2)%nat ∧ V' = view_of s)) as (pv & s' & Hrun & -> & Hs').
  { eapply (wp_pivot_walk no_fault _ _ _ P (length xs)).
    - intros k Hk. rewrite <-HlN in Hk. by destruct (ring_total_link _ _ hd l k Hr Hk).
    - intros k Hk. rewrite <-HlN in Hk. by destruct (ring_total_link _ _ hd l k Hr Hk).
    - rewrite <-HlN. by eapply ring_size_bound.
    - lia.
    - lia.
    - done.
    - by apply enough_no_fault.
    - done. }
  apply view_of_inj in Hs' as ->. eexists. split; [done|].
  replace (S i - 1 + cnt / 2)%nat with (S (i + (cnt / 2 - 1))) by lia.
  rewrite HP by lia. apply list_lookup_lookup_total_lt. lia.
Qed.

Lemma walk_lookup (n : gmap Z Z) (P : list Z) (k i : nat) (a : Z) :
  (∀ j x y, P !! j = Some x → P !! S j = Some y → n !! x = Some y) →
  P !! i = Some a → (i + k < length P)%nat → walk n k a = P !! (i + k)%nat.
Proof.
  intros Hn. revert i a. induction k as [|k IH]; intros i a Hi Hk.
  - by rewrite Nat.add_0_r, Hi.
  - destruct (lookup_lt_is_Some_2 P (S i)) as [y Hy]; [lia|].
    simpl. rewrite (Hn _ _ _ Hi Hy). simpl.
    rewrite (IH (S i) y Hy) by lia. f_equal. lia.
Qed.

(** Walking [next_] between elements follows the sequence of the list. *)
Lemma walk_next_elements {T} `{Elem T} (s : state T) (this hd a : Z)
    (xs : list (Z * T)) (i k : nat) :
  is_list (view_of s) this hd xs → xs.*1 !! i = Some a → (i + k < length xs)%nat →
  walk_next k a s = xs.*1 !! (i + k)%nat.
Proof.
  intros [_ [_ HP _] _ _] Hi Hk. rewrite walk_next_view.
  assert (length xs.*1 = length xs) as Hlen by by rewrite length_fmap.
  rewrite (walk_lookup _ (hd :: xs.*1 ++ [hd]) k (S i) a).
  - simpl. by rewrite lookup_app_l by lia.
  - intros j x y Hx Hy. by destruct (path_lookup _ _ _ _ _ _ HP Hx Hy).
  - simpl. rewrite lookup_app_l by lia. done.
  - simpl. rewrite length_app. simpl. lia.
Qed.

(** The invariants of a list object that hold in the code: I1, I2 and I3
    with [size + 1] steps round the ring, and I4. *)
Definition well_formed {T} (s : state T) (this : Z) : Prop :=
  doubly_consistent s this ∧ size_matches_walk s this ∧ empty_iff_self_loop s this.

Lemma is_list_well_formed {T} `{Elem T} (s : state T) this hd xs :
  is_list (view_of s) this hd xs → well_formed s this.
Proof.
  intros Hl. split_and!.
  - by eapply is_list_doubly_consistent.
  - by eapply is_list_size_matches_walk.
  - by eapply is_list_empty_iff_self_loop.
Qed.

(** * The properties of [s21::list] *)

(** Example lists. *)

Definition demo_sort : state Z := state_after (list_init 1 [5; 3; 8; 1]).
Definition demo_single : state Z := state_after (list_init 1 [0]).
Definition demo_pair : state Z := state_after (list_init 1 [1; 2]).
Definition demo_triple : state Z := state_after (list_init 1 [1; 2; 3]).
Definition demo_two : state Z :=
  state_after (list_init 1 [1; 4; 7];; list_init 2 [2; 4; 9]).
Definition demo_ops : list (bool * op (T:=Z)) :=
  [ (true, OpPushBack 9); (false, OpPushFront 0); (true, OpInsert 1 4);
    (false, OpReverse); (false, OpSort); (true, OpMerge); (false, OpPushBack 3);
    (true, OpErase 2); (true, OpUnique); (false, OpSplice 0); (true, OpPopFront);
    (false, OpPopBack); (false, OpSort) ].
Definition demo_empty : state Z := state_after (s21.list_ctor 1;; s21.list_ctor 2).
Definition demo_keyed_two : state keyed :=
  state_after (list_init 1 [Keyed 1 10; Keyed 4 11; Keyed 7 12];;
               list_init 2 [Keyed 2 20; Keyed 4 21; Keyed 9 22]).





(** C2 (as the code has it): started with two lists that are well
    represented and share no node, and given fuel for the loops, every
    sequence of public operations (insert, erase, push and pop at either
    end, splice, merge, reverse, unique, sort, on either list) never has
    undefined behaviour, and after each operation that returns both
    lists satisfy the invariants: the ring is doubly consistent, walking
    [next_] (or [prev_]) from the sentinel returns to it after exactly
    [size + 1] steps and not before, and [size == 0] iff the sentinel is
    linked to itself.  The sequence stops without returning in two ways
    only: at an [insert] or a push that finds no memory, or at a call of
    [unique] that returns for no amount of fuel; the operations before
    it have all returned.  No [erase], pop, [splice], [merge], [reverse]
    or [sort] fails to return. *)
Theorem invariants_after_operations {T} `{Elem T} (fuel m : nat) (a b h1 h2 : Z)
    (cs : list (bool * op)) (s : state T) :
  a ≠ b → two_lists m (view_of s) a b h1 h2 → (m + length cs < fuel)%nat →
  (∀ cs1 cs2 s1, cs = cs1 ++ cs2 → run_ops fuel a b cs1 s = Ret tt s1 →
     well_formed s1 a ∧ well_formed s1 b) ∧
  match run_ops fuel a b cs s with
  | Ret _ s' => well_formed s' a ∧ well_formed s' b
  | Fault f =>
      ∃ cs1 on_a c cs2 s1,
        cs = cs1 ++ (on_a, c) :: cs2 ∧
        run_ops fuel a b cs1 s = Ret tt s1 ∧
        (if on_a : bool then run_op fuel a b c else run_op fuel b a c) s1 = Fault f ∧
        ((f = BadAlloc ∧ allocates c = true) ∨
         (f = OutOfFuel ∧ c = OpUnique ∧
          ∀ fuel', (if on_a : bool then run_op fuel' a b c else run_op fuel' b a c) s1
                   = Fault OutOfFuel))
  end.
Proof.
  intros Hne H2 Hfuel.
  assert (∀ k s', two_lists k (view_of s') a b h1 h2 →
                  well_formed s' a ∧ well_formed s' b) as Hwf.
  { intros k s' (xs & ys & Hl1 & Hl2 & _). split; by eapply is_list_well_formed. }
  split.
  { intros cs1 cs2 s1 -> Hr. apply (Hwf (m + length cs1)%nat).
    by eapply run_ops_prefix. }
  pose proof (run_ops_outcome fuel a b h1 h2 cs m s Hne H2 Hfuel) as Hc.
  destruct (run_ops fuel a b cs s) as [[] s'|f]; [by eapply Hwf|].
  destruct Hc as (cs1 & on_a & c & cs2 & s1 & -> & Hr1 & H21 & Hr2 & Hf).
  exists cs1, on_a, c, cs2, s1. split_and!; [done..|].
  destruct Hf as [Hf|[-> ->]]; [by left|]. right. split_and!; [done..|].
  rewrite length_app in Hfuel. simpl in Hfuel.
  destruct H21 as (xs & ys & Hl1 & Hl2 & _ & Hm).
  destruct on_a; simpl in *.
  - apply (unique_out_of_fuel_for_ever s1 a h1 xs fuel Hl1); [lia|done].
  - apply (unique_out_of_fuel_for_ever s1 b h2 ys fuel Hl2); [lia|done].
Qed.

Lemma invariants_after_operations_witness :
  (∀ cs1 cs2 s1, demo_ops = cs1 ++ cs2 → run_ops 20 1 2 cs1 demo_two = Ret tt s1 →
     well_formed s1 1 ∧ well_formed s1 2) ∧
  match run_ops 20 1 2 demo_ops demo_two with
  | Ret _ s' => well_formed s' 1 ∧ well_formed s' 2
  | Fault f =>
      ∃ cs1 on_a c cs2 s1,
        demo_ops = cs1 ++ (on_a, c) :: cs2 ∧
        run_ops 20 1 2 cs1 demo_two = Ret tt s1 ∧
        (if on_a : bool then run_op 20 1 2 c else run_op 20 2 1 c) s1 = Fault f ∧
        ((f = BadAlloc ∧ allocates c = true) ∨
         (f = OutOfFuel ∧ c = OpUnique ∧
          ∀ fuel', (if on_a : bool then run_op fuel' 1 2 c else run_op fuel' 2 1 c) s1
                   = Fault OutOfFuel))
  end.
Proof.
  apply (invariants_after_operations 20 6 1 2 1 5 demo_ops demo_two).
  - done.
  - exists [(2, 1); (3, 4); (4, 7)], [(6, 2); (7, 4); (8, 9)]. split_and!.
    + check_list.
    + check_list.
    + apply apart_Forall. compute_done.
    + simpl. lia.
  - simpl. lia.
Defined.

(** C2 as the specification words it fails: after [push_back(5)] on an
    empty list the size is 1, and one step along [next_] from the sentinel
    leads to the new element, not back to the sentinel. *)
Lemma size_steps_do_not_return :
  ∃ s' : state Z,
    two_lists 0 (view_of demo_empty) 1 2 1 2 ∧
    size_steps_return demo_empty 1 ∧
    run_ops 0 1 2 [(true, OpPushBack 5)] demo_empty = Ret tt s' ∧
    s21.size 1 s' = Ret 1 s' ∧
    ¬ size_steps_return s' 1.
Proof.
  eexists. split_and!.
  - exists [], []. split_and!; [check_list..|apply apart_Forall; compute_done|done].
  - eexists. split; vm_compute; reflexivity.
  - vm_compute. reflexivity.
  - vm_compute. reflexivity.
  - intros (l & Hl & Hw). vm_compute in Hl. injection Hl as <-.
    vm_compute in Hw. discriminate.
Qed.

(** C3: for an element type whose [<] is a strict weak order ([merge]
    calls no other operator) and two distinct lists, each sorted
    ascending, [merge(other)] returns and leaves [this] as one ascending
    sequence that is a permutation of the elements of both lists (the
    union with multiplicity), leaves [other] empty, and places every
    element that was in [this] ahead of every element taken from [other]
    that is not less than it, in particular ahead of those of an equal
    key, which need not be equal values. *)
Theorem merge_sorted_stable {T} `{Elem T} `{!StrictWeakOrder T}
    (s : state T) (this other h1 h2 : Z) (xs ys : list (Z * T)) (fuel : nat) :
  this ≠ other →
  is_list (view_of s) this h1 xs → is_list (view_of s) other h2 ys →
  apart (h1 :: xs.*1) (h2 :: ys.*1) →
  Sorted non_decreasing xs.*2 → Sorted non_decreasing ys.*2 →
  (length xs + length ys < fuel)%nat →
  ∃ s' zs,
    s21.merge fuel this other s = Ret tt s' ∧
    is_list (view_of s') this h1 zs ∧ is_list (view_of s') other h2 [] ∧
    contents fuel this s' = Some zs.*2 ∧ contents fuel other s' = Some [] ∧
    Sorted non_decreasing zs.*2 ∧
    zs ≡ₚ xs ++ ys ∧
    ∀ (i j : nat) x y, zs !! i = Some x → zs !! j = Some y → x ∈ xs → y ∈ ys →
      elem_lt y.2 x.2 = false → (i < j)%nat.
Proof.
  intros Hne Hl1 Hl2 Hap Hs1 Hs2 Hfuel.
  destruct (wp_run (s21.merge fuel this other) s
    (λ _ V', is_list V' this h1 (list_merge keep_first xs ys) ∧ is_list V' other h2 []))
    as ([] & s' & Hr & Hl1' & Hl2').
  { eapply wp_merge; [done..|by apply enough_no_fault|]. by intros. }
  apply Sorted_keep_first in Hs1, Hs2.
  pose proof (merge_Permutation keep_first xs ys) as Hp.
  exists s', (list_merge keep_first xs ys). split_and!; [done..| | | | |].
  - eapply is_list_contents; [done|]. rewrite (Permutation_length Hp), length_app. lia.
  - eapply (is_list_contents s' other h2 []); [done|simpl; lia].
  - apply Sorted_keep_first, Sorted_list_merge; [apply _|done..].
  - done.
  - intros i j x y Hi Hj Hx Hy Hxy. eapply (merge_stable xs ys x y); try done.
    destruct Hl1' as [_ [Hnd _ _] _ _]. apply NoDup_cons in Hnd as [_ Hnd].
    by apply NoDup_fmap_1 in Hnd.
Qed.

Lemma merge_sorted_stable_witness :
  ∃ s' zs,
    s21.merge 7 1 2 demo_keyed_two = Ret tt s' ∧
    is_list (view_of s') 1 1 zs ∧ is_list (view_of s') 2 5 [] ∧
    contents 7 1 s' = Some zs.*2 ∧ contents 7 2 s' = Some [] ∧
    Sorted non_decreasing zs.*2 ∧
    zs ≡ₚ [(2, Keyed 1 10); (3, Keyed 4 11); (4, Keyed 7 12)]
            ++ [(6, Keyed 2 20); (7, Keyed 4 21); (8, Keyed 9 22)] ∧
    ∀ (i j : nat) x y, zs !! i = Some x → zs !! j = Some y →
      x ∈ [(2, Keyed 1 10); (3, Keyed 4 11); (4, Keyed 7 12)] →
      y ∈ [(6, Keyed 2 20); (7, Keyed 4 21); (8, Keyed 9 22)] →
      elem_lt y.2 x.2 = false → (i < j)%nat.
Proof.
  apply (merge_sorted_stable demo_keyed_two 1 2 1 5
           [(2, Keyed 1 10); (3, Keyed 4 11); (4, Keyed 7 12)]
           [(6, Keyed 2 20); (7, Keyed 4 21); (8, Keyed 9 22)] 7).
  - done.
  - check_list.
  - check_list.
  - apply apart_Forall. compute_done.
  - repeat constructor.
  - repeat constructor.
  - simpl. lia.
Defined.

(** C4: for two distinct lists and a position of [this] (the cursor
    before the suffix [xs2], [end()] when [xs2] is empty),
    [splice(pos, other)] returns and moves all the elements of [other]
    into [this] immediately before the position; [other] is left empty,
    the size of [this] grows by the former size of [other] (so the total
    count is preserved), and nothing at all changes when [other] is
    empty. *)
Theorem splice_moves_all_elements {T} `{Elem T} (s : state T) (this other h1 h2 : Z)
    (xs1 xs2 ys : list (Z * T)) :
  this ≠ other →
  is_list (view_of s) this h1 (xs1 ++ xs2) → is_list (view_of s) other h2 ys →
  apart (h1 :: (xs1 ++ xs2).*1) (h2 :: ys.*1) →
  ∃ s' n1 n2,
    s21.splice this (cursor h1 xs2.*1) other s = Ret tt s' ∧
    is_list (view_of s') this h1 (xs1 ++ ys ++ xs2) ∧
    is_list (view_of s') other h2 [] ∧
    contents (S (length (xs1 ++ ys ++ xs2))) this s' = Some (xs1.*2 ++ ys.*2 ++ xs2.*2) ∧
    contents 1 other s' = Some [] ∧
    s21.size this s = Ret n1 s ∧ s21.size other s = Ret n2 s ∧
    s21.size this s' = Ret (n1 + n2) s' ∧ s21.size other s' = Ret 0 s' ∧
    (ys = [] → s' = s).
Proof.
  intros Hne Hl1 Hl2 Hap.
  destruct (wp_run (s21.splice this (cursor h1 xs2.*1) other) s
    (λ _ V', is_list V' this h1 (xs1 ++ ys ++ xs2) ∧ is_list V' other h2 [] ∧
             (ys = [] → V' = view_of s))) as ([] & s' & Hr & Hl1' & Hl2' & Hnop).
  { eapply wp_splice; [done..|]. by intros. }
  exists s', (Z.of_nat (length (xs1 ++ xs2))), (Z.of_nat (length ys)).
  split_and!; [done..| | |by eapply size_of_is_list|by eapply size_of_is_list| | |].
  - rewrite (is_list_contents s' this h1 (xs1 ++ ys ++ xs2)); [|done|lia].
    by rewrite !fmap_app.
  - by apply (is_list_contents s' other h2 []); [|simpl; lia].
  - rewrite (size_of_is_list _ _ _ _ Hl1'). f_equal. rewrite !length_app. lia.
  - by rewrite (size_of_is_list _ _ _ _ Hl2').
  - intros Hys. by apply view_of_inj, Hnop.
Qed.

Lemma splice_moves_all_elements_witness :
  ∃ s' n1 n2,
    s21.splice 1 (cursor 1 [(4, 7)].*1) 2 demo_two = Ret tt s' ∧
    is_list (view_of s') 1 1 ([(2, 1); (3, 4)] ++ [(6, 2); (7, 4); (8, 9)] ++ [(4, 7)]) ∧
    is_list (view_of s') 2 5 [] ∧
    contents (S (length ([(2, 1); (3, 4)] ++ [(6, 2); (7, 4); (8, 9)] ++ [(4, 7)]))) 1 s'
      = Some ([(2, 1); (3, 4)].*2 ++ [(6, 2); (7, 4); (8, 9)].*2 ++ [(4, 7)].*2) ∧
    contents 1 2 s' = Some [] ∧
    s21.size 1 demo_two = Ret n1 demo_two ∧ s21.size 2 demo_two = Ret n2 demo_two ∧
    s21.size 1 s' = Ret (n1 + n2) s' ∧ s21.size 2 s' = Ret 0 s' ∧
    ([(6, 2); (7, 4); (8, 9)] = [] → s' = demo_two).
Proof.
  apply (splice_moves_all_elements demo_two 1 2 1 5
           [(2, 1); (3, 4)] [(4, 7)] [(6, 2); (7, 4); (8, 9)]).
  - done.
  - check_list.
  - check_list.
  - apply apart_Forall. compute_done.
Defined.

(** C5: [reverse()] returns and leaves the elements (the same nodes with
    the same values) in the reversed order, and a second [reverse()]
    restores exactly the original order; [contents] reads the reversed
    and then the original sequence of values. *)
Theorem reverse_is_involution {T} `{Elem T} (s : state T) (this hd : Z)
    (xs : list (Z * T)) (fuel : nat) :
  is_list (view_of s) this hd xs → (length xs < fuel)%nat →
  ∃ s1 s2,
    s21.reverse fuel this s = Ret tt s1 ∧ is_list (view_of s1) this hd (reverse xs) ∧
    s21.reverse fuel this s1 = Ret tt s2 ∧ is_list (view_of s2) this hd xs ∧
    contents fuel this s = Some xs.*2 ∧
    contents fuel this s1 = Some (reverse xs.*2) ∧
    contents fuel this s2 = Some xs.*2.
Proof.
  intros Hl Hfuel.
  destruct (wp_run (s21.reverse fuel this) s
              (λ _ V', is_list V' this hd (reverse xs))) as ([] & s1 & Hr1 & Hl1).
  { eapply wp_reverse; [done|by apply enough_no_fault|]. by intros. }
  destruct (wp_run (s21.reverse fuel this) s1
              (λ _ V', is_list V' this hd (reverse (reverse xs)))) as ([] & s2 & Hr2 & Hl2).
  { eapply wp_reverse; [done|apply enough_no_fault; by rewrite length_reverse|]. by intros. }
  rewrite reverse_involutive in Hl2. exists s1, s2. split_and!; [done..| | |].
  - by eapply is_list_contents.
  - rewrite (is_list_contents s1 this hd (reverse xs)); [|done|by rewrite length_reverse].
    by rewrite fmap_reverse.
  - by eapply is_list_contents.
Qed.

Lemma reverse_is_involution_witness :
  ∃ s1 s2,
    s21.reverse 4 1 demo_triple = Ret tt s1 ∧
    is_list (view_of s1) 1 1 (reverse [(2, 1); (3, 2); (4, 3)]) ∧
    s21.reverse 4 1 s1 = Ret tt s2 ∧
    is_list (view_of s2) 1 1 [(2, 1); (3, 2); (4, 3)] ∧
    contents 4 1 demo_triple = Some [(2, 1); (3, 2); (4, 3)].*2 ∧
    contents 4 1 s1 = Some (reverse [(2, 1); (3, 2); (4, 3)].*2) ∧
    contents 4 1 s2 = Some [(2, 1); (3, 2); (4, 3)].*2.
Proof.
  apply (reverse_is_involution demo_triple 1 1 [(2, 1); (3, 2); (4, 3)] 4).
  - check_list.
  - simpl. lia.
Defined.

(** Where the pass of [unique()] ends, that is when the last element it
    keeps differs from [value_type{}], the call returns and has removed
    exactly the elements equal to the element kept before them: each
    element is compared with its successor, an equal successor is erased
    and the same element tested again, so equal values separated by a
    different one both stay. *)
Lemma unique_removes_adjacent_duplicates {T} `{Elem T} (s : state T) (this hd : Z)
    (xs : list (Z * T)) (fuel : nat) :
  is_list (view_of s) this hd xs →
  (∀ z, last (unique_list xs) = Some z → elem_eq z.2 elem_default = false) →
  (length xs < fuel)%nat →
  ∃ s', s21.unique fuel this s = Ret tt s' ∧
        is_list (view_of s') this hd (unique_list xs) ∧
        contents fuel this s' = Some (unique_list xs).*2.
Proof.
  intros Hl Hlast Hfuel.
  destruct (wp_run (s21.unique fuel this) s
              (λ _ V', is_list V' this hd (unique_list xs))) as ([] & s' & Hr & Hl').
  { eapply wp_unique; [done|done|by apply enough_no_fault|]. by intros. }
  exists s'. split_and!; [done..|].
  eapply is_list_contents; [done|]. pose proof (unique_list_length xs). lia.
Qed.

(** C6 (does not hold in the code): on a list whose last element equals
    the default value [value_type{}], [unique()] never returns.  With the
    cursor on the last element the successor is the sentinel, never a null
    pointer; the sentinel holds [value_type{}], the comparison succeeds,
    [erase(end())] removes nothing and the cursor is not advanced, so no
    number of iterations finishes the pass. *)
Theorem unique_never_returns_on_trailing_default {T} `{ElemLaws T}
    (s : state T) (this hd : Z) (xs : list (Z * T)) (x : Z * T) (fuel : nat) :
  is_list (view_of s) this hd (xs ++ [x]) → x.2 = elem_default →
  s21.unique fuel this s = Fault OutOfFuel.
Proof.
  intros Hl Hx.
  pose proof (wp_unique_spin (λ f, f = OutOfFuel) _ this hd xs x fuel eq_refl Hl Hx s eq_refl) as Hw.
  by destruct (s21.unique fuel this s) as [a s'|f]; [|subst f].
Qed.

Lemma unique_never_returns_on_trailing_default_witness :
  s21.unique 1000 1 demo_single = Fault OutOfFuel.
Proof.
  apply (unique_never_returns_on_trailing_default demo_single 1 1 [] (2, 0) 1000).
  - check_list.
  - reflexivity.
Defined.

(** C7: [erase(end())] is a silent no-op.  Whenever [end()] returns the
    cursor [e], the call [erase(e)] returns normally and the whole state
    (the node memory, hence the elements, and the list object with its
    size) is the one before the call: nothing is unlinked or freed. *)
Theorem erase_end_is_noop {T} `{Elem T} (this e : Z) (s s1 : state T) :
  s21.end_ this s = Ret e s1 →
  s21.erase this e s = Ret tt s.
Proof.
  unfold s21.erase, s21.end_, get_head, load_obj, mbind, M_bind, mret, M_ret.
  destruct (objs s !! this) as [l|]; [|done].
  intros [= <- _]. by rewrite decide_False by (by intros ?).
Qed.

Lemma erase_end_is_noop_witness :
  s21.end_ 1 demo_sort = Ret 1 demo_sort ∧ s21.erase 1 1 demo_sort = Ret tt demo_sort.
Proof.
  split; [vm_compute; reflexivity|].
  apply (erase_end_is_noop 1 1 demo_sort demo_sort). vm_compute; reflexivity.
Defined.

(** C8 (as the code has it): for a sub-range of [cnt > 1] elements
    starting at the cursor [left], the pivot walk starts one node before
    [left] and makes [cnt / 2] steps, so it stops [cnt / 2 - 1] steps
    after [left], not [cnt / 2]: on the element of index
    [i + cnt / 2 - 1] when [left] is the element of index [i].  The
    node depends on the positions only, whatever the values of [xs], and
    the walk changes nothing. *)
Theorem pivot_is_before_the_middle {T} `{Elem T} (s : state T) (this hd left : Z)
    (xs : list (Z * T)) (i cnt fuel : nat) :
  is_list (view_of s) this hd xs → xs.*1 !! i = Some left →
  (2 ≤ cnt)%nat → (i + cnt ≤ length xs)%nat → (cnt / 2 < fuel)%nat →
  ∃ pv, s21.pivot_walk fuel left (Z.of_nat cnt) s = Ret pv s ∧
        xs.*1 !! (i + (cnt / 2 - 1))%nat = Some pv ∧
        walk_next (cnt / 2 - 1) left s = Some pv.
Proof.
  intros Hl Hi Hcnt Hhi Hfuel.
  destruct (pivot_walk_index s this hd left xs i cnt fuel) as (pv & Hrun & Hpv); [done..|].
  exists pv. split_and!; [done..|].
  assert (cnt / 2 ≤ cnt)%nat as Hdiv by (apply Nat.Div0.div_le_upper_bound; lia).
  rewrite (walk_next_elements s this hd left xs i) by (done || lia). done.
Qed.

Lemma pivot_is_before_the_middle_witness :
  ∃ pv, s21.pivot_walk 3 2 (Z.of_nat 4) demo_sort = Ret pv demo_sort ∧
        [(2, 5); (3, 3); (4, 8); (5, 1)].*1 !! (0 + (4 / 2 - 1))%nat = Some pv ∧
        walk_next (4 / 2 - 1) 2 demo_sort = Some pv.
Proof.
  apply (pivot_is_before_the_middle demo_sort 1 1 2 [(2, 5); (3, 3); (4, 8); (5, 1)] 0 4 3).
  - check_list.
  - reflexivity.
  - lia.
  - simpl. lia.
  - simpl. lia.
Defined.

(** C8 as the specification words it fails: in the list [1; 2], sorted as
    the range of [n = 2] elements starting at [left = begin()] (node 2),
    the pivot is [left] itself, while [n / 2 = 1] step forward from
    [left] leads to the second element (node 3). *)
Lemma pivot_is_not_half_way :
  s21.begin 1 demo_pair = Ret 2 demo_pair ∧
  s21.size 1 demo_pair = Ret 2 demo_pair ∧
  s21.pivot_walk 2 2 2 demo_pair = Ret 2 demo_pair ∧
  walk_next (Z.to_nat (2 / 2)) 2 demo_pair = Some 3.
Proof. split_and!; vm_compute; reflexivity. Qed.

(** C9 (does not hold in the code): [insert_many_front(a1, ..., ak)]
    pushes the arguments one by one at the front of a temporary list and
    splices it in, so for every list and all arguments the new front
    elements are the arguments in the reverse of the given order, followed
    by the former elements; the call has no other outcome than running out
    of memory.  The order is the given one only when the reversed
    argument sequence equals the sequence itself. *)
Theorem insert_many_front_reverses_arguments {T} `{Elem T} (s : state T) (this hd : Z)
    (xs : list (Z * T)) (args : list T) (fuel : nat) :
  is_list (view_of s) this hd xs → (0 < fuel)%nat →
  match s21.insert_many_front fuel this args s with
  | Ret _ s' =>
      (∃ zs, is_list (view_of s') this hd (zs ++ xs) ∧ zs.*2 = reverse args) ∧
      contents (S (length args + length xs)) this s' = Some (reverse args ++ xs.*2)
  | Fault f => f = BadAlloc
  end.
Proof.
  intros Hl Hfuel.
  pose proof (wp_insert_many_front (λ f, f = BadAlloc) _ this hd xs fuel args
    (λ _ V', ∃ zs, is_list V' this hd (zs ++ xs) ∧ zs.*2 = reverse args)
    eq_refl Hfuel Hl) as Hw.
  specialize (Hw ltac:(by intros zs V' ? ?; exists zs) s eq_refl).
  destruct (s21.insert_many_front fuel this args s) as [[] s'|f]; [|done].
  split; [done|]. destruct Hw as (zs & Hl' & Hzs).
  assert (length zs = length args) as Hlen.
  { by rewrite <-(length_fmap snd zs), Hzs, length_reverse. }
  rewrite (is_list_contents s' this hd (zs ++ xs)); [|done|rewrite length_app; lia].
  by rewrite fmap_app, Hzs.
Qed.

Lemma insert_many_front_reverses_arguments_witness :
  match s21.insert_many_front 1 1 [7; 8; 9] demo_pair with
  | Ret _ s' =>
      (∃ zs, is_list (view_of s') 1 1 (zs ++ [(2, 1); (3, 2)]) ∧ zs.*2 = reverse [7; 8; 9]) ∧
      contents (S (length [7; 8; 9] + length [(2, 1); (3, 2)])) 1 s'
        = Some (reverse [7; 8; 9] ++ [(2, 1); (3, 2)].*2)
  | Fault f => f = BadAlloc
  end.
Proof.
  apply (insert_many_front_reverses_arguments demo_pair 1 1 [(2, 1); (3, 2)] [7; 8; 9] 1).
  - check_list.
  - lia.
Defined.

(** C9 on an example: [insert_many_front(7, 8, 9)] on the list [1; 2]
    returns and leaves [9; 8; 7; 1; 2], not [7; 8; 9; 1; 2]. *)
Lemma insert_many_front_789 :
  ∃ s' : state Z,
    contents 10 1 demo_pair = Some [1; 2] ∧
    s21.insert_many_front 10 1 [7; 8; 9] demo_pair = Ret tt s' ∧
    contents 10 1 s' = Some [9; 8; 7; 1; 2] ∧
    contents 10 1 s' ≠ Some [7; 8; 9; 1; 2].
Proof.
  eexists. split_and!; [vm_compute; reflexivity..|].
  vm_compute. intros [=].
Qed.

(** C10: [max_size()] returns the largest value of [std::size_t], which
    is 2^64 - 1 = 18446744073709551615 on the 64-bit target, for every
    list in every state and every element type, and the call leaves the
    state as it was. *)
Theorem max_size_is_size_t_max {T} `{Elem T} (this : Z) (s : state T) :
  s21.max_size this s = Ret 18446744073709551615 s.
Proof. reflexivity. Qed.

(** ** Allocation *)

Section Allocation.
Context {T : Type} `{Elem T}.
Local Abbreviation view := (view T).
Implicit Types (n p : gmap Z Z) (v : gmap Z T) (o : gmap Z s21_list).
Implicit Types (V : view) (xs ys : list (Z * T)) (s : state T).

Definition any_fault : fault → Prop := λ _, True.

Lemma wp_conj {A} (E : fault → Prop) (m : M T A) V (Q1 Q2 : A → view → Prop) :
  wp E m V Q1 → wp any_fault m V Q2 → wp E m V (λ a V', Q1 a V' ∧ Q2 a V').
Proof.
  intros H1 H2 s Hs. specialize (H1 s Hs). specialize (H2 s Hs).
  by destruct (m s).
Qed.

(** [insert] allocates the new node and no other. *)
Lemma wp_insert_dom V this hd xs1 xs2 x :
  is_list V this hd (xs1 ++ xs2) →
  wp any_fault (s21.insert this (cursor hd xs2.*1) x) V
     (λ new V', dom (vn V') = {[new]} ∪ dom (vn V)).
Proof.
  intros Hl. destruct Hl as [Ho Hr Hv Hs]. destruct V as [n p v o]. simpl in *.
  rewrite fmap_app in Hr. pose proof (ring_link _ _ _ _ _ Hr) as [Hn Hp].
  unfold s21.insert. apply wp_bind, wp_new_node; [done|].
  intros new Hnn Hpn Hvn Hok.
  assert (∀ a, a ∈ hd :: xs1.*1 ++ xs2.*1 → a ≠ new) as Hfresh.
  { intros a Ha ->. eapply ring_alloc_next in Ha as [? ?]; [|done]. congruence. }
  pose proof (Hfresh _ (cursor_in hd xs1.*1 xs2.*1)) as Hpos.
  pose proof (Hfresh _ (before_in hd xs1.*1 xs2.*1)) as Hpr.
  apply wp_bind. eapply wp_AttachPrev.
  { rewrite lookup_insert_ne by done. exact Hp. }
  { solve_is_Some. } { solve_is_Some. } { solve_is_Some. } { done. }
  do 3 wp_step. cbn [vn]. rewrite !dom_insert_L.
  assert (before hd xs1.*1 ∈ dom n) by (apply elem_of_dom; eauto).
  set_solver.
Qed.

Lemma wp_insert_alloc (E : fault → Prop) V this hd xs1 xs2 x (Q : Z → view → Prop) :
  E BadAlloc →
  is_list V this hd (xs1 ++ xs2) →
  (∀ new V', is_list V' this hd (xs1 ++ (new, x) :: xs2) →
     vn V !! new = None →
     frame (hd :: (xs1 ++ xs2).*1) this V V' →
     dom (vn V') = {[new]} ∪ dom (vn V) → Q new V') →
  wp E (s21.insert this (cursor hd xs2.*1) x) V Q.
Proof.
  intros HE Hl HQ. eapply wp_mono; [|done|].
  - apply wp_conj; [|by apply (wp_insert_dom V this hd xs1 xs2 x)].
    eapply (wp_insert E V this hd xs1 xs2 x
      (λ new V', is_list V' this hd (xs1 ++ (new, x) :: xs2) ∧ vn V !! new = None ∧
                 frame (hd :: (xs1 ++ xs2).*1) this V V')); [done..|]. by intros.
  - intros new V' [(? & ? & ?) ?]. by apply HQ.
Qed.

(** [erase] of an element frees its node and no other. *)
Lemma wp_erase_dom V this hd xs1 x xs2 :
  is_list V this hd (xs1 ++ x :: xs2) →
  wp any_fault (s21.erase this x.1) V (λ _ V', dom (vn V') = dom (vn V) ∖ {[x.1]}).
Proof.
  intros Hl. unfold s21.erase. apply wp_bind. eapply wp_end; [done|].
  destruct Hl as [Ho Hr Hv Hs]. destruct V as [n p v o]. simpl in *.
  rewrite fmap_app, fmap_cons in Hr. pose proof Hr as [Hnd _ _].
  pose proof (ring_link_mid _ _ _ _ _ _ Hr) as [Hp Hn].
  apply NoDup_remove_mid in Hnd as [Hnd Hx].
  assert (x.1 ≠ hd) as Hxhd by (intros E'; apply Hx; rewrite E'; by left).
  assert (x.1 ≠ before hd xs1.*1) as Hxpr.
  { intros E'. apply Hx. rewrite E'. apply before_in. }
  assert (x.1 ≠ cursor hd xs2.*1) as Hxnx.
  { intros E'. apply Hx. rewrite E'. apply cursor_in. }
  rewrite decide_True by done.
  assert (is_Some (n !! before hd xs1.*1)) as Hb.
  { eapply ring_alloc_next; [done|]. rewrite elem_of_cons, elem_of_app.
    destruct (before_elem hd xs1.*1); auto. }
  apply wp_bind. eapply wp_UnAttach; [done|done|done| |done|done|].
  { eapply ring_alloc_prev; [done|]. rewrite elem_of_cons, elem_of_app, elem_of_cons.
    destruct (cursor_elem hd xs2.*1); auto. }
  do 3 wp_step. cbn [vn]. rewrite dom_delete_L, !dom_insert_L.
  assert (before hd xs1.*1 ∈ dom n) by (by apply elem_of_dom).
  set_solver.
Qed.

Lemma wp_erase_alloc E V this hd xs1 x xs2 (Q : unit → view → Prop) :
  is_list V this hd (xs1 ++ x :: xs2) →
  (∀ V', is_list V' this hd (xs1 ++ xs2) →
     frame (hd :: (xs1 ++ x :: xs2).*1) this V V' →
     dom (vn V') = dom (vn V) ∖ {[x.1]} → Q tt V') →
  wp E (s21.erase this x.1) V Q.
Proof.
  intros Hl HQ. eapply wp_mono; [|done|].
  - apply wp_conj; [|by apply (wp_erase_dom V this hd xs1 x xs2)].
    eapply (wp_erase E V this hd xs1 x xs2
      (λ _ V', is_list V' this hd (xs1 ++ xs2) ∧
               frame (hd :: (xs1 ++ x :: xs2).*1) this V V')); [done|]. by intros.
  - intros [] V' [[? ?] ?]. by apply HQ.
Qed.

End Allocation.

(** ** The elementary modifiers and accessors *)

Section Elementary.
Context {T : Type} `{Elem T}.
Local Abbreviation view := (view T).
Implicit Types (n p : gmap Z Z) (v : gmap Z T) (o : gmap Z s21_list).
Implicit Types (V : view) (xs ys : list (Z * T)) (s : state T).

Lemma frame_trans_alloc F F' this V1 V2 V3 :
  frame F this V1 V2 → frame F' this V2 V3 →
  (∀ a, a ∈ F' → a ∈ F ∨ vn V1 !! a = None) →
  frame F this V1 V3.
Proof.
  intros [Hn1 Ho1] [Hn2 Ho2] Hsub. split.
  - intros a Ha Hal. destruct (Hn1 a Ha Hal) as (E1 & E2 & E3).
    destruct (Hn2 a) as (E1' & E2' & E3').
    + intros Ha'. destruct (Hsub a Ha') as [?|Hnone]; [done|].
      rewrite Hnone in Hal. by destruct Hal.
    + by rewrite E1.
    + by rewrite E1', E2', E3'.
  - intros b Hb. by rewrite Ho2, Ho1.
Qed.

(** A represented list fixes the fields of its nodes. *)
Lemma is_list_fields V V' this hd xs a :
  is_list V this hd xs → is_list V' this hd xs → a ∈ hd :: xs.*1 →
  vn V' !! a = vn V !! a ∧ vp V' !! a = vp V !! a ∧ vv V' !! a = vv V !! a.
Proof.
  intros [_ Hr Hv Hs] [_ Hr' Hv' Hs'] [->|Ha]%elem_of_cons.
  - pose proof (ring_link _ _ _ [] _ Hr) as [Hn _].
    pose proof (ring_link _ _ _ [] _ Hr') as [Hn' _].
    pose proof (ring_link _ _ _ _ [] (eq_ind_r (ring _ _ hd) Hr (app_nil_r _))) as [_ Hp].
    pose proof (ring_link _ _ _ _ [] (eq_ind_r (ring _ _ hd) Hr' (app_nil_r _))) as [_ Hp'].
    change (before hd []) with hd in Hn, Hn'. change (cursor hd []) with hd in Hp, Hp'.
    by rewrite Hn, Hn', Hp, Hp', Hs, Hs'.
  - apply list_elem_of_fmap in Ha as (x & -> & Hx).
    rewrite (vals_lookup _ _ _ Hv Hx), (vals_lookup _ _ _ Hv' Hx).
    apply list_elem_of_split in Hx as (xs1 & xs2 & ->).
    rewrite fmap_app, fmap_cons in Hr, Hr'.
    destruct (ring_link_mid _ _ _ _ _ _ Hr) as [Hp Hn].
    destruct (ring_link_mid _ _ _ _ _ _ Hr') as [Hp' Hn'].
    by rewrite Hn, Hn', Hp, Hp'.
Qed.

(** Two states in which the list is the same, nothing else was written
    and the same nodes are allocated, are one state. *)
Lemma same_list_same_state s s' this hd xs :
  is_list (view_of s) this hd xs → is_list (view_of s') this hd xs →
  frame (hd :: xs.*1) this (view_of s) (view_of s') →
  dom (nodes s') = dom (nodes s) →
  s' = s.
Proof.
  intros Hl Hl' [Hf Hfo] Hdom. apply view_of_inj.
  assert (∀ a, nodes s !! a = None → nodes s' !! a = None) as Hnone.
  { intros a Ha. apply not_elem_of_dom. rewrite Hdom. by apply not_elem_of_dom. }
  assert (∀ a, vn (view_of s') !! a = vn (view_of s) !! a ∧
               vp (view_of s') !! a = vp (view_of s) !! a ∧
               vv (view_of s') !! a = vv (view_of s) !! a) as Heq.
  { intros a. destruct (decide (a ∈ hd :: xs.*1)) as [Ha|Ha].
    { by eapply is_list_fields. }
    destruct (nodes s !! a) as [nd|] eqn:Hnd.
    - apply Hf; [done|]. simpl. rewrite lookup_fmap, Hnd. by eexists.
    - simpl. rewrite !lookup_fmap, Hnd, (Hnone a Hnd). done. }
  unfold view_of in *. cbn [vn vp vv vo] in *. f_equal.
  - apply map_eq. intros a. by destruct (Heq a).
  - apply map_eq. intros a. by destruct (Heq a) as (_ & ? & _).
  - apply map_eq. intros a. by destruct (Heq a) as (_ & _ & ?).
  - apply map_eq. intros b. destruct (decide (b = this)) as [->|Hb]; [|by apply Hfo].
    destruct Hl as [Ho _ _ _], Hl' as [Ho' _ _ _]. cbn [vo] in *. by rewrite Ho, Ho'.
Qed.

Lemma wp_push_back (E : fault → Prop) V this hd xs x (Q : unit → view → Prop) :
  E BadAlloc →
  is_list V this hd xs →
  (∀ new V', is_list V' this hd (xs ++ [(new, x)]) → vn V !! new = None →
     frame (hd :: xs.*1) this V V' → dom (vn V') = {[new]} ∪ dom (vn V) → Q tt V') →
  wp E (s21.push_back this x) V Q.
Proof.
  intros HE Hl HQ. unfold s21.push_back.
  apply wp_bind. eapply wp_end; [done|].
  apply wp_bind. rewrite <-(app_nil_r xs) in Hl.
  eapply (wp_insert_alloc E V this hd xs [] x); [done|done|].
  intros new V' Hl' Hnew Hf Hdom. apply wp_ret. rewrite app_nil_r in Hf. by apply (HQ new).
Qed.

Lemma wp_push_front (E : fault → Prop) V this hd xs x (Q : unit → view → Prop) :
  E BadAlloc →
  is_list V this hd xs →
  (∀ new V', is_list V' this hd ((new, x) :: xs) → vn V !! new = None →
     frame (hd :: xs.*1) this V V' → dom (vn V') = {[new]} ∪ dom (vn V) → Q tt V') →
  wp E (s21.push_front this x) V Q.
Proof.
  intros HE Hl HQ. unfold s21.push_front.
  apply wp_bind. eapply wp_begin; [done|].
  apply wp_bind. eapply (wp_insert_alloc E V this hd [] xs x); [done|done|].
  intros new V' Hl' Hnew Hf Hdom. apply wp_ret. by apply (HQ new).
Qed.

Lemma wp_pop_back_nil E V this hd (Q : unit → view → Prop) :
  is_list V this hd [] → Q tt V → wp E (s21.pop_back this) V Q.
Proof.
  intros Hl HQ. unfold s21.pop_back. apply wp_bind. eapply wp_end; [done|].
  pose proof Hl as [_ Hr _ _]. destruct V as [n p v o]. cbn [vn vp vv vo] in *.
  apply ring_empty in Hr as [[_ Hp] _]. wp_step.
  by eapply (wp_erase_end E _ this hd []).
Qed.

Lemma wp_pop_back_snoc E V this hd xs x (Q : unit → view → Prop) :
  is_list V this hd (xs ++ [x]) →
  (∀ V', is_list V' this hd xs → frame (hd :: (xs ++ [x]).*1) this V V' →
     dom (vn V') = dom (vn V) ∖ {[x.1]} → Q tt V') →
  wp E (s21.pop_back this) V Q.
Proof.
  intros Hl HQ. unfold s21.pop_back. apply wp_bind. eapply wp_end; [done|].
  pose proof Hl as [_ Hr _ _]. destruct V as [n p v o]. cbn [vn vp vv vo] in *.
  pose proof (ring_link _ _ _ _ [] (eq_ind_r (ring n p hd) Hr (app_nil_r _))) as [_ Hp0].
  change (cursor hd []) with hd in Hp0. rewrite fmap_app in Hp0.
  change ([x].*1) with [x.1] in Hp0. rewrite before_snoc in Hp0.
  wp_step. eapply (wp_erase_alloc E _ this hd xs x []); [done|].
  intros V' Hl' Hf Hdom. rewrite app_nil_r in Hl'. by apply HQ.
Qed.

Lemma wp_pop_front_nil E V this hd (Q : unit → view → Prop) :
  is_list V this hd [] → Q tt V → wp E (s21.pop_front this) V Q.
Proof.
  intros Hl HQ. unfold s21.pop_front. apply wp_bind. eapply wp_begin; [done|].
  by eapply (wp_erase_end E _ this hd []).
Qed.

Lemma wp_pop_front_cons E V this hd x xs (Q : unit → view → Prop) :
  is_list V this hd (x :: xs) →
  (∀ V', is_list V' this hd xs → frame (hd :: (x :: xs).*1) this V V' →
     dom (vn V') = dom (vn V) ∖ {[x.1]} → Q tt V') →
  wp E (s21.pop_front this) V Q.
Proof.
  intros Hl HQ. unfold s21.pop_front. apply wp_bind. eapply wp_begin; [done|].
  change (cursor hd (x :: xs).*1) with x.1.
  by eapply (wp_erase_alloc E _ this hd [] x xs).
Qed.

(** [front()] and [back()] read the node after and before the sentinel:
    the sentinel itself when the list is empty. *)
Lemma wp_front E V this hd xs (Q : T → view → Prop) :
  is_list V this hd xs → Q (default elem_default (head xs.*2)) V →
  wp E (s21.front this) V Q.
Proof.
  intros Hl HQ. unfold s21.front. apply wp_bind. eapply wp_begin; [done|].
  destruct Hl as [_ _ Hv Hs]. destruct V as [n p v o]. cbn [vn vp vv vo] in *.
  destruct xs as [|x xs].
  - by eapply wp_get_value.
  - eapply wp_get_value; [|done]. eapply vals_lookup; [done|by left].
Qed.

Lemma wp_back E V this hd xs (Q : T → view → Prop) :
  is_list V this hd xs → Q (default elem_default (last xs.*2)) V →
  wp E (s21.back this) V Q.
Proof.
  intros Hl HQ. unfold s21.back. apply wp_bind. eapply wp_end; [done|].
  destruct Hl as [_ Hr Hv Hs]. destruct V as [n p v o]. cbn [vn vp vv vo] in *.
  pose proof (ring_link _ _ _ _ [] (eq_ind_r (ring n p hd) Hr (app_nil_r _))) as [_ Hp0].
  change (cursor hd []) with hd in Hp0. wp_step.
  destruct (last xs) as [x|] eqn:Hlast.
  - apply last_Some in Hlast as [xs' ->]. rewrite fmap_app.
    change ([x].*1) with [x.1]. rewrite before_snoc.
    rewrite fmap_app in HQ. change ([x].*2) with [x.2] in HQ. rewrite last_snoc in HQ.
    eapply wp_get_value; [|done]. eapply vals_lookup; [done|].
    apply elem_of_app. right. by left.
  - apply last_None in Hlast as ->. by eapply wp_get_value.
Qed.

End Elementary.

(** ** Construction and destruction *)

Section Lifetime.
Context {T : Type} `{Elem T}.
Local Abbreviation view := (view T).
Implicit Types (n p : gmap Z Z) (v : gmap Z T) (o : gmap Z s21_list).
Implicit Types (V : view) (xs ys : list (Z * T)) (s : state T).

(** [list()]: a fresh sentinel linked to itself. *)
Lemma wp_list_ctor (E : fault → Prop) V this (Q : unit → view → Prop) :
  E BadAlloc →
  (∀ hd V', is_list V' this hd [] → vn V !! hd = None → frame [] this V V' →
     dom (vn V') = {[hd]} ∪ dom (vn V) → Q tt V') →
  wp E (s21.list_ctor this) V Q.
Proof.
  intros HE HQ. destruct V as [n p v o]. unfold s21.list_ctor.
  apply wp_bind. apply wp_new_sentinel; [done|]. intros hd Hn Hp Hv Hok.
  apply wp_store_obj. apply (HQ hd); cbn [vn vp vv vo]; [|done| |].
  - split; cbn [vn vp vv vo].
    + by rewrite lookup_insert_eq.
    + change (([] : list (Z * T)).*1) with ([] : list Z). apply ring_empty.
      split; [|done]. unfold link. by rewrite !lookup_insert_eq.
    + constructor.
    + by rewrite lookup_insert_eq.
  - split; cbn [vn vp vv vo].
    + intros a _ [y Hy]. assert (a ≠ hd) by congruence. by rewrite !lookup_insert_ne.
    + intros b Hb. by rewrite lookup_insert_ne.
  - by rewrite dom_insert_L.
Qed.

Definition clear_inv (this hd : Z) (xs : list (Z * T)) (V : view)
    (m : nat) (_ : unit) (W : view) : Prop :=
  ∃ xs1 xs2, xs = xs1 ++ xs2 ∧ m = length xs2 ∧ is_list W this hd xs2 ∧
             frame (hd :: xs.*1) this V W ∧
             dom (vn W) = dom (vn V) ∖ list_to_set xs1.*1.

(** [clear()] erases the elements from the front, freeing their nodes. *)
Lemma wp_clear E V this hd xs fuel (Q : unit → view → Prop) :
  is_list V this hd xs → enough E (length xs) fuel →
  (∀ V', is_list V' this hd [] → frame (hd :: xs.*1) this V V' →
     dom (vn V') = dom (vn V) ∖ list_to_set xs.*1 → Q tt V') →
  wp E (s21.clear fuel this) V Q.
Proof.
  intros Hl Hfuel HQ. unfold s21.clear. eapply wp_mono; [|done|].
  { eapply (wp_while E (clear_inv this hd xs V)
      (λ _ W, match vo W !! this with Some l => 0 <? size_ l | None => false end)).
    - intros m [] W Q' (xs1 & xs2 & -> & -> & Hl' & _) HQ'.
      destruct Hl' as [Ho _ _ _]. destruct W as [n p v o]. cbn [vo] in *.
      rewrite Ho in HQ'. cbn [size_] in HQ'. by do 2 wp_step.
    - intros m [] W (xs1 & xs2 & -> & -> & Hl' & Hf & Hdom) Hc.
      pose proof Hl' as [Ho _ _ _]. rewrite Ho in Hc. cbn [size_] in Hc.
      destruct xs2 as [|x xs2]; [done|].
      apply wp_bind. eapply wp_begin; [done|]. change (cursor hd (x :: xs2).*1) with x.1.
      eapply (wp_erase_alloc E W this hd [] x xs2); [done|].
      intros W' Hl'' Hf' Hdom'. exists (length xs2). split; [simpl; lia|].
      exists (xs1 ++ [x]), xs2. rewrite <-(assoc_L (++)). split_and!; [done..| |].
      + eapply frame_trans; [done|done|]. intros a Ha. rewrite fmap_app.
        rewrite elem_of_cons in Ha. rewrite elem_of_cons, elem_of_app. naive_solver.
      + rewrite Hdom', Hdom, fmap_app, list_to_set_app_L. simpl. set_solver.
    - exists [], xs. split_and!; [done..|apply frame_refl|]. simpl. set_solver.
    - done. }
  cbv beta. intros [] W [[m (xs1 & xs2 & -> & -> & Hl' & Hf & Hdom)] Hc].
  pose proof Hl' as [Ho _ _ _]. rewrite Ho in Hc. cbn [size_] in Hc.
  destruct xs2 as [|x xs2]; [|done]. rewrite app_nil_r in *. by apply HQ.
Qed.

(** [~list()]: the elements and then the sentinel are freed, and [head_]
    is null. *)
Lemma wp_list_dtor E V this hd xs fuel (Q : unit → view → Prop) :
  is_list V this hd xs → enough E (length xs) fuel →
  (∀ V', vo V' !! this = Some (mkList 0 0) → frame (hd :: xs.*1) this V V' →
     dom (vn V') = dom (vn V) ∖ list_to_set (hd :: xs.*1) → Q tt V') →
  wp E (s21.list_dtor fuel this) V Q.
Proof.
  intros Hl Hfuel HQ. unfold s21.list_dtor.
  apply wp_bind. eapply wp_clear; [done|done|]. intros V1 Hl1 Hf1 Hdom1.
  pose proof Hl1 as [Ho1 Hr1 _ _]. destruct V1 as [n1 p1 v1 o1]. cbn [vn vp vv vo] in *.
  wp_step. apply wp_bind. apply wp_delete_node.
  { eapply ring_alloc_next; [done|by left]. }
  eapply wp_set_head; [done|]. apply HQ; cbn [vn vp vv vo size_].
  - by rewrite lookup_insert_eq.
  - destruct Hf1 as [Hfn Hfo]. split; cbn [vn vp vv vo] in *.
    + intros a Ha Hal. assert (a ≠ hd) by (intros ->; apply Ha; by left).
      rewrite !lookup_delete_ne by done. by apply Hfn.
    + intros b Hb. rewrite lookup_insert_ne by done. by apply Hfo.
  - rewrite dom_delete_L, Hdom1. simpl. set_solver.
Qed.

(** The loop of the initializer-list constructor and of
    [insert_many_back]. *)
Lemma wp_push_back_items (E : fault → Prop) V this hd xs items (Q : unit → view → Prop) :
  E BadAlloc →
  is_list V this hd xs →
  (∀ zs V', is_list V' this hd (xs ++ zs) → zs.*2 = items →
     (∀ a, a ∈ zs.*1 → vn V !! a = None) →
     frame (hd :: xs.*1) this V V' →
     dom (vn V') = list_to_set zs.*1 ∪ dom (vn V) → Q tt V') →
  wp E (s21.push_back_items this items) V Q.
Proof.
  intros HE. revert V xs Q. induction items as [|a items IH]; intros V xs Q Hl HQ; simpl.
  - apply wp_ret. apply (HQ []); [by rewrite app_nil_r|done| |apply frame_refl|].
    + intros a Ha. by apply elem_of_nil in Ha.
    + simpl. set_solver.
  - apply wp_bind. eapply wp_push_back; [done..|]. intros new V1 Hl1 Hnew Hf1 Hdom1.
    eapply IH; [done|]. intros zs V2 Hl2 Hzs Hfresh Hf2 Hdom2.
    assert (∀ b, b ∈ zs.*1 → vn V !! b = None) as Hfresh'.
    { intros b Hb. destruct (vn V !! b) as [y|] eqn:Hy; [|done].
      destruct Hf1 as [Hfn _].
      destruct (decide (b ∈ hd :: xs.*1)) as [Hin|Hnin].
      - exfalso. destruct Hl2 as [_ [Hnd _ _] _ _].
        rewrite !fmap_app in Hnd. apply NoDup_cons in Hnd as [Hhd Hnd].
        apply elem_of_cons in Hin as [->|Hin].
        + apply Hhd. rewrite !elem_of_app. auto.
        + apply NoDup_app in Hnd as (_ & Hdis & _).
          apply (Hdis b); [rewrite elem_of_app; by left|done].
      - destruct (Hfn b Hnin) as (Hb1 & _); [by rewrite Hy|].
        rewrite (Hfresh b Hb) in Hb1. congruence. }
    apply (HQ ((new, a) :: zs)).
    + by rewrite <-(assoc_L (++)) in Hl2.
    + by rewrite fmap_cons, Hzs.
    + intros b [->|Hb]%elem_of_cons; [done|by apply Hfresh'].
    + eapply frame_trans_alloc; [done|done|]. intros b Hb.
      rewrite fmap_app in Hb. rewrite elem_of_cons, elem_of_app in Hb.
      rewrite elem_of_cons. destruct Hb as [->|[Hb|Hb]]; [auto..|].
      apply list_elem_of_singleton in Hb as ->. by right.
    + rewrite Hdom2, Hdom1. simpl. set_solver.
Qed.

End Lifetime.

(** ** Moving and swapping *)

Section Moving.
Context {T : Type} `{Elem T}.
Local Abbreviation view := (view T).
Implicit Types (n p : gmap Z Z) (v : gmap Z T) (o : gmap Z s21_list).
Implicit Types (V : view) (xs ys : list (Z * T)) (s : state T).

(** [splice] allocates and frees nothing, writes no value and no third
    list object. *)
Lemma wp_splice_keeps V this other h1 h2 xs1 xs2 ys :
  this ≠ other →
  is_list V this h1 (xs1 ++ xs2) → is_list V other h2 ys →
  apart (h1 :: (xs1 ++ xs2).*1) (h2 :: ys.*1) →
  wp any_fault (s21.splice this (cursor h1 xs2.*1) other) V
     (λ _ V', dom (vn V') = dom (vn V) ∧ vv V' = vv V ∧
              ∀ b, b ≠ this → b ≠ other → vo V' !! b = vo V !! b).
Proof.
  intros Hne Hl1 Hl2 Hap. unfold s21.splice.
  apply wp_bind. eapply wp_empty; [done|].
  destruct (decide (ys = [])) as [->|Hys].
  { rewrite bool_decide_true by done. by apply wp_ret. }
  rewrite bool_decide_false by done. cbn [negb].
  apply wp_bind. eapply wp_end; [done|].
  destruct Hl1 as [Ho1 Hr1 Hv1 Hs1], Hl2 as [Ho2 Hr2 Hv2 Hs2].
  destruct V as [n p v o]. cbn [vn vp vv vo] in *.
  rewrite fmap_app in Hr1, Hap.
  assert (ys.*1 ≠ []) as Hbs by (by destruct ys).
  set (bs := ys.*1) in *.
  set (pr := before h1 xs1.*1) in *. set (pos := cursor h1 xs2.*1) in *.
  set (ol := before h2 bs) in *. set (b := cursor h2 bs) in *.
  pose proof (ring_link _ _ _ _ _ Hr1) as [Hn1 Hp1].
  pose proof (ring_link _ _ _ [] _ Hr2) as [Hn2 _].
  pose proof (ring_link _ _ _ _ [] (eq_ind_r (ring n p h2) Hr2 (app_nil_r _))) as [_ Hp2].
  change (before h2 []) with h2 in Hn2. change (cursor h2 []) with h2 in Hp2.
  fold pr pos in Hn1, Hp1. fold b in Hn2. fold ol in Hp2.
  assert (pr ∈ h1 :: xs1.*1 ++ xs2.*1) as Hpr by apply before_in.
  assert (pos ∈ h1 :: xs1.*1 ++ xs2.*1) as Hpos by apply cursor_in.
  assert (ol ∈ bs) as Hol by by apply before_in_nonempty.
  assert (b ∈ bs) as Hb by by apply cursor_in_nonempty.
  pose proof Hr2 as [Hnd2 _ _]. apply NoDup_cons in Hnd2 as [Hh2 _].
  assert (b ≠ h2) as D1 by (by intros E'; apply Hh2; rewrite <-E').
  assert (ol ≠ h2) as D2 by (by intros E'; apply Hh2; rewrite <-E').
  assert (pos ≠ b) as D3.
  { intros E'. apply (Hap pos Hpos). rewrite E'. by right. }
  assert (pos ≠ h2) as D4.
  { intros E'. apply (Hap pos Hpos). rewrite E'. by left. }
  assert (pr ≠ h2) as D5.
  { intros E'. apply (Hap pr Hpr). rewrite E'. by left. }
  assert (is_Some (n !! ol) ∧ is_Some (p !! b) ∧ is_Some (n !! h2) ∧ is_Some (p !! h2))
    as (A1 & A2 & A3 & A4).
  { split_and!; [eapply ring_alloc_next|eapply ring_alloc_prev
                 |eapply ring_alloc_next|eapply ring_alloc_prev];
      try exact Hr2; try (by left); by right. }
  assert (is_Some (n !! pr) ∧ is_Some (p !! pos)) as (A5 & A6).
  { split; [eapply (ring_alloc_next _ _ _ _ _ Hr1)|eapply (ring_alloc_prev _ _ _ _ _ Hr1)]; done. }
  unfold s21.size, s21.end_. repeat wp_step. cbn [vn vp vv vo]. split_and!; [|done|].
  - rewrite !dom_insert_L.
    assert (ol ∈ dom n ∧ pr ∈ dom n ∧ h2 ∈ dom n) as (? & ? & ?)
      by (split_and!; by apply elem_of_dom).
    set_solver.
  - intros c Hc1 Hc2. by rewrite !lookup_insert_ne.
Qed.

Lemma wp_splice_alloc E V this other h1 h2 xs1 xs2 ys (Q : unit → view → Prop) :
  this ≠ other →
  is_list V this h1 (xs1 ++ xs2) → is_list V other h2 ys →
  apart (h1 :: (xs1 ++ xs2).*1) (h2 :: ys.*1) →
  (∀ V', is_list V' this h1 (xs1 ++ ys ++ xs2) → is_list V' other h2 [] →
     dom (vn V') = dom (vn V) →
     (∀ b, b ≠ this → b ≠ other → vo V' !! b = vo V !! b) → Q tt V') →
  wp E (s21.splice this (cursor h1 xs2.*1) other) V Q.
Proof.
  intros Hne Hl1 Hl2 Hap HQ. eapply wp_mono; [|done|].
  - apply wp_conj; [|by apply (wp_splice_keeps V this other h1 h2 xs1 xs2 ys)].
    eapply (wp_splice E V this other h1 h2 xs1 xs2 ys
      (λ _ V', is_list V' this h1 (xs1 ++ ys ++ xs2) ∧ is_list V' other h2 []));
      [done..|]. by intros.
  - intros [] V' [[? ?] (? & ? & ?)]. by apply HQ.
Qed.

(** [swap] exchanges the two list objects and touches no node. *)
Lemma wp_swap E n p v o this other l1 l2 (Q : unit → view → Prop) :
  this ≠ other → o !! this = Some l1 → o !! other = Some l2 →
  Q tt (View n p v (<[other := l1]> (<[this := l2]> o))) →
  wp E (s21.swap this other) (View n p v o) Q.
Proof.
  intros Hne H1 H2 HQ. unfold s21.swap. rewrite decide_True by done.
  wp_step. wp_step. apply wp_bind. eapply wp_set_head; [done|].
  apply wp_bind. eapply wp_set_head; [by rewrite lookup_insert_ne|].
  cbn [size_]. wp_step. wp_step.
  apply wp_bind. eapply wp_set_size; [solve_lookup|].
  eapply wp_set_size; [solve_lookup|]. cbn [head_].
  destruct l1 as [a1 z1], l2 as [a2 z2]. cbn [head_ size_] in *.
  replace (<[other:=_]> (<[this:=_]> (<[other:=_]> (<[this:=_]> o))))
    with (<[other:={| head_ := a1; size_ := z1 |}]> (<[this:={| head_ := a2; size_ := z2 |}]> o));
    [done|].
  apply map_eq. intros b.
  destruct (decide (b = other)) as [->|Hb1]; [by rewrite !lookup_insert_eq|].
  rewrite !(lookup_insert_ne _ other) by done.
  destruct (decide (b = this)) as [->|Hb2]; [by rewrite !lookup_insert_eq|].
  by rewrite !lookup_insert_ne.
Qed.

End Moving.

Section MoveCopy.
Context {T : Type} `{Elem T}.
Local Abbreviation view := (view T).
Implicit Types (n p : gmap Z Z) (v : gmap Z T) (o : gmap Z s21_list).
Implicit Types (V : view) (xs ys : list (Z * T)) (s : state T).

Lemma apart_fresh V this hd xs (l : list Z) :
  is_list V this hd xs → (∀ a, a ∈ l → vn V !! a = None) → apart l (hd :: xs.*1).
Proof.
  intros [_ Hr _ _] Hl a Ha Hin. destruct (ring_alloc_next _ _ _ _ _ Hr Hin) as [y Hy].
  rewrite (Hl a Ha) in Hy. done.
Qed.

(** [list(list &&other)]: the new list takes the nodes of [other]. *)
Lemma wp_list_move (E : fault → Prop) V this other h2 ys (Q : unit → view → Prop) :
  E BadAlloc → this ≠ other →
  is_list V other h2 ys →
  (∀ hd V', is_list V' this hd ys → is_list V' other h2 [] → vn V !! hd = None →
     dom (vn V') = {[hd]} ∪ dom (vn V) → Q tt V') →
  wp E (s21.list_move this other) V Q.
Proof.
  intros HE Hne Hl2 HQ. unfold s21.list_move.
  apply wp_bind. apply wp_list_ctor; [done|]. intros hd V1 Hl1 Hhd Hf1 Hdom1.
  assert (is_list V1 other h2 ys) as Hl2'.
  { eapply is_list_frame; [done|done|done|]. intros a _. apply not_elem_of_nil. }
  apply wp_bind. eapply wp_begin; [done|].
  eapply (wp_splice_alloc E V1 this other hd h2 [] [] ys); [done|done|done| |].
  { eapply (apart_fresh V other h2 ys [hd]); [done|].
    by intros a ->%list_elem_of_singleton. }
  intros V2 Hl1' Hl2'' Hdom2 _. rewrite app_nil_r in Hl1'.
  apply (HQ hd); [done..|]. by rewrite Hdom2.
Qed.

(** [operator=(list &&other)] on two different lists: the elements of
    [this] are freed and those of [other] taken. *)
Lemma wp_move_assign E V this other h1 h2 xs ys fuel (Q : unit → view → Prop) :
  this ≠ other →
  is_list V this h1 xs → is_list V other h2 ys →
  apart (h1 :: xs.*1) (h2 :: ys.*1) →
  enough E (length xs) fuel →
  (∀ V', is_list V' this h1 ys → is_list V' other h2 [] →
     dom (vn V') = dom (vn V) ∖ list_to_set xs.*1 → Q tt V') →
  wp E (s21.move_assign fuel this other) V Q.
Proof.
  intros Hne Hl1 Hl2 Hap Hfuel HQ. unfold s21.move_assign. rewrite decide_True by done.
  apply wp_bind. eapply wp_clear; [done|done|]. intros V1 Hl1' Hf1 Hdom1.
  assert (is_list V1 other h2 ys) as Hl2'.
  { eapply is_list_frame; [done|done|done|]. intros a Ha Ha'. by apply (Hap a). }
  apply wp_bind. eapply wp_begin; [done|].
  eapply (wp_splice_alloc E V1 this other h1 h2 [] [] ys); [done|done|done| |].
  { intros a Ha. apply (Hap a). apply list_elem_of_singleton in Ha as ->. by left. }
  intros V2 Hl1'' Hl2'' Hdom2 _. rewrite app_nil_r in Hl1''.
  apply HQ; [done..|]. by rewrite Hdom2.
Qed.

End MoveCopy.

Section Copying.
Context {T : Type} `{Elem T}.
Local Abbreviation view := (view T).
Implicit Types (n p : gmap Z Z) (v : gmap Z T) (o : gmap Z s21_list).
Implicit Types (V : view) (xs ys zs : list (Z * T)) (s : state T).

(** The loop that appends copies of the elements of [other] from the
    cursor on; [zs0] is what [this] holds and [ys1] what was passed. *)
Lemma wp_copy_loop (E : fault → Prop) this other hd h2 ys2 :
  E BadAlloc → this ≠ other →
  ∀ fuel W0 zs0 ys1 (Q : Z → view → Prop),
  is_list W0 this hd zs0 → is_list W0 other h2 (ys1 ++ ys2) →
  apart (hd :: zs0.*1) (h2 :: (ys1 ++ ys2).*1) →
  enough E (length ys2) fuel →
  (∀ zs W, is_list W this hd (zs0 ++ zs) → zs.*2 = ys2.*2 →
     is_list W other h2 (ys1 ++ ys2) →
     apart (hd :: (zs0 ++ zs).*1) (h2 :: (ys1 ++ ys2).*1) →
     (∀ a, a ∈ zs.*1 → vn W0 !! a = None) →
     frame (hd :: zs0.*1) this W0 W →
     dom (vn W) = list_to_set zs.*1 ∪ dom (vn W0) → Q h2 W) →
  wp E (while fuel
          (λ it, mret (bool_decide (it ≠ h2)))
          (λ it, list_element ← get_value it;
                 s21.push_back this list_element;; get_next it)
          (cursor h2 ys2.*1)) W0 Q.
Proof.
  intros HE Hne. induction ys2 as [|y ys2 IH]; intros fuel W0 zs0 ys1 Q Hl1 Hl2 Hap Hfuel HQ.
  - destruct fuel as [|fuel].
    { apply wp_fail. destruct Hfuel as [?|?]; [done|simpl in *; lia]. }
    cbn [while]. apply wp_bind, wp_ret. rewrite bool_decide_false by (by intros ?).
    apply wp_ret. apply (HQ []).
    + by rewrite app_nil_r.
    + done.
    + done.
    + by rewrite app_nil_r.
    + intros a Ha. by apply elem_of_nil in Ha.
    + apply frame_refl.
    + simpl. set_solver.
  - destruct fuel as [|fuel].
    { apply wp_fail. destruct Hfuel as [?|?]; [done|simpl in *; lia]. }
    cbn [while]. change (cursor h2 (y :: ys2).*1) with y.1.
    assert (y.1 ≠ h2) as Hy.
    { destruct Hl2 as [_ [Hnd _ _] _ _]. apply NoDup_cons in Hnd as [Hh _].
      intros Heq. apply Hh. rewrite <-Heq, fmap_app, fmap_cons, elem_of_app, elem_of_cons. auto. }
    apply wp_bind, wp_ret. rewrite bool_decide_true by done.
    apply wp_bind. apply wp_bind.
    assert (vv W0 !! y.1 = Some y.2) as Hvy.
    { destruct Hl2 as [_ _ Hv _]. eapply vals_lookup; [done|].
      rewrite elem_of_app, elem_of_cons. auto. }
    destruct W0 as [n0 p0 v0 o0]. cbn [vv] in Hvy. wp_prim.
    apply wp_bind. eapply wp_push_back; [done|done|].
    intros new W1 Hl1' Hnew Hf1 Hdom1.
    assert (is_list W1 other h2 (ys1 ++ y :: ys2)) as Hl2'.
    { eapply is_list_frame; [done|done|done|]. intros a Ha Ha'. by apply (Hap a). }
    assert (apart (hd :: (zs0 ++ [(new, y.2)]).*1) (h2 :: (ys1 ++ y :: ys2).*1)) as Hap'.
    { intros a Ha. rewrite fmap_app, elem_of_cons, elem_of_app in Ha.
      destruct Ha as [->|[Ha|Ha]].
      - apply (Hap hd). by left.
      - apply (Hap a). by right.
      - apply list_elem_of_singleton in Ha as ->. simpl. intros Hin.
        destruct Hl2 as [_ Hr2 _ _].
        destruct (ring_alloc_next _ _ _ _ _ Hr2 Hin) as [z Hz]. congruence. }
    pose proof Hl2' as [_ Hr2' _ _]. rewrite fmap_app, fmap_cons in Hr2'.
    destruct (ring_link_mid _ _ _ _ _ _ Hr2') as [_ Hnext].
    destruct W1 as [n1 p1 v1 o1]. cbn [vn vp vv vo] in *. wp_prim.
    replace (ys1 ++ y :: ys2) with ((ys1 ++ [y]) ++ ys2) in * by by rewrite <-(assoc_L (++)).
    eapply (IH fuel _ (zs0 ++ [(new, y.2)]) (ys1 ++ [y])); [done|done|done| |].
    { eapply enough_S; [done|simpl; lia]. }
    intros zs W Hl1'' Hzs Hl2'' Hap'' Hfresh Hf2 Hdom2.
    apply (HQ ((new, y.2) :: zs)).
    + by rewrite <-(assoc_L (++)) in Hl1''.
    + by rewrite !fmap_cons, Hzs.
    + done.
    + by rewrite <-(assoc_L (++)) in Hap''.
    + intros a [->|Ha]%elem_of_cons; [done|].
      destruct (n0 !! a) as [z|] eqn:Hz; [|done]. exfalso.
      destruct (decide (a ∈ hd :: zs0.*1)) as [Hin|Hnin].
      * destruct Hl1'' as [_ [Hnd _ _] _ _]. rewrite !fmap_app in Hnd.
        apply NoDup_cons in Hnd as [Hhd Hnd].
        apply elem_of_cons in Hin as [->|Hin].
        -- apply Hhd. rewrite !elem_of_app. auto.
        -- apply NoDup_app in Hnd as (_ & Hdis & _).
           apply (Hdis a); [rewrite elem_of_app; by left|done].
      * destruct Hf1 as [Hfn _]. cbn [vn vp vv vo] in Hfn.
        destruct (Hfn a Hnin) as (Hb1 & _); [by rewrite Hz|].
        pose proof (Hfresh a Ha) as Hfa. cbn [vn] in Hfa. congruence.
    + eapply frame_trans_alloc; [done|done|]. intros b Hb.
      rewrite fmap_app in Hb. rewrite elem_of_cons, elem_of_app in Hb.
      rewrite elem_of_cons. destruct Hb as [->|[Hb|Hb]]; [auto..|].
      apply list_elem_of_singleton in Hb as ->. by right.
    + cbn [vn] in Hdom2. rewrite Hdom2, Hdom1. simpl. set_solver.
Qed.

(** [list(const list &other)]: fresh nodes holding the values of
    [other], which is left as it was. *)
Lemma wp_list_copy (E : fault → Prop) V this other h2 ys fuel (Q : unit → view → Prop) :
  E BadAlloc → this ≠ other →
  is_list V other h2 ys → enough E (length ys) fuel →
  (∀ hd zs V', is_list V' this hd zs → zs.*2 = ys.*2 → is_list V' other h2 ys →
     apart (hd :: zs.*1) (h2 :: ys.*1) →
     (∀ a, a ∈ hd :: zs.*1 → vn V !! a = None) →
     dom (vn V') = list_to_set (hd :: zs.*1) ∪ dom (vn V) → Q tt V') →
  wp E (s21.list_copy fuel this other) V Q.
Proof.
  intros HE Hne Hl2 Hfuel HQ. unfold s21.list_copy.
  apply wp_bind. apply wp_list_ctor; [done|]. intros hd V1 Hl1 Hhd Hf1 Hdom1.
  assert (is_list V1 other h2 ys) as Hl2'.
  { eapply is_list_frame; [done|done|done|]. intros a _. apply not_elem_of_nil. }
  apply wp_bind. eapply wp_begin; [done|].
  apply wp_bind. eapply wp_end; [done|].
  apply wp_bind.
  eapply (wp_copy_loop E this other hd h2 ys HE Hne fuel V1 [] []); [done|done| |done|].
  { eapply (apart_fresh V other h2 ys [hd]); [done|].
    by intros a ->%list_elem_of_singleton. }
  intros zs W Hl1' Hzs Hl2'' Hap Hfresh Hf2 Hdom2. simpl in Hl1', Hl2'', Hap.
  apply wp_ret. apply (HQ hd zs); [done..| |].
  - intros a [->|Ha]%elem_of_cons; [done|].
    destruct (vn V !! a) as [z|] eqn:Hz; [|done]. exfalso.
    destruct Hf1 as [Hfn _]. destruct (Hfn a) as (Hb1 & _);
      [apply not_elem_of_nil|by rewrite Hz|].
    rewrite (Hfresh a Ha) in Hb1. congruence.
  - rewrite Hdom2, Hdom1. simpl. set_solver.
Qed.

End Copying.

Section Assigning.
Context {T : Type} `{Elem T}.
Local Abbreviation view := (view T).
Implicit Types (n p : gmap Z Z) (v : gmap Z T) (o : gmap Z s21_list).
Implicit Types (V : view) (xs ys zs : list (Z * T)) (s : state T).

(** The nodes of [xs], as far as [ys] reaches, with the values of [ys]. *)
Definition overwrite (xs ys : list (Z * T)) : list (Z * T) :=
  zip_with (λ x y, (x.1, y.2)) xs ys.

Lemma overwrite_fst xs ys : (overwrite xs ys).*1 = take (length ys) xs.*1.
Proof.
  revert ys. induction xs as [|x xs IH]; intros [|y ys]; simpl; try done.
  f_equal. apply IH.
Qed.

Lemma overwrite_snd xs ys : (overwrite xs ys).*2 = take (length xs) ys.*2.
Proof.
  revert ys. induction xs as [|x xs IH]; intros [|y ys]; simpl; try done.
  f_equal. apply IH.
Qed.

Lemma is_list_set_value n p v o this hd xs1 x xs2 w :
  is_list (View n p v o) this hd (xs1 ++ x :: xs2) →
  is_list (View n p (<[x.1 := w]> v) o) this hd (xs1 ++ (x.1, w) :: xs2).
Proof.
  intros [Ho Hr Hv Hs]. cbn [vn vp vv vo] in *.
  pose proof Hr as [Hnd _ _]. rewrite fmap_app, fmap_cons in Hnd.
  apply NoDup_remove_mid in Hnd as [Hnd Hx].
  assert (∀ y, y ∈ xs1 ++ xs2 → y.1 ≠ x.1) as Hne.
  { intros y Hy E'. apply Hx. right. rewrite <-E', <-fmap_app.
    by apply list_elem_of_fmap_2. }
  split; cbn [vn vp vv vo].
  - rewrite Ho. do 2 f_equal. by rewrite !length_app.
  - by rewrite fmap_app, fmap_cons in *.
  - unfold vals in *. rewrite Forall_app, Forall_cons in Hv. destruct Hv as (Hv1 & _ & Hv2).
    rewrite Forall_app, Forall_cons. split_and!.
    + rewrite Forall_forall in Hv1. apply Forall_forall. intros y Hy.
      rewrite lookup_insert_ne; [by apply Hv1|]. intros E'. symmetry in E'.
      eapply Hne; [|done]. apply elem_of_app. by left.
    + simpl. by rewrite lookup_insert_eq.
    + rewrite Forall_forall in Hv2. apply Forall_forall. intros y Hy.
      rewrite lookup_insert_ne; [by apply Hv2|]. intros E'. symmetry in E'.
      eapply Hne; [|done]. apply elem_of_app. by right.
  - rewrite lookup_insert_ne; [done|]. intros E'. apply Hx. rewrite E'. by left.
Qed.

Lemma is_list_other_value n p v o other h2 ys a w :
  is_list (View n p v o) other h2 ys → a ∉ h2 :: ys.*1 →
  is_list (View n p (<[a := w]> v) o) other h2 ys.
Proof.
  intros [Ho Hr Hv Hs] Ha. cbn [vn vp vv vo] in *. split; cbn [vn vp vv vo]; [done..| |].
  - unfold vals in *. rewrite Forall_forall in Hv. apply Forall_forall. intros y Hy.
    rewrite lookup_insert_ne; [by apply Hv|]. intros ->. apply Ha. right.
    by apply list_elem_of_fmap_2.
  - rewrite lookup_insert_ne; [done|]. intros ->. apply Ha. by left.
Qed.

(** The first loop of [operator=]: values are copied node by node until
    either list ends. *)
Lemma wp_assign_loop (E : fault → Prop) this other h1 h2 xs2 :
  ∀ ys2 fuel W xs1 ys1 (Q : Z * Z → view → Prop),
  is_list W this h1 (xs1 ++ xs2) → is_list W other h2 (ys1 ++ ys2) →
  apart (h1 :: (xs1 ++ xs2).*1) (h2 :: (ys1 ++ ys2).*1) →
  enough E (length xs2 `min` length ys2) fuel →
  (∀ W', is_list W' this h1 (xs1 ++ overwrite xs2 ys2 ++ drop (length ys2) xs2) →
     is_list W' other h2 (ys1 ++ ys2) →
     vn W' = vn W → vp W' = vp W → vo W' = vo W →
     (∀ a, a ∉ xs2.*1 → vv W' !! a = vv W !! a) →
     Q (cursor h1 (drop (length ys2) xs2).*1, cursor h2 (drop (length xs2) ys2).*1) W') →
  wp E (while fuel
     (λ '(this_begin, other_begin),
        mret (bool_decide (this_begin ≠ h1) && bool_decide (other_begin ≠ h2)))
     (λ '(this_begin, other_begin),
        x ← get_value other_begin; set_value this_begin x;;
        this_begin ← get_next this_begin;
        other_begin ← get_next other_begin;
        mret (this_begin, other_begin))
     (cursor h1 xs2.*1, cursor h2 ys2.*1)) W Q.
Proof.
  induction xs2 as [|x xs2 IH]; intros ys2 fuel W xs1 ys1 Q Hl1 Hl2 Hap Hfuel HQ.
  - destruct fuel as [|fuel].
    { apply wp_fail. destruct Hfuel as [?|?]; [done|simpl in *; lia]. }
    cbn [while]. apply wp_bind, wp_ret.
    rewrite (bool_decide_false (cursor h1 ([] : list (Z * T)).*1 ≠ h1)) by (by intros ?).
    cbn [andb]. apply wp_ret. rewrite drop_nil in HQ. by apply HQ.
  - destruct ys2 as [|y ys2].
    { destruct fuel as [|fuel].
      { apply wp_fail. destruct Hfuel as [?|?]; [done|simpl in *; lia]. }
      cbn [while]. apply wp_bind, wp_ret.
      rewrite (bool_decide_false (cursor h2 ([] : list (Z * T)).*1 ≠ h2)) by (by intros ?).
      rewrite andb_false_r. apply wp_ret. by apply HQ. }
    destruct fuel as [|fuel].
    { apply wp_fail. destruct Hfuel as [?|?]; [done|simpl in *; lia]. }
    cbn [while]. change (cursor h1 (x :: xs2).*1) with x.1.
    change (cursor h2 (y :: ys2).*1) with y.1.
    pose proof Hl1 as [_ Hr1 Hv1 _]. pose proof Hl2 as [_ Hr2 Hv2 _].
    rewrite fmap_app, fmap_cons in Hr1, Hr2.
    assert (x.1 ≠ h1 ∧ y.1 ≠ h2) as [Hx Hy].
    { destruct Hr1 as [Hnd1 _ _], Hr2 as [Hnd2 _ _].
      apply NoDup_cons in Hnd1 as [Hh1 _]. apply NoDup_cons in Hnd2 as [Hh2 _].
      split; intros Heq; [apply Hh1|apply Hh2]; rewrite <-Heq, elem_of_app, elem_of_cons; auto. }
    apply wp_bind, wp_ret. rewrite !bool_decide_true by done. cbn [andb].
    destruct (ring_link_mid _ _ _ _ _ _ Hr1) as [_ Hn1].
    destruct (ring_link_mid _ _ _ _ _ _ Hr2) as [_ Hn2].
    assert (vv W !! y.1 = Some y.2 ∧ is_Some (vv W !! x.1)) as [Hvy Hvx].
    { split.
      - apply (vals_lookup _ _ _ Hv2). rewrite elem_of_app, elem_of_cons. auto.
      - eexists. apply (vals_lookup _ _ _ Hv1). rewrite elem_of_app, elem_of_cons. auto. }
    assert (x.1 ∉ h2 :: (ys1 ++ y :: ys2).*1) as Hxo.
    { apply (Hap x.1). rewrite fmap_app, fmap_cons, elem_of_cons, elem_of_app, elem_of_cons.
      auto. }
    destruct W as [n p v o]. cbn [vn vp vv vo] in *.
    apply wp_bind. do 4 wp_step. apply wp_ret.
    replace (xs1 ++ x :: xs2) with ((xs1 ++ [x]) ++ xs2) in Hap by by rewrite <-(assoc_L (++)).
    replace (ys1 ++ y :: ys2) with ((ys1 ++ [y]) ++ ys2) in * by by rewrite <-(assoc_L (++)).
    eapply (IH ys2 fuel _ (xs1 ++ [(x.1, y.2)]) (ys1 ++ [y])).
    + rewrite <-(assoc_L (++)). by apply is_list_set_value.
    + by apply is_list_other_value.
    + by rewrite !fmap_app in *.
    + eapply enough_S; [done|simpl; lia].
    + intros W' Hl1' Hl2' En Ep Eo Ev. cbn [vn vp vv vo] in *. apply HQ; try done.
      * by rewrite <-(assoc_L (++)) in Hl1'.
      * intros a Ha. rewrite fmap_cons, not_elem_of_cons in Ha. destruct Ha as [Ha1 Ha2].
        by rewrite Ev, lookup_insert_ne.
Qed.

(** The second loop of [operator=]: the elements from the cursor on are
    erased. *)
Lemma wp_erase_rest (E : fault → Prop) this h1 xs2 :
  ∀ fuel W xs1 (Q : Z → view → Prop),
  is_list W this h1 (xs1 ++ xs2) → enough E (length xs2) fuel →
  (∀ W', is_list W' this h1 xs1 → frame (h1 :: (xs1 ++ xs2).*1) this W W' →
     dom (vn W') = dom (vn W) ∖ list_to_set xs2.*1 → Q h1 W') →
  wp E (while fuel
     (λ this_begin, mret (bool_decide (this_begin ≠ h1)))
     (λ this_begin,
        let tmp := this_begin in
        this_begin ← get_next this_begin;
        s21.erase this tmp;;
        mret this_begin)
     (cursor h1 xs2.*1)) W Q.
Proof.
  induction xs2 as [|x xs2 IH]; intros fuel W xs1 Q Hl Hfuel HQ.
  - destruct fuel as [|fuel].
    { apply wp_fail. destruct Hfuel as [?|?]; [done|simpl in *; lia]. }
    cbn [while]. apply wp_bind, wp_ret. rewrite bool_decide_false by (by intros ?).
    apply wp_ret. rewrite app_nil_r in *. apply HQ; [done|apply frame_refl|].
    simpl. set_solver.
  - destruct fuel as [|fuel].
    { apply wp_fail. destruct Hfuel as [?|?]; [done|simpl in *; lia]. }
    cbn [while]. change (cursor h1 (x :: xs2).*1) with x.1.
    pose proof Hl as [_ Hr _ _]. rewrite fmap_app, fmap_cons in Hr.
    assert (x.1 ≠ h1) as Hx.
    { destruct Hr as [Hnd _ _]. apply NoDup_cons in Hnd as [Hh1 _].
      intros Heq. apply Hh1. rewrite <-Heq, elem_of_app, elem_of_cons. auto. }
    apply wp_bind, wp_ret. rewrite bool_decide_true by done.
    destruct (ring_link_mid _ _ _ _ _ _ Hr) as [_ Hn].
    apply wp_bind. cbv zeta. apply wp_bind.
    destruct W as [n p v o]. cbn [vn vp vv vo] in *. wp_prim.
    apply wp_bind. eapply (wp_erase_alloc E _ this h1 xs1 x xs2); [done|].
    intros W1 Hl1 Hf1 Hdom1. apply wp_ret.
    eapply (IH fuel W1 xs1); [done|eapply enough_S; [done|simpl; lia]|].
    intros W' Hl' Hf' Hdom'. apply HQ; [done| |].
    + eapply frame_trans; [done|done|]. intros a Ha.
      rewrite fmap_app, fmap_cons. rewrite fmap_app in Ha.
      rewrite elem_of_cons, elem_of_app in Ha. rewrite elem_of_cons, elem_of_app, elem_of_cons.
      naive_solver.
    + rewrite Hdom', Hdom1. simpl. set_solver.
Qed.

End Assigning.

Section CopyAssign.
Context {T : Type} `{Elem T}.
Local Abbreviation view := (view T).
Implicit Types (V : view) (xs ys zs : list (Z * T)) (s : state T).

(** [operator=(const list &other)] on two different lists: the nodes of
    [this] are kept as far as [other] reaches and given its values, the
    further ones are erased, and the further values of [other] are
    appended in new nodes. *)
Lemma wp_copy_assign (E : fault → Prop) V this other h1 h2 xs ys fuel
    (Q : unit → view → Prop) :
  E BadAlloc → this ≠ other →
  is_list V this h1 xs → is_list V other h2 ys →
  apart (h1 :: xs.*1) (h2 :: ys.*1) →
  enough E (length xs `max` length ys) fuel →
  (∀ ws V', is_list V' this h1 (overwrite xs ys ++ ws) →
     ws.*2 = (drop (length xs) ys).*2 →
     is_list V' other h2 ys →
     dom (vn V') = list_to_set ws.*1 ∪
                   (dom (vn V) ∖ list_to_set (drop (length ys) xs).*1) → Q tt V') →
  wp E (s21.copy_assign fuel this other) V Q.
Proof.
  intros HE Hne Hl1 Hl2 Hap Hfuel HQ. unfold s21.copy_assign. rewrite decide_True by done.
  apply wp_bind. eapply wp_begin; [done|].
  apply wp_bind. eapply wp_end; [done|].
  apply wp_bind. eapply wp_begin; [done|].
  apply wp_bind. eapply wp_end; [done|].
  apply wp_bind.
  eapply (wp_assign_loop E this other h1 h2 xs ys fuel V [] []); [done|done|done| |].
  { eapply enough_le; [done|lia]. }
  intros W1 Hl1' Hl2' En Ep Eo Ev. cbn [app] in Hl1', Hl2'.
  assert ((overwrite xs ys ++ drop (length ys) xs).*1 = xs.*1) as Hnodes.
  { by rewrite fmap_app, overwrite_fst, fmap_drop, take_drop. }
  apply wp_bind.
  eapply (wp_erase_rest E this h1 (drop (length ys) xs) fuel W1 (overwrite xs ys)); [done| |].
  { eapply enough_le; [done|]. rewrite length_drop. lia. }
  intros W2 Hl1'' Hf2 Hdom2.
  assert (is_list W2 other h2 ys) as Hl2''.
  { eapply is_list_frame; [done|done|done|]. rewrite Hnodes. intros a Ha Ha'. by apply (Hap a). }
  apply wp_bind.
  rewrite <-(take_drop (length xs) ys) in Hl2''.
  eapply (wp_copy_loop E this other h1 h2 (drop (length xs) ys) HE Hne fuel W2
            (overwrite xs ys) (take (length xs) ys)); [done|done| | |].
  { rewrite take_drop. intros a Ha. apply (Hap a).
    rewrite overwrite_fst in Ha. rewrite elem_of_cons in Ha. rewrite elem_of_cons.
    destruct Ha as [->|Ha]; [by left|right]. by apply (subseteq_take (length ys)). }
  { eapply enough_le; [done|]. rewrite length_drop. lia. }
  intros ws W3 Hl1''' Hws Hl2''' _ _ _ Hdom3. apply wp_ret.
  rewrite take_drop in Hl2'''. apply (HQ ws); [done..|].
  by rewrite Hdom3, Hdom2, En.
Qed.

End CopyAssign.

Section InsertManyAt.
Context {T : Type} `{Elem T}.
Local Abbreviation view := (view T).
Implicit Types (V : view) (xs ys zs : list (Z * T)) (s : state T).

Lemma wp_ext {A} (E : fault → Prop) (m m' : M T A) V (Q : A → view → Prop) :
  (∀ s, m s = m' s) → wp E m' V Q → wp E m V Q.
Proof. intros Heq Hm s Hs. rewrite Heq. by apply Hm. Qed.

(** An iteration of [insert_many] does what [insert] does. *)
Lemma insert_many_loop_cons this pos r a args s :
  s21.insert_many_loop this pos r (a :: args) s
  = (nn ← s21.insert this pos a; s21.insert_many_loop this pos (Some nn) args) s.
Proof.
  cbn [s21.insert_many_loop]. unfold s21.insert, mbind, M_bind, mret, M_ret.
  destruct (new_node a s) as [nn s1|]; [|done].
  destruct (s21.AttachPrev pos nn s1) as [[] s2|]; [|done].
  destruct (get_size this s2) as [sz s3|]; [|done].
  by destruct (set_size this (wrap (sz + 1)) s3) as [[] s4|].
Qed.

Lemma wp_insert_many_loop (E : fault → Prop) this hd xs2 args :
  E BadAlloc →
  ∀ V xs1 r (Q : option Z → view → Prop),
  is_list V this hd (xs1 ++ xs2) →
  (∀ zs V', is_list V' this hd (xs1 ++ zs ++ xs2) → zs.*2 = args →
     (∀ a, a ∈ zs.*1 → vn V !! a = None) →
     frame (hd :: (xs1 ++ xs2).*1) this V V' →
     dom (vn V') = list_to_set zs.*1 ∪ dom (vn V) →
     Q (match last zs.*1 with Some a => Some a | None => r end) V') →
  wp E (s21.insert_many_loop this (cursor hd xs2.*1) r args) V Q.
Proof.
  intros HE. induction args as [|a args IH]; intros V xs1 r Q Hl HQ.
  - apply wp_ret. apply (HQ []); [done|done| |apply frame_refl|].
    + intros a Ha. by apply elem_of_nil in Ha.
    + simpl. set_solver.
  - eapply wp_ext; [apply insert_many_loop_cons|].
    apply wp_bind. eapply (wp_insert_alloc E V this hd xs1 xs2 a); [done|done|].
    intros new V1 Hl1 Hnew Hf1 Hdom1.
    replace (xs1 ++ (new, a) :: xs2) with ((xs1 ++ [(new, a)]) ++ xs2) in Hl1
      by by rewrite <-(assoc_L (++)).
    eapply (IH V1 (xs1 ++ [(new, a)])); [done|].
    intros zs V2 Hl2 Hzs Hfresh Hf2 Hdom2.
    assert (∀ b, b ∈ zs.*1 → vn V !! b = None) as Hfresh'.
    { intros b Hb. destruct (vn V !! b) as [y|] eqn:Hy; [|done]. exfalso.
      destruct (decide (b ∈ hd :: (xs1 ++ xs2).*1)) as [Hin|Hnin].
      - destruct Hl2 as [_ [Hnd _ _] _ _]. rewrite !fmap_app in Hnd.
        rewrite fmap_app in Hin. apply NoDup_cons in Hnd as [Hhd Hnd].
        apply elem_of_cons in Hin as [->|Hin].
        + apply Hhd. rewrite !elem_of_app. auto.
        + apply NoDup_app in Hnd as (_ & Hdis & Hnd).
          apply NoDup_app in Hnd as (_ & Hdis' & _).
          apply elem_of_app in Hin as [Hin|Hin].
          * apply (Hdis b); [rewrite elem_of_app; by left|rewrite elem_of_app; by left].
          * by apply (Hdis' b).
      - destruct Hf1 as [Hfn _]. destruct (Hfn b Hnin) as (Hb1 & _); [by rewrite Hy|].
        rewrite (Hfresh b Hb) in Hb1. congruence. }
    assert (match last ((new, a) :: zs).*1 with Some a0 => Some a0 | None => r end
            = match last zs.*1 with Some a0 => Some a0 | None => Some new end) as Hres.
    { rewrite fmap_cons. destruct (zs.*1) as [|z l]; [done|].
      rewrite last_cons. by destruct (last (z :: l)). }
    rewrite <-Hres. apply (HQ ((new, a) :: zs)).
    + by rewrite <-!(assoc_L (++)) in Hl2.
    + by rewrite fmap_cons, Hzs.
    + intros b [->|Hb]%elem_of_cons; [done|by apply Hfresh'].
    + eapply frame_trans_alloc; [done|done|]. intros b Hb.
      rewrite !fmap_app in Hb. rewrite fmap_app.
      rewrite elem_of_cons, !elem_of_app in Hb. rewrite elem_of_cons, elem_of_app.
      destruct Hb as [->|[[Hb|Hb]|Hb]]; [auto..| |auto].
      apply list_elem_of_singleton in Hb as ->. by right.
    + rewrite Hdom2, Hdom1. simpl. set_solver.
Qed.

(** [insert_many(pos, args...)] with at least one argument: the
    arguments are inserted before [pos] in the given order, and the
    iterator returned stands on the last of them. *)
Lemma wp_insert_many (E : fault → Prop) V this hd xs1 xs2 a args (Q : Z → view → Prop) :
  E BadAlloc →
  is_list V this hd (xs1 ++ xs2) →
  (∀ zs z V', is_list V' this hd (xs1 ++ (zs ++ [z]) ++ xs2) →
     (zs ++ [z]).*2 = a :: args →
     (∀ b, b ∈ (zs ++ [z]).*1 → vn V !! b = None) →
     frame (hd :: (xs1 ++ xs2).*1) this V V' →
     dom (vn V') = list_to_set (zs ++ [z]).*1 ∪ dom (vn V) → Q z.1 V') →
  wp E (s21.insert_many this (cursor hd xs2.*1) (a :: args)) V Q.
Proof.
  intros HE Hl HQ. unfold s21.insert_many. cbv zeta.
  apply wp_bind. eapply (wp_insert_many_loop E this hd xs2 (a :: args) HE V xs1 None);
    [done|].
  intros zs V' Hl' Hzs Hfresh Hf Hdom.
  destruct (last zs) as [z|] eqn:Hlast.
  - apply last_Some in Hlast as [zs' ->]. rewrite fmap_app.
    change ([z].*1) with [z.1]. rewrite last_snoc. apply wp_ret. by apply (HQ zs' z).
  - apply last_None in Hlast as ->. done.
Qed.

End InsertManyAt.

Section SpliceSelf.
Context {T : Type} `{Elem T}.
Local Abbreviation view := (view T).
Implicit Types (V : view) (xs ys zs : list (Z * T)) (s : state T).

(** [splice(pos, *this)] has no guard against its own list: the sentinel
    ends linked to itself with [size_ = 0], and the element nodes, cut
    off from it, stay allocated. *)
Lemma wp_splice_self E V this hd xs1 xs2 (Q : unit → view → Prop) :
  is_list V this hd (xs1 ++ xs2) → xs1 ++ xs2 ≠ [] →
  (∀ V', is_list V' this hd [] → dom (vn V') = dom (vn V) → vv V' = vv V →
     (∀ b, b ≠ this → vo V' !! b = vo V !! b) → Q tt V') →
  wp E (s21.splice this (cursor hd xs2.*1) this) V Q.
Proof.
  intros Hl Hne HQ. unfold s21.splice.
  apply wp_bind. eapply wp_empty; [done|].
  rewrite bool_decide_false by done. cbn [negb].
  apply wp_bind. eapply wp_end; [done|].
  destruct Hl as [Ho Hr Hv Hs]. destruct V as [n p v o]. cbn [vn vp vv vo] in *.
  assert ((xs1 ++ xs2).*1 ≠ []) as Hl0 by (by destruct (xs1 ++ xs2)).
  pose proof (ring_link _ _ _ [] _ Hr) as [Hnh _].
  pose proof (ring_link _ _ _ _ [] (eq_ind_r (ring n p hd) Hr (app_nil_r _))) as [_ Hph].
  change (before hd []) with hd in Hnh. change (cursor hd []) with hd in Hph.
  pose proof Hr as Hr'. rewrite fmap_app in Hr'.
  pose proof (ring_link _ _ _ _ _ Hr') as [_ Hpp].
  assert (cursor hd (xs1 ++ xs2).*1 ∈ (xs1 ++ xs2).*1) as Hf by by apply cursor_in_nonempty.
  assert (before hd (xs1 ++ xs2).*1 ∈ (xs1 ++ xs2).*1) as Hla by by apply before_in_nonempty.
  assert (cursor hd xs2.*1 ∈ hd :: (xs1 ++ xs2).*1) as Hpos.
  { rewrite fmap_app. apply cursor_in. }
  assert (before hd xs1.*1 ∈ hd :: (xs1 ++ xs2).*1) as Hpr.
  { rewrite fmap_app. apply before_in. }
  pose proof Hr as [Hnd _ Hoks]. apply NoDup_cons in Hnd as [Hhd _].
  assert (ptr_ok hd) as Hok by (by apply Forall_cons in Hoks as []).
  assert (∀ a, a ∈ hd :: (xs1 ++ xs2).*1 → is_Some (n !! a) ∧ is_Some (p !! a)) as Hal.
  { intros a Ha. split; [exact (ring_alloc_next _ _ _ _ _ Hr Ha)|exact (ring_alloc_prev _ _ _ _ _ Hr Ha)]. }
  set (f := cursor hd (xs1 ++ xs2).*1) in *. clearbody f.
  set (la := before hd (xs1 ++ xs2).*1) in *. clearbody la.
  set (pos := cursor hd xs2.*1) in *. clearbody pos.
  set (pr := before hd xs1.*1) in *. clearbody pr.
  assert (f ≠ hd ∧ hd ≠ f ∧ la ≠ hd ∧ hd ≠ la) as (D1 & D2 & D3 & D4).
  { split_and!; intros Heq; apply Hhd; congruence. }
  destruct (Hal f) as [Af1 Af2]; [by right|].
  destruct (Hal la) as [Al1 Al2]; [by right|].
  destruct (Hal pos Hpos) as [Ap1 Ap2]. destruct (Hal pr Hpr) as [Ar1 Ar2].
  destruct (Hal hd) as [Ah1 Ah2]; [by left|].
  assert (<[f := pr]> p !! pos = Some pr) as Hpp1.
  { destruct (decide (f = pos)) as [->|Hfp]; [by rewrite lookup_insert_eq|].
    by rewrite lookup_insert_ne. }
  unfold s21.size, s21.end_.
  do 5 wp_step.
  apply wp_bind. eapply wp_get_prev; [exact Hpp1|].
  repeat wp_step.
  apply HQ; cbn [vn vp vv vo].
  - split; cbn [vn vp vv vo].
    + by rewrite lookup_insert_eq.
    + change (([] : list (Z * T)).*1) with ([] : list Z). apply ring_empty.
      split; [|done]. unfold link. by rewrite !lookup_insert_eq.
    + constructor.
    + done.
  - rewrite !dom_insert_L.
    assert (hd ∈ dom n ∧ pr ∈ dom n ∧ la ∈ dom n) as (? & ? & ?)
      by (split_and!; by apply elem_of_dom).
    set_solver.
  - done.
  - intros b Hb. by rewrite !lookup_insert_ne.
Qed.

End SpliceSelf.

Section MoreLoops.
Context {T : Type} `{Elem T}.
Local Abbreviation view := (view T).
Implicit Types (V : view) (xs ys zs : list (Z * T)) (s : state T).

(** The loop of [list(size_type n)]. *)
Lemma wp_fill_loop (E : fault → Prop) this hd k :
  E BadAlloc →
  ∀ fuel V xs (Q : Z → view → Prop),
  is_list V this hd xs → enough E k fuel → Z.of_nat k < 2 ^ 64 →
  (∀ zs V', is_list V' this hd (xs ++ zs) → zs.*2 = replicate k elem_default →
     (∀ a, a ∈ zs.*1 → vn V !! a = None) →
     frame (hd :: xs.*1) this V V' →
     dom (vn V') = list_to_set zs.*1 ∪ dom (vn V) → Q 0 V') →
  wp E (while fuel
          (λ n, mret (0 <? n))
          (λ n, s21.push_back this elem_default;; mret (wrap (n - 1)))
          (Z.of_nat k)) V Q.
Proof.
  intros HE. induction k as [|k IH]; intros fuel V xs Q Hl Hfuel Hk HQ.
  - destruct fuel as [|fuel].
    { apply wp_fail. destruct Hfuel as [?|?]; [done|lia]. }
    cbn [while]. apply wp_bind, wp_ret. change (0 <? Z.of_nat 0) with false. cbv iota.
    apply wp_ret. apply (HQ []).
    + by rewrite app_nil_r.
    + done.
    + intros a Ha. by apply elem_of_nil in Ha.
    + apply frame_refl.
    + simpl. set_solver.
  - destruct fuel as [|fuel].
    { apply wp_fail. destruct Hfuel as [?|?]; [done|lia]. }
    cbn [while]. apply wp_bind, wp_ret.
    replace (0 <? Z.of_nat (S k)) with true by (symmetry; apply Z.ltb_lt; lia). cbv iota.
    apply wp_bind. apply wp_bind. eapply wp_push_back; [done|done|].
    intros new V1 Hl1 Hnew Hf1 Hdom1. apply wp_ret.
    replace (wrap (Z.of_nat (S k) - 1)) with (Z.of_nat k) by (rewrite wrap_small; lia).
    eapply (IH fuel V1 (xs ++ [(new, elem_default)])); [done| |lia|].
    { eapply enough_S; [done|lia]. }
    intros zs V2 Hl2 Hzs Hfresh Hf2 Hdom2.
    assert (∀ b, b ∈ zs.*1 → vn V !! b = None) as Hfresh'.
    { intros b Hb. destruct (vn V !! b) as [y|] eqn:Hy; [|done]. exfalso.
      destruct (decide (b ∈ hd :: xs.*1)) as [Hin|Hnin].
      - destruct Hl2 as [_ [Hnd _ _] _ _]. rewrite !fmap_app in Hnd.
        apply NoDup_cons in Hnd as [Hhd Hnd].
        apply elem_of_cons in Hin as [->|Hin].
        + apply Hhd. rewrite !elem_of_app. auto.
        + apply NoDup_app in Hnd as (_ & Hdis & _).
          apply (Hdis b); [rewrite elem_of_app; by left|done].
      - destruct Hf1 as [Hfn _]. destruct (Hfn b Hnin) as (Hb1 & _); [by rewrite Hy|].
        rewrite (Hfresh b Hb) in Hb1. congruence. }
    apply (HQ ((new, elem_default) :: zs)).
    + by rewrite <-(assoc_L (++)) in Hl2.
    + by rewrite fmap_cons, Hzs.
    + intros b [->|Hb]%elem_of_cons; [done|by apply Hfresh'].
    + eapply frame_trans_alloc; [done|done|]. intros b Hb.
      rewrite fmap_app in Hb. rewrite elem_of_cons, elem_of_app in Hb.
      rewrite elem_of_cons. destruct Hb as [->|[Hb|Hb]]; [auto..|].
      apply list_elem_of_singleton in Hb as ->. by right.
    + rewrite Hdom2, Hdom1. simpl. set_solver.
Qed.

(** [k] increments from the cursor before [xs2] pass [k] elements. *)
Lemma wp_advance_exact E V this hd k :
  ∀ xs1 xs2 (Q : Z → view → Prop),
  is_list V this hd (xs1 ++ xs2) → (k ≤ length xs2)%nat →
  Q (cursor hd (drop k xs2).*1) V →
  wp E (advance k (cursor hd xs2.*1)) V Q.
Proof.
  induction k as [|k IH]; intros xs1 xs2 Q Hl Hk HQ; simpl.
  - by apply wp_ret.
  - destruct xs2 as [|x xs2]; [simpl in Hk; lia|].
    pose proof Hl as [_ Hr _ _]. rewrite fmap_app, fmap_cons in Hr.
    destruct (ring_link_mid _ _ _ _ _ _ Hr) as [_ Hn].
    change (cursor hd (x :: xs2).*1) with x.1.
    destruct V as [n p v o]. cbn [vn vp vv vo] in *. wp_step.
    eapply (IH (xs1 ++ [x]) xs2); [by rewrite <-(assoc_L (++))|simpl in Hk; lia|done].
Qed.

End MoreLoops.

(** Merging keeps each list in its own order. *)
Lemma list_merge_sublist {A} (R : relation A) `{!∀ x y, Decision (R x y)} (xs ys : list A) :
  xs `sublist_of` list_merge R xs ys ∧ ys `sublist_of` list_merge R xs ys.
Proof.
  revert ys. induction xs as [|x xs IH]; intros ys.
  { rewrite list_merge_nil_l. split; [apply sublist_nil_l|done]. }
  induction ys as [|y ys IHy].
  { rewrite list_merge_nil_r. split; [done|apply sublist_nil_l]. }
  rewrite list_merge_cons. destruct (decide (R x y)).
  - destruct (IH (y :: ys)) as [H1 H2]. split; [by apply sublist_skip|by apply sublist_cons].
  - destruct IHy as [H1 H2]. split; [by apply sublist_cons|by apply sublist_skip].
Qed.

(** * Further properties of the list and of its adaptors *)

Section StateLevel.
Context {T : Type} `{Elem T}.
Implicit Types (xs ys zs : list (Z * T)) (s : state T).

(** Faults of code that allocates: only the lack of memory. *)
Definition only_bad_alloc : fault → Prop := λ f, f = BadAlloc.

Lemma view_lookup_None s a : vn (view_of s) !! a = None ↔ nodes s !! a = None.
Proof. simpl. rewrite lookup_fmap. apply fmap_None. Qed.

Lemma view_dom s : dom (vn (view_of s)) = dom (nodes s).
Proof. simpl. apply dom_fmap_L. Qed.

Lemma wp_outcome {A} (m : M T A) s (Q : A → view T → Prop) :
  wp only_bad_alloc m (view_of s) Q →
  match m s with
  | Ret a s' => Q a (view_of s')
  | Fault f => f = BadAlloc
  end.
Proof. intros Hm. exact (Hm s eq_refl). Qed.

Lemma wp_result {A} (m : M T A) s (Q : A → view T → Prop) :
  wp no_fault m (view_of s) Q → ∃ a s', m s = Ret a s' ∧ Q a (view_of s').
Proof. apply wp_run. Qed.

(** Nodes: equal fields, equal nodes. *)
Lemma nodes_eq s s' :
  (∀ a, vn (view_of s') !! a = vn (view_of s) !! a ∧
        vp (view_of s') !! a = vp (view_of s) !! a ∧
        vv (view_of s') !! a = vv (view_of s) !! a) →
  nodes s' = nodes s.
Proof.
  intros Heq. apply map_eq. intros a. destruct (Heq a) as (Hn & Hp & Hv). simpl in *.
  rewrite !lookup_fmap in Hn. rewrite !lookup_fmap in Hp. rewrite !lookup_fmap in Hv.
  destruct (nodes s !! a) as [[x y z]|], (nodes s' !! a) as [[x' y' z']|];
    simpl in *; congruence.
Qed.

End StateLevel.

Section Reads.
Context {T : Type} `{Elem T}.
Implicit Types (xs ys zs : list (Z * T)) (s : state T).

Lemma pure_result {A} (m : M T A) s (a0 : A) :
  wp no_fault m (view_of s) (λ a V', a = a0 ∧ V' = view_of s) → m s = Ret a0 s.
Proof.
  intros Hm. destruct (wp_run m s _ Hm) as (a & s' & Hr & -> & Hs).
  by apply view_of_inj in Hs as ->.
Qed.

Lemma front_of_is_list s this hd xs :
  is_list (view_of s) this hd xs →
  s21.front this s = Ret (default elem_default (head xs.*2)) s.
Proof. intros Hl. apply pure_result. by eapply wp_front. Qed.

Lemma back_of_is_list s this hd xs :
  is_list (view_of s) this hd xs →
  s21.back this s = Ret (default elem_default (last xs.*2)) s.
Proof. intros Hl. apply pure_result. by eapply wp_back. Qed.

Lemma empty_of_is_list s this hd xs :
  is_list (view_of s) this hd xs → s21.empty this s = Ret (bool_decide (xs = [])) s.
Proof. intros Hl. apply pure_result. by eapply wp_empty. Qed.

Lemma begin_of_is_list s this hd xs :
  is_list (view_of s) this hd xs → s21.begin this s = Ret (cursor hd xs.*1) s.
Proof. intros Hl. apply pure_result. by eapply wp_begin. Qed.

Lemma end_of_is_list s this hd xs :
  is_list (view_of s) this hd xs → s21.end_ this s = Ret hd s.
Proof. intros Hl. apply pure_result. by eapply wp_end. Qed.

End Reads.

(** X1: [push_back(x)] either runs out of memory or returns having
    appended one new node holding [x] after the last element: the
    former elements keep their nodes and their order, [back()] then
    returns [x] and [size()] has grown by one. *)
Theorem push_back_appends {T} `{Elem T} (s : state T) (this hd : Z)
    (xs : list (Z * T)) (x : T) :
  is_list (view_of s) this hd xs →
  match s21.push_back this x s with
  | Ret _ s' =>
      ∃ new, nodes s !! new = None ∧
        is_list (view_of s') this hd (xs ++ [(new, x)]) ∧
        s21.back this s' = Ret x s' ∧
        s21.size this s' = Ret (Z.of_nat (length xs) + 1) s' ∧
        contents (length xs + 2) this s' = Some (xs.*2 ++ [x])
  | Fault f => f = BadAlloc
  end.
Proof.
  intros Hl.
  assert (wp only_bad_alloc (s21.push_back this x) (view_of s)
    (λ _ V', ∃ new, nodes s !! new = None ∧ is_list V' this hd (xs ++ [(new, x)]))) as Hw.
  { eapply wp_push_back; [done|done|]. intros new V' Hl' Hnew _ _.
    exists new. split; [by apply view_lookup_None|done]. }
  apply wp_outcome in Hw.
  destruct (s21.push_back this x s) as [[] s'|f]; [|done].
  destruct Hw as (new & Hnew & Hl'). exists new. split_and!; [done|done| | |].
  - rewrite (back_of_is_list s' this hd _ Hl'), fmap_app. change ([(new, x)].*2) with [x].
    by rewrite last_snoc.
  - rewrite (size_of_is_list s' this hd _ Hl'), length_app. simpl. do 2 f_equal. lia.
  - rewrite (is_list_contents s' this hd _ _ Hl'); [by rewrite fmap_app|].
    rewrite length_app. simpl. lia.
Qed.

Lemma push_back_appends_witness :
  match s21.push_back 1 7 demo_pair with
  | Ret _ s' =>
      ∃ new, nodes demo_pair !! new = None ∧
        is_list (view_of s') 1 1 ([(2, 1); (3, 2)] ++ [(new, 7)]) ∧
        s21.back 1 s' = Ret 7 s' ∧
        s21.size 1 s' = Ret (Z.of_nat (length [(2, 1); (3, 2)]) + 1) s' ∧
        contents (length [(2, 1); (3, 2)] + 2) 1 s' = Some ([(2, 1); (3, 2)].*2 ++ [7])
  | Fault f => f = BadAlloc
  end.
Proof.
  apply (push_back_appends demo_pair 1 1 [(2, 1); (3, 2)] 7). check_list.
Defined.

(** X2: [push_front(x)] either runs out of memory or returns having put
    one new node holding [x] before the first element; [front()] then
    returns [x]. *)
Theorem push_front_prepends {T} `{Elem T} (s : state T) (this hd : Z)
    (xs : list (Z * T)) (x : T) :
  is_list (view_of s) this hd xs →
  match s21.push_front this x s with
  | Ret _ s' =>
      ∃ new, nodes s !! new = None ∧
        is_list (view_of s') this hd ((new, x) :: xs) ∧
        s21.front this s' = Ret x s' ∧
        s21.size this s' = Ret (Z.of_nat (length xs) + 1) s' ∧
        contents (length xs + 2) this s' = Some (x :: xs.*2)
  | Fault f => f = BadAlloc
  end.
Proof.
  intros Hl.
  assert (wp only_bad_alloc (s21.push_front this x) (view_of s)
    (λ _ V', ∃ new, nodes s !! new = None ∧ is_list V' this hd ((new, x) :: xs))) as Hw.
  { eapply wp_push_front; [done|done|]. intros new V' Hl' Hnew _ _.
    exists new. split; [by apply view_lookup_None|done]. }
  apply wp_outcome in Hw.
  destruct (s21.push_front this x s) as [[] s'|f]; [|done].
  destruct Hw as (new & Hnew & Hl'). exists new. split_and!; [done|done| | |].
  - by rewrite (front_of_is_list s' this hd _ Hl').
  - rewrite (size_of_is_list s' this hd _ Hl'). simpl length. do 2 f_equal. lia.
  - rewrite (is_list_contents s' this hd _ _ Hl'); [done|]. simpl. lia.
Qed.

Lemma push_front_prepends_witness :
  match s21.push_front 1 7 demo_pair with
  | Ret _ s' =>
      ∃ new, nodes demo_pair !! new = None ∧
        is_list (view_of s') 1 1 ((new, 7) :: [(2, 1); (3, 2)]) ∧
        s21.front 1 s' = Ret 7 s' ∧
        s21.size 1 s' = Ret (Z.of_nat (length [(2, 1); (3, 2)]) + 1) s' ∧
        contents (length [(2, 1); (3, 2)] + 2) 1 s' = Some (7 :: [(2, 1); (3, 2)].*2)
  | Fault f => f = BadAlloc
  end.
Proof.
  apply (push_front_prepends demo_pair 1 1 [(2, 1); (3, 2)] 7). check_list.
Defined.

(** X3: [pop_back()] always returns.  It removes the last element and
    frees its node, the others keeping theirs; on an empty list it
    changes nothing at all. *)
Theorem pop_back_removes_last {T} `{Elem T} (s : state T) (this hd : Z)
    (xs : list (Z * T)) :
  is_list (view_of s) this hd xs →
  ∃ s', s21.pop_back this s = Ret tt s' ∧
        is_list (view_of s') this hd (removelast xs) ∧
        (∀ x, last xs = Some x → dom (nodes s') = dom (nodes s) ∖ {[x.1]}) ∧
        (xs = [] → s' = s).
Proof.
  intros Hl. destruct (last xs) as [x|] eqn:Hlast.
  - apply last_Some in Hlast as [xs' ->].
    destruct (wp_result (s21.pop_back this) s
      (λ _ V', is_list V' this hd xs' ∧ dom (vn V') = dom (vn (view_of s)) ∖ {[x.1]}))
      as ([] & s' & Hr & Hl' & Hdom).
    { eapply wp_pop_back_snoc; [done|]. by intros. }
    exists s'. rewrite removelast_last. split_and!; [done..| |].
    + intros y [= <-]. by rewrite <-!view_dom.
    + intros Heq. by destruct xs'.
  - apply last_None in Hlast as ->.
    exists s. split_and!; [|done..].
    apply pure_result. eapply wp_pop_back_nil; [done|]. done.
Qed.

Lemma pop_back_removes_last_witness :
  ∃ s', s21.pop_back 1 demo_triple = Ret tt s' ∧
        is_list (view_of s') 1 1 (removelast [(2, 1); (3, 2); (4, 3)]) ∧
        (∀ x, last [(2, 1); (3, 2); (4, 3)] = Some x →
              dom (nodes s') = dom (nodes demo_triple) ∖ {[x.1]}) ∧
        ([(2, 1); (3, 2); (4, 3)] = [] → s' = demo_triple).
Proof.
  apply (pop_back_removes_last demo_triple 1 1 [(2, 1); (3, 2); (4, 3)]). check_list.
Defined.

(** X4: [pop_front()] always returns.  It removes the first element and
    frees its node; on an empty list it changes nothing at all. *)
Theorem pop_front_removes_first {T} `{Elem T} (s : state T) (this hd : Z)
    (xs : list (Z * T)) :
  is_list (view_of s) this hd xs →
  ∃ s', s21.pop_front this s = Ret tt s' ∧
        is_list (view_of s') this hd (tail xs) ∧
        (∀ x, head xs = Some x → dom (nodes s') = dom (nodes s) ∖ {[x.1]}) ∧
        (xs = [] → s' = s).
Proof.
  intros Hl. destruct xs as [|x xs].
  - exists s. split_and!; [|done..].
    apply pure_result. eapply wp_pop_front_nil; [done|]. done.
  - destruct (wp_result (s21.pop_front this) s
      (λ _ V', is_list V' this hd xs ∧ dom (vn V') = dom (vn (view_of s)) ∖ {[x.1]}))
      as ([] & s' & Hr & Hl' & Hdom).
    { eapply wp_pop_front_cons; [done|]. by intros. }
    exists s'. split_and!; [done..| |done].
    intros y [= <-]. by rewrite <-!view_dom.
Qed.

Lemma pop_front_removes_first_witness :
  ∃ s', s21.pop_front 1 demo_triple = Ret tt s' ∧
        is_list (view_of s') 1 1 (tail [(2, 1); (3, 2); (4, 3)]) ∧
        (∀ x, head [(2, 1); (3, 2); (4, 3)] = Some x →
              dom (nodes s') = dom (nodes demo_triple) ∖ {[x.1]}) ∧
        ([(2, 1); (3, 2); (4, 3)] = [] → s' = demo_triple).
Proof.
  apply (pop_front_removes_first demo_triple 1 1 [(2, 1); (3, 2); (4, 3)]). check_list.
Defined.

(** X5: [front()] and [back()] return the first and the last value and
    change nothing; on an empty list both read the sentinel and return
    the value-initialised [value_type{}]. *)
Theorem front_back_read {T} `{Elem T} (s : state T) (this hd : Z) (xs : list (Z * T)) :
  is_list (view_of s) this hd xs →
  s21.front this s = Ret (default elem_default (head xs.*2)) s ∧
  s21.back this s = Ret (default elem_default (last xs.*2)) s.
Proof. intros Hl. split; [by eapply front_of_is_list|by eapply back_of_is_list]. Qed.

Lemma front_back_read_witness :
  (s21.front 1 demo_triple
     = Ret (default elem_default (head [(2, 1); (3, 2); (4, 3)].*2)) demo_triple ∧
   s21.back 1 demo_triple
     = Ret (default elem_default (last [(2, 1); (3, 2); (4, 3)].*2)) demo_triple) ∧
  (s21.front 1 demo_empty
     = Ret (default elem_default (head ([] : list (Z * Z)).*2)) demo_empty ∧
   s21.back 1 demo_empty
     = Ret (default elem_default (last ([] : list (Z * Z)).*2)) demo_empty).
Proof.
  split.
  - apply (front_back_read demo_triple 1 1 [(2, 1); (3, 2); (4, 3)]). check_list.
  - apply (front_back_read demo_empty 1 1 []). check_list.
Defined.

Lemma get_value_of_is_list {T} `{Elem T} (s : state T) this hd xs (x : Z * T) :
  is_list (view_of s) this hd xs → x ∈ xs → get_value x.1 s = Ret x.2 s.
Proof.
  intros [_ _ Hv _] Hx. apply pure_result.
  eapply wp_get_value; [|done]. by eapply vals_lookup.
Qed.

(** What a [push_back] that returns has done, and that [pop_back] undoes
    it. *)
Lemma push_back_core {T} `{Elem T} (s : state T) (this hd : Z) (xs : list (Z * T)) (x : T) :
  is_list (view_of s) this hd xs →
  match s21.push_back this x s with
  | Ret _ s1 =>
      ∃ new, nodes s !! new = None ∧ is_list (view_of s1) this hd (xs ++ [(new, x)]) ∧
             s21.pop_back this s1 = Ret tt s
  | Fault f => f = BadAlloc
  end.
Proof.
  intros Hl.
  assert (wp only_bad_alloc (s21.push_back this x) (view_of s)
    (λ _ V1, ∃ new, vn (view_of s) !! new = None ∧
               is_list V1 this hd (xs ++ [(new, x)]) ∧
               frame (hd :: xs.*1) this (view_of s) V1 ∧
               dom (vn V1) = {[new]} ∪ dom (vn (view_of s)))) as Hw.
  { eapply wp_push_back; [done|done|]. intros new V' ? ? ? ?. by exists new. }
  apply wp_outcome in Hw.
  destruct (s21.push_back this x s) as [[] s1|f]; [|done].
  destruct Hw as (new & Hnew & Hl1 & Hf1 & Hdom1).
  exists new. split_and!; [by apply view_lookup_None|done|].
  destruct (wp_result (s21.pop_back this) s1
    (λ _ V2, is_list V2 this hd xs ∧
             frame (hd :: (xs ++ [(new, x)]).*1) this (view_of s1) V2 ∧
             dom (vn V2) = dom (vn (view_of s1)) ∖ {[new]}))
    as ([] & s2 & Hr & Hl2 & Hf2 & Hdom2).
  { eapply wp_pop_back_snoc; [done|]. by intros. }
  rewrite Hr. f_equal. eapply same_list_same_state; [done|done| |].
  - eapply frame_trans_alloc; [done|done|]. intros a Ha.
    rewrite fmap_app, elem_of_cons, elem_of_app in Ha. rewrite elem_of_cons.
    destruct Ha as [->|[Ha|Ha]]; [auto..|].
    apply list_elem_of_singleton in Ha as ->. by right.
  - rewrite <-!view_dom, Hdom2, Hdom1.
    assert (new ∉ dom (vn (view_of s))) by by apply not_elem_of_dom.
    set_solver.
Qed.

Lemma push_front_core {T} `{Elem T} (s : state T) (this hd : Z) (xs : list (Z * T)) (x : T) :
  is_list (view_of s) this hd xs →
  match s21.push_front this x s with
  | Ret _ s1 =>
      ∃ new, nodes s !! new = None ∧ is_list (view_of s1) this hd ((new, x) :: xs) ∧
             s21.pop_front this s1 = Ret tt s
  | Fault f => f = BadAlloc
  end.
Proof.
  intros Hl.
  assert (wp only_bad_alloc (s21.push_front this x) (view_of s)
    (λ _ V1, ∃ new, vn (view_of s) !! new = None ∧
               is_list V1 this hd ((new, x) :: xs) ∧
               frame (hd :: xs.*1) this (view_of s) V1 ∧
               dom (vn V1) = {[new]} ∪ dom (vn (view_of s)))) as Hw.
  { eapply wp_push_front; [done|done|]. intros new V' ? ? ? ?. by exists new. }
  apply wp_outcome in Hw.
  destruct (s21.push_front this x s) as [[] s1|f]; [|done].
  destruct Hw as (new & Hnew & Hl1 & Hf1 & Hdom1).
  exists new. split_and!; [by apply view_lookup_None|done|].
  destruct (wp_result (s21.pop_front this) s1
    (λ _ V2, is_list V2 this hd xs ∧
             frame (hd :: ((new, x) :: xs).*1) this (view_of s1) V2 ∧
             dom (vn V2) = dom (vn (view_of s1)) ∖ {[new]}))
    as ([] & s2 & Hr & Hl2 & Hf2 & Hdom2).
  { eapply (wp_pop_front_cons no_fault _ this hd (new, x) xs); [done|]. by intros. }
  rewrite Hr. f_equal. eapply same_list_same_state; [done|done| |].
  - eapply frame_trans_alloc; [done|done|]. intros a Ha.
    rewrite fmap_cons, !elem_of_cons in Ha. rewrite elem_of_cons.
    destruct Ha as [->|[->|Ha]]; auto.
  - rewrite <-!view_dom, Hdom2, Hdom1.
    assert (new ∉ dom (vn (view_of s))) by by apply not_elem_of_dom.
    set_solver.
Qed.

(** X6: a push undone by the matching pop leaves the whole state (every
    node, every list object, the set of allocated addresses) exactly as
    it was, at the back as at the front. *)
Theorem push_then_pop_restores {T} `{Elem T} (s : state T) (this hd : Z)
    (xs : list (Z * T)) (x : T) :
  is_list (view_of s) this hd xs →
  match s21.push_back this x s with
  | Ret _ s1 => s21.pop_back this s1 = Ret tt s
  | Fault f => f = BadAlloc
  end ∧
  match s21.push_front this x s with
  | Ret _ s1 => s21.pop_front this s1 = Ret tt s
  | Fault f => f = BadAlloc
  end.
Proof.
  intros Hl. split.
  - pose proof (push_back_core s this hd xs x Hl) as Hc.
    destruct (s21.push_back this x s) as [[] s1|f]; [|done]. by destruct Hc as (? & _ & _ & ?).
  - pose proof (push_front_core s this hd xs x Hl) as Hc.
    destruct (s21.push_front this x s) as [[] s1|f]; [|done]. by destruct Hc as (? & _ & _ & ?).
Qed.

Lemma push_then_pop_restores_witness :
  match s21.push_back 1 7 demo_pair with
  | Ret _ s1 => s21.pop_back 1 s1 = Ret tt demo_pair
  | Fault f => f = BadAlloc
  end ∧
  match s21.push_front 1 7 demo_pair with
  | Ret _ s1 => s21.pop_front 1 s1 = Ret tt demo_pair
  | Fault f => f = BadAlloc
  end.
Proof. apply (push_then_pop_restores demo_pair 1 1 [(2, 1); (3, 2)] 7). check_list. Defined.

(** X7: [insert(pos, x)] either runs out of memory or returns an
    iterator to one new node holding [x], linked immediately before
    [pos]; the elements before and after keep their nodes and their order,
    and erasing the returned iterator restores the whole state. *)
Theorem insert_before_position {T} `{Elem T} (s : state T) (this hd : Z)
    (xs1 xs2 : list (Z * T)) (x : T) :
  is_list (view_of s) this hd (xs1 ++ xs2) →
  match s21.insert this (cursor hd xs2.*1) x s with
  | Ret it s' =>
      nodes s !! it = None ∧
      is_list (view_of s') this hd (xs1 ++ (it, x) :: xs2) ∧
      get_value it s' = Ret x s' ∧
      s21.erase this it s' = Ret tt s
  | Fault f => f = BadAlloc
  end.
Proof.
  intros Hl.
  assert (wp only_bad_alloc (s21.insert this (cursor hd xs2.*1) x) (view_of s)
    (λ new V1, vn (view_of s) !! new = None ∧
               is_list V1 this hd (xs1 ++ (new, x) :: xs2) ∧
               frame (hd :: (xs1 ++ xs2).*1) this (view_of s) V1 ∧
               dom (vn V1) = {[new]} ∪ dom (vn (view_of s)))) as Hw.
  { eapply wp_insert_alloc; [done|done|]. by intros. }
  apply wp_outcome in Hw.
  destruct (s21.insert this (cursor hd xs2.*1) x s) as [new s1|f]; [|done].
  destruct Hw as (Hnew & Hl1 & Hf1 & Hdom1). split_and!; [by apply view_lookup_None|done| |].
  - apply (get_value_of_is_list s1 this hd _ (new, x) Hl1).
    rewrite elem_of_app, elem_of_cons. auto.
  - destruct (wp_result (s21.erase this new) s1
      (λ _ V2, is_list V2 this hd (xs1 ++ xs2) ∧
               frame (hd :: (xs1 ++ (new, x) :: xs2).*1) this (view_of s1) V2 ∧
               dom (vn V2) = dom (vn (view_of s1)) ∖ {[new]}))
      as ([] & s2 & Hr & Hl2 & Hf2 & Hdom2).
    { eapply (wp_erase_alloc no_fault _ this hd xs1 (new, x) xs2); [done|]. by intros. }
    rewrite Hr. f_equal. eapply same_list_same_state; [done|done| |].
    + eapply frame_trans_alloc; [done|done|]. intros a Ha.
      rewrite fmap_app, fmap_cons, elem_of_cons, elem_of_app, elem_of_cons in Ha.
      rewrite fmap_app, elem_of_cons, elem_of_app.
      destruct Ha as [->|[Ha|[->|Ha]]]; auto.
    + rewrite <-!view_dom, Hdom2, Hdom1.
      assert (new ∉ dom (vn (view_of s))) by by apply not_elem_of_dom.
      set_solver.
Qed.

Lemma insert_before_position_witness :
  match s21.insert 1 (cursor 1 [(4, 3)].*1) 9 demo_triple with
  | Ret it s' =>
      nodes demo_triple !! it = None ∧
      is_list (view_of s') 1 1 ([(2, 1); (3, 2)] ++ (it, 9) :: [(4, 3)]) ∧
      get_value it s' = Ret 9 s' ∧
      s21.erase 1 it s' = Ret tt demo_triple
  | Fault f => f = BadAlloc
  end.
Proof.
  apply (insert_before_position demo_triple 1 1 [(2, 1); (3, 2)] [(4, 3)] 9). check_list.
Defined.

(** X8: [erase(pos)] on an element always returns; exactly that element
    is removed and its node freed, the other elements keep their nodes,
    values and order, and [size()] drops by one. *)
Theorem erase_removes_element {T} `{Elem T} (s : state T) (this hd : Z)
    (xs1 xs2 : list (Z * T)) (x : Z * T) :
  is_list (view_of s) this hd (xs1 ++ x :: xs2) →
  ∃ s', s21.erase this x.1 s = Ret tt s' ∧
        is_list (view_of s') this hd (xs1 ++ xs2) ∧
        nodes s' !! x.1 = None ∧
        dom (nodes s') = dom (nodes s) ∖ {[x.1]} ∧
        s21.size this s' = Ret (Z.of_nat (length (xs1 ++ x :: xs2)) - 1) s'.
Proof.
  intros Hl.
  destruct (wp_result (s21.erase this x.1) s
    (λ _ V', is_list V' this hd (xs1 ++ xs2) ∧
             dom (vn V') = dom (vn (view_of s)) ∖ {[x.1]}))
    as ([] & s' & Hr & Hl' & Hdom).
  { eapply wp_erase_alloc; [done|]. by intros. }
  rewrite !view_dom in Hdom. exists s'. split_and!; [done..| |done|].
  - apply not_elem_of_dom. rewrite Hdom. set_solver.
  - rewrite (size_of_is_list s' this hd _ Hl'). f_equal. rewrite !length_app. simpl. lia.
Qed.

Lemma erase_removes_element_witness :
  ∃ s', s21.erase 1 (3, 2).1 demo_triple = Ret tt s' ∧
        is_list (view_of s') 1 1 ([(2, 1)] ++ [(4, 3)]) ∧
        nodes s' !! (3, 2).1 = None ∧
        dom (nodes s') = dom (nodes demo_triple) ∖ {[(3, 2).1]} ∧
        s21.size 1 s' = Ret (Z.of_nat (length ([(2, 1)] ++ (3, 2) :: [(4, 3)])) - 1) s'.
Proof.
  apply (erase_removes_element demo_triple 1 1 [(2, 1)] [(4, 3)] (3, 2)). check_list.
Defined.

(** X9: [clear()], given fuel for its loop, returns and leaves the list
    empty; the nodes of all the elements are freed, the sentinel is
    kept, and no other node is touched. *)
Theorem clear_frees_elements {T} `{Elem T} (s : state T) (this hd : Z)
    (xs : list (Z * T)) (fuel : nat) :
  is_list (view_of s) this hd xs → (length xs < fuel)%nat →
  ∃ s', s21.clear fuel this s = Ret tt s' ∧
        is_list (view_of s') this hd [] ∧
        s21.empty this s' = Ret true s' ∧
        dom (nodes s') = dom (nodes s) ∖ list_to_set xs.*1 ∧
        frame (hd :: xs.*1) this (view_of s) (view_of s').
Proof.
  intros Hl Hfuel.
  destruct (wp_result (s21.clear fuel this) s
    (λ _ V', is_list V' this hd [] ∧ frame (hd :: xs.*1) this (view_of s) V' ∧
             dom (vn V') = dom (vn (view_of s)) ∖ list_to_set xs.*1))
    as ([] & s' & Hr & Hl' & Hf & Hdom).
  { eapply wp_clear; [done|by apply enough_no_fault|]. by intros. }
  rewrite !view_dom in Hdom. exists s'. split_and!; [done..| |done|done].
  by rewrite (empty_of_is_list s' this hd [] Hl').
Qed.

Lemma clear_frees_elements_witness :
  ∃ s', s21.clear 4 1 demo_triple = Ret tt s' ∧
        is_list (view_of s') 1 1 [] ∧
        s21.empty 1 s' = Ret true s' ∧
        dom (nodes s') = dom (nodes demo_triple) ∖ list_to_set [(2, 1); (3, 2); (4, 3)].*1 ∧
        frame (1 :: [(2, 1); (3, 2); (4, 3)].*1) 1 (view_of demo_triple) (view_of s').
Proof.
  apply (clear_frees_elements demo_triple 1 1 [(2, 1); (3, 2); (4, 3)] 4).
  - check_list.
  - simpl. lia.
Defined.

(** X10: the destructor, given fuel for [clear], returns having freed
    the sentinel and every element node and nothing else, and leaves
    [head_] null. *)
Theorem destructor_frees_all {T} `{Elem T} (s : state T) (this hd : Z)
    (xs : list (Z * T)) (fuel : nat) :
  is_list (view_of s) this hd xs → (length xs < fuel)%nat →
  ∃ s', s21.list_dtor fuel this s = Ret tt s' ∧
        objs s' !! this = Some (mkList 0 0) ∧
        dom (nodes s') = dom (nodes s) ∖ list_to_set (hd :: xs.*1) ∧
        frame (hd :: xs.*1) this (view_of s) (view_of s').
Proof.
  intros Hl Hfuel.
  destruct (wp_result (s21.list_dtor fuel this) s
    (λ _ V', vo V' !! this = Some (mkList 0 0) ∧
             frame (hd :: xs.*1) this (view_of s) V' ∧
             dom (vn V') = dom (vn (view_of s)) ∖ list_to_set (hd :: xs.*1)))
    as ([] & s' & Hr & Ho & Hf & Hdom).
  { eapply wp_list_dtor; [done|by apply enough_no_fault|]. by intros. }
  rewrite !view_dom in Hdom. by exists s'.
Qed.

Lemma destructor_frees_all_witness :
  ∃ s', s21.list_dtor 4 1 demo_triple = Ret tt s' ∧
        objs s' !! 1 = Some (mkList 0 0) ∧
        dom (nodes s') = dom (nodes demo_triple) ∖ list_to_set (1 :: [(2, 1); (3, 2); (4, 3)].*1) ∧
        frame (1 :: [(2, 1); (3, 2); (4, 3)].*1) 1 (view_of demo_triple) (view_of s').
Proof.
  apply (destructor_frees_all demo_triple 1 1 [(2, 1); (3, 2); (4, 3)] 4).
  - check_list.
  - simpl. lia.
Defined.

(** X11: the initializer-list constructor either runs out of memory or
    builds a list that holds exactly the given items in the given order,
    in nodes that were free before. *)
Theorem initializer_list_builds {T} `{Elem T} (s : state T) (this : Z) (items : list T) :
  match s21.list_items this items s with
  | Ret _ s' =>
      ∃ hd zs, is_list (view_of s') this hd zs ∧ zs.*2 = items ∧
        (∀ a, a ∈ hd :: zs.*1 → nodes s !! a = None) ∧
        s21.size this s' = Ret (Z.of_nat (length items)) s' ∧
        contents (S (length items)) this s' = Some items
  | Fault f => f = BadAlloc
  end.
Proof.
  assert (wp only_bad_alloc (s21.list_items this items) (view_of s)
    (λ _ V', ∃ hd zs, is_list V' this hd zs ∧ zs.*2 = items ∧
               (∀ a, a ∈ hd :: zs.*1 → nodes s !! a = None))) as Hw.
  { unfold s21.list_items. apply wp_bind. apply wp_list_ctor; [done|].
    intros hd V1 Hl1 Hhd Hf1 Hdom1.
    eapply wp_push_back_items; [done|done|]. intros zs V2 Hl2 Hzs Hfresh Hf2 Hdom2.
    exists hd, zs. split_and!; [done..|].
    intros a [->|Ha]%elem_of_cons; [by apply view_lookup_None|].
    apply view_lookup_None. destruct (vn (view_of s) !! a) as [y|] eqn:Hy; [|done].
    exfalso. destruct Hf1 as [Hfn _]. destruct (Hfn a) as (Hb & _);
      [apply not_elem_of_nil|by rewrite Hy|].
    rewrite (Hfresh a Ha) in Hb. congruence. }
  apply wp_outcome in Hw.
  destruct (s21.list_items this items s) as [[] s'|f]; [|done].
  destruct Hw as (hd & zs & Hl & Hzs & Hfresh). exists hd, zs.
  assert (length zs = length items) as Hlen by by rewrite <-Hzs, length_fmap.
  split_and!; [done..| |].
  - by rewrite (size_of_is_list s' this hd _ Hl), Hlen.
  - rewrite (is_list_contents s' this hd zs); [by rewrite Hzs|done|lia].
Qed.

(** X12: a list built from an initializer list and then destroyed leaves
    the node memory exactly as it was: every node of the list is freed
    and no other node is written. *)
Theorem construct_destroy_restores {T} `{Elem T} (s : state T) (this : Z)
    (items : list T) (fuel : nat) :
  (length items < fuel)%nat →
  match (s21.list_items this items;; s21.list_dtor fuel this) s with
  | Ret _ s' => nodes s' = nodes s ∧ objs s' !! this = Some (mkList 0 0)
  | Fault f => f = BadAlloc
  end.
Proof.
  intros Hfuel.
  assert (wp only_bad_alloc (s21.list_items this items;; s21.list_dtor fuel this) (view_of s)
    (λ _ V', vo V' !! this = Some (mkList 0 0) ∧ dom (vn V') = dom (vn (view_of s)) ∧
             ∀ a, is_Some (vn (view_of s) !! a) →
                  vn V' !! a = vn (view_of s) !! a ∧ vp V' !! a = vp (view_of s) !! a ∧
                  vv V' !! a = vv (view_of s) !! a)) as Hw.
  { apply wp_bind. unfold s21.list_items. apply wp_bind. apply wp_list_ctor; [done|].
    intros hd V1 Hl1 Hhd Hf1 Hdom1.
    eapply wp_push_back_items; [done|done|]. intros zs V2 Hl2 Hzs Hfresh Hf2 Hdom2.
    simpl in Hl2. assert (length zs = length items) as Hlen by by rewrite <-Hzs, length_fmap.
    eapply wp_list_dtor; [done|right; lia|]. intros V3 Ho3 Hf3 Hdom3.
    assert (∀ a, a ∈ hd :: zs.*1 → vn (view_of s) !! a = None) as Hfr.
    { intros a [->|Ha]%elem_of_cons; [done|].
      destruct (vn (view_of s) !! a) as [y|] eqn:Hy; [|done].
      exfalso. destruct Hf1 as [Hfn _]. destruct (Hfn a) as (Hb & _);
        [apply not_elem_of_nil|by rewrite Hy|].
      rewrite (Hfresh a Ha) in Hb. congruence. }
    split_and!; [done| |].
    - rewrite Hdom3, Hdom2, Hdom1.
      assert (hd ∉ dom (vn (view_of s))) as Hnd1.
      { apply not_elem_of_dom, Hfr. by left. }
      assert (∀ a, a ∈ (list_to_set zs.*1 : gset Z) → a ∉ dom (vn (view_of s))) as Hnd2.
      { intros a Ha%elem_of_list_to_set. apply not_elem_of_dom, Hfr. by right. }
      rewrite list_to_set_cons. set_solver.
    - intros a Ha. assert (a ∉ hd :: zs.*1) as Hout.
      { intros Hin. rewrite (Hfr a Hin) in Ha. by destruct Ha. }
      destruct Hf1 as [Hf1 _], Hf2 as [Hf2 _], Hf3 as [Hf3 _].
      destruct (Hf1 a) as (E1 & E2 & E3); [apply not_elem_of_nil|done|].
      destruct (Hf2 a) as (E1' & E2' & E3').
      { intros Hin. apply Hout. simpl in Hin. apply list_elem_of_singleton in Hin as ->. by left. }
      { by rewrite E1. }
      destruct (Hf3 a) as (E1'' & E2'' & E3''); [done|by rewrite E1', E1|].
      by rewrite E1'', E2'', E3'', E1', E2', E3'. }
  apply wp_outcome in Hw.
  destruct ((s21.list_items this items;; s21.list_dtor fuel this) s) as [[] s'|f]; [|done].
  destruct Hw as (Ho & Hdom & Heq). split; [|done].
  apply nodes_eq. intros a. destruct (vn (view_of s) !! a) as [y|] eqn:Hy.
  - rewrite <-Hy. apply Heq. by rewrite Hy.
  - assert (nodes s !! a = None) as Hn by by apply view_lookup_None.
    assert (nodes s' !! a = None) as Hn'.
    { apply not_elem_of_dom. rewrite <-view_dom, Hdom, view_dom. by apply not_elem_of_dom. }
    simpl. rewrite !lookup_fmap, Hn, Hn'. done.
Qed.

Lemma construct_destroy_restores_witness :
  match (s21.list_items 2 [4; 5; 6];; s21.list_dtor 4 2) demo_pair with
  | Ret _ s' => nodes s' = nodes demo_pair ∧ objs s' !! 2 = Some (mkList 0 0)
  | Fault f => f = BadAlloc
  end.
Proof. apply (construct_destroy_restores demo_pair 2 [4; 5; 6] 4). simpl. lia. Defined.

(** X13: [list(n)], for a count [n] of type [size_t] and fuel for its
    loop, either runs out of memory or builds a list of exactly [n]
    elements, each the value-initialised [value_type{}]. *)
Theorem sized_constructor_fills {T} `{Elem T} (s : state T) (this : Z) (n : Z) (fuel : nat) :
  0 ≤ n < 2 ^ 64 → (Z.to_nat n < fuel)%nat →
  match s21.list_n fuel this n s with
  | Ret _ s' =>
      ∃ hd zs, is_list (view_of s') this hd zs ∧
        zs.*2 = replicate (Z.to_nat n) elem_default ∧
        s21.size this s' = Ret n s'
  | Fault f => f = BadAlloc
  end.
Proof.
  intros Hn Hfuel.
  assert (wp only_bad_alloc (s21.list_n fuel this n) (view_of s)
    (λ _ V', ∃ hd zs, is_list V' this hd zs ∧
               zs.*2 = replicate (Z.to_nat n) elem_default)) as Hw.
  { unfold s21.list_n. apply wp_bind. apply wp_list_ctor; [done|].
    intros hd V1 Hl1 _ _ _. apply wp_bind.
    rewrite <-(Z2Nat.id n) at 1 by lia.
    eapply (wp_fill_loop only_bad_alloc this hd (Z.to_nat n)); [done|done|by right|lia|].
    intros zs V2 Hl2 Hzs _ _ _. apply wp_ret. by exists hd, zs. }
  apply wp_outcome in Hw.
  destruct (s21.list_n fuel this n s) as [[] s'|f]; [|done].
  destruct Hw as (hd & zs & Hl & Hzs). exists hd, zs. split_and!; [done..|].
  rewrite (size_of_is_list s' this hd _ Hl). f_equal.
  rewrite <-(length_fmap snd zs), Hzs, length_replicate. lia.
Qed.

Lemma sized_constructor_fills_witness :
  match s21.list_n 4 2 3 demo_pair with
  | Ret _ s' =>
      ∃ hd zs, is_list (view_of s') 2 hd zs ∧
        zs.*2 = replicate (Z.to_nat 3) elem_default ∧
        s21.size 2 s' = Ret 3 s'
  | Fault f => f = BadAlloc
  end.
Proof. apply (sized_constructor_fills demo_pair 2 3 4); [lia|simpl; lia]. Defined.

(** X14: the copy constructor, given fuel for its loop, either runs out
    of memory or builds a list with the values of [other] in the same
    order, in new nodes of its own; [other] is left exactly as it was. *)
Theorem copy_constructor_copies {T} `{Elem T} (s : state T) (this other h2 : Z)
    (ys : list (Z * T)) (fuel : nat) :
  this ≠ other → is_list (view_of s) other h2 ys → (length ys < fuel)%nat →
  match s21.list_copy fuel this other s with
  | Ret _ s' =>
      ∃ hd zs, is_list (view_of s') this hd zs ∧ zs.*2 = ys.*2 ∧
        is_list (view_of s') other h2 ys ∧
        (∀ a, a ∈ hd :: zs.*1 → nodes s !! a = None) ∧
        contents fuel this s' = Some ys.*2 ∧ contents fuel other s' = Some ys.*2
  | Fault f => f = BadAlloc
  end.
Proof.
  intros Hne Hl Hfuel.
  assert (wp only_bad_alloc (s21.list_copy fuel this other) (view_of s)
    (λ _ V', ∃ hd zs, is_list V' this hd zs ∧ zs.*2 = ys.*2 ∧ is_list V' other h2 ys ∧
               (∀ a, a ∈ hd :: zs.*1 → nodes s !! a = None))) as Hw.
  { eapply wp_list_copy; [done|done|done|by right|].
    intros hd zs V' Hl1 Hzs Hl2 _ Hfresh _. exists hd, zs. split_and!; [done..|].
    intros a Ha. by apply view_lookup_None, Hfresh. }
  apply wp_outcome in Hw.
  destruct (s21.list_copy fuel this other s) as [[] s'|f]; [|done].
  destruct Hw as (hd & zs & Hl1 & Hzs & Hl2 & Hfresh). exists hd, zs.
  assert (length zs = length ys) as Hlen.
  { by rewrite <-(length_fmap snd zs), Hzs, length_fmap. }
  split_and!; [done..| |].
  - rewrite (is_list_contents s' this hd zs); [by rewrite Hzs|done|lia].
  - by rewrite (is_list_contents s' other h2 ys).
Qed.

Lemma copy_constructor_copies_witness :
  match s21.list_copy 4 2 1 demo_triple with
  | Ret _ s' =>
      ∃ hd zs, is_list (view_of s') 2 hd zs ∧ zs.*2 = [(2, 1); (3, 2); (4, 3)].*2 ∧
        is_list (view_of s') 1 1 [(2, 1); (3, 2); (4, 3)] ∧
        (∀ a, a ∈ hd :: zs.*1 → nodes demo_triple !! a = None) ∧
        contents 4 2 s' = Some [(2, 1); (3, 2); (4, 3)].*2 ∧
        contents 4 1 s' = Some [(2, 1); (3, 2); (4, 3)].*2
  | Fault f => f = BadAlloc
  end.
Proof.
  apply (copy_constructor_copies demo_triple 2 1 1 [(2, 1); (3, 2); (4, 3)] 4).
  - done.
  - check_list.
  - simpl. lia.
Defined.

(** X15: the move constructor either runs out of memory (for its own
    sentinel) or takes over the very nodes of [other], in order, and
    leaves [other] a valid empty list. *)
Theorem move_constructor_takes {T} `{Elem T} (s : state T) (this other h2 : Z)
    (ys : list (Z * T)) :
  this ≠ other → is_list (view_of s) other h2 ys →
  match s21.list_move this other s with
  | Ret _ s' =>
      ∃ hd, nodes s !! hd = None ∧
        is_list (view_of s') this hd ys ∧ is_list (view_of s') other h2 [] ∧
        dom (nodes s') = {[hd]} ∪ dom (nodes s)
  | Fault f => f = BadAlloc
  end.
Proof.
  intros Hne Hl.
  assert (wp only_bad_alloc (s21.list_move this other) (view_of s)
    (λ _ V', ∃ hd, nodes s !! hd = None ∧ is_list V' this hd ys ∧ is_list V' other h2 [] ∧
               dom (vn V') = {[hd]} ∪ dom (nodes s))) as Hw.
  { eapply wp_list_move; [done|done|done|]. intros hd V' Hl1 Hl2 Hhd Hdom.
    exists hd. split_and!; [by apply view_lookup_None|done|done|by rewrite Hdom, view_dom]. }
  apply wp_outcome in Hw.
  destruct (s21.list_move this other s) as [[] s'|f]; [|done].
  destruct Hw as (hd & Hhd & Hl1 & Hl2 & Hdom). exists hd. by rewrite <-view_dom.
Qed.

Lemma move_constructor_takes_witness :
  match s21.list_move 2 1 demo_triple with
  | Ret _ s' =>
      ∃ hd, nodes demo_triple !! hd = None ∧
        is_list (view_of s') 2 hd [(2, 1); (3, 2); (4, 3)] ∧ is_list (view_of s') 1 1 [] ∧
        dom (nodes s') = {[hd]} ∪ dom (nodes demo_triple)
  | Fault f => f = BadAlloc
  end.
Proof.
  apply (move_constructor_takes demo_triple 2 1 1 [(2, 1); (3, 2); (4, 3)]); [done|check_list].
Defined.

(** X16: copy assignment between two different lists, given fuel for
    its loops, either runs out of memory or leaves [this] with the
    values of [other] in the same order and [other] as it was.  The
    sentinel and the first nodes of [this], as many as [other] has
    elements, are kept and only given new values; further nodes of
    [this] are freed, further values of [other] go to new nodes [ws]. *)
Theorem copy_assignment_copies {T} `{Elem T} (s : state T) (this other h1 h2 : Z)
    (xs ys : list (Z * T)) (fuel : nat) :
  this ≠ other →
  is_list (view_of s) this h1 xs → is_list (view_of s) other h2 ys →
  apart (h1 :: xs.*1) (h2 :: ys.*1) →
  (length xs `max` length ys < fuel)%nat →
  match s21.copy_assign fuel this other s with
  | Ret _ s' =>
      ∃ ws, is_list (view_of s') this h1 (overwrite xs ys ++ ws) ∧
        (overwrite xs ys ++ ws).*2 = ys.*2 ∧
        is_list (view_of s') other h2 ys ∧
        dom (nodes s') = list_to_set ws.*1 ∪
                         (dom (nodes s) ∖ list_to_set (drop (length ys) xs).*1) ∧
        contents fuel this s' = Some ys.*2
  | Fault f => f = BadAlloc
  end.
Proof.
  intros Hne Hl1 Hl2 Hap Hfuel.
  assert (wp only_bad_alloc (s21.copy_assign fuel this other) (view_of s)
    (λ _ V', ∃ ws, is_list V' this h1 (overwrite xs ys ++ ws) ∧
               ws.*2 = (drop (length xs) ys).*2 ∧ is_list V' other h2 ys ∧
               dom (vn V') = list_to_set ws.*1 ∪
                  (dom (vn (view_of s)) ∖ list_to_set (drop (length ys) xs).*1))) as Hw.
  { eapply wp_copy_assign; [done|done|done|done|done|by right|].
    intros ws V' ? ? ? ?. by exists ws. }
  apply wp_outcome in Hw.
  destruct (s21.copy_assign fuel this other s) as [[] s'|f]; [|done].
  destruct Hw as (ws & Hl1' & Hws & Hl2' & Hdom). exists ws.
  assert ((overwrite xs ys ++ ws).*2 = ys.*2) as Hvals.
  { by rewrite fmap_app, overwrite_snd, Hws, fmap_drop, take_drop. }
  rewrite !view_dom in Hdom. split_and!; [done..|].
  rewrite (is_list_contents s' this h1 _ fuel Hl1'); [by rewrite Hvals|].
  rewrite <-(length_fmap snd), Hvals, length_fmap. lia.
Qed.

Lemma copy_assignment_copies_witness :
  match s21.copy_assign 4 1 2 demo_two with
  | Ret _ s' =>
      ∃ ws, is_list (view_of s') 1 1
              (overwrite [(2, 1); (3, 4); (4, 7)] [(6, 2); (7, 4); (8, 9)] ++ ws) ∧
        (overwrite [(2, 1); (3, 4); (4, 7)] [(6, 2); (7, 4); (8, 9)] ++ ws).*2
          = [(6, 2); (7, 4); (8, 9)].*2 ∧
        is_list (view_of s') 2 5 [(6, 2); (7, 4); (8, 9)] ∧
        dom (nodes s') = list_to_set ws.*1 ∪
          (dom (nodes demo_two) ∖
             list_to_set (drop (length [(6, 2); (7, 4); (8, 9)]) [(2, 1); (3, 4); (4, 7)]).*1) ∧
        contents 4 1 s' = Some [(6, 2); (7, 4); (8, 9)].*2
  | Fault f => f = BadAlloc
  end.
Proof.
  apply (copy_assignment_copies demo_two 1 2 1 5
           [(2, 1); (3, 4); (4, 7)] [(6, 2); (7, 4); (8, 9)] 4).
  - done.
  - check_list.
  - check_list.
  - apply apart_Forall. compute_done.
  - simpl. lia.
Defined.

(** X17: move assignment between two different lists, given fuel for
    [clear], returns: the former elements of [this] are freed, [this]
    takes over the very nodes of [other] in order, and [other] is left a
    valid empty list. *)
Theorem move_assignment_takes {T} `{Elem T} (s : state T) (this other h1 h2 : Z)
    (xs ys : list (Z * T)) (fuel : nat) :
  this ≠ other →
  is_list (view_of s) this h1 xs → is_list (view_of s) other h2 ys →
  apart (h1 :: xs.*1) (h2 :: ys.*1) →
  (length xs < fuel)%nat →
  ∃ s', s21.move_assign fuel this other s = Ret tt s' ∧
        is_list (view_of s') this h1 ys ∧ is_list (view_of s') other h2 [] ∧
        dom (nodes s') = dom (nodes s) ∖ list_to_set xs.*1.
Proof.
  intros Hne Hl1 Hl2 Hap Hfuel.
  destruct (wp_result (s21.move_assign fuel this other) s
    (λ _ V', is_list V' this h1 ys ∧ is_list V' other h2 [] ∧
             dom (vn V') = dom (vn (view_of s)) ∖ list_to_set xs.*1))
    as ([] & s' & Hr & Hl1' & Hl2' & Hdom).
  { eapply wp_move_assign; [done|done|done|done|by apply enough_no_fault|]. by intros. }
  rewrite !view_dom in Hdom. by exists s'.
Qed.

Lemma move_assignment_takes_witness :
  ∃ s', s21.move_assign 4 1 2 demo_two = Ret tt s' ∧
        is_list (view_of s') 1 1 [(6, 2); (7, 4); (8, 9)] ∧ is_list (view_of s') 2 5 [] ∧
        dom (nodes s') = dom (nodes demo_two) ∖ list_to_set [(2, 1); (3, 4); (4, 7)].*1.
Proof.
  apply (move_assignment_takes demo_two 1 2 1 5
           [(2, 1); (3, 4); (4, 7)] [(6, 2); (7, 4); (8, 9)] 4).
  - done.
  - check_list.
  - check_list.
  - apply apart_Forall. compute_done.
  - simpl. lia.
Defined.

Lemma is_list_rename {T} `{Elem T} n p (v : gmap Z T) o o' a b hd xs :
  is_list (View n p v o) a hd xs → o' !! b = o !! a → is_list (View n p v o') b hd xs.
Proof. intros [Ho Hr Hv Hs] Heq. split; cbn [vn vp vv vo] in *; [by rewrite Heq|done..]. Qed.

(** X18: [swap] of two different lists always returns: each list object
    now owns the ring of the other, no node is written, allocated or
    freed, and a second [swap] restores the state exactly. *)
Theorem swap_exchanges {T} `{Elem T} (s : state T) (this other h1 h2 : Z)
    (xs ys : list (Z * T)) :
  this ≠ other →
  is_list (view_of s) this h1 xs → is_list (view_of s) other h2 ys →
  ∃ s', s21.swap this other s = Ret tt s' ∧
        is_list (view_of s') this h2 ys ∧ is_list (view_of s') other h1 xs ∧
        nodes s' = nodes s ∧
        s21.swap this other s' = Ret tt s.
Proof.
  intros Hne Hl1 Hl2.
  assert (∀ (s0 : state T) l1 l2, objs s0 !! this = Some l1 → objs s0 !! other = Some l2 →
            s21.swap this other s0
            = Ret tt (mkState (nodes s0) (<[other := l1]> (<[this := l2]> (objs s0))))) as Hrun.
  { intros s0 l1 l2 H1 H2.
    destruct (wp_result (s21.swap this other) s0
      (λ _ V', V' = view_of (mkState (nodes s0) (<[other := l1]> (<[this := l2]> (objs s0))))))
      as ([] & s' & Hr & Hs').
    { by eapply wp_swap. }
    by apply view_of_inj in Hs' as ->. }
  pose proof Hl1 as [Ho1 _ _ _]. pose proof Hl2 as [Ho2 _ _ _]. cbn [vo view_of] in Ho1, Ho2.
  eexists. split_and!; [by apply Hrun|..].
  - eapply is_list_rename; [exact Hl2|]. cbn [objs].
    by rewrite lookup_insert_ne, lookup_insert_eq.
  - eapply is_list_rename; [exact Hl1|]. cbn [objs]. by rewrite lookup_insert_eq.
  - done.
  - erewrite Hrun; cbn [objs nodes].
    2:{ by rewrite lookup_insert_ne, lookup_insert_eq. }
    2:{ by rewrite lookup_insert_eq. }
    destruct s as [n o]. cbn [objs nodes] in *. do 2 f_equal.
    apply map_eq. intros b.
    destruct (decide (b = other)) as [->|Hb1]; [by rewrite lookup_insert_eq|].
    rewrite lookup_insert_ne by done.
    destruct (decide (b = this)) as [->|Hb2]; [by rewrite lookup_insert_eq|].
    by rewrite !lookup_insert_ne.
Qed.

Lemma swap_exchanges_witness :
  ∃ s', s21.swap 1 2 demo_two = Ret tt s' ∧
        is_list (view_of s') 1 5 [(6, 2); (7, 4); (8, 9)] ∧
        is_list (view_of s') 2 1 [(2, 1); (3, 4); (4, 7)] ∧
        nodes s' = nodes demo_two ∧
        s21.swap 1 2 s' = Ret tt demo_two.
Proof.
  apply (swap_exchanges demo_two 1 2 1 5 [(2, 1); (3, 4); (4, 7)] [(6, 2); (7, 4); (8, 9)]).
  - done.
  - check_list.
  - check_list.
Defined.

(** X19: [insert_many(pos, a, args...)] either runs out of memory or
    inserts the arguments in new nodes immediately before [pos], in the
    order in which they are given, and returns an iterator to the last
    of them (not to the first). *)
Theorem insert_many_in_order {T} `{Elem T} (s : state T) (this hd : Z)
    (xs1 xs2 : list (Z * T)) (a : T) (args : list T) :
  is_list (view_of s) this hd (xs1 ++ xs2) →
  match s21.insert_many this (cursor hd xs2.*1) (a :: args) s with
  | Ret it s' =>
      ∃ zs z, is_list (view_of s') this hd (xs1 ++ (zs ++ [z]) ++ xs2) ∧
        (zs ++ [z]).*2 = a :: args ∧ it = z.1 ∧
        (∀ b, b ∈ (zs ++ [z]).*1 → nodes s !! b = None) ∧
        contents (S (length (xs1 ++ xs2) + S (length args))) this s'
          = Some (xs1.*2 ++ (a :: args) ++ xs2.*2)
  | Fault f => f = BadAlloc
  end.
Proof.
  intros Hl.
  assert (wp only_bad_alloc (s21.insert_many this (cursor hd xs2.*1) (a :: args)) (view_of s)
    (λ it V', ∃ zs z, is_list V' this hd (xs1 ++ (zs ++ [z]) ++ xs2) ∧
                (zs ++ [z]).*2 = a :: args ∧ it = z.1 ∧
                (∀ b, b ∈ (zs ++ [z]).*1 → nodes s !! b = None))) as Hw.
  { eapply wp_insert_many; [done|done|]. intros zs z V' Hl' Hzs Hfresh _ _.
    exists zs, z. split_and!; [done..|]. intros b Hb. by apply view_lookup_None, Hfresh. }
  apply wp_outcome in Hw.
  destruct (s21.insert_many this (cursor hd xs2.*1) (a :: args) s) as [it s'|f]; [|done].
  destruct Hw as (zs & z & Hl' & Hzs & Hit & Hfresh). exists zs, z.
  split_and!; [done..|].
  assert (length (zs ++ [z]) = S (length args)) as Hlen.
  { by rewrite <-(length_fmap snd), Hzs. }
  rewrite (is_list_contents s' this hd _ _ Hl').
  - by rewrite !fmap_app, <-fmap_app, Hzs.
  - rewrite !length_app in *. lia.
Qed.

Lemma insert_many_in_order_witness :
  match s21.insert_many 1 (cursor 1 [(3, 2)].*1) (7 :: [8; 9]) demo_pair with
  | Ret it s' =>
      ∃ zs z, is_list (view_of s') 1 1 ([(2, 1)] ++ (zs ++ [z]) ++ [(3, 2)]) ∧
        (zs ++ [z]).*2 = 7 :: [8; 9] ∧ it = z.1 ∧
        (∀ b, b ∈ (zs ++ [z]).*1 → nodes demo_pair !! b = None) ∧
        contents (S (length ([(2, 1)] ++ [(3, 2)]) + S (length [8; 9]))) 1 s'
          = Some ([(2, 1)].*2 ++ (7 :: [8; 9]) ++ [(3, 2)].*2)
  | Fault f => f = BadAlloc
  end.
Proof.
  apply (insert_many_in_order demo_pair 1 1 [(2, 1)] [(3, 2)] 7 [8; 9]). check_list.
Defined.

(** X20: [insert_many_back(args...)] either runs out of memory or appends
    the arguments after the last element in the given order. *)
Theorem insert_many_back_appends {T} `{Elem T} (s : state T) (this hd : Z)
    (xs : list (Z * T)) (args : list T) :
  is_list (view_of s) this hd xs →
  match s21.insert_many_back this args s with
  | Ret _ s' =>
      ∃ zs, is_list (view_of s') this hd (xs ++ zs) ∧ zs.*2 = args ∧
        (∀ b, b ∈ zs.*1 → nodes s !! b = None) ∧
        contents (S (length xs + length args)) this s' = Some (xs.*2 ++ args)
  | Fault f => f = BadAlloc
  end.
Proof.
  intros Hl.
  assert (wp only_bad_alloc (s21.insert_many_back this args) (view_of s)
    (λ _ V', ∃ zs, is_list V' this hd (xs ++ zs) ∧ zs.*2 = args ∧
               (∀ b, b ∈ zs.*1 → nodes s !! b = None))) as Hw.
  { unfold s21.insert_many_back. eapply wp_push_back_items; [done|done|].
    intros zs V' Hl' Hzs Hfresh _ _. exists zs. split_and!; [done..|].
    intros b Hb. by apply view_lookup_None, Hfresh. }
  apply wp_outcome in Hw.
  destruct (s21.insert_many_back this args s) as [[] s'|f]; [|done].
  destruct Hw as (zs & Hl' & Hzs & Hfresh). exists zs. split_and!; [done..|].
  assert (length zs = length args) as Hlen by by rewrite <-(length_fmap snd), Hzs.
  rewrite (is_list_contents s' this hd _ _ Hl'); [by rewrite fmap_app, Hzs|].
  rewrite length_app. lia.
Qed.

Lemma insert_many_back_appends_witness :
  match s21.insert_many_back 1 [7; 8; 9] demo_pair with
  | Ret _ s' =>
      ∃ zs, is_list (view_of s') 1 1 ([(2, 1); (3, 2)] ++ zs) ∧ zs.*2 = [7; 8; 9] ∧
        (∀ b, b ∈ zs.*1 → nodes demo_pair !! b = None) ∧
        contents (S (length [(2, 1); (3, 2)] + length [7; 8; 9])) 1 s'
          = Some ([(2, 1); (3, 2)].*2 ++ [7; 8; 9])
  | Fault f => f = BadAlloc
  end.
Proof.
  apply (insert_many_back_appends demo_pair 1 1 [(2, 1); (3, 2)] [7; 8; 9]). check_list.
Defined.

(** X21: [splice(pos, *this)] is not guarded against its own list.  On a
    list that is not empty, for every position, the call returns and
    leaves the list empty ([size()] is 0, the sentinel is linked to
    itself), while no node is freed: the elements are lost to the list
    and their nodes stay allocated, holding their values. *)
Theorem splice_into_itself_loses_elements {T} `{Elem T} (s : state T) (this hd : Z)
    (xs1 xs2 : list (Z * T)) :
  is_list (view_of s) this hd (xs1 ++ xs2) → xs1 ++ xs2 ≠ [] →
  ∃ s', s21.splice this (cursor hd xs2.*1) this s = Ret tt s' ∧
        is_list (view_of s') this hd [] ∧
        s21.size this s' = Ret 0 s' ∧
        dom (nodes s') = dom (nodes s) ∧
        ∀ x, x ∈ xs1 ++ xs2 → get_value x.1 s' = Ret x.2 s'.
Proof.
  intros Hl Hne.
  destruct (wp_result (s21.splice this (cursor hd xs2.*1) this) s
    (λ _ V', is_list V' this hd [] ∧ dom (vn V') = dom (vn (view_of s)) ∧
             vv V' = vv (view_of s)))
    as ([] & s' & Hr & Hl' & Hdom & Hvv).
  { eapply wp_splice_self; [done|done|]. by intros. }
  rewrite !view_dom in Hdom. exists s'. split_and!; [done|done| |done|].
  - by rewrite (size_of_is_list s' this hd [] Hl').
  - intros x Hx. apply pure_result.
    destruct Hl as [_ _ Hv _]. pose proof (vals_lookup _ _ _ Hv Hx) as Hvx.
    rewrite <-Hvv in Hvx. by eapply wp_get_value.
Qed.

Lemma splice_into_itself_loses_elements_witness :
  ∃ s', s21.splice 1 (cursor 1 [(3, 2); (4, 3)].*1) 1 demo_triple = Ret tt s' ∧
        is_list (view_of s') 1 1 [] ∧
        s21.size 1 s' = Ret 0 s' ∧
        dom (nodes s') = dom (nodes demo_triple) ∧
        ∀ x, x ∈ [(2, 1)] ++ [(3, 2); (4, 3)] → get_value x.1 s' = Ret x.2 s'.
Proof.
  apply (splice_into_itself_loses_elements demo_triple 1 1 [(2, 1)] [(3, 2); (4, 3)]).
  - check_list.
  - done.
Defined.

(** X22: the queue is first in, first out.  [push(x)] either runs out
    of memory or puts [x] at the back: [back()] then returns [x],
    [front()] still returns the oldest element ([x] itself if the queue
    was empty), and [pop()] removes the oldest element, leaving the later
    ones and [x] in order. *)
Theorem queue_first_in_first_out {T} `{Elem T} (s : state T) (this hd : Z)
    (xs : list (Z * T)) (x : T) :
  is_list (view_of s) this hd xs →
  match queue.push this x s with
  | Ret _ s1 =>
      queue.back this s1 = Ret x s1 ∧
      queue.front this s1 = Ret (default x (head xs.*2)) s1 ∧
      ∃ s2, queue.pop this s1 = Ret tt s2 ∧
            contents (length xs + 1) this s2 = Some (tail (xs.*2 ++ [x])) ∧
            queue.size this s2 = Ret (Z.of_nat (length xs)) s2
  | Fault f => f = BadAlloc
  end.
Proof.
  intros Hl. unfold queue.push, queue.back, queue.front, queue.pop, queue.size.
  pose proof (push_back_core s this hd xs x Hl) as Hc.
  destruct (s21.push_back this x s) as [[] s1|f]; [|done].
  destruct Hc as (new & _ & Hl1 & _). split_and!.
  - rewrite (back_of_is_list s1 this hd _ Hl1), fmap_app. change ([(new, x)].*2) with [x].
    by rewrite last_snoc.
  - rewrite (front_of_is_list s1 this hd _ Hl1), fmap_app. by destruct xs.
  - destruct (wp_result (s21.pop_front this) s1
      (λ _ V2, is_list V2 this hd (tail (xs ++ [(new, x)])))) as ([] & s2 & Hr & Hl2).
    { destruct xs as [|x0 xs]; simpl in *.
      - eapply (wp_pop_front_cons no_fault _ this hd (new, x) []); [done|]. by intros.
      - eapply (wp_pop_front_cons no_fault _ this hd x0 (xs ++ [(new, x)])); [done|].
        by intros. }
    exists s2. split_and!; [done| |].
    + rewrite (is_list_contents s2 this hd _ _ Hl2).
      * f_equal. destruct xs; [done|]. simpl. by rewrite fmap_app.
      * destruct xs; simpl; [lia|]. rewrite length_app. simpl. lia.
    + rewrite (size_of_is_list s2 this hd _ Hl2). do 2 f_equal.
      destruct xs; simpl; [done|]. rewrite length_app. simpl. lia.
Qed.

Lemma queue_first_in_first_out_witness :
  match queue.push 1 7 demo_pair with
  | Ret _ s1 =>
      queue.back 1 s1 = Ret 7 s1 ∧
      queue.front 1 s1 = Ret (default 7 (head [(2, 1); (3, 2)].*2)) s1 ∧
      ∃ s2, queue.pop 1 s1 = Ret tt s2 ∧
            contents (length [(2, 1); (3, 2)] + 1) 1 s2
              = Some (tail ([(2, 1); (3, 2)].*2 ++ [7])) ∧
            queue.size 1 s2 = Ret (Z.of_nat (length [(2, 1); (3, 2)])) s2
  | Fault f => f = BadAlloc
  end.
Proof. apply (queue_first_in_first_out demo_pair 1 1 [(2, 1); (3, 2)] 7). check_list. Defined.

(** X23: the stack is last in, first out.  [push(x)] either runs out of
    memory or puts [x] on top: [top()] then returns [x], and [pop()]
    restores the whole state as it was before the push. *)
Theorem stack_last_in_first_out {T} `{Elem T} (s : state T) (this hd : Z)
    (xs : list (Z * T)) (x : T) :
  is_list (view_of s) this hd xs →
  match stack.push this x s with
  | Ret _ s1 => stack.top this s1 = Ret x s1 ∧ stack.pop this s1 = Ret tt s
  | Fault f => f = BadAlloc
  end.
Proof.
  intros Hl. unfold stack.push, stack.top, stack.pop.
  pose proof (push_back_core s this hd xs x Hl) as Hc.
  destruct (s21.push_back this x s) as [[] s1|f]; [|done].
  destruct Hc as (new & _ & Hl1 & Hpop). split; [|done].
  rewrite (back_of_is_list s1 this hd _ Hl1), fmap_app. change ([(new, x)].*2) with [x].
  by rewrite last_snoc.
Qed.

Lemma stack_last_in_first_out_witness :
  match stack.push 1 7 demo_pair with
  | Ret _ s1 => stack.top 1 s1 = Ret 7 s1 ∧ stack.pop 1 s1 = Ret tt demo_pair
  | Fault f => f = BadAlloc
  end.
Proof. apply (stack_last_in_first_out demo_pair 1 1 [(2, 1); (3, 2)] 7). check_list. Defined.

(** X24: [insert_many_front] of the stack forwards to [insert_many_back]
    of the list: it either runs out of memory or pushes the arguments in
    the given order, so that the last argument ends on top and [pop()]
    then uncovers the one before it. *)
Theorem stack_insert_many_front_pushes_in_order {T} `{Elem T} (s : state T) (this hd : Z)
    (xs : list (Z * T)) (args : list T) (a : T) :
  is_list (view_of s) this hd xs →
  match stack.insert_many_front this (args ++ [a]) s with
  | Ret _ s1 =>
      stack.top this s1 = Ret a s1 ∧
      contents (length xs + length args + 2) this s1 = Some (xs.*2 ++ args ++ [a]) ∧
      ∃ s2, stack.pop this s1 = Ret tt s2 ∧
            contents (length xs + length args + 1) this s2 = Some (xs.*2 ++ args)
  | Fault f => f = BadAlloc
  end.
Proof.
  intros Hl. unfold stack.insert_many_front, stack.top, stack.pop.
  assert (wp only_bad_alloc (s21.insert_many_back this (args ++ [a])) (view_of s)
    (λ _ V', ∃ zs, is_list V' this hd (xs ++ zs) ∧ zs.*2 = args ++ [a])) as Hw.
  { unfold s21.insert_many_back. eapply wp_push_back_items; [done|done|].
    intros zs V' Hl' Hzs _ _ _. by exists zs. }
  apply wp_outcome in Hw.
  destruct (s21.insert_many_back this (args ++ [a]) s) as [[] s1|f]; [|done].
  destruct Hw as (zs & Hl1 & Hzs).
  destruct (last zs) as [z|] eqn:Hlast.
  2:{ apply last_None in Hlast as ->. by destruct args. }
  apply last_Some in Hlast as [zs' ->].
  rewrite fmap_app in Hzs. change ([z].*2) with [z.2] in Hzs.
  apply app_inj_tail in Hzs as [Hzs' Hz].
  assert (length zs' = length args) as Hlen by by rewrite <-(length_fmap snd), Hzs'.
  split_and!.
  - rewrite (back_of_is_list s1 this hd _ Hl1), !fmap_app. change ([z].*2) with [z.2].
    by rewrite (assoc_L (++)), last_snoc, Hz.
  - rewrite (is_list_contents s1 this hd _ _ Hl1).
    + rewrite !fmap_app. change ([z].*2) with [z.2]. by rewrite Hzs', Hz.
    + rewrite !length_app. simpl. lia.
  - rewrite (assoc_L (++)) in Hl1.
    destruct (wp_result (s21.pop_back this) s1 (λ _ V2, is_list V2 this hd (xs ++ zs')))
      as ([] & s2 & Hr & Hl2).
    { eapply wp_pop_back_snoc; [done|]. by intros. }
    exists s2. split; [done|].
    rewrite (is_list_contents s2 this hd _ _ Hl2); [by rewrite fmap_app, Hzs'|].
    rewrite length_app. lia.
Qed.

Lemma stack_insert_many_front_pushes_in_order_witness :
  match stack.insert_many_front 1 ([7; 8] ++ [9]) demo_pair with
  | Ret _ s1 =>
      stack.top 1 s1 = Ret 9 s1 ∧
      contents (length [(2, 1); (3, 2)] + length [7; 8] + 2) 1 s1
        = Some ([(2, 1); (3, 2)].*2 ++ [7; 8] ++ [9]) ∧
      ∃ s2, stack.pop 1 s1 = Ret tt s2 ∧
            contents (length [(2, 1); (3, 2)] + length [7; 8] + 1) 1 s2
              = Some ([(2, 1); (3, 2)].*2 ++ [7; 8])
  | Fault f => f = BadAlloc
  end.
Proof.
  apply (stack_insert_many_front_pushes_in_order demo_pair 1 1 [(2, 1); (3, 2)] [7; 8] 9).
  check_list.
Defined.

(** Two lists that are not sorted. *)
Definition demo_unsorted : state Z :=
  state_after (list_init 1 [5; 1; 3];; list_init 2 [4; 2; 6]).

(** X25: [merge(other)] needs neither sorted lists nor a lawful [<]:
    for two distinct lists it returns, leaves [other] empty and leaves in
    [this] the nodes of both lists, every one exactly once, with the
    elements of each list still in their own order.  Merging a list into
    itself changes nothing. *)
Theorem merge_interleaves_any_lists {T} `{Elem T} (s : state T) (this other h1 h2 : Z)
    (xs ys : list (Z * T)) (fuel : nat) :
  this ≠ other →
  is_list (view_of s) this h1 xs → is_list (view_of s) other h2 ys →
  apart (h1 :: xs.*1) (h2 :: ys.*1) →
  (length xs + length ys < fuel)%nat →
  (∃ s' zs,
     s21.merge fuel this other s = Ret tt s' ∧
     is_list (view_of s') this h1 zs ∧ is_list (view_of s') other h2 [] ∧
     zs ≡ₚ xs ++ ys ∧ xs `sublist_of` zs ∧ ys `sublist_of` zs ∧
     s21.size this s' = Ret (Z.of_nat (length xs + length ys)) s' ∧
     s21.empty other s' = Ret true s') ∧
  s21.merge fuel this this s = Ret tt s.
Proof.
  intros Hne Hl1 Hl2 Hap Hfuel. split.
  - destruct (wp_result (s21.merge fuel this other) s
      (λ _ V', is_list V' this h1 (list_merge keep_first xs ys) ∧ is_list V' other h2 []))
      as ([] & s' & Hr & Hl1' & Hl2').
    { eapply wp_merge; [done..|by apply enough_no_fault|]. by intros. }
    pose proof (merge_Permutation keep_first xs ys) as Hp.
    destruct (list_merge_sublist keep_first xs ys) as [Hs1 Hs2].
    exists s', (list_merge keep_first xs ys). split_and!; [done..| |].
    + rewrite (size_of_is_list s' this h1 _ Hl1'). do 2 f_equal.
      by rewrite (Permutation_length Hp), length_app.
    + by rewrite (empty_of_is_list s' other h2 _ Hl2').
  - unfold s21.merge. by rewrite decide_False by naive_solver.
Qed.

Lemma merge_interleaves_any_lists_witness :
  (∃ s' zs,
     s21.merge 7 1 2 demo_unsorted = Ret tt s' ∧
     is_list (view_of s') 1 1 zs ∧ is_list (view_of s') 2 5 [] ∧
     zs ≡ₚ [(2, 5); (3, 1); (4, 3)] ++ [(6, 4); (7, 2); (8, 6)] ∧
     [(2, 5); (3, 1); (4, 3)] `sublist_of` zs ∧ [(6, 4); (7, 2); (8, 6)] `sublist_of` zs ∧
     s21.size 1 s'
       = Ret (Z.of_nat (length [(2, 5); (3, 1); (4, 3)] + length [(6, 4); (7, 2); (8, 6)])) s' ∧
     s21.empty 2 s' = Ret true s') ∧
  s21.merge 7 1 1 demo_unsorted = Ret tt demo_unsorted.
Proof.
  apply (merge_interleaves_any_lists demo_unsorted 1 2 1 5
           [(2, 5); (3, 1); (4, 3)] [(6, 4); (7, 2); (8, 6)] 7).
  - done.
  - check_list.
  - check_list.
  - apply apart_Forall. compute_done.
  - simpl. lia.
Defined.

(** An element type whose operators are no order: numbers with a
    not-a-number value ([None]), which is neither less than nor equal to
    anything, itself included, as for a [double]. *)
#[global] Instance nan_Elem : Elem (option Z) :=
  {| elem_default := Some 0;
     elem_lt a b := match a, b with Some x, Some y => x <? y | _, _ => false end;
     elem_eq a b := match a, b with Some x, Some y => x =? y | _, _ => false end |}.

Definition demo_nan : state (option Z) :=
  state_after (list_init 1 [Some 3; None; Some 1; Some 2]).

(** X26: [sort()] is safe for every element type, whatever its [<] and
    [==] answer: it returns, keeps the nodes of the list in their order
    and only permutes the values stored in them (no value is lost or
    duplicated), and leaves every other list as it was. *)
Theorem sort_permutes_for_any_comparison {T} `{Elem T} (s : state T) (this hd : Z)
    (xs : list (Z * T)) (fuel : nat) :
  is_list (view_of s) this hd xs → (length xs < fuel)%nat →
  ∃ s' vs',
    s21.sort fuel this s = Ret tt s' ∧
    is_list (view_of s') this hd (zip xs.*1 vs') ∧
    vs' ≡ₚ xs.*2 ∧
    contents fuel this s' = Some vs' ∧
    ∀ other h2 ys, other ≠ this → is_list (view_of s) other h2 ys →
      apart (hd :: xs.*1) (h2 :: ys.*1) → is_list (view_of s') other h2 ys.
Proof.
  intros Hl Hfuel.
  destruct (wp_result (s21.sort fuel this) s
    (λ _ V', ∃ vs', is_list V' this hd (zip xs.*1 vs') ∧ vs' ≡ₚ xs.*2 ∧
                    frame (hd :: xs.*1) this (view_of s) V'))
    as ([] & s' & Hr & vs' & Hl' & Hp & Hf).
  { eapply wp_sort_safe; [done|by apply enough_no_fault|]. intros V' vs' ? ? ?. by exists vs'. }
  assert (length vs' = length xs) as Hlen.
  { by rewrite (Permutation_length Hp), length_fmap. }
  exists s', vs'. split_and!; [done..| |].
  - rewrite (is_list_contents s' this hd (zip xs.*1 vs')); [|done|].
    + by rewrite snd_zip by (rewrite length_fmap; lia).
    + rewrite length_zip_with, length_fmap. lia.
  - intros other h2 ys Hne Hl2 Hap. eapply is_list_frame; [done..|].
    intros a Ha Hin. by apply (Hap a).
Qed.

Lemma sort_permutes_for_any_comparison_witness :
  ∃ s' vs',
    s21.sort 5 1 demo_nan = Ret tt s' ∧
    is_list (view_of s') 1 1
      (zip [(2, Some 3); (3, None); (4, Some 1); (5, Some 2)].*1 vs') ∧
    vs' ≡ₚ [(2, Some 3); (3, None); (4, Some 1); (5, Some 2)].*2 ∧
    contents 5 1 s' = Some vs' ∧
    ∀ other h2 ys, other ≠ 1 → is_list (view_of demo_nan) other h2 ys →
      apart (1 :: [(2, Some 3); (3, None); (4, Some 1); (5, Some 2)].*1) (h2 :: ys.*1) →
      is_list (view_of s') other h2 ys.
Proof.
  apply (sort_permutes_for_any_comparison demo_nan 1 1
           [(2, Some 3); (3, None); (4, Some 1); (5, Some 2)] 5).
  - check_list.
  - simpl. lia.
Defined.

Section UniqueList.
Context {T : Type} `{Elem T}.
Implicit Types (x : Z * T) (xs : list (Z * T)).

Lemma uniq_from_head x xs : head (uniq_from x xs) = Some x.
Proof.
  revert x. induction xs as [|y ys IH]; intros x; simpl; [done|].
  destruct (elem_eq x.2 y.2); [apply IH|done].
Qed.

Lemma uniq_from_sublist x xs : uniq_from x xs `sublist_of` x :: xs.
Proof.
  revert x. induction xs as [|y ys IH]; intros x; simpl; [done|].
  destruct (elem_eq x.2 y.2).
  - etrans; [apply IH|]. apply sublist_skip, sublist_cons. done.
  - apply sublist_skip, IH.
Qed.

(** No element of the result is followed by one that [==] accepts. *)
Lemma uniq_from_adjacent x xs (i : nat) a b :
  uniq_from x xs !! i = Some a → uniq_from x xs !! S i = Some b →
  elem_eq a.2 b.2 = false.
Proof.
  revert x i. induction xs as [|y ys IH]; intros x i; simpl; [by destruct i|].
  destruct (elem_eq x.2 y.2) eqn:Hxy; [apply IH|].
  destruct i as [|i]; simpl.
  - intros [= <-] Hb. pose proof (uniq_from_head y ys) as Hh.
    destruct (uniq_from y ys); simplify_eq/=. done.
  - apply IH.
Qed.

Lemma uniq_from_last `{!ElemLaws T} x xs :
  last (uniq_from x xs).*2 = last (x :: xs).*2.
Proof.
  revert x. induction xs as [|y ys IH]; intros x; [done|]. cbn [uniq_from].
  destruct (elem_eq x.2 y.2) eqn:Hxy.
  - apply elem_eq_spec in Hxy. rewrite IH. rewrite !fmap_cons, Hxy.
    by destruct ys.
  - rewrite (fmap_cons _ x (uniq_from y ys)), last_cons, IH.
    by rewrite (fmap_cons _ x (y :: ys)), (last_cons x.2).
Qed.

Lemma uniq_from_values `{!ElemLaws T} x xs (v : T) :
  v ∈ (x :: xs).*2 → v ∈ (uniq_from x xs).*2.
Proof.
  revert x. induction xs as [|y ys IH]; intros x; [done|]. cbn [uniq_from].
  rewrite !fmap_cons, !elem_of_cons.
  destruct (elem_eq x.2 y.2) eqn:Hxy.
  - apply elem_eq_spec in Hxy. intros Hv. apply IH. rewrite fmap_cons, elem_of_cons.
    destruct Hv as [->|[->|Hv]]; auto.
  - intros [->|Hv]; [rewrite fmap_cons; by left|].
    rewrite fmap_cons. right. apply IH. by rewrite fmap_cons, elem_of_cons.
Qed.

End UniqueList.

(** A list with runs of equal elements: 1 1 2 2 2 1. *)
Definition demo_runs : state Z := state_after (list_init 1 [1; 1; 2; 2; 2; 1]).
Definition demo_runs_list : list (Z * Z) :=
  [(2, 1); (3, 1); (4, 2); (5, 2); (6, 2); (7, 1)].

(** X27: for an element type with lawful operators, on a list that is
    empty or whose last element differs from [value_type{}], [unique()]
    returns and keeps the first element of every run of equal elements:
    what remains is a subsequence that starts with the same element, has
    no two equal neighbours and still holds every value that occurred. *)
Theorem unique_keeps_first_of_each_run {T} `{ElemLaws T} (s : state T) (this hd : Z)
    (xs : list (Z * T)) (fuel : nat) :
  is_list (view_of s) this hd xs →
  (∀ z, last xs = Some z → z.2 ≠ elem_default) →
  (length xs < fuel)%nat →
  ∃ s', s21.unique fuel this s = Ret tt s' ∧
        is_list (view_of s') this hd (unique_list xs) ∧
        contents fuel this s' = Some (unique_list xs).*2 ∧
        unique_list xs `sublist_of` xs ∧
        head (unique_list xs) = head xs ∧
        (∀ (i : nat) a b, unique_list xs !! i = Some a → unique_list xs !! S i = Some b →
           a.2 ≠ b.2) ∧
        (∀ v, v ∈ xs.*2 → v ∈ (unique_list xs).*2).
Proof.
  intros Hl Hlast Hfuel.
  assert (∀ z, last (unique_list xs) = Some z → elem_eq z.2 elem_default = false) as Hlast'.
  { intros z Hz. destruct xs as [|x xs]; [done|]. cbn [unique_list] in Hz.
    pose proof (uniq_from_last x xs) as Hu.
    rewrite !fmap_last, Hz in Hu. simpl in Hu.
    destruct (last (x :: xs)) as [w|] eqn:Hw; [|done]. simpl in Hu. injection Hu as Hu.
    destruct (elem_eq z.2 elem_default) eqn:He; [|done].
    apply elem_eq_spec in He. specialize (Hlast w eq_refl). congruence. }
  destruct (wp_result (s21.unique fuel this) s
              (λ _ V', is_list V' this hd (unique_list xs))) as ([] & s' & Hr & Hl').
  { eapply wp_unique; [done|done|by apply enough_no_fault|]. by intros. }
  exists s'. split_and!; [done|done|..].
  - eapply is_list_contents; [done|]. pose proof (unique_list_length xs). lia.
  - destruct xs as [|x xs]; [done|]. apply uniq_from_sublist.
  - destruct xs as [|x xs]; [done|]. apply uniq_from_head.
  - intros i a b Ha Hb Heq. destruct xs as [|x xs]; [done|].
    pose proof (uniq_from_adjacent x xs i a b Ha Hb) as Hne.
    apply (elem_eq_spec a.2 b.2) in Heq. congruence.
  - intros v Hv. destruct xs as [|x xs]; [done|]. by apply uniq_from_values.
Qed.

Lemma unique_keeps_first_of_each_run_witness :
  ∃ s', s21.unique 7 1 demo_runs = Ret tt s' ∧
        is_list (view_of s') 1 1 (unique_list demo_runs_list) ∧
        contents 7 1 s' = Some (unique_list demo_runs_list).*2 ∧
        unique_list demo_runs_list `sublist_of` demo_runs_list ∧
        head (unique_list demo_runs_list) = head demo_runs_list ∧
        (∀ (i : nat) a b, unique_list demo_runs_list !! i = Some a →
           unique_list demo_runs_list !! S i = Some b → a.2 ≠ b.2) ∧
        (∀ v, v ∈ demo_runs_list.*2 → v ∈ (unique_list demo_runs_list).*2).
Proof.
  apply (unique_keeps_first_of_each_run demo_runs 1 1 demo_runs_list 7).
  - check_list.
  - intros z [= <-]. done.
  - simpl. lia.
Defined.

(** X28: iterating from [begin()] visits the elements in order: after
    [k] increments, for [k] up to the number of elements, the iterator
    reads the [k]-th element, the list is unchanged, and the iterator
    equals [end()] exactly when all the elements have been passed; at
    [end()] it reads the sentinel's [value_type{}]. *)
Theorem iteration_visits_in_order {T} `{Elem T} (s : state T) (this hd : Z)
    (xs : list (Z * T)) (k : nat) :
  is_list (view_of s) this hd xs → (k ≤ length xs)%nat →
  ∃ it, (b ← s21.begin this; advance k b) s = Ret it s ∧
        get_value it s = Ret (default elem_default (xs.*2 !! k)) s ∧
        (s21.end_ this s = Ret it s ↔ k = length xs).
Proof.
  intros Hl Hk. exists (cursor hd (drop k xs).*1). split_and!.
  - apply pure_result. apply wp_bind. eapply wp_begin; [done|].
    by eapply (wp_advance_exact no_fault _ this hd k [] xs).
  - destruct (xs !! k) as [x|] eqn:Hx.
    + rewrite list_lookup_fmap, Hx. simpl.
      rewrite fmap_drop, (cursor_drop hd xs.*1 k x.1) by by rewrite list_lookup_fmap, Hx.
      eapply get_value_of_is_list; [done|]. by eapply list_elem_of_lookup_2.
    + rewrite list_lookup_fmap, Hx. simpl. apply lookup_ge_None in Hx.
      rewrite drop_ge by done. simpl. apply pure_result.
      destruct Hl as [_ _ _ Hs]. destruct (view_of s) as [n p v o]. cbn [vv] in Hs.
      by eapply wp_get_value.
  - rewrite (end_of_is_list s this hd xs Hl). split.
    + intros [= Hc]. symmetry in Hc. rewrite fmap_drop in Hc.
      apply cursor_drop_hd in Hc; [rewrite length_fmap in Hc; lia|].
      destruct Hl as [_ [Hnd _ _] _ _]. by apply NoDup_cons in Hnd as [].
    + intros ->. by rewrite drop_all.
Qed.

Lemma iteration_visits_in_order_witness :
  ∃ it, (b ← s21.begin 1; advance 2 b) demo_triple = Ret it demo_triple ∧
        get_value it demo_triple
          = Ret (default elem_default ([(2, 1); (3, 2); (4, 3)].*2 !! 2%nat)) demo_triple ∧
        (s21.end_ 1 demo_triple = Ret it demo_triple ↔ 2%nat = length [(2, 1); (3, 2); (4, 3)]).
Proof.
  apply (iteration_visits_in_order demo_triple 1 1 [(2, 1); (3, 2); (4, 3)] 2).
  - check_list.
  - simpl. lia.
Defined.

(** X29: the iterators of a list go round its ring.  At every position,
    [end()] included, [++] followed by [--] and [--] followed by [++]
    come back to the same position; [++] on [end()] gives [begin()] and
    [--] on [begin()] gives [end()]; and [empty()], which tests the stored
    size, is true exactly when [begin()] equals [end()]. *)
Theorem iterators_go_round {T} `{Elem T} (s : state T) (this hd : Z)
    (xs : list (Z * T)) (it : Z) :
  is_list (view_of s) this hd xs → it ∈ hd :: xs.*1 →
  (it' ← get_next it; get_prev it') s = Ret it s ∧
  (it' ← get_prev it; get_next it') s = Ret it s ∧
  (e ← s21.end_ this; get_next e) s = s21.begin this s ∧
  (b ← s21.begin this; get_prev b) s = s21.end_ this s ∧
  ∃ b e, s21.begin this s = Ret b s ∧ s21.end_ this s = Ret e s ∧
         s21.empty this s = Ret (bool_decide (b = e)) s.
Proof.
  intros Hl Hit. pose proof Hl as [_ Hr _ _].
  destruct (ring_node_links _ _ _ _ _ Hr Hit) as (nx & pr & _ & _ & [Hn1 Hp1] & [Hn2 Hp2]).
  destruct (ring_link _ _ hd [] xs.*1 Hr) as [Hn0 Hp0]. change (before hd []) with hd in *.
  rewrite (begin_of_is_list s this hd xs Hl), (end_of_is_list s this hd xs Hl).
  split_and!.
  - apply pure_result. destruct (view_of s) as [n p v o]. cbn [vn vp] in *.
    apply wp_bind. eapply wp_get_next; [done|]. by eapply wp_get_prev.
  - apply pure_result. destruct (view_of s) as [n p v o]. cbn [vn vp] in *.
    apply wp_bind. eapply wp_get_prev; [done|]. by eapply wp_get_next.
  - apply pure_result. apply wp_bind. eapply wp_end; [done|].
    destruct (view_of s) as [n p v o]. cbn [vn vp] in *. by eapply wp_get_next.
  - apply pure_result. apply wp_bind. eapply wp_begin; [done|].
    destruct (view_of s) as [n p v o]. cbn [vn vp] in *. by eapply wp_get_prev.
  - exists (cursor hd xs.*1), hd. split_and!; [done..|].
    rewrite (empty_of_is_list s this hd xs Hl). do 2 f_equal.
    apply bool_decide_ext. split; [by intros ->|].
    intros Hc. destruct xs as [|x xs]; [done|]. exfalso.
    destruct Hr as [Hnd _ _]. apply NoDup_cons in Hnd as [Hhd _]. apply Hhd.
    simpl in Hc. rewrite <-Hc, fmap_cons. by left.
Qed.

Lemma iterators_go_round_witness :
  (it' ← get_next 3; get_prev it') demo_triple = Ret 3 demo_triple ∧
  (it' ← get_prev 3; get_next it') demo_triple = Ret 3 demo_triple ∧
  (e ← s21.end_ 1; get_next e) demo_triple = s21.begin 1 demo_triple ∧
  (b ← s21.begin 1; get_prev b) demo_triple = s21.end_ 1 demo_triple ∧
  ∃ b e, s21.begin 1 demo_triple = Ret b demo_triple ∧
         s21.end_ 1 demo_triple = Ret e demo_triple ∧
         s21.empty 1 demo_triple = Ret (bool_decide (b = e)) demo_triple.
Proof.
  apply (iterators_go_round demo_triple 1 1 [(2, 1); (3, 2); (4, 3)] 3).
  - check_list.
  - compute_done.
Defined.

(** What the initializer-list constructor leaves, as the accessors of
    the adaptors read it. *)
Lemma list_items_reads {T} `{Elem T} (s : state T) (this : Z) (items : list T) :
  match s21.list_items this items s with
  | Ret _ s' =>
      s21.front this s' = Ret (default elem_default (head items)) s' ∧
      s21.back this s' = Ret (default elem_default (last items)) s' ∧
      s21.size this s' = Ret (Z.of_nat (length items)) s' ∧
      s21.empty this s' = Ret (bool_decide (items = [])) s' ∧
      (items = [] → s21.pop_front this s' = Ret tt s' ∧ s21.pop_back this s' = Ret tt s')
  | Fault f => f = BadAlloc
  end.
Proof.
  assert (wp only_bad_alloc (s21.list_items this items) (view_of s)
    (λ _ V', ∃ hd zs, is_list V' this hd zs ∧ zs.*2 = items)) as Hw.
  { unfold s21.list_items. apply wp_bind. apply wp_list_ctor; [done|].
    intros hd V1 Hl1 _ _ _.
    eapply wp_push_back_items; [done|done|]. intros zs V2 Hl2 Hzs _ _ _. by exists hd, zs. }
  apply wp_outcome in Hw.
  destruct (s21.list_items this items s) as [[] s'|f]; [|done].
  destruct Hw as (hd & zs & Hl & Hzs).
  rewrite (front_of_is_list s' this hd zs Hl), (back_of_is_list s' this hd zs Hl),
    (size_of_is_list s' this hd zs Hl), (empty_of_is_list s' this hd zs Hl), Hzs.
  split_and!; [done..| | |].
  - by rewrite <-Hzs, length_fmap.
  - do 2 f_equal. apply bool_decide_ext. rewrite <-Hzs. by destruct zs.
  - intros ->. destruct zs; [|done]. split; apply pure_result.
    + by eapply wp_pop_front_nil.
    + by eapply wp_pop_back_nil.
Qed.

(** X30: a queue or a stack built from an initializer list either runs
    out of memory or holds the items in the given order: [front()] of the
    queue is the first item and [back()] the last, [top()] of the stack is
    the last item, and [size()] is their number.  Built from no item the
    adaptor is empty, [front()], [back()] and [top()] read
    [value_type{}], and [pop()] changes nothing. *)
Theorem adaptors_hold_items_in_order {T} `{Elem T} (s : state T) (this : Z) (items : list T) :
  match queue.queue_items this items s with
  | Ret _ s' =>
      queue.front this s' = Ret (default elem_default (head items)) s' ∧
      queue.back this s' = Ret (default elem_default (last items)) s' ∧
      queue.size this s' = Ret (Z.of_nat (length items)) s' ∧
      queue.empty this s' = Ret (bool_decide (items = [])) s' ∧
      (items = [] → queue.pop this s' = Ret tt s')
  | Fault f => f = BadAlloc
  end ∧
  match stack.stack_items this items s with
  | Ret _ s' =>
      stack.top this s' = Ret (default elem_default (last items)) s' ∧
      stack.size this s' = Ret (Z.of_nat (length items)) s' ∧
      stack.empty this s' = Ret (bool_decide (items = [])) s' ∧
      (items = [] → stack.pop this s' = Ret tt s')
  | Fault f => f = BadAlloc
  end.
Proof.
  pose proof (list_items_reads s this items) as Hc.
  unfold queue.queue_items, stack.stack_items, queue.front, queue.back, queue.size,
    queue.empty, queue.pop, stack.top, stack.size, stack.empty, stack.pop.
  destruct (s21.list_items this items s) as [[] s'|f]; [|done].
  destruct Hc as (Hf & Hb & Hs & He & Hp). split; split_and!; try done.
  - intros Hi. by destruct (Hp Hi).
  - intros Hi. by destruct (Hp Hi).
Qed.
